(** * ERD Engine: the DSL front end, the graph transformer and the layout

    A shallow embedding of
    - [client/src/lib/dsl-parser.ts]   (Tokenizer, Parser, generateDSL),
    - [client/src/lib/diagram-model.ts] (astToDiagramModel, diagramModelToAST),
    - [client/src/lib/mxgraph-editor.ts] (calculateLayout),
    - [shared/erd-types.ts]             (the data model),
    followed by the properties of the specification, each proved about these
    definitions. *)

From Stdlib Require Import String Ascii NArith ZArith QArith List Lia Bool.
From Stdlib Require Import DecimalString DecimalN.
From stdpp Require Import base option list gmap.

Local Open Scope N_scope.

(** ** JavaScript strings

    A JavaScript string is a sequence of UTF-16 code units; [input[pos]],
    [+=] and the regular expressions of the tokenizer all work on single code
    units.  The em dash of the DSL is the single code unit U+2014. *)

Abbreviation jschar := N.
Abbreviation jsstring := (list N).

Definition str (s : string) : jsstring :=
  List.map N_of_ascii (list_ascii_of_string s).

Definition c_tab : jschar := 9.
Definition c_lf : jschar := 10.
Definition c_cr : jschar := 13.
Definition c_space : jschar := 32.
Definition c_hash : jschar := 35.
Definition c_lparen : jschar := 40.
Definition c_rparen : jschar := 41.
Definition c_plus : jschar := 43.
Definition c_comma : jschar := 44.
Definition c_minus : jschar := 45.
Definition c_dot : jschar := 46.
Definition c_colon : jschar := 58.
Definition c_gt : jschar := 62.
Definition c_underscore : jschar := 95.
Definition c_emdash : jschar := 8212.

(** [String(n)] for a non-negative integer below 10^21: its decimal digits. *)
Definition decimal (n : N) : jsstring :=
  str (NilEmpty.string_of_uint (N.to_uint n)).

(** [lines.join(sep)] *)
Fixpoint join (sep : jsstring) (l : list jsstring) : jsstring :=
  match l with
  | [] => []
  | [x] => x
  | x :: rest => x ++ sep ++ join sep rest
  end.

(** White space and line terminators of ECMAScript, the code units that
    [String.prototype.trim] strips. *)
Definition isTrimmed (c : jschar) : bool :=
  ((9 <=? c) && (c <=? 13)) || (c =? 32) || (c =? 160) || (c =? 5760)
  || ((8192 <=? c) && (c <=? 8202)) || (c =? 8232) || (c =? 8233)
  || (c =? 8239) || (c =? 8287) || (c =? 12288) || (c =? 65279).

Fixpoint trimStart (s : jsstring) : jsstring :=
  match s with
  | c :: s' => if isTrimmed c then trimStart s' else s
  | [] => []
  end.

Definition trimEnd (s : jsstring) : jsstring := rev (trimStart (rev s)).

Definition trim (s : jsstring) : jsstring := trimEnd (trimStart s).

(** ** shared/erd-types.ts *)

Inductive AttributeType := simple | composite | multivalued | derived | typed.
Inductive KeyType := pk | fk | none.
Inductive Cardinality := One | Many.          (* '1' | 'M' *)
Inductive Participation := total | partial.
Inductive EntityType := strong | weak.
Inductive RelationshipType := normal | identifying.

Record ForeignKeyTarget := {
  entityName : jsstring;
  attributeName : jsstring;
}.

(** [fkTarget?], [dataType?] and [subAttributes?] are optional fields:
    [None] is JavaScript's [undefined]. *)
Unset Elimination Schemes.
Inductive AttributeNode := {
  attr_name : jsstring;
  attributeType : AttributeType;
  keyType : KeyType;
  fkTarget : option ForeignKeyTarget;
  dataType : option jsstring;
  subAttributes : option (list AttributeNode);
}.
Set Elimination Schemes.

Record EntityNode := {
  ent_name : jsstring;
  entityType : EntityType;
  ent_attributes : list AttributeNode;
  identifiedBy : option (list ForeignKeyTarget);
}.

Record RelationshipSide := {
  side_entityName : jsstring;
  cardinality : Cardinality;
  participation : Participation;
}.

Record RelationshipNode := {
  rel_name : jsstring;
  relationshipType : RelationshipType;
  leftSide : RelationshipSide;
  rightSide : RelationshipSide;
  verb : jsstring;
  rel_attributes : list AttributeNode;
}.

Record ERDiagramAST := {
  entities : list EntityNode;
  relationships : list RelationshipNode;
}.

Inductive DiagramNodeType :=
  | entity | weakEntity
  | simpleAttribute | multivaluedAttribute | derivedAttribute | compositeAttribute
  | relationship | identifyingRelationship.

Record DiagramNode := {
  node_id : jsstring;
  type : DiagramNodeType;
  label : jsstring;
  name : option jsstring;
  parentId : option jsstring;
  isPrimaryKey : option bool;
  isForeignKey : option bool;
  node_fkTarget : option ForeignKeyTarget;
  node_dataType : option jsstring;
  node_identifiedBy : option (list ForeignKeyTarget);
  node_entityType : option EntityType;
  node_relationshipType : option RelationshipType;
  node_x : option Q;
  node_y : option Q;
  width : option Q;
  height : option Q;
}.

Record DiagramEdge := {
  edge_id : jsstring;
  sourceId : jsstring;
  targetId : jsstring;
  edge_label : option jsstring;
  sourceCardinality : option Cardinality;
  targetCardinality : option Cardinality;
  sourceParticipation : option Participation;
  targetParticipation : option Participation;
}.

Record DiagramModel := {
  nodes : list DiagramNode;
  edges : list DiagramEdge;
}.

Global Instance AttributeType_eq_dec : EqDecision AttributeType.
Proof. solve_decision. Defined.
Global Instance KeyType_eq_dec : EqDecision KeyType.
Proof. solve_decision. Defined.
Global Instance Cardinality_eq_dec : EqDecision Cardinality.
Proof. solve_decision. Defined.
Global Instance Participation_eq_dec : EqDecision Participation.
Proof. solve_decision. Defined.
Global Instance EntityType_eq_dec : EqDecision EntityType.
Proof. solve_decision. Defined.
Global Instance RelationshipType_eq_dec : EqDecision RelationshipType.
Proof. solve_decision. Defined.
Global Instance DiagramNodeType_eq_dec : EqDecision DiagramNodeType.
Proof. solve_decision. Defined.

(** ** client/src/lib/dsl-parser.ts: the tokenizer *)

(** The [type] of a token.  The tokenizer computes it as
    [keywords[value] || 'IDENTIFIER'] on a plain object literal, so a word that
    names a member inherited from [Object.prototype] finds that member (a
    truthy function or object) and the token's type is not a string at all:
    [INHERITED] stands for those values.  Such a token matches no [check]. *)
Inductive TokenType :=
  | ENTITY | WEAK | RELATION | IDENTIFYING | COMPOSITE | MULTIVALUED | DERIVED
  | PK | FK | IDENTIFIED | BY | TOTAL | PARTIAL | M
  | IDENTIFIER | ONE | NUMBER
  | COLON | LPAREN | RPAREN | COMMA | DOT | PLUS | ARROW | DASH | EOF
  | INHERITED.

Global Instance TokenType_eq_dec : EqDecision TokenType.
Proof. solve_decision. Defined.

Record Token := {
  tok_type : TokenType;
  value : jsstring;
  line : N;
  column : N;
}.

Definition jsstring_eqb (a b : jsstring) : bool := bool_decide (a = b).

(** The own properties of the [keywords] object literal of [readIdentifier]. *)
Definition keywords : list (jsstring * TokenType) :=
  [ (str "Entity", ENTITY); (str "Weak", WEAK); (str "Relation", RELATION);
    (str "Identifying", IDENTIFYING); (str "Composite", COMPOSITE);
    (str "Multivalued", MULTIVALUED); (str "Derived", DERIVED);
    (str "PK", PK); (str "FK", FK); (str "Identified", IDENTIFIED);
    (str "By", BY); (str "total", TOTAL); (str "partial", PARTIAL);
    (str "M", M) ].

(** The members every object inherits from [Object.prototype] whose names are
    made of identifier characters. *)
Definition objectPrototypeMembers : list jsstring :=
  [ str "constructor"; str "hasOwnProperty"; str "isPrototypeOf";
    str "propertyIsEnumerable"; str "toLocaleString"; str "toString";
    str "valueOf"; str "__defineGetter__"; str "__defineSetter__";
    str "__lookupGetter__"; str "__lookupSetter__"; str "__proto__" ].

Fixpoint assoc {A} (k : jsstring) (l : list (jsstring * A)) : option A :=
  match l with
  | [] => None
  | (k', v) :: l' => if jsstring_eqb k k' then Some v else assoc k l'
  end.

(** [keywords[value] || 'IDENTIFIER'] *)
Definition keywordType (v : jsstring) : TokenType :=
  match assoc v keywords with
  | Some t => t
  | None =>
      if existsb (jsstring_eqb v) objectPrototypeMembers then INHERITED
      else IDENTIFIER
  end.

(** [/[a-zA-Z_]/], [/[0-9]/] and [/[a-zA-Z0-9_]/] *)
Definition isLetter (c : jschar) : bool :=
  ((65 <=? c) && (c <=? 90)) || ((97 <=? c) && (c <=? 122)) || (c =? c_underscore).
Definition isDigit (c : jschar) : bool := (48 <=? c) && (c <=? 57).
Definition isWordChar (c : jschar) : bool := isLetter c || isDigit c.

(** The tokenizer's fields.  [input] holds the code units from [pos] on. *)
Record Tokenizer := {
  input : jsstring;
  cur_line : N;
  cur_column : N;
  tokens : list Token;
}.

(** [this.input[this.pos + offset] || ''] *)
Definition lex_peek (t : Tokenizer) (offset : nat) : option jschar :=
  nth_error (input t) offset.

(** [this.pos++; this.column++] *)
Definition lex_advance (t : Tokenizer) : Tokenizer :=
  {| input := tl (input t); cur_line := cur_line t;
     cur_column := cur_column t + 1; tokens := tokens t |}.

Definition push (t : Tokenizer) (tk : Token) : Tokenizer :=
  {| input := input t; cur_line := cur_line t; cur_column := cur_column t;
     tokens := tokens t ++ [tk] |}.

(** The inner loop of a comment: advance up to, not over, the line feed. *)
Fixpoint skipComment (s : jsstring) (col : N) : jsstring * N :=
  match s with
  | [] => ([], col)
  | c :: s' => if c =? c_lf then (s, col) else skipComment s' (col + 1)
  end.

Fixpoint skipWhitespaceAndComments_loop (fuel : nat) (s : jsstring) (col : N)
  : jsstring * N :=
  match fuel with
  | O => (s, col)
  | S fuel' =>
      match s with
      | [] => (s, col)
      | c :: s' =>
          if (c =? c_space) || (c =? c_tab) || (c =? c_cr) then
            skipWhitespaceAndComments_loop fuel' s' (col + 1)
          else if c =? c_hash then
            let '(s2, col2) := skipComment s col in
            skipWhitespaceAndComments_loop fuel' s2 col2
          else (s, col)
      end
  end.

Definition skipWhitespaceAndComments (t : Tokenizer) : Tokenizer :=
  let '(s, col) :=
    skipWhitespaceAndComments_loop (S (length (input t))) (input t) (cur_column t) in
  {| input := s; cur_line := cur_line t; cur_column := col; tokens := tokens t |}.

(** The loop shared by [readIdentifier] and [readNumber]: the longest prefix
    of code units matching the class, and what follows it. *)
Fixpoint readWhile (p : jschar -> bool) (s : jsstring) : jsstring * jsstring :=
  match s with
  | c :: s' =>
      if p c then let '(v, r) := readWhile p s' in (c :: v, r) else ([], s)
  | [] => ([], [])
  end.

Definition readIdentifier (t : Tokenizer) : Tokenizer :=
  let startColumn := cur_column t in
  let '(v, r) := readWhile isWordChar (input t) in
  {| input := r; cur_line := cur_line t;
     cur_column := cur_column t + N.of_nat (length v);
     tokens := tokens t ++
       [{| tok_type := keywordType v; value := v;
           line := cur_line t; column := startColumn |}] |}.

Definition readNumber (t : Tokenizer) : Tokenizer :=
  let startColumn := cur_column t in
  let '(v, r) := readWhile isDigit (input t) in
  {| input := r; cur_line := cur_line t;
     cur_column := cur_column t + N.of_nat (length v);
     tokens := tokens t ++
       [if jsstring_eqb v (str "1")
        then {| tok_type := ONE; value := str "1";
                line := cur_line t; column := startColumn |}
        else {| tok_type := NUMBER; value := v;
                line := cur_line t; column := startColumn |}] |}.

Definition here (t : Tokenizer) (ty : TokenType) (v : jsstring) : Token :=
  {| tok_type := ty; value := v; line := cur_line t; column := cur_column t |}.

(** One turn of the [while] loop of [tokenize], after the white space has been
    skipped and with [char] the code unit at [pos]. *)
Definition tokenize_step (t : Tokenizer) (char : jschar) : Tokenizer :=
  if char =? c_lf then
    {| input := tl (input t); cur_line := cur_line t + 1; cur_column := 1;
       tokens := tokens t |}
  else if isLetter char then readIdentifier t
  else if isDigit char then readNumber t
  else if char =? c_colon then lex_advance (push t (here t COLON (str ":")))
  else if char =? c_lparen then lex_advance (push t (here t LPAREN (str "(")))
  else if char =? c_rparen then lex_advance (push t (here t RPAREN (str ")")))
  else if char =? c_comma then lex_advance (push t (here t COMMA (str ",")))
  else if char =? c_dot then lex_advance (push t (here t DOT (str ".")))
  else if char =? c_plus then lex_advance (push t (here t PLUS (str "+")))
  else if (char =? c_minus) && bool_decide (lex_peek t 1 = Some c_gt) then
    lex_advance (lex_advance (push t (here t ARROW (str "->"))))
  else if (char =? c_emdash)
          || ((char =? c_minus) && bool_decide (lex_peek t 1 = Some c_minus)) then
    if char =? c_emdash then lex_advance (push t (here t DASH [c_emdash]))
    else lex_advance (lex_advance (push t (here t DASH (str "--"))))
  else lex_advance t.

Fixpoint tokenize_loop (fuel : nat) (t : Tokenizer) : Tokenizer :=
  match fuel with
  | O => t
  | S fuel' =>
      match input t with
      | [] => t
      | _ :: _ =>
          let t1 := skipWhitespaceAndComments t in
          match input t1 with
          | [] => t1
          | char :: _ => tokenize_loop fuel' (tokenize_step t1 char)
          end
      end
  end.

Definition tokenize (s : jsstring) : list Token :=
  let t := tokenize_loop (S (length s))
             {| input := s; cur_line := 1; cur_column := 1; tokens := [] |} in
  tokens t ++ [here t EOF []].

(** ** client/src/lib/dsl-parser.ts: the parser *)

(** The outcome of a call that may [throw new Error(message)].  An [Error]
    carries its message and nothing else.  [OutOfFuel] is not an outcome of
    the program: it marks a loop of the embedding that was given too few
    turns, and [parse_never_OutOfFuel] shows that [parseDSL] never meets it. *)
Inductive Result (A : Type) :=
  | Ok (a : A)
  | Throw (message : jsstring)
  | OutOfFuel.
Arguments Ok {A} a.
Arguments Throw {A} message.
Arguments OutOfFuel {A}.

Global Instance Result_bind : MBind Result := fun A B k r =>
  match r with
  | Ok a => k a
  | Throw m => Throw m
  | OutOfFuel => OutOfFuel
  end.

(** The text of a token type inside a template literal.  For a member of
    [Object.prototype] it is the member converted to a string, as V8 and
    SpiderMonkey print it. *)
Definition typeText (t : Token) : jsstring :=
  match tok_type t with
  | ENTITY => str "ENTITY" | WEAK => str "WEAK" | RELATION => str "RELATION"
  | IDENTIFYING => str "IDENTIFYING" | COMPOSITE => str "COMPOSITE"
  | MULTIVALUED => str "MULTIVALUED" | DERIVED => str "DERIVED"
  | PK => str "PK" | FK => str "FK" | IDENTIFIED => str "IDENTIFIED"
  | BY => str "BY" | TOTAL => str "TOTAL" | PARTIAL => str "PARTIAL"
  | M => str "M" | IDENTIFIER => str "IDENTIFIER" | ONE => str "ONE"
  | NUMBER => str "NUMBER" | COLON => str "COLON" | LPAREN => str "LPAREN"
  | RPAREN => str "RPAREN" | COMMA => str "COMMA" | DOT => str "DOT"
  | PLUS => str "PLUS" | ARROW => str "ARROW" | DASH => str "DASH"
  | EOF => str "EOF"
  | INHERITED =>
      if jsstring_eqb (value t) (str "__proto__") then str "[object Object]"
      else if jsstring_eqb (value t) (str "constructor")
      then str "function Object() { [native code] }"
      else str "function " ++ value t ++ str "() { [native code] }"
  end.

Definition typeName (ty : TokenType) : jsstring :=
  typeText {| tok_type := ty; value := []; line := 0; column := 0 |}.

(** The parser's fields are the token array and [pos]; the embedding keeps the
    tokens from [pos] on.  [tokenize] ends every array with an [EOF] token and
    [advance] never steps over it, so this list is never empty while
    [parseDSL] runs; the empty list is read as an [EOF] token. *)
Definition current (ts : list Token) : Token :=
  match ts with
  | t :: _ => t
  | [] => {| tok_type := EOF; value := []; line := 0; column := 0 |}
  end.

Definition isAtEnd (ts : list Token) : bool :=
  bool_decide (tok_type (current ts) = EOF).

Definition check (ty : TokenType) (ts : list Token) : bool :=
  negb (isAtEnd ts) && bool_decide (tok_type (current ts) = ty).

(** [advance] as a move of [pos]; the token it returns is read by [expect]
    only, which takes it from [current] before the move. *)
Definition advance (ts : list Token) : list Token :=
  if isAtEnd ts then ts else tl ts.

Definition expect (ty : TokenType) (ts : list Token) : Result (Token * list Token) :=
  if check ty ts then Ok (current ts, advance ts)
  else Throw (str "Expected " ++ typeName ty ++ str " but got "
              ++ typeText (current ts) ++ str " at line "
              ++ decimal (line (current ts)) ++ str ", column "
              ++ decimal (column (current ts))).

Definition peek (ts : list Token) (offset : nat) : option Token :=
  nth_error ts offset.

Definition isEntityOrRelationStart (ts : list Token) : bool :=
  check ENTITY ts || check WEAK ts || check RELATION ts || check IDENTIFYING ts.

Definition parseParticipation (ts : list Token) : Result (Participation * list Token) :=
  if check TOTAL ts then Ok (total, advance ts)
  else if check PARTIAL ts then Ok (partial, advance ts)
  else Throw (str "Expected participation (total or partial) at line "
              ++ decimal (line (current ts))).

Definition parseCardinality (ts : list Token) : Result (Cardinality * list Token) :=
  if check ONE ts then Ok (One, advance ts)
  else if check M ts then Ok (Many, advance ts)
  else Throw (str "Expected cardinality (1 or M) at line "
              ++ decimal (line (current ts))).

(** [{ name, attributeType: 'simple', keyType: 'none' }] *)
Definition plainAttribute (n : jsstring) : AttributeNode :=
  {| attr_name := n; attributeType := simple; keyType := none;
     fkTarget := None; dataType := None; subAttributes := None |}.

Fixpoint parseRelationAttributeList_loop (fuel : nat) (ts : list Token)
    (attributes : list AttributeNode) : Result (list AttributeNode * list Token) :=
  match fuel with
  | O => OutOfFuel
  | S fuel' =>
      if negb (isAtEnd ts) && negb (isEntityOrRelationStart ts) && check IDENTIFIER ts
      then
        '(tk, ts) ← expect IDENTIFIER ts;
        parseRelationAttributeList_loop fuel' ts (attributes ++ [plainAttribute (value tk)])
      else Ok (attributes, ts)
  end.

Definition parseRelationAttributeList (ts : list Token) :=
  parseRelationAttributeList_loop (S (length ts)) ts [].

Definition parseIdentifyingRelation (ts : list Token)
  : Result (RelationshipNode * list Token) :=
  '(_, ts) ← expect IDENTIFYING ts;
  '(_, ts) ← expect RELATION ts;
  '(leftEntity, ts) ← expect IDENTIFIER ts;
  '(_, ts) ← expect LPAREN ts;
  '(leftCardinality, ts) ← parseCardinality ts;
  '(_, ts) ← expect RPAREN ts;
  '(_, ts) ← expect DASH ts;
  '(_, ts) ← expect LPAREN ts;
  '(rightCardinality, ts) ← parseCardinality ts;
  '(_, ts) ← expect RPAREN ts;
  '(rightEntity, ts) ← expect IDENTIFIER ts;
  '(_, ts) ← expect COLON ts;
  '(verbTok, ts) ← expect IDENTIFIER ts;
  Ok ({| rel_name := value verbTok;
         relationshipType := identifying;
         leftSide := {| side_entityName := value leftEntity;
                        cardinality := leftCardinality;
                        participation := total |};
         rightSide := {| side_entityName := value rightEntity;
                         cardinality := rightCardinality;
                         participation := total |};
         verb := value verbTok;
         rel_attributes := [] |}, ts).

(** [let p = 'partial'; if (this.check('COMMA')) { this.advance(); p = this.parseParticipation(); }] *)
Definition parseOptionalParticipation (ts : list Token)
  : Result (Participation * list Token) :=
  if check COMMA ts then parseParticipation (advance ts) else Ok (partial, ts).

Definition parseRelation (ts : list Token) : Result (RelationshipNode * list Token) :=
  '(_, ts) ← expect RELATION ts;
  '(leftEntity, ts) ← expect IDENTIFIER ts;
  '(_, ts) ← expect LPAREN ts;
  '(leftCardinality, ts) ← parseCardinality ts;
  '(leftParticipation, ts) ← parseOptionalParticipation ts;
  '(_, ts) ← expect RPAREN ts;
  '(_, ts) ← expect DASH ts;
  '(_, ts) ← expect LPAREN ts;
  '(rightCardinality, ts) ← parseCardinality ts;
  '(rightParticipation, ts) ← parseOptionalParticipation ts;
  '(_, ts) ← expect RPAREN ts;
  '(rightEntity, ts) ← expect IDENTIFIER ts;
  '(_, ts) ← expect COLON ts;
  '(verbTok, ts) ← expect IDENTIFIER ts;
  '(attributes, ts) ← parseRelationAttributeList ts;
  Ok ({| rel_name := value verbTok;
         relationshipType := normal;
         leftSide := {| side_entityName := value leftEntity;
                        cardinality := leftCardinality;
                        participation := leftParticipation |};
         rightSide := {| side_entityName := value rightEntity;
                         cardinality := rightCardinality;
                         participation := rightParticipation |};
         verb := value verbTok;
         rel_attributes := attributes |}, ts).

(** The look-ahead of [parseSubAttributeList]: [nextToken && (nextToken.type
    === 'PK' || ... )]. *)
Definition followedByMarker (ts : list Token) : bool :=
  match peek ts 1 with
  | Some nextToken =>
      bool_decide (tok_type nextToken = PK) || bool_decide (tok_type nextToken = FK)
      || bool_decide (tok_type nextToken = COMPOSITE)
      || bool_decide (tok_type nextToken = MULTIVALUED)
      || bool_decide (tok_type nextToken = DERIVED)
  | None => false
  end.

Fixpoint parseSubAttributeList_loop (fuel : nat) (ts : list Token)
    (attributes : list AttributeNode) : Result (list AttributeNode * list Token) :=
  match fuel with
  | O => OutOfFuel
  | S fuel' =>
      if negb (isAtEnd ts) && check IDENTIFIER ts then
        if followedByMarker ts then Ok (attributes, ts)
        else
          '(tk, ts) ← expect IDENTIFIER ts;
          if isEntityOrRelationStart ts || check IDENTIFIED ts then
            Ok (attributes ++ [plainAttribute (value tk)], ts)
          else
            let attributes := attributes ++ [plainAttribute (value tk)] in
            if isEntityOrRelationStart ts || check IDENTIFIED ts then Ok (attributes, ts)
            else parseSubAttributeList_loop fuel' ts attributes
      else Ok (attributes, ts)
  end.

Definition parseSubAttributeList (ts : list Token) :=
  parseSubAttributeList_loop (S (length ts)) ts [].

Definition parseFkTarget (ts : list Token) : Result (ForeignKeyTarget * list Token) :=
  '(e, ts) ← expect IDENTIFIER ts;
  '(_, ts) ← expect DOT ts;
  '(a, ts) ← expect IDENTIFIER ts;
  Ok ({| entityName := value e; attributeName := value a |}, ts).

Definition parseAttribute (ts : list Token) : Result (AttributeNode * list Token) :=
  '(nameTok, ts) ← expect IDENTIFIER ts;
  let n := value nameTok in
  if check PK ts then
    Ok ({| attr_name := n; attributeType := simple; keyType := pk;
           fkTarget := None; dataType := None; subAttributes := None |}, advance ts)
  else if check FK ts then
    let ts := advance ts in
    if check ARROW ts then
      '(target, ts) ← parseFkTarget (advance ts);
      Ok ({| attr_name := n; attributeType := simple; keyType := fk;
             fkTarget := Some target; dataType := None; subAttributes := None |}, ts)
    else
      Ok ({| attr_name := n; attributeType := simple; keyType := fk;
             fkTarget := None; dataType := None; subAttributes := None |}, ts)
  else if check COMPOSITE ts then
    '(_, ts) ← expect COLON (advance ts);
    '(subs, ts) ← parseSubAttributeList ts;
    Ok ({| attr_name := n; attributeType := composite; keyType := none;
           fkTarget := None; dataType := None; subAttributes := Some subs |}, ts)
  else if check MULTIVALUED ts then
    Ok ({| attr_name := n; attributeType := multivalued; keyType := none;
           fkTarget := None; dataType := None; subAttributes := None |}, advance ts)
  else if check DERIVED ts then
    Ok ({| attr_name := n; attributeType := derived; keyType := none;
           fkTarget := None; dataType := None; subAttributes := None |}, advance ts)
  else if check COLON ts then
    '(ty, ts) ← expect IDENTIFIER (advance ts);
    Ok ({| attr_name := n; attributeType := typed; keyType := none;
           fkTarget := None; dataType := Some (value ty); subAttributes := None |}, ts)
  else
    Ok (plainAttribute n, ts).

Fixpoint parseAttributeList_loop (fuel : nat) (ts : list Token)
    (attributes : list AttributeNode) : Result (list AttributeNode * list Token) :=
  match fuel with
  | O => OutOfFuel
  | S fuel' =>
      if negb (isAtEnd ts) && negb (isEntityOrRelationStart ts) then
        if check IDENTIFIER ts then
          '(a, ts) ← parseAttribute ts;
          parseAttributeList_loop fuel' ts (attributes ++ [a])
        else if check IDENTIFIED ts then Ok (attributes, ts)
        else parseAttributeList_loop fuel' (advance ts) attributes
      else Ok (attributes, ts)
  end.

Definition parseAttributeList (ts : list Token) :=
  parseAttributeList_loop (S (length ts)) ts [].

Fixpoint parseIdentifiedByList_loop (fuel : nat) (ts : list Token)
    (targets : list ForeignKeyTarget) : Result (list ForeignKeyTarget * list Token) :=
  match fuel with
  | O => OutOfFuel
  | S fuel' =>
      if check PLUS ts then
        '(t, ts) ← parseFkTarget (advance ts);
        parseIdentifiedByList_loop fuel' ts (targets ++ [t])
      else Ok (targets, ts)
  end.

Definition parseIdentifiedByList (ts : list Token) :=
  '(t, ts) ← parseFkTarget ts;
  parseIdentifiedByList_loop (S (length ts)) ts [t].

Definition parseWeakEntity (ts : list Token) : Result (EntityNode * list Token) :=
  '(_, ts) ← expect WEAK ts;
  '(_, ts) ← expect ENTITY ts;
  '(nameTok, ts) ← expect IDENTIFIER ts;
  '(_, ts) ← expect COLON ts;
  '(attributes, ts) ← parseAttributeList ts;
  if check IDENTIFIED ts then
    '(_, ts) ← expect BY (advance ts);
    '(targets, ts) ← parseIdentifiedByList ts;
    Ok ({| ent_name := value nameTok; entityType := weak;
           ent_attributes := attributes; identifiedBy := Some targets |}, ts)
  else
    Ok ({| ent_name := value nameTok; entityType := weak;
           ent_attributes := attributes; identifiedBy := None |}, ts).

Definition parseEntity (ts : list Token) : Result (EntityNode * list Token) :=
  '(_, ts) ← expect ENTITY ts;
  '(nameTok, ts) ← expect IDENTIFIER ts;
  '(_, ts) ← expect COLON ts;
  '(attributes, ts) ← parseAttributeList ts;
  Ok ({| ent_name := value nameTok; entityType := strong;
         ent_attributes := attributes; identifiedBy := None |}, ts).

Fixpoint parse_loop (fuel : nat) (ts : list Token) (ents : list EntityNode)
    (rels : list RelationshipNode) : Result ERDiagramAST :=
  match fuel with
  | O => OutOfFuel
  | S fuel' =>
      if negb (isAtEnd ts) then
        if check ENTITY ts then
          '(e, ts) ← parseEntity ts; parse_loop fuel' ts (ents ++ [e]) rels
        else if check WEAK ts then
          '(e, ts) ← parseWeakEntity ts; parse_loop fuel' ts (ents ++ [e]) rels
        else if check RELATION ts then
          '(r, ts) ← parseRelation ts; parse_loop fuel' ts ents (rels ++ [r])
        else if check IDENTIFYING ts then
          '(r, ts) ← parseIdentifyingRelation ts; parse_loop fuel' ts ents (rels ++ [r])
        else parse_loop fuel' (advance ts) ents rels
      else Ok {| entities := ents; relationships := rels |}
  end.

Definition parse (ts : list Token) : Result ERDiagramAST :=
  parse_loop (S (length ts)) ts [] [].

Definition parseDSL (s : jsstring) : Result ERDiagramAST :=
  parse (tokenize s).

(** ** client/src/lib/dsl-parser.ts: the printer *)

Definition cardinalityText (c : Cardinality) : jsstring :=
  match c with One => str "1" | Many => str "M" end.

Definition nl : jsstring := [c_lf].

Fixpoint generateAttribute (attr : AttributeNode) (indent : jsstring) : jsstring :=
  let line := indent ++ attr_name attr in
  match keyType attr, fkTarget attr, attributeType attr, subAttributes attr, dataType attr with
  | pk, _, _, _, _ => line ++ str " PK"
  | fk, Some target, _, _, _ =>
      line ++ str " FK -> " ++ entityName target ++ str "." ++ attributeName target
  | _, _, composite, Some subs, _ =>
      let line := line ++ str " Composite:" in
      let subLines := List.map (fun sub => generateAttribute sub (indent ++ str "  ")) subs in
      line ++ nl ++ join nl subLines
  | _, _, multivalued, _, _ => line ++ str " Multivalued"
  | _, _, derived, _, _ => line ++ str " Derived"
  | _, _, typed, _, Some ty =>
      (* [attr.dataType] is falsy when it is the empty string *)
      if bool_decide (ty = []) then line else line ++ str ": " ++ ty
  | _, _, _, _, _ => line
  end.

Definition fkText (target : ForeignKeyTarget) : jsstring :=
  entityName target ++ str "." ++ attributeName target.

Definition entityLines (e : EntityNode) : list jsstring :=
  [match entityType e with
   | weak => str "Weak Entity " ++ ent_name e ++ str ":"
   | strong => str "Entity " ++ ent_name e ++ str ":"
   end]
  ++ List.map (fun attr => generateAttribute attr (str "  ")) (ent_attributes e)
  ++ match entityType e, identifiedBy e with
     | weak, Some targets =>
         [str "  Identified By " ++ join (str " + ") (List.map fkText targets)]
     | _, _ => []
     end
  ++ [[]].

(** [leftPart] and [rightPart] of [generateDSL] *)
Definition sidePart (rel : RelationshipNode) (side : RelationshipSide) : jsstring :=
  match participation side, relationshipType rel with
  | total, normal => str "(" ++ cardinalityText (cardinality side) ++ str ", total)"
  | partial, normal => str "(" ++ cardinalityText (cardinality side) ++ str ", partial)"
  | _, _ => str "(" ++ cardinalityText (cardinality side) ++ str ")"
  end.

Definition relationshipLines (rel : RelationshipNode) : list jsstring :=
  let leftPart := sidePart rel (leftSide rel) in
  let rightPart := sidePart rel (rightSide rel) in
  [(match relationshipType rel with
    | identifying => str "Identifying Relation "
    | normal => str "Relation "
    end)
   ++ side_entityName (leftSide rel) ++ str " " ++ leftPart ++ str " "
   ++ [c_emdash] ++ str " " ++ rightPart ++ str " "
   ++ side_entityName (rightSide rel) ++ str ": " ++ verb rel]
  ++ List.map (fun attr => str "  " ++ attr_name attr) (rel_attributes rel)
  ++ [[]].

Definition generateDSL (ast : ERDiagramAST) : jsstring :=
  let lines :=
    List.concat (List.map entityLines (entities ast))
    ++ List.concat (List.map relationshipLines (relationships ast)) in
  trim (join nl lines).

(** The document of [sample-data.ts]. *)
Definition sampleDSL : jsstring :=
  str "Entity Store:
  store_id PK
  name
  address Composite:
    street
    city
    zip
  phones Multivalued

Entity Product:
  product_id PK
  name
  price

Weak Entity OrderItem:
  quantity
  price
  Identified By Order.order_id + Product.product_id

Entity Order:
  order_id PK
  order_date
  total Derived

Entity Supplier:
  supplier_id PK
  name
  contact_email

Relation Store (1) " ++ [c_emdash] ++ str " (M) Product: sells

Identifying Relation Order (1) " ++ [c_emdash] ++ str " (M) OrderItem: contains

Relation Product (M, partial) " ++ [c_emdash] ++ str " (M, partial) Supplier: supplies
  supply_date
  cost".


(** ** client/src/lib/diagram-model.ts: the forward transform *)

(** The module-level counters [nodeIdCounter] and [edgeIdCounter], which
    [astToDiagramModel] resets on entry, and the two arrays it fills. *)
Record Build := {
  nodeIdCounter : N;
  edgeIdCounter : N;
  out_nodes : list DiagramNode;
  out_edges : list DiagramEdge;
}.

Definition nodeIdOf (n : N) : jsstring := str "node_" ++ decimal n.
Definition edgeIdOf (n : N) : jsstring := str "edge_" ++ decimal n.

Definition generateNodeId (b : Build) : jsstring * Build :=
  (nodeIdOf (nodeIdCounter b + 1),
   {| nodeIdCounter := nodeIdCounter b + 1; edgeIdCounter := edgeIdCounter b;
      out_nodes := out_nodes b; out_edges := out_edges b |}).

Definition generateEdgeId (b : Build) : jsstring * Build :=
  (edgeIdOf (edgeIdCounter b + 1),
   {| nodeIdCounter := nodeIdCounter b; edgeIdCounter := edgeIdCounter b + 1;
      out_nodes := out_nodes b; out_edges := out_edges b |}).

Definition pushNode (b : Build) (n : DiagramNode) : Build :=
  {| nodeIdCounter := nodeIdCounter b; edgeIdCounter := edgeIdCounter b;
     out_nodes := out_nodes b ++ [n]; out_edges := out_edges b |}.

Definition pushEdge (b : Build) (e : DiagramEdge) : Build :=
  {| nodeIdCounter := nodeIdCounter b; edgeIdCounter := edgeIdCounter b;
     out_nodes := out_nodes b; out_edges := out_edges b ++ [e] |}.

(** A node with only [id], [type] and [label] set. *)
Definition bareNode (i : jsstring) (ty : DiagramNodeType) (l : jsstring) : DiagramNode :=
  {| node_id := i; type := ty; label := l; name := None; parentId := None;
     isPrimaryKey := None; isForeignKey := None; node_fkTarget := None;
     node_dataType := None; node_identifiedBy := None; node_entityType := None;
     node_relationshipType := None; node_x := None; node_y := None;
     width := None; height := None |}.

Definition attributeNodeType (a : AttributeType) : DiagramNodeType :=
  match a with
  | composite => compositeAttribute
  | multivalued => multivaluedAttribute
  | derived => derivedAttribute
  | _ => simpleAttribute
  end.

Definition attributeDiagramNode (attr : AttributeNode) (attrNodeId parent : jsstring)
  : DiagramNode :=
  {| node_id := attrNodeId; type := attributeNodeType (attributeType attr);
     label := attr_name attr; name := None; parentId := Some parent;
     isPrimaryKey := Some (bool_decide (keyType attr = pk));
     isForeignKey := Some (bool_decide (keyType attr = fk));
     node_fkTarget := fkTarget attr; node_dataType := dataType attr;
     node_identifiedBy := None; node_entityType := None;
     node_relationshipType := None; node_x := None; node_y := None;
     width := None; height := None |}.

(** [{ id, sourceId, targetId }] *)
Definition containmentEdge (i src tgt : jsstring) : DiagramEdge :=
  {| edge_id := i; sourceId := src; targetId := tgt; edge_label := None;
     sourceCardinality := None; targetCardinality := None;
     sourceParticipation := None; targetParticipation := None |}.

Fixpoint processAttribute (attr : AttributeNode) (parent : jsstring) (b : Build) : Build :=
  let '(attrNodeId, b) := generateNodeId b in
  let b := pushNode b (attributeDiagramNode attr attrNodeId parent) in
  let '(edgeId, b) := generateEdgeId b in
  let b := pushEdge b (containmentEdge edgeId parent attrNodeId) in
  match attributeType attr, subAttributes attr with
  | composite, Some subs =>
      fold_left (fun b subAttr => processAttribute subAttr attrNodeId b) subs b
  | _, _ => b
  end.

Definition processAttributes (attrs : list AttributeNode) (parent : jsstring) (b : Build)
  : Build :=
  fold_left (fun b attr => processAttribute attr parent b) attrs b.

Definition entityDiagramNode (e : EntityNode) (i : jsstring) : DiagramNode :=
  {| node_id := i;
     type := match entityType e with weak => weakEntity | strong => entity end;
     label := ent_name e; name := Some (ent_name e); parentId := None;
     isPrimaryKey := None; isForeignKey := None; node_fkTarget := None;
     node_dataType := None; node_identifiedBy := identifiedBy e;
     node_entityType := Some (entityType e); node_relationshipType := None;
     node_x := None; node_y := None; width := None; height := None |}.

Definition relationshipDiagramNode (rel : RelationshipNode) (i : jsstring) : DiagramNode :=
  {| node_id := i;
     type := match relationshipType rel with
             | identifying => identifyingRelationship
             | normal => relationship
             end;
     label := verb rel; name := Some (rel_name rel); parentId := None;
     isPrimaryKey := None; isForeignKey := None; node_fkTarget := None;
     node_dataType := None; node_identifiedBy := None; node_entityType := None;
     node_relationshipType := Some (relationshipType rel);
     node_x := None; node_y := None; width := None; height := None |}.

(** The body of the loop over [ast.entities]. *)
Definition processEntity (st : Build * gmap jsstring jsstring) (e : EntityNode)
  : Build * gmap jsstring jsstring :=
  let '(b, entityNodeMap) := st in
  let '(entityNodeId, b) := generateNodeId b in
  let entityNodeMap := <[ent_name e := entityNodeId]> entityNodeMap in
  let b := pushNode b (entityDiagramNode e entityNodeId) in
  (processAttributes (ent_attributes e) entityNodeId b, entityNodeMap).

(** The edge pushed for the left side, from the entity to the relationship. *)
Definition leftEdge (i leftEntityId relNodeId : jsstring) (rel : RelationshipNode)
  : DiagramEdge :=
  {| edge_id := i; sourceId := leftEntityId; targetId := relNodeId;
     edge_label := None;
     sourceCardinality := Some (cardinality (leftSide rel));
     targetCardinality := None;
     sourceParticipation := Some (participation (leftSide rel));
     targetParticipation := None |}.

(** The edge pushed for the right side, from the relationship to the entity. *)
Definition rightEdge (i relNodeId rightEntityId : jsstring) (rel : RelationshipNode)
  : DiagramEdge :=
  {| edge_id := i; sourceId := relNodeId; targetId := rightEntityId;
     edge_label := None;
     sourceCardinality := None;
     targetCardinality := Some (cardinality (rightSide rel));
     sourceParticipation := None;
     targetParticipation := Some (participation (rightSide rel)) |}.

(** [map.get(key)] followed by [if (id)]: the string found, when there is one
    and it is not empty. *)
Definition getTruthy (m : gmap jsstring jsstring) (k : jsstring) : option jsstring :=
  match m !! k with
  | Some v => if bool_decide (v = []) then None else Some v
  | None => None
  end.

(** The body of the loop over [ast.relationships].  ([relationNodeMap] is
    written there and never read; it is left out.) *)
Definition processRelationship (entityNodeMap : gmap jsstring jsstring) (b : Build)
    (rel : RelationshipNode) : Build :=
  let '(relNodeId, b) := generateNodeId b in
  let b := pushNode b (relationshipDiagramNode rel relNodeId) in
  let b :=
    match getTruthy entityNodeMap (side_entityName (leftSide rel)) with
    | Some leftEntityId =>
        let '(i, b) := generateEdgeId b in
        pushEdge b (leftEdge i leftEntityId relNodeId rel)
    | None => b
    end in
  let b :=
    match getTruthy entityNodeMap (side_entityName (rightSide rel)) with
    | Some rightEntityId =>
        let '(i, b) := generateEdgeId b in
        pushEdge b (rightEdge i relNodeId rightEntityId rel)
    | None => b
    end in
  processAttributes (rel_attributes rel) relNodeId b.

Definition resetIdCounters : Build :=
  {| nodeIdCounter := 0; edgeIdCounter := 0; out_nodes := []; out_edges := [] |}.

Definition astToDiagramModel (ast : ERDiagramAST) : DiagramModel :=
  let '(b, entityNodeMap) :=
    fold_left processEntity (entities ast) (resetIdCounters, ∅) in
  let b := fold_left (processRelationship entityNodeMap) (relationships ast) b in
  {| nodes := out_nodes b; edges := out_edges b |}.

(** ** client/src/lib/diagram-model.ts: the reverse transform *)

(** [!edge.sourceCardinality && !edge.targetCardinality]: a cardinality, when
    present, is the string '1' or 'M' and so truthy. *)
Definition hasCardinality (e : DiagramEdge) : bool :=
  bool_decide (is_Some (sourceCardinality e)) || bool_decide (is_Some (targetCardinality e)).

Definition buildNodeMap (ns : list DiagramNode) : gmap jsstring DiagramNode :=
  fold_left (fun m node => <[node_id node := node]> m) ns ∅.

Definition addChild (nodeMap : gmap jsstring DiagramNode)
    (childrenMap : gmap jsstring (list DiagramNode)) (edge : DiagramEdge)
  : gmap jsstring (list DiagramNode) :=
  if negb (hasCardinality edge) then
    let children := default [] (childrenMap !! sourceId edge) in
    match nodeMap !! targetId edge with
    | Some childNode => <[sourceId edge := children ++ [childNode]]> childrenMap
    | None => childrenMap
    end
  else childrenMap.

Definition buildChildrenMap (nodeMap : gmap jsstring DiagramNode) (es : list DiagramEdge)
  : gmap jsstring (list DiagramNode) :=
  fold_left (addChild nodeMap) es ∅.

(** [type.includes('Attribute')] on the closed set of node types. *)
Definition includesAttribute (ty : DiagramNodeType) : bool :=
  match ty with
  | simpleAttribute | multivaluedAttribute | derivedAttribute | compositeAttribute => true
  | _ => false
  end.

Definition isTrue (o : option bool) : bool :=
  match o with Some true => true | _ => false end.

(** The attribute built from a child node, before [subAttributes] is set. *)
Definition attributeOfNode (child : DiagramNode) : AttributeNode :=
  {| attr_name := label child;
     attributeType := match type child with
                      | compositeAttribute => composite
                      | multivaluedAttribute => multivalued
                      | derivedAttribute => derived
                      | _ => simple
                      end;
     keyType := if isTrue (isPrimaryKey child) then pk
                else if isTrue (isForeignKey child) then fk else none;
     fkTarget := node_fkTarget child;
     dataType := node_dataType child;
     subAttributes := None |}.

Definition withSubAttributes (a : AttributeNode) (subs : list AttributeNode) : AttributeNode :=
  {| attr_name := attr_name a; attributeType := attributeType a; keyType := keyType a;
     fkTarget := fkTarget a; dataType := dataType a; subAttributes := Some subs |}.

Definition stackOverflow : jsstring := str "Maximum call stack size exceeded".

(** [getAttributesForNode] calls itself on every composite child and the
    containment edges of an edited graph may loop, so the recursion is bounded
    only by the call stack: [depth] is the number of nested calls the stack
    still holds, and a call beyond it throws the engine's RangeError.  (The
    [nodeMap] argument of the source is passed along and never read.) *)
Fixpoint getAttributesForNode (depth : nat) (nodeId : jsstring)
    (childrenMap : gmap jsstring (list DiagramNode)) : Result (list AttributeNode) :=
  match depth with
  | O => Throw stackOverflow
  | S depth' =>
      let children := default [] (childrenMap !! nodeId) in
      fold_left
        (fun acc child =>
           attributes ← acc;
           if includesAttribute (type child) then
             let attr := attributeOfNode child in
             if bool_decide (type child = compositeAttribute) then
               subs ← getAttributesForNode depth' (node_id child) childrenMap;
               Ok (attributes ++ [withSubAttributes attr subs])
             else Ok (attributes ++ [attr])
           else Ok attributes)
        children (Ok [])
  end.

Definition isEntityNode (node : DiagramNode) : bool :=
  bool_decide (type node = entity) || bool_decide (type node = weakEntity).

Definition isRelationshipNode (node : DiagramNode) : bool :=
  bool_decide (type node = relationship) || bool_decide (type node = identifyingRelationship).

Definition entityOfNode (depth : nat) (childrenMap : gmap jsstring (list DiagramNode))
    (node : DiagramNode) : Result EntityNode :=
  attributes ← getAttributesForNode depth (node_id node) childrenMap;
  Ok {| ent_name := label node;
        entityType := match node_entityType node with
                      | Some t => t
                      | None => if bool_decide (type node = weakEntity) then weak else strong
                      end;
        ent_attributes := attributes;
        identifiedBy := node_identifiedBy node |}.

(** [model.edges.filter(e => (e.sourceId === node.id || e.targetId === node.id)
    && (e.sourceCardinality || e.targetCardinality))] *)
Definition relEdgesOf (es : list DiagramEdge) (node : DiagramNode) : list DiagramEdge :=
  List.filter
    (fun e => (bool_decide (sourceId e = node_id node) || bool_decide (targetId e = node_id node))
              && hasCardinality e)
    es.

Definition defaultLeftSide : RelationshipSide :=
  {| side_entityName := []; cardinality := One; participation := partial |}.
Definition defaultRightSide : RelationshipSide :=
  {| side_entityName := []; cardinality := Many; participation := partial |}.

(** The body of the loop over [relEdges]. *)
Definition updateSides (nodeMap : gmap jsstring DiagramNode) (node : DiagramNode)
    (sides : RelationshipSide * RelationshipSide) (edge : DiagramEdge)
  : RelationshipSide * RelationshipSide :=
  let '(lside, rside) := sides in
  if negb (bool_decide (sourceId edge = node_id node)) then
    match nodeMap !! sourceId edge with
    | Some entityNode =>
        ({| side_entityName := label entityNode;
            cardinality := default One (sourceCardinality edge);
            participation := default partial (sourceParticipation edge) |}, rside)
    | None => sides
    end
  else if negb (bool_decide (targetId edge = node_id node)) then
    match nodeMap !! targetId edge with
    | Some entityNode =>
        (lside,
         {| side_entityName := label entityNode;
            cardinality := default Many (targetCardinality edge);
            participation := default partial (targetParticipation edge) |})
    | None => sides
    end
  else sides.

Definition relationshipSides (nodeMap : gmap jsstring DiagramNode) (es : list DiagramEdge)
    (node : DiagramNode) : RelationshipSide * RelationshipSide :=
  fold_left (updateSides nodeMap node) (relEdgesOf es node) (defaultLeftSide, defaultRightSide).

Definition relationshipOfNode (depth : nat) (nodeMap : gmap jsstring DiagramNode)
    (childrenMap : gmap jsstring (list DiagramNode)) (es : list DiagramEdge)
    (node : DiagramNode) : Result RelationshipNode :=
  let '(lside, rside) := relationshipSides nodeMap es node in
  attributes ← getAttributesForNode depth (node_id node) childrenMap;
  Ok {| rel_name := match name node with
                    | Some n => if bool_decide (n = []) then label node else n
                    | None => label node
                    end;
        relationshipType :=
          match node_relationshipType node with
          | Some t => t
          | None => if bool_decide (type node = identifyingRelationship)
                    then identifying else normal
          end;
        leftSide := lside; rightSide := rside;
        verb := label node;
        rel_attributes := attributes |}.

(** [for (const x of xs) { out.push(f(x)) }] where [f] may throw. *)
Fixpoint mapResult {A B} (f : A -> Result B) (l : list A) : Result (list B) :=
  match l with
  | [] => Ok []
  | a :: l' => b ← f a; bs ← mapResult f l'; Ok (b :: bs)
  end.

Definition diagramModelToAST (depth : nat) (model : DiagramModel) : Result ERDiagramAST :=
  let nodeMap := buildNodeMap (nodes model) in
  let childrenMap := buildChildrenMap nodeMap (edges model) in
  ents ← mapResult (entityOfNode depth childrenMap) (List.filter isEntityNode (nodes model));
  rels ← mapResult (relationshipOfNode depth nodeMap childrenMap (edges model))
           (List.filter isRelationshipNode (nodes model));
  Ok {| entities := ents; relationships := rels |}.

(** ** client/src/lib/mxgraph-editor.ts: the layout

    Coordinates are JavaScript numbers, IEEE 754 doubles.  They are embedded
    as the rationals they denote, and every operation whose exact result need
    not be a double is followed by [fl], the rounding of the language to the
    nearest double: the sums and differences on coordinates and the quotient
    of the mean.  The other operations are on integers far below 2^53 for
    every array that JavaScript can hold (fewer than 2^32 elements), where the
    arithmetic of doubles is exact ([fl_integer]): the abscissas of the entity
    row, the product of an index or a length by a spacing, and its half.  No
    coordinate comes near 2^1024, so no operation overflows. *)

(** floor (log2 (n / d)), for positive [n] and [d]. *)
Definition ilog2 (n d : Z) : Z :=
  let e := (Z.log2 n - Z.log2 d)%Z in
  if (if (0 <=? e)%Z then (d * 2 ^ e <=? n)%Z else (d <=? n * 2 ^ (- e))%Z)
  then e else (e - 1)%Z.

(** The integer nearest to n / d, the even one of two that are as near, for
    [n] not negative and [d] positive. *)
Definition roundHalfEven (n d : Z) : Z :=
  let q := (n / d)%Z in
  let r := (n mod d)%Z in
  if (2 * r <? d)%Z then q
  else if (d <? 2 * r)%Z then (q + 1)%Z
  else if Z.even q then q else (q + 1)%Z.

(** The double nearest to [x], ties to the even mantissa (roundTiesToEven):
    a multiple of 2^e with a mantissa of at most 53 bits, [e] being at least
    -1074, where the subnormal numbers start.  The result is in lowest
    terms. *)
Definition fl (x : Q) : Q :=
  let n := Z.abs (Qnum x) in
  let d := Z.pos (Qden x) in
  if (n =? 0)%Z then 0%Q
  else
    let e := Z.max (ilog2 n d - 52) (-1074) in
    let v := if (0 <=? e)%Z then inject_Z (roundHalfEven n (d * 2 ^ e) * 2 ^ e)
             else Qmake (roundHalfEven (n * 2 ^ (- e)) d) (Z.to_pos (2 ^ (- e))) in
    Qred (if (Qnum x <? 0)%Z then Qopp v else v).

Local Open Scope Q_scope.

Definition HORIZONTAL_SPACING : Q := 200.
Definition VERTICAL_SPACING : Q := 100.
Definition ATTRIBUTE_SPACING : Q := 50.

Record Position := { pos_x : Q; pos_y : Q }.

Definition ofIndex (n : nat) : Q := inject_Z (Z.of_nat n).

(** [for (const edge of edges) if (!edge.sourceCardinality &&
    !edge.targetCardinality) parentMap.set(edge.targetId, edge.sourceId)] *)
Definition buildParentMap (es : list DiagramEdge) : gmap jsstring jsstring :=
  fold_left
    (fun m edge => if negb (hasCardinality edge) then <[targetId edge := sourceId edge]> m else m)
    es ∅.

(** The loop over [entities]: the positions and the running [entityX]. *)
Definition placeEntity (st : gmap jsstring Position * Q) (e : DiagramNode)
  : gmap jsstring Position * Q :=
  let '(positions, entityX) := st in
  (<[node_id e := {| pos_x := entityX; pos_y := 250 |}]> positions,
   entityX + HORIZONTAL_SPACING).

(** The body of the loop over [relationships]. *)
Definition placeRelationship (es : list DiagramEdge) (positions : gmap jsstring Position)
    (rel : DiagramNode) : gmap jsstring Position :=
  let connectedEdges := relEdgesOf es rel in
  let '(avgX, count) :=
    fold_left
      (fun (acc : Q * nat) edge =>
         let otherId := if bool_decide (sourceId edge = node_id rel)
                        then targetId edge else sourceId edge in
         match positions !! otherId with
         | Some otherPos => (fl (fst acc + pos_x otherPos), S (snd acc))
         | None => acc
         end)
      connectedEdges (0, O) in
  let px := if Nat.ltb 0 count then fl (avgX / ofIndex count) else 400 in
  <[node_id rel := {| pos_x := px; pos_y := 250 + VERTICAL_SPACING + 50 |}]> positions.

(** [attributeGroups] is a [Map] that is iterated: its entries are kept in the
    order in which their keys were first set. *)
Fixpoint setGroup (groups : list (jsstring * list DiagramNode)) (k : jsstring)
    (v : list DiagramNode) : list (jsstring * list DiagramNode) :=
  match groups with
  | [] => [(k, v)]
  | (k', v') :: rest =>
      if jsstring_eqb k k' then (k, v) :: rest else (k', v') :: setGroup rest k v
  end.

Definition addToGroup (parentMap : gmap jsstring jsstring)
    (groups : list (jsstring * list DiagramNode)) (attr : DiagramNode)
  : list (jsstring * list DiagramNode) :=
  match getTruthy parentMap (node_id attr) with
  | Some parent =>
      let group := default [] (assoc parent groups) in
      setGroup groups parent (group ++ [attr])
  | None => groups
  end.

(** [xs.forEach((x, index) => ...)] as a fold carrying the index. *)
Fixpoint forEachIndexed {A St : Type} (f : St -> A -> nat -> St) (l : list A) (index : nat)
    (s : St) : St :=
  match l with
  | [] => s
  | a :: l' => forEachIndexed f l' (S index) (f s a index)
  end.

(** The callback of [attrs.forEach]. *)
Definition placeAttribute (attributes : list DiagramNode) (parentMap : gmap jsstring jsstring)
    (startX baseY : Q) (positions : gmap jsstring Position) (attr : DiagramNode)
    (index : nat) : gmap jsstring Position :=
  let subAttrs :=
    List.filter (fun a => bool_decide (parentMap !! node_id a = Some (node_id attr)))
      attributes in
  let positions :=
    <[node_id attr := {| pos_x := fl (startX + ofIndex index * ATTRIBUTE_SPACING);
                         pos_y := baseY |}]> positions in
  if Nat.ltb 0 (length subAttrs) then
    let subStartX :=
      fl (fl (startX + ofIndex index * ATTRIBUTE_SPACING)
          - (inject_Z (Z.of_nat (length subAttrs) - 1) * 40) / 2) in
    forEachIndexed
      (fun positions subAttr subIndex =>
         <[node_id subAttr := {| pos_x := fl (subStartX + ofIndex subIndex * 40);
                                 pos_y := fl (baseY - 60) |}]> positions)
      subAttrs O positions
  else positions.

(** The body of the loop over [attributeGroups]. *)
Definition placeGroup (entityNodes attributes : list DiagramNode)
    (parentMap : gmap jsstring jsstring) (positions : gmap jsstring Position)
    (group : jsstring * list DiagramNode) : gmap jsstring Position :=
  let '(parent, attrs) := group in
  match positions !! parent with
  | None => positions
  | Some parentPos =>
      let isEntity := existsb (fun e => bool_decide (node_id e = parent)) entityNodes in
      let baseY := if isEntity then fl (pos_y parentPos - VERTICAL_SPACING)
                   else fl (pos_y parentPos + VERTICAL_SPACING) in
      let startX :=
        fl (pos_x parentPos
            - (inject_Z (Z.of_nat (length attrs) - 1) * ATTRIBUTE_SPACING) / 2) in
      forEachIndexed (placeAttribute attributes parentMap startX baseY) attrs O positions
  end.

Definition calculateLayout (entityNodes relationshipNodes attributes : list DiagramNode)
    (es : list DiagramEdge) : gmap jsstring Position :=
  let parentMap := buildParentMap es in
  let '(positions, _) := fold_left placeEntity entityNodes (∅, 100) in
  let positions := fold_left (placeRelationship es) relationshipNodes positions in
  let attributeGroups := fold_left (addToGroup parentMap) attributes [] in
  fold_left (placeGroup entityNodes attributes parentMap) attributeGroups positions.

(** The call of [calculateLayout] in [renderDiagram]: the nodes of the model
    split by type. *)
Definition layoutOf (model : DiagramModel) : gmap jsstring Position :=
  calculateLayout
    (List.filter isEntityNode (nodes model))
    (List.filter isRelationshipNode (nodes model))
    (List.filter (fun n => includesAttribute (type n)) (nodes model))
    (edges model).

Local Close Scope Q_scope.

(** ** Notions used by the properties *)

(** The message of the error thrown by [parseCardinality] at token [t]. *)
Definition cardinalityMessage (t : Token) : jsstring :=
  str "Expected cardinality (1 or M) at line " ++ decimal (line t).

(** An attribute together with its sub-attributes, at every depth. *)
Fixpoint allAttributes (a : AttributeNode) : list AttributeNode :=
  a :: match subAttributes a with
       | Some subs => flat_map allAttributes subs
       | None => []
       end.

(** Every attribute node of an AST: those of the entities and of the
    relationships, with the nested ones. *)
Definition astAttributes (ast : ERDiagramAST) : list AttributeNode :=
  flat_map allAttributes
    (flat_map ent_attributes (entities ast) ++ flat_map rel_attributes (relationships ast)).

(** The optional fields of an attribute agree with its kind and key role. *)
Definition fieldsCoherent (a : AttributeNode) : Prop :=
  (is_Some (subAttributes a) <-> attributeType a = composite)
  /\ (is_Some (dataType a) -> attributeType a = typed)
  /\ (is_Some (fkTarget a) -> keyType a = fk)
  /\ (keyType a <> none -> attributeType a = simple).

Definition bothTotal (r : RelationshipNode) : Prop :=
  participation (leftSide r) = total /\ participation (rightSide r) = total.

Definition isPlain (a : AttributeNode) : Prop := exists n, a = plainAttribute n.

(** Where [parseSubAttributeList] stops: at a token that is not an
    identifier, or at an identifier that a key or kind marker follows. *)
Definition subAttributeStop (ts : list Token) : bool :=
  negb (check IDENTIFIER ts) || followedByMarker ts.

Definition isCardinalityToken (t : Token) : Prop := tok_type t = ONE \/ tok_type t = M.
Definition isParticipationToken (t : Token) : Prop :=
  tok_type t = TOTAL \/ tok_type t = PARTIAL.

(** [cardinalityPosition ts here]: the tokens [ts] start a relation
    declaration that is well formed up to the cardinality of one of its sides,
    and [here] is what remains of [ts] from that cardinality on. *)
Inductive cardinalityPosition : list Token -> list Token -> Prop :=
  | left_of_relation k l p here :
      List.map tok_type [k; l; p] = [RELATION; IDENTIFIER; LPAREN] ->
      cardinalityPosition (k :: l :: p :: here) here
  | right_of_relation k l p c q d p' here :
      List.map tok_type [k; l; p; q; d; p'] = [RELATION; IDENTIFIER; LPAREN; RPAREN; DASH; LPAREN] ->
      isCardinalityToken c ->
      cardinalityPosition (k :: l :: p :: c :: q :: d :: p' :: here) here
  | right_of_relation_after_participation k l p c co pa q d p' here :
      List.map tok_type [k; l; p; co; q; d; p']
        = [RELATION; IDENTIFIER; LPAREN; COMMA; RPAREN; DASH; LPAREN] ->
      isCardinalityToken c -> isParticipationToken pa ->
      cardinalityPosition (k :: l :: p :: c :: co :: pa :: q :: d :: p' :: here) here
  | left_of_identifying i k l p here :
      List.map tok_type [i; k; l; p] = [IDENTIFYING; RELATION; IDENTIFIER; LPAREN] ->
      cardinalityPosition (i :: k :: l :: p :: here) here
  | right_of_identifying i k l p c q d p' here :
      List.map tok_type [i; k; l; p; q; d; p']
        = [IDENTIFYING; RELATION; IDENTIFIER; LPAREN; RPAREN; DASH; LPAREN] ->
      isCardinalityToken c ->
      cardinalityPosition (i :: k :: l :: p :: c :: q :: d :: p' :: here) here.

(** [consumes n ts r]: the call that returned [r] from the tokens [ts] did not
    run out of fuel, and when it succeeded it left at least [n] tokens fewer. *)
Definition consumes {A} (n : nat) (ts : list Token) (r : Result (A * list Token)) : Prop :=
  match r with
  | Ok (_, rest) => (length rest + n <= length ts)%nat
  | Throw _ => True
  | OutOfFuel => False
  end.

(** *** Documents used as examples *)

Definition weakEntityDocument : jsstring :=
  str "Weak Entity OrderItem:
  quantity
  price".

Definition weakEntityTokens : list Token :=
  Eval vm_compute in tokenize weakEntityDocument.

(** *** Notions for the reverse transform *)




(** An edge of [relEdges] supplies the left side of [node] when its source is
    another node of the model, and the right side when its source is [node]
    and its target another node of the model. *)
Definition leftSupplier (nodeMap : gmap jsstring DiagramNode) (node : DiagramNode)
    (e : DiagramEdge) : option DiagramNode :=
  if bool_decide (sourceId e = node_id node) then None else nodeMap !! sourceId e.

Definition rightSupplier (nodeMap : gmap jsstring DiagramNode) (node : DiagramNode)
    (e : DiagramEdge) : option DiagramNode :=
  if bool_decide (sourceId e = node_id node) then
    if bool_decide (targetId e = node_id node) then None else nodeMap !! targetId e
  else None.

(** The last supplier of a side among the edges, with the node it names. *)
Fixpoint lastSupplier (supplier : DiagramEdge -> option DiagramNode)
    (es : list DiagramEdge) : option (DiagramEdge * DiagramNode) :=
  match es with
  | [] => None
  | e :: es' =>
      match lastSupplier supplier es' with
      | Some found => Some found
      | None => match supplier e with Some n => Some (e, n) | None => None end
      end
  end.

(** The sides that the specification describes, with the defaults that the
    program applies: '1' on the left, 'M' on the right, 'partial' on both. *)
Definition expectedLeftSide (nodeMap : gmap jsstring DiagramNode) (es : list DiagramEdge)
    (node : DiagramNode) : RelationshipSide :=
  match lastSupplier (leftSupplier nodeMap node) (relEdgesOf es node) with
  | Some (e, n) =>
      {| side_entityName := label n;
         cardinality := default One (sourceCardinality e);
         participation := default partial (sourceParticipation e) |}
  | None => {| side_entityName := []; cardinality := One; participation := partial |}
  end.

Definition expectedRightSide (nodeMap : gmap jsstring DiagramNode) (es : list DiagramEdge)
    (node : DiagramNode) : RelationshipSide :=
  match lastSupplier (rightSupplier nodeMap node) (relEdgesOf es node) with
  | Some (e, n) =>
      {| side_entityName := label n;
         cardinality := default Many (targetCardinality e);
         participation := default partial (targetParticipation e) |}
  | None => {| side_entityName := []; cardinality := Many; participation := partial |}
  end.

(** A side as the loop over [relEdges] leaves it: built from the supplier
    found, or left as it was. *)
Definition sideFrom (built : DiagramEdge -> DiagramNode -> RelationshipSide)
    (found : option (DiagramEdge * DiagramNode)) (otherwise : RelationshipSide)
  : RelationshipSide :=
  match found with Some (e, n) => built e n | None => otherwise end.

(** The containment edges that [getAttributesForNode] follows when it calls
    itself: those without a cardinality whose target is a composite attribute
    of the model. *)
Definition descends (m : DiagramModel) (e : DiagramEdge) : Prop :=
  hasCardinality e = false
  /\ exists child, buildNodeMap (nodes m) !! targetId e = Some child
                   /\ type child = compositeAttribute.

(** *** Notions for the forward transform *)

(** The entity node that stands for the entity called [n]: the last one of
    that label, as a later entity of the same name replaces an earlier one in
    [entityNodeMap]. *)
Definition entityNodeNamed (m : DiagramModel) (n : jsstring) : option DiagramNode :=
  last (List.filter (fun node => isEntityNode node && bool_decide (label node = n)) (nodes m)).

(** An edge without its own identifier. *)
Definition anonymous (e : DiagramEdge) : DiagramEdge :=
  {| edge_id := []; sourceId := sourceId e; targetId := targetId e;
     edge_label := edge_label e;
     sourceCardinality := sourceCardinality e; targetCardinality := targetCardinality e;
     sourceParticipation := sourceParticipation e;
     targetParticipation := targetParticipation e |}.

(** The relational edges that a relationship whose node is [relNodeId] gets,
    given the identifiers of the entity nodes found for its two sides. *)
Definition sideEdges (rel : RelationshipNode) (relNodeId : jsstring)
    (leftEntityId rightEntityId : option jsstring) : list DiagramEdge :=
  match leftEntityId with
  | Some i => [leftEdge [] i relNodeId rel]
  | None => []
  end
  ++ match rightEntityId with
     | Some i => [rightEdge [] relNodeId i rel]
     | None => []
     end.

(** Induction on attributes, with the sub-attributes as induction hypotheses. *)
Fixpoint AttributeNode_ind (P : AttributeNode -> Prop)
    (step : forall n ty k target dt subs,
        match subs with Some l => Forall P l | None => True end ->
        P {| attr_name := n; attributeType := ty; keyType := k; fkTarget := target;
             dataType := dt; subAttributes := subs |})
    (a : AttributeNode) : P a :=
  match a with
  | Build_AttributeNode n ty k target dt subs =>
      step n ty k target dt subs
        (match subs return match subs with Some l => Forall P l | None => True end with
         | Some l =>
             (fix all (l : list AttributeNode) : Forall P l :=
                match l with
                | [] => @List.Forall_nil _ P
                | x :: r => @List.Forall_cons _ P x r (AttributeNode_ind P step x) (all r)
                end) l
         | None => I
         end)
  end.

(** [i] is the identifier made from a counter value in the interval (lo, hi]. *)
Definition idBetween (lo hi : N) (i : jsstring) : Prop :=
  exists k, lo < k <= hi /\ i = nodeIdOf k.

(** [attributesAdded b b']: from [b] to [b'] only attribute nodes were pushed,
    with fresh identifiers, and only edges without cardinality. *)
Definition attributesAdded (b b' : Build) : Prop :=
  nodeIdCounter b <= nodeIdCounter b'
  /\ (exists ns, out_nodes b' = out_nodes b ++ ns
        /\ Forall (fun n => includesAttribute (type n) = true
                            /\ idBetween (nodeIdCounter b) (nodeIdCounter b') (node_id n)) ns)
  /\ (exists es, out_edges b' = out_edges b ++ es
        /\ Forall (fun e => hasCardinality e = false) es).

(** What holds of the build while [astToDiagramModel] walks the entities:
    every node has an identifier issued so far, no edge carries a cardinality,
    no node is a relationship, the entity nodes carry the names of the
    entities walked, and [entityNodeMap] sends a name to the last entity node
    of that label. *)
Definition entityPhase (es : list EntityNode) (b : Build)
    (entityNodeMap : gmap jsstring jsstring) : Prop :=
  Forall (fun n => idBetween 0 (nodeIdCounter b) (node_id n)) (out_nodes b)
  /\ Forall (fun e => hasCardinality e = false) (out_edges b)
  /\ Forall (fun n => isRelationshipNode n = false) (out_nodes b)
  /\ List.map label (List.filter isEntityNode (out_nodes b)) = List.map ent_name es
  /\ forall n,
       entityNodeMap !! n
       = node_id <$> last (List.filter
                             (fun node => isEntityNode node && bool_decide (label node = n))
                             (out_nodes b)).

(** [touches i e]: the edge [e] starts or ends at the node [i]. *)
Definition touches (i : jsstring) (e : DiagramEdge) : bool :=
  bool_decide (sourceId e = i) || bool_decide (targetId e = i).

(** *** Notions for the layout *)

(** Two nodes of the same identifier and type: what is left of a node when
    its label, its flags and its rectangle are put aside. *)
Definition sameShape (n n' : DiagramNode) : Prop :=
  node_id n = node_id n' /\ type n = type n'.

Definition sameGroups (g g' : list (jsstring * list DiagramNode)) : Prop :=
  Forall2 (fun x y => x.1 = y.1 /\ Forall2 sameShape x.2 y.2) g g'.

(** *** More example inputs *)

(** A relation whose left cardinality is written 5, and the same with the
    entity name two columns further right. *)
Definition badCardinalityDocument : jsstring := str "Relation A (5) -- (M) B: v".
Definition badCardinalityShifted : jsstring := str "Relation   A (5) -- (M) B: v".
Definition badCardinalityTokens : list Token :=
  Eval vm_compute in tokenize badCardinalityDocument.
Definition badCardinalityShiftedTokens : list Token :=
  Eval vm_compute in tokenize badCardinalityShifted.

(** A composite attribute followed by a multivalued one, then an entity. *)
Definition compositeDocument : jsstring :=
  str "Entity Store:
  address Composite:
    street
  phones Multivalued
Entity Product:".
Definition compositeTokens : list Token := Eval vm_compute in tokenize compositeDocument.

(** A relation between two entities that are not declared. *)
Definition danglingRelationAST : ERDiagramAST :=
  {| entities := [];
     relationships :=
       [{| rel_name := str "sells"; relationshipType := normal;
           leftSide := {| side_entityName := str "Store"; cardinality := One;
                          participation := partial |};
           rightSide := {| side_entityName := str "Product"; cardinality := Many;
                           participation := partial |};
           verb := str "sells"; rel_attributes := [] |}] |}.

(** Two entities and a relation between them. *)
Definition sellsDocument : jsstring :=
  str "Entity Store:
  store_id PK
Entity Product:
  product_id PK
Relation Store (1) -- (M, total) Product: sells".
Definition sellsAST : ERDiagramAST :=
  Eval vm_compute in
    match parseDSL sellsDocument with
    | Ok ast => ast
    | _ => {| entities := []; relationships := [] |}
    end.
Definition sellsModel : DiagramModel := Eval vm_compute in astToDiagramModel sellsAST.


(** A relationship node with one relational edge, from an entity. *)
Definition oneSidedModel : DiagramModel :=
  {| nodes := [bareNode (str "e") entity (str "E");
               bareNode (str "r") relationship (str "R")];
     edges := [{| edge_id := str "x1"; sourceId := str "e"; targetId := str "r";
                  edge_label := None;
                  sourceCardinality := Some Many; targetCardinality := None;
                  sourceParticipation := None; targetParticipation := None |}] |}.

(** The document of [sample-data.ts] parsed. *)
Definition sampleAST : ERDiagramAST :=
  Eval vm_compute in
    match parseDSL sampleDSL with
    | Ok ast => ast
    | _ => {| entities := []; relationships := [] |}
    end.

(** *** Notions for the round trip *)

(** A token without its position. *)
Definition tv (t : Token) : TokenType * jsstring := (tok_type t, value t).

(** What [skipWhitespaceAndComments] leaves of the input. *)
Definition skipped (s : jsstring) : jsstring :=
  (skipWhitespaceAndComments_loop (S (length s)) s 0).1.

(** One turn of the loop of [tokenize] without the positions: the tokens
    pushed and the input left, [s] being the input at the current code unit
    and [c] that code unit. *)
Definition lexStep (c : jschar) (s : jsstring) : list (TokenType * jsstring) * jsstring :=
  if c =? c_lf then ([], tl s)
  else if isLetter c then
    let '(v, r) := readWhile isWordChar s in ([(keywordType v, v)], r)
  else if isDigit c then
    let '(v, r) := readWhile isDigit s in
    ([if jsstring_eqb v (str "1") then (ONE, str "1") else (NUMBER, v)], r)
  else if c =? c_colon then ([(COLON, str ":")], tl s)
  else if c =? c_lparen then ([(LPAREN, str "(")], tl s)
  else if c =? c_rparen then ([(RPAREN, str ")")], tl s)
  else if c =? c_comma then ([(COMMA, str ",")], tl s)
  else if c =? c_dot then ([(DOT, str ".")], tl s)
  else if c =? c_plus then ([(PLUS, str "+")], tl s)
  else if (c =? c_minus) && bool_decide (nth_error s 1 = Some c_gt) then
    ([(ARROW, str "->")], tl (tl s))
  else if (c =? c_emdash)
          || ((c =? c_minus) && bool_decide (nth_error s 1 = Some c_minus)) then
    if c =? c_emdash then ([(DASH, [c_emdash])], tl s)
    else ([(DASH, str "--")], tl (tl s))
  else ([], tl s).

(** The loop of [tokenize] without the positions. *)
Fixpoint lexFuel (fuel : nat) (s : jsstring) : list (TokenType * jsstring) :=
  match fuel with
  | O => []
  | S fuel' =>
      match skipped s with
      | [] => []
      | c :: r => (lexStep c (c :: r)).1 ++ lexFuel fuel' (lexStep c (c :: r)).2
      end
  end.

(** The tokens of a text, without their positions and without the final EOF. *)
Definition lexemes (s : jsstring) : list (TokenType * jsstring) :=
  lexFuel (S (length s)) s.

(** A word of the tokenizer: a letter or underscore followed by letters,
    digits and underscores. *)
Definition isWord (w : jsstring) : bool :=
  match w with
  | c :: w' => isLetter c && forallb isWordChar w'
  | [] => false
  end.

(** A word that [readIdentifier] makes an IDENTIFIER token of. *)
Definition isName (w : jsstring) : bool :=
  isWord w && bool_decide (keywordType w = IDENTIFIER).

(** The text [s] does not go on with a character of a word. *)
Definition wordEnds (s : jsstring) : bool :=
  match s with
  | c :: _ => negb (isWordChar c)
  | [] => true
  end.

(** The pieces that the printer writes: a space, a line feed, a word, the
    digit 1, or a punctuation mark. *)
Inductive Piece :=
  | P_space | P_nl | P_word (w : jsstring) | P_one
  | P_colon | P_lparen | P_rparen | P_comma | P_dot | P_plus | P_arrow | P_emdash.

Definition pieceText (p : Piece) : jsstring :=
  match p with
  | P_space => [c_space] | P_nl => [c_lf] | P_word w => w | P_one => [49]
  | P_colon => [c_colon] | P_lparen => [c_lparen] | P_rparen => [c_rparen]
  | P_comma => [c_comma] | P_dot => [c_dot] | P_plus => [c_plus]
  | P_arrow => [c_minus; c_gt] | P_emdash => [c_emdash]
  end.

Definition pieceToken (p : Piece) : list (TokenType * jsstring) :=
  match p with
  | P_space | P_nl => []
  | P_word w => [(keywordType w, w)]
  | P_one => [(ONE, str "1")]
  | P_colon => [(COLON, str ":")] | P_lparen => [(LPAREN, str "(")]
  | P_rparen => [(RPAREN, str ")")] | P_comma => [(COMMA, str ",")]
  | P_dot => [(DOT, str ".")] | P_plus => [(PLUS, str "+")]
  | P_arrow => [(ARROW, str "->")] | P_emdash => [(DASH, [c_emdash])]
  end.

Definition render (ps : list Piece) : jsstring := flat_map pieceText ps.
Definition pieceTokens (ps : list Piece) : list (TokenType * jsstring) :=
  flat_map pieceToken ps.

(** A word, and the digit 1, must be followed by something that is no part of
    a word. *)
Fixpoint separated (ps : list Piece) (rest : jsstring) : bool :=
  match ps with
  | [] => true
  | p :: ps' =>
      match p with
      | P_word w => isWord w && wordEnds (render ps' ++ rest)
      | P_one => wordEnds (render ps' ++ rest)
      | _ => true
      end && separated ps' rest
  end.

(** *** The tokens of the printed text *)

Definition ident (n : jsstring) : TokenType * jsstring := (IDENTIFIER, n).

Definition fkTokens (t : ForeignKeyTarget) : list (TokenType * jsstring) :=
  [ident (entityName t); (DOT, str "."); ident (attributeName t)].

(** The tokens of the lines that [generateAttribute] writes for an attribute
    whose sub-attributes are plain. *)
Definition attributeTokens (a : AttributeNode) : list (TokenType * jsstring) :=
  ident (attr_name a)
  :: match keyType a, fkTarget a, attributeType a, subAttributes a, dataType a with
     | pk, _, _, _, _ => [(PK, str "PK")]
     | fk, Some t, _, _, _ => [(FK, str "FK"); (ARROW, str "->")] ++ fkTokens t
     | _, _, composite, Some subs, _ =>
         [(COMPOSITE, str "Composite"); (COLON, str ":")]
         ++ List.map (fun sub => ident (attr_name sub)) subs
     | _, _, multivalued, _, _ => [(MULTIVALUED, str "Multivalued")]
     | _, _, derived, _, _ => [(DERIVED, str "Derived")]
     | _, _, typed, _, Some ty =>
         if bool_decide (ty = []) then [] else [(COLON, str ":"); ident ty]
     | _, _, _, _, _ => []
     end.

Fixpoint identifiedByTokens (targets : list ForeignKeyTarget)
  : list (TokenType * jsstring) :=
  match targets with
  | [] => []
  | [t] => fkTokens t
  | t :: rest => fkTokens t ++ [(PLUS, str "+")] ++ identifiedByTokens rest
  end.

Definition entityTokens (e : EntityNode) : list (TokenType * jsstring) :=
  match entityType e with
  | weak => [(WEAK, str "Weak"); (ENTITY, str "Entity")]
  | strong => [(ENTITY, str "Entity")]
  end
  ++ [ident (ent_name e); (COLON, str ":")]
  ++ flat_map attributeTokens (ent_attributes e)
  ++ match entityType e, identifiedBy e with
     | weak, Some targets =>
         [(IDENTIFIED, str "Identified"); (BY, str "By")] ++ identifiedByTokens targets
     | _, _ => []
     end.

Definition cardinalityToken (c : Cardinality) : TokenType * jsstring :=
  match c with One => (ONE, str "1") | Many => (M, str "M") end.

Definition sideTokens (rel : RelationshipNode) (side : RelationshipSide)
  : list (TokenType * jsstring) :=
  [(LPAREN, str "("); cardinalityToken (cardinality side)]
  ++ match participation side, relationshipType rel with
     | total, normal => [(COMMA, str ","); (TOTAL, str "total")]
     | partial, normal => [(COMMA, str ","); (PARTIAL, str "partial")]
     | _, _ => []
     end
  ++ [(RPAREN, str ")")].

Definition relationshipTokens (rel : RelationshipNode) : list (TokenType * jsstring) :=
  match relationshipType rel with
  | identifying => [(IDENTIFYING, str "Identifying"); (RELATION, str "Relation")]
  | normal => [(RELATION, str "Relation")]
  end
  ++ [ident (side_entityName (leftSide rel))]
  ++ sideTokens rel (leftSide rel)
  ++ [(DASH, [c_emdash])]
  ++ sideTokens rel (rightSide rel)
  ++ [ident (side_entityName (rightSide rel)); (COLON, str ":"); ident (verb rel)]
  ++ List.map (fun a => ident (attr_name a)) (rel_attributes rel).

Definition astTokens (ast : ERDiagramAST) : list (TokenType * jsstring) :=
  flat_map entityTokens (entities ast) ++ flat_map relationshipTokens (relationships ast).

(** *** The shape of the ASTs that the parser builds *)

Definition namedPlain (a : AttributeNode) : Prop :=
  a = plainAttribute (attr_name a) /\ isName (attr_name a) = true.

Definition namedTarget (t : ForeignKeyTarget) : Prop :=
  isName (entityName t) = true /\ isName (attributeName t) = true.

Definition attributeShape (a : AttributeNode) : Prop :=
  isName (attr_name a) = true
  /\ match keyType a, attributeType a with
     | pk, simple => fkTarget a = None /\ dataType a = None /\ subAttributes a = None
     | fk, simple =>
         dataType a = None /\ subAttributes a = None
         /\ match fkTarget a with Some t => namedTarget t | None => True end
     | none, composite =>
         fkTarget a = None /\ dataType a = None
         /\ exists subs, subAttributes a = Some subs /\ Forall namedPlain subs
     | none, typed =>
         fkTarget a = None /\ subAttributes a = None
         /\ exists ty, dataType a = Some ty /\ isName ty = true
     | none, _ => fkTarget a = None /\ dataType a = None /\ subAttributes a = None
     | _, _ => False
     end.

Definition entityShape (e : EntityNode) : Prop :=
  isName (ent_name e) = true
  /\ Forall attributeShape (ent_attributes e)
  /\ match entityType e, identifiedBy e with
     | _, None => True
     | strong, Some _ => False
     | weak, Some targets => targets <> [] /\ Forall namedTarget targets
     end.

Definition relationshipShape (r : RelationshipNode) : Prop :=
  rel_name r = verb r
  /\ isName (verb r) = true
  /\ isName (side_entityName (leftSide r)) = true
  /\ isName (side_entityName (rightSide r)) = true
  /\ Forall namedPlain (rel_attributes r)
  /\ (relationshipType r = identifying -> bothTotal r /\ rel_attributes r = []).

Definition astShape (ast : ERDiagramAST) : Prop :=
  Forall entityShape (entities ast) /\ Forall relationshipShape (relationships ast).

(** *** The ASTs that survive printing and parsing *)

(** A foreign key names its target. *)
Definition hasTarget (a : AttributeNode) : bool :=
  negb (bool_decide (keyType a = fk)) || bool_decide (is_Some (fkTarget a)).

(** The attribute is printed with PK, FK, Composite, Multivalued or Derived
    after its name. *)
Definition printsMarker (a : AttributeNode) : bool :=
  match keyType a, fkTarget a, attributeType a with
  | pk, _, _ => true
  | fk, Some _, _ => true
  | _, _, composite | _, _, multivalued | _, _, derived => true
  | _, _, _ => false
  end.

(** Every attribute that comes right after a composite one prints a marker. *)
Fixpoint compositeThenMarker (attrs : list AttributeNode) : bool :=
  match attrs with
  | [] => true
  | a :: rest =>
      match rest with
      | b :: _ => negb (bool_decide (attributeType a = composite)) || printsMarker b
      | [] => true
      end && compositeThenMarker rest
  end.

Definition roundTrips (ast : ERDiagramAST) : Prop :=
  Forall (fun e => forallb hasTarget (ent_attributes e) = true
                   /\ compositeThenMarker (ent_attributes e) = true)
    (entities ast).

(** *** Where the parser's lists end *)

(** The type of the token under the cursor. *)
Definition headType (ts : list Token) : TokenType := tok_type (current ts).

(** The token types a declaration starts with, and the end of the input. *)
Definition startsDeclaration (ty : TokenType) : bool :=
  match ty with
  | EOF | ENTITY | WEAK | RELATION | IDENTIFYING => true
  | _ => false
  end.

(** The token types that end a list of attributes. *)
Definition endsAttributes (ty : TokenType) : bool :=
  startsDeclaration ty || bool_decide (ty = IDENTIFIED).

(** The token types that [parseSubAttributeList] looks ahead for. *)
Definition isMarker (ty : TokenType) : bool :=
  match ty with
  | PK | FK | COMPOSITE | MULTIVALUED | DERIVED => true
  | _ => false
  end.

(** What may follow the tokens of an attribute: the end of the list, or the
    name of the next attribute. *)
Definition afterAttribute (ts : list Token) : bool :=
  endsAttributes (headType ts) || bool_decide (headType ts = IDENTIFIER).

(** What may follow the sub-attributes of a composite attribute if they are to
    be read back: the end of the list, or an attribute with a marker. *)
Definition afterComposite (ts : list Token) : bool :=
  endsAttributes (headType ts)
  || (bool_decide (headType ts = IDENTIFIER) && followedByMarker ts).

(** An IDENTIFIER token holds a name. *)
Definition namedToken (t : Token) : Prop :=
  tok_type t = IDENTIFIER -> isName (value t) = true.

(** *** A document that printing changes *)

(** A typed attribute after a composite one. *)
Definition typedAfterComposite : jsstring :=
  str "Entity Store:
  address Composite: street
  zip : int".

Definition compositeOf (n : jsstring) (subs : list jsstring) : AttributeNode :=
  {| attr_name := n; attributeType := composite; keyType := none;
     fkTarget := None; dataType := None;
     subAttributes := Some (List.map plainAttribute subs) |}.

Definition storeOf (attrs : list AttributeNode) : ERDiagramAST :=
  {| entities := [{| ent_name := str "Store"; entityType := strong;
                     ent_attributes := attrs; identifiedBy := None |}];
     relationships := [] |}.

(** What [parseDSL] reads in it: the name [zip] goes to the composite
    attribute, and the type [int] becomes an attribute of the entity. *)
Definition typedAfterCompositeAST : ERDiagramAST :=
  storeOf [compositeOf (str "address") [str "street"; str "zip"];
           plainAttribute (str "int")].

(** What [generateDSL] prints for that AST. *)
Definition typedAfterCompositePrinted : jsstring :=
  str "Entity Store:
  address Composite:
    street
    zip
  int".

(** What [parseDSL] reads in the printed text. *)
Definition typedAfterCompositeReparsed : ERDiagramAST :=
  storeOf [compositeOf (str "address") [str "street"; str "zip"; str "int"]].

(** *** Notions for the independence of the positions *)

(** Two token lists with the same types and values, position by position. *)
Definition sameTokens (ts1 ts2 : list Token) : Prop := List.map tv ts1 = List.map tv ts2.

(** Two calls of a parsing function ended the same way: both returned, with
    related values and the same tokens left, or both threw. *)
Definition sameOutcome {A} (R : A -> A -> Prop) (r1 r2 : Result (A * list Token)) : Prop :=
  match r1, r2 with
  | Ok (a1, rest1), Ok (a2, rest2) => R a1 a2 /\ sameTokens rest1 rest2
  | Throw _, Throw _ => True
  | OutOfFuel, OutOfFuel => True
  | _, _ => False
  end.

(** Both results are the same AST, or both are errors. *)
Definition sameAST (r1 r2 : Result ERDiagramAST) : Prop :=
  match r1, r2 with
  | Ok a1, Ok a2 => a1 = a2
  | Throw _, Throw _ => True
  | OutOfFuel, OutOfFuel => True
  | _, _ => False
  end.

(** *** Documents used as examples *)

(** [sellsDocument] on one line, with a comment and other spacing. *)
Definition sellsOneLine : jsstring :=
  str "Entity Store:store_id PK Entity Product :	product_id   PK
       Relation Store(1)--(M,total)Product:sells # a comment".

Definition emptyAST : ERDiagramAST := {| entities := []; relationships := [] |}.

Definition blankDocument : jsstring := [c_space; c_lf; c_tab; c_cr; c_lf].

(** *** Notions for counting declarations *)

(** The number of tokens of a type. *)
Definition countType (ty : TokenType) (ts : list Token) : nat :=
  length (List.filter (fun t => bool_decide (tok_type t = ty)) ts).

(** A token that is neither the keyword Entity, nor the keyword Relation, nor
    the end of the input. *)
Definition inert (t : Token) : Prop :=
  tok_type t <> ENTITY /\ tok_type t <> RELATION /\ tok_type t <> EOF.

(** A token list as [tokenize] returns them: one EOF token, at the end. *)
Definition endsWithEOF (ts : list Token) : Prop :=
  exists pre eof,
    ts = pre ++ [eof] /\ tok_type eof = EOF /\ Forall (fun t => tok_type t <> EOF) pre.

(** The call that returned [r] from the tokens [ts] consumed inert tokens
    only. *)
Definition eats {A} (ts : list Token) (r : Result (A * list Token)) : Prop :=
  match r with
  | Ok (_, rest) => exists consumed, ts = consumed ++ rest /\ Forall inert consumed
  | _ => True
  end.

(** *** Notions for the error messages *)

(** The message of [expect]. *)
Definition expectMessage (ty : TokenType) (t : Token) : jsstring :=
  str "Expected " ++ typeName ty ++ str " but got " ++ typeText t ++ str " at line "
  ++ decimal (line t) ++ str ", column " ++ decimal (column t).

(** The message of [parseParticipation]. *)
Definition participationMessage (t : Token) : jsstring :=
  str "Expected participation (total or partial) at line " ++ decimal (line t).

(** [message] is one of the three messages of the parser, about a token of
    [ts]. *)
Definition errorAt (message : jsstring) (ts : list Token) : Prop :=
  exists t, In t ts
            /\ (message = cardinalityMessage t \/ message = participationMessage t
                \/ exists ty, message = expectMessage ty t).

(** The call that returned [r] from the tokens [ts] left a suffix of them and
    did not go beyond their end. *)
Definition leaves {A} (ts : list Token) (r : Result (A * list Token)) : Prop :=
  match r with
  | Ok (_, rest) =>
      exists consumed, ts = consumed ++ rest /\ Forall (fun t => tok_type t <> EOF) consumed
  | _ => True
  end.

(** When the call that returned [r] from the tokens [ts], which end with their
    only EOF, threw an error, the message is about one of these tokens. *)
Definition reports {A} (ts : list Token) (r : Result A) : Prop :=
  endsWithEOF ts -> match r with Throw m => errorAt m ts | _ => True end.

(** An entity declared without a name. *)
Definition namelessEntity : jsstring := str "Entity : x".

(** *** Notions for the forward transform read back *)

(** The two pushes of [processAttribute]: the node of the attribute and the
    edge from its parent. *)
Definition pushAttribute (attr : AttributeNode) (parent : jsstring) (b : Build) : Build :=
  pushEdge
    (snd (generateEdgeId
            (pushNode (snd (generateNodeId b))
               (attributeDiagramNode attr (nodeIdOf (nodeIdCounter b + 1)) parent))))
    (containmentEdge (edgeIdOf (edgeIdCounter b + 1)) parent (nodeIdOf (nodeIdCounter b + 1))).

(** The attributes that [processAttribute] makes nodes of: the attribute, and
    the sub-attributes of a composite one, at every depth. *)
Fixpoint drawn (a : AttributeNode) : list AttributeNode :=
  a :: match attributeType a, subAttributes a with
       | composite, Some subs => flat_map drawn subs
       | _, _ => []
       end.

(** The attributes that [getAttributesForNode] can give back as they are: not
    of type 'typed', which has no node type of its own, and with a list of
    sub-attributes exactly when composite. *)
Fixpoint reversible (a : AttributeNode) : bool :=
  match attributeType a, subAttributes a with
  | composite, Some subs => forallb reversible subs
  | composite, None => false
  | typed, _ => false
  | _, Some _ => false
  | _, None => true
  end.

(** The number of nested calls that [getAttributesForNode] makes below an
    attribute. *)
Fixpoint attrDepth (a : AttributeNode) : nat :=
  match attributeType a, subAttributes a with
  | composite, Some subs => S (List.list_max (List.map attrDepth subs))
  | _, _ => O
  end.

(** The parent of the node is not a node numbered in (lo, hi]. *)
Definition parentOutside (lo hi : N) (x : DiagramNode) : Prop :=
  match parentId x with
  | Some q => exists k, (k <= lo \/ hi < k) /\ q = nodeIdOf k
  | None => True
  end.

(** The parent of the node is a node numbered in (lo, hi]. *)
Definition parentBetween (lo hi : N) (x : DiagramNode) : Prop :=
  exists k, lo < k <= hi /\ parentId x = Some (nodeIdOf k).

(** The nodes whose parent is [q]. *)
Definition childrenIn (ns : list DiagramNode) (q : jsstring) : list DiagramNode :=
  List.filter (fun y => bool_decide (parentId y = Some q)) ns.

(** What the loop of [getAttributesForNode] makes of one child, with [depth]
    nested calls left for its sub-attributes. *)
Definition readChild (depth : nat) (childrenMap : gmap jsstring (list DiagramNode))
    (child : DiagramNode) : Result (option AttributeNode) :=
  if includesAttribute (type child) then
    if bool_decide (type child = compositeAttribute) then
      subs ← getAttributesForNode depth (node_id child) childrenMap;
      Ok (Some (withSubAttributes (attributeOfNode child) subs))
    else Ok (Some (attributeOfNode child))
  else Ok None.

(** The children map lists, for every node, the nodes whose parent it is. *)
Definition bridged (ns : list DiagramNode) (childrenMap : gmap jsstring (list DiagramNode))
  : Prop :=
  forall q, default [] (childrenMap !! q) = childrenIn ns q.

(** [chunk q lo hi ns]: every node of [ns] has [q] for parent, or a node
    numbered in (lo, hi]. *)
Definition chunk (q : jsstring) (lo hi : N) (ns : list DiagramNode) : Prop :=
  Forall (fun y => parentId y = Some q \/ parentBetween lo hi y) ns.

(** [readsBack q lo hi ns l]: wherever the nodes [ns] stand among nodes whose
    parents are not numbered in (lo, hi], the children of [q] among them are
    read by [getAttributesForNode] as the attributes [l]. *)
Definition readsBack (q : jsstring) (lo hi : N) (ns : list DiagramNode)
    (l : list AttributeNode) : Prop :=
  forall N0 N2 cm depth,
    bridged (N0 ++ ns ++ N2) cm ->
    Forall (parentOutside lo hi) N0 -> Forall (parentOutside lo hi) N2 ->
    forallb reversible l = true ->
    Forall (fun s => (attrDepth s <= depth)%nat) l ->
    Forall2 (fun y s => readChild depth cm y = Ok (Some s)) (childrenIn ns q) l.

(** [adds q l b b']: from [b] to [b'] the nodes of the attributes [l] of the
    parent [q] were pushed. *)
Definition adds (q : jsstring) (l : list AttributeNode) (b b' : Build) : Prop :=
  exists ns,
    out_nodes b' = out_nodes b ++ ns
    /\ nodeIdCounter b <= nodeIdCounter b'
    /\ chunk q (nodeIdCounter b) (nodeIdCounter b') ns
    /\ readsBack q (nodeIdCounter b) (nodeIdCounter b') ns l.

(** *** Invariants of the forward transform *)

(** The identifiers are issued in order: the i-th node is node_i and the i-th
    edge is edge_i, and the counters hold the numbers issued. *)
Definition numbered (b : Build) : Prop :=
  nodeIdCounter b = N.of_nat (length (out_nodes b))
  /\ edgeIdCounter b = N.of_nat (length (out_edges b))
  /\ List.map node_id (out_nodes b)
     = List.map (fun i => nodeIdOf (N.of_nat i)) (seq 1 (length (out_nodes b)))
  /\ List.map edge_id (out_edges b)
     = List.map (fun i => edgeIdOf (N.of_nat i)) (seq 1 (length (out_edges b))).

(** The source and target of the edges without cardinality. *)
Definition ends (es : list DiagramEdge) : list (jsstring * jsstring) :=
  flat_map (fun e => if hasCardinality e then [] else [(sourceId e, targetId e)]) es.

(** The parent and identifier of the nodes that have a parent. *)
Definition links (ns : list DiagramNode) : list (jsstring * jsstring) :=
  flat_map (fun x => match parentId x with Some p => [(p, node_id x)] | None => [] end) ns.

(** The edges without cardinality are those from a parent to its node, in the
    order of the nodes. *)
Definition linked (b : Build) : Prop := ends (out_edges b) = links (out_nodes b).

(** [inside lo hi ns]: every node of [ns] has no parent, or a parent numbered
    in (lo, hi]. *)
Definition inside (lo hi : N) (ns : list DiagramNode) : Prop :=
  Forall (fun y => match parentId y with
                   | Some p => exists k, lo < k <= hi /\ p = nodeIdOf k
                   | None => True
                   end) ns.

(** The first component of [processEntity]: what it does to the build. *)
Definition buildEntity (b : Build) (e : EntityNode) : Build :=
  processAttributes (ent_attributes e) (nodeIdOf (nodeIdCounter b + 1))
    (pushNode (snd (generateNodeId b))
       (entityDiagramNode e (nodeIdOf (nodeIdCounter b + 1)))).

(** [declares mk attrsOf top lo hi ns ds]: the nodes [ns] are those of the
    declarations [ds], each a node without parent made by [mk] followed by the
    nodes of its attributes, and wherever they stand among nodes whose parents
    are not numbered in (lo, hi], the attributes of each are read back. *)
Definition declares {D} (mk : D -> jsstring -> DiagramNode)
    (attrsOf : D -> list AttributeNode) (top : DiagramNode -> bool)
    (lo hi : N) (ns : list DiagramNode) (ds : list D) : Prop :=
  inside lo hi ns
  /\ Forall2 (fun x d => x = mk d (node_id x)) (List.filter top ns) ds
  /\ forall N0 N2 cm depth,
       bridged (N0 ++ ns ++ N2) cm ->
       Forall (parentOutside lo hi) N0 -> Forall (parentOutside lo hi) N2 ->
       Forall (fun d => forallb reversible (attrsOf d) = true
                        /\ Forall (fun s => (attrDepth s <= depth)%nat) (attrsOf d)) ds ->
       Forall2 (fun x d => getAttributesForNode (S depth) (node_id x) cm = Ok (attrsOf d))
         (List.filter top ns) ds.

(** *** The ASTs that the two transforms give back *)

(** The attributes are read back as they are, within [depth] nested calls. *)
Definition attributesBack (depth : nat) (attrs : list AttributeNode) : Prop :=
  forallb reversible attrs = true /\ Forall (fun s => (attrDepth s < depth)%nat) attrs.

(** The AST that [diagramModelToAST] gives back from the model of
    [astToDiagramModel]: its attributes are read back as they are, its
    relationships have a name, and their two sides name declared entities. *)
Definition modelRoundTrips (depth : nat) (ast : ERDiagramAST) : Prop :=
  (0 < depth)%nat
  /\ Forall (fun e => attributesBack depth (ent_attributes e)) (entities ast)
  /\ Forall (fun r => attributesBack depth (rel_attributes r)
                      /\ rel_name r <> []
                      /\ In (side_entityName (leftSide r)) (List.map ent_name (entities ast))
                      /\ In (side_entityName (rightSide r)) (List.map ent_name (entities ast)))
       (relationships ast).

(** *** What the model keeps of an attribute *)

(** The attribute as the model holds it: a node has no type for 'typed', which
    is drawn as a simple attribute; only a composite attribute has its
    sub-attributes drawn, and it is read back with a list of them, empty when
    it had none. *)
Fixpoint asDrawn (a : AttributeNode) : AttributeNode :=
  {| attr_name := attr_name a;
     attributeType := match attributeType a with typed => simple | t => t end;
     keyType := keyType a; fkTarget := fkTarget a; dataType := dataType a;
     subAttributes := match attributeType a, subAttributes a with
                      | composite, Some subs => Some (List.map asDrawn subs)
                      | composite, None => Some []
                      | _, _ => None
                      end |}.

Definition entityAsDrawn (e : EntityNode) : EntityNode :=
  {| ent_name := ent_name e; entityType := entityType e;
     ent_attributes := List.map asDrawn (ent_attributes e);
     identifiedBy := identifiedBy e |}.

Definition relationshipAsDrawn (r : RelationshipNode) : RelationshipNode :=
  {| rel_name := rel_name r; relationshipType := relationshipType r;
     leftSide := leftSide r; rightSide := rightSide r; verb := verb r;
     rel_attributes := List.map asDrawn (rel_attributes r) |}.

Definition astAsDrawn (ast : ERDiagramAST) : ERDiagramAST :=
  {| entities := List.map entityAsDrawn (entities ast);
     relationships := List.map relationshipAsDrawn (relationships ast) |}.

(** The nested calls that reading the attributes back takes are within
    [depth]. *)
Definition readWithin (depth : nat) (attrs : list AttributeNode) : Prop :=
  Forall (fun s => (attrDepth (asDrawn s) < depth)%nat) attrs.

(** The AST whose model [diagramModelToAST] reads within [depth] nested calls,
    with relationships that have a name and two sides naming declared
    entities. *)
Definition modelReads (depth : nat) (ast : ERDiagramAST) : Prop :=
  (0 < depth)%nat
  /\ Forall (fun e => readWithin depth (ent_attributes e)) (entities ast)
  /\ Forall (fun r => readWithin depth (rel_attributes r)
                      /\ rel_name r <> []
                      /\ In (side_entityName (leftSide r)) (List.map ent_name (entities ast))
                      /\ In (side_entityName (rightSide r)) (List.map ent_name (entities ast)))
       (relationships ast).

(** Every attribute of the AST is [reversible]. *)
Definition allReversible (ast : ERDiagramAST) : Prop :=
  Forall (fun e => forallb reversible (ent_attributes e) = true) (entities ast)
  /\ Forall (fun r => forallb reversible (rel_attributes r) = true) (relationships ast).

(** *** The nodes and edges of the model of an AST *)

(** What a node shows: its type and its label. *)
Definition kind (x : DiagramNode) : DiagramNodeType * jsstring := (type x, label x).

Definition attributeKinds (attrs : list AttributeNode) : list (DiagramNodeType * jsstring) :=
  List.map (fun a => (attributeNodeType (attributeType a), attr_name a)) (flat_map drawn attrs).

(** An entity, then its attributes, each followed by what is drawn below it. *)
Definition entityKinds (e : EntityNode) : list (DiagramNodeType * jsstring) :=
  (match entityType e with weak => weakEntity | strong => entity end, ent_name e)
  :: attributeKinds (ent_attributes e).

(** A relationship, labelled with its verb, then its attributes. *)
Definition relationshipKinds (r : RelationshipNode) : list (DiagramNodeType * jsstring) :=
  (match relationshipType r with identifying => identifyingRelationship | normal => relationship end,
   verb r)
  :: attributeKinds (rel_attributes r).

Definition astKinds (ast : ERDiagramAST) : list (DiagramNodeType * jsstring) :=
  flat_map entityKinds (entities ast) ++ flat_map relationshipKinds (relationships ast).

Definition ids (b : Build) : list jsstring := List.map node_id (out_nodes b).

(** Every edge joins two nodes. *)
Definition joins (nodeIds : list jsstring) (es : list DiagramEdge) : Prop :=
  Forall (fun e => In (sourceId e) nodeIds /\ In (targetId e) nodeIds) es.

Definition joined (b : Build) : Prop := joins (ids b) (out_edges b).

(** The values of [entityNodeMap] are identifiers of nodes. *)
Definition mapped (b : Build) (emap : gmap jsstring jsstring) : Prop :=
  forall n i, emap !! n = Some i -> In i (ids b).

(** *** What the reverse transform does not read *)

(** The node with another parent and another geometry. *)
Definition replaced (x : DiagramNode) (p : option jsstring) (gx gy gw gh : option Q)
  : DiagramNode :=
  {| node_id := node_id x; type := type x; label := label x; name := name x;
     parentId := p;
     isPrimaryKey := isPrimaryKey x; isForeignKey := isForeignKey x;
     node_fkTarget := node_fkTarget x; node_dataType := node_dataType x;
     node_identifiedBy := node_identifiedBy x; node_entityType := node_entityType x;
     node_relationshipType := node_relationshipType x;
     node_x := gx; node_y := gy; width := gw; height := gh |}.

(** Every node with the [parentId], [x], [y], [width] and [height] that [g]
    gives it, and everything else as it is. *)
Definition relaidNode (g : DiagramNode -> DiagramNode) (x : DiagramNode) : DiagramNode :=
  replaced x (parentId (g x)) (node_x (g x)) (node_y (g x)) (width (g x)) (height (g x)).

Definition relaid (g : DiagramNode -> DiagramNode) (m : DiagramModel) : DiagramModel :=
  {| nodes := List.map (relaidNode g) (nodes m); edges := edges m |}.

(** *** The layout of the relationships *)

Local Open Scope Q_scope.

(** [edge.sourceId === rel.id ? edge.targetId : edge.sourceId] *)
Definition otherEnd (rel : DiagramNode) (edge : DiagramEdge) : jsstring :=
  if bool_decide (sourceId edge = node_id rel) then targetId edge else sourceId edge.

(** The abscissa of the k-th entity of the row. *)
Definition entityColumn (k : nat) : Q := inject_Z (100 + 200 * Z.of_nat k).

(** The sum of the abscissas, taken in their order, over their number, every
    sum and the quotient rounded to a double; 400 when there is none. *)
Definition meanOr400 (xs : list Q) : Q :=
  if Nat.ltb 0 (length xs)
  then fl (fold_left (fun sum x => fl (sum + x)) xs 0 / ofIndex (length xs))
  else 400.

Local Close Scope Q_scope.

(** *** The layout of the attributes *)

Local Open Scope Q_scope.

(** The attributes whose parent, by [parentMap], is [p]: the group that
    [calculateLayout] collects for [p]. *)
Definition groupOf (parentMap : gmap jsstring jsstring) (attributes : list DiagramNode)
    (p : jsstring) : list DiagramNode :=
  List.filter (fun c => bool_decide (getTruthy parentMap (node_id c) = Some p)) attributes.

(** The place of the i-th of [n] attributes around a parent at [parentPos]:
    50 apart and centred on the parent, a row above it when it is an entity
    and a row below it otherwise, every difference and sum rounded to a
    double. *)
Definition attributeSlot (isEntity : bool) (parentPos : Position) (n i : nat) : Position :=
  {| pos_x := fl (fl (pos_x parentPos - (inject_Z (Z.of_nat n - 1) * ATTRIBUTE_SPACING) / 2)
                  + ofIndex i * ATTRIBUTE_SPACING);
     pos_y := if isEntity then fl (pos_y parentPos - VERTICAL_SPACING)
              else fl (pos_y parentPos + VERTICAL_SPACING) |}.

Local Close Scope Q_scope.

(** The groups collected from the attributes [l]: one for every parent that
    has attributes, holding them in their order. *)
Definition grouped (parentMap : gmap jsstring jsstring) (l : list DiagramNode)
    (groups : list (jsstring * list DiagramNode)) : Prop :=
  List.NoDup (List.map fst groups)
  /\ forall p, assoc p groups = match groupOf parentMap l p with
                                | [] => None
                                | g => Some g
                                end.

(** *** Where the tokens stand *)

(** The line that follows the code units [pre]: one more than their line
    feeds. *)
Definition lineAfter (pre : jsstring) : N :=
  1 + N.of_nat (length (List.filter (N.eqb c_lf) pre)).

(** The code units of [s] after its last line feed. *)
Fixpoint lastLine (s : jsstring) : jsstring :=
  match s with
  | [] => []
  | _ :: s' => if existsb (N.eqb c_lf) s then lastLine s' else s
  end.

(** The column that follows the code units [pre]: one more than the code
    units since the last line feed. *)
Definition columnAfter (pre : jsstring) : N := 1 + N.of_nat (length (lastLine pre)).

(** The text of the token stands in the document [s] at the line and column
    that the token carries. *)
Definition located (s : jsstring) (t : Token) : Prop :=
  exists pre post,
    s = pre ++ value t ++ post /\ line t = lineAfter pre /\ column t = columnAfter pre.

Definition noLineFeed (x : jsstring) : Prop := Forall (fun c => c <> c_lf) x.

(** The tokenizer has read [done] of the document [s]. *)
Definition reached (s done : jsstring) (t : Tokenizer) : Prop :=
  s = done ++ input t
  /\ cur_line t = lineAfter done /\ cur_column t = columnAfter done
  /\ Forall (located s) (tokens t).

(** *** A document through the editor *)

(** Both sides of every relationship name an entity of the AST. *)
Definition sidesDeclared (ast : ERDiagramAST) : Prop :=
  Forall (fun r => In (side_entityName (leftSide r)) (List.map ent_name (entities ast))
                   /\ In (side_entityName (rightSide r)) (List.map ent_name (entities ast)))
    (relationships ast).

(** No attribute of an entity is of type 'typed'. *)
Definition untyped (ast : ERDiagramAST) : Prop :=
  Forall (fun e => Forall (fun a => attributeType a <> typed) (ent_attributes e))
    (entities ast).

(** The attribute nodes of the model of the sample document, and among them
    the composite attribute address of Store and its sub-attribute street. *)
Definition sampleModel : DiagramModel := Eval vm_compute in astToDiagramModel sampleAST.
Definition sampleAttributeNodes : list DiagramNode :=
  Eval vm_compute in List.filter (fun n => includesAttribute (type n)) (nodes sampleModel).
Definition sampleAddress : DiagramNode :=
  Eval vm_compute in nth 2 sampleAttributeNodes (bareNode [] compositeAttribute []).
Definition sampleStreet : DiagramNode :=
  Eval vm_compute in nth 3 sampleAttributeNodes (bareNode [] simpleAttribute []).

(** *** Comments *)

(** The text is at the end of a line: it is empty or starts with a line
    feed. *)
Definition endOfLine (s : jsstring) : Prop :=
  match s with
  | [] => True
  | c :: _ => c = c_lf
  end.

(** A declaration with a comment after its header, and the same without. *)
Definition commentedStore : jsstring :=
  str "Entity Store: " ++ c_hash :: str " the shops" ++ c_lf :: str "  store_id PK".
Definition plainStore : jsstring :=
  str "Entity Store: " ++ c_lf :: str "  store_id PK".
Definition storeAST : ERDiagramAST :=
  Eval vm_compute in
    match parseDSL plainStore with
    | Ok ast => ast
    | _ => {| entities := []; relationships := [] |}
    end.

(** *** A layout that rounds *)

(** A relationship with three edges that carry a cardinality, two to the
    first entity and one to the second, and five attributes. *)
Definition cardinalityEdge (i src tgt : jsstring) : DiagramEdge :=
  {| edge_id := i; sourceId := src; targetId := tgt; edge_label := None;
     sourceCardinality := Some One; targetCardinality := None;
     sourceParticipation := None; targetParticipation := None |}.
Definition threeEdgesModel : DiagramModel :=
  {| nodes := [bareNode (str "e1") entity (str "E1");
               bareNode (str "e2") entity (str "E2");
               bareNode (str "r") relationship (str "R");
               bareNode (str "a1") simpleAttribute (str "A1");
               bareNode (str "a2") simpleAttribute (str "A2");
               bareNode (str "a3") simpleAttribute (str "A3");
               bareNode (str "a4") simpleAttribute (str "A4");
               bareNode (str "a5") simpleAttribute (str "A5")];
     edges := [cardinalityEdge (str "x1") (str "e1") (str "r");
               cardinalityEdge (str "x2") (str "r") (str "e1");
               cardinalityEdge (str "x3") (str "e2") (str "r");
               containmentEdge (str "c1") (str "r") (str "a1");
               containmentEdge (str "c2") (str "r") (str "a2");
               containmentEdge (str "c3") (str "r") (str "a3");
               containmentEdge (str "c4") (str "r") (str "a4");
               containmentEdge (str "c5") (str "r") (str "a5")] |}.

(** The double nearest to 500 / 3, the mean of 100, 100 and 300. *)
Definition nearest500over3 : Q := (5864062014805333 # 35184372088832)%Q.

(** *** Two documents that the parser rejects by a slip *)

(** The weak entity of [weakEntityDocument] under the name of a member that
    objects inherit, and the AST of [weakEntityDocument]. *)
Definition weakConstructorDocument : jsstring :=
  str "Weak Entity constructor:
  quantity
  price".
Definition weakEntityAST : ERDiagramAST :=
  {| entities := [{| ent_name := str "OrderItem"; entityType := weak;
                     ent_attributes := [plainAttribute (str "quantity");
                                        plainAttribute (str "price")];
                     identifiedBy := None |}];
     relationships := [] |}.

(** The AST of one entity. *)
Definition oneEntity (e : EntityNode) : ERDiagramAST :=
  {| entities := [e]; relationships := [] |}.

(** ** Basic facts about the token cursor *)

Lemma check_true ty ts :
  check ty ts = true ->
  exists t rest, ts = t :: rest /\ tok_type t = ty /\ ty <> EOF /\ advance ts = rest.
Proof.
  unfold check, advance, isAtEnd. destruct ts as [|t rest]; simpl.
  - discriminate.
  - intros H. apply andb_true_iff in H as [H1 H2].
    apply negb_true_iff in H1. rewrite H1.
    apply bool_decide_eq_true_1 in H2. apply bool_decide_eq_false_1 in H1.
    exists t, rest. repeat split; congruence.
Qed.

Lemma check_cons ty t rest :
  tok_type t = ty -> ty <> EOF -> check ty (t :: rest) = true.
Proof.
  intros H1 H2. unfold check, isAtEnd. simpl.
  rewrite bool_decide_eq_false_2 by congruence.
  rewrite bool_decide_eq_true_2 by assumption. reflexivity.
Qed.

Lemma check_other ty t rest :
  tok_type t <> ty -> check ty (t :: rest) = false.
Proof.
  intros H. unfold check. simpl.
  rewrite (bool_decide_eq_false_2 (tok_type t = ty)) by assumption.
  apply andb_false_r.
Qed.

Lemma expect_Ok ty ts t rest :
  expect ty ts = Ok (t, rest) -> ts = t :: rest /\ tok_type t = ty /\ ty <> EOF.
Proof.
  unfold expect. destruct (check ty ts) eqn:E; [|discriminate].
  apply check_true in E as (t' & rest' & -> & Hty & Hne & Hadv).
  simpl. intros [= <- <-]. rewrite Hadv. auto.
Qed.

Lemma expect_cons ty t rest :
  tok_type t = ty -> ty <> EOF -> expect ty (t :: rest) = Ok (t, rest).
Proof.
  intros H1 H2. unfold expect. rewrite check_cons by assumption.
  unfold advance, isAtEnd. simpl.
  rewrite bool_decide_eq_false_2 by congruence. reflexivity.
Qed.

Lemma expect_not_OutOfFuel ty ts : expect ty ts <> OutOfFuel.
Proof. unfold expect. destruct (check ty ts); discriminate. Qed.

Lemma advance_cons t rest : tok_type t <> EOF -> advance (t :: rest) = rest.
Proof.
  intros H. unfold advance, isAtEnd. simpl.
  rewrite bool_decide_eq_false_2 by assumption. reflexivity.
Qed.

Lemma advance_length ts : (length (advance ts) <= length ts)%nat.
Proof.
  unfold advance. destruct (isAtEnd ts); [lia|]. destruct ts; simpl; lia.
Qed.

Lemma advance_length_lt ts :
  isAtEnd ts = false -> (length (advance ts) < length ts)%nat.
Proof.
  unfold advance. intros H. rewrite H. destruct ts as [|t rest]; simpl; [|lia].
  discriminate.
Qed.

Lemma bind_Ok {A B} (r : Result A) (k : A -> Result B) b :
  r ≫= k = Ok b -> exists a, r = Ok a /\ k a = Ok b.
Proof. destruct r; simpl; try discriminate. eauto. Qed.

Lemma bind_OutOfFuel {A B} (r : Result A) (k : A -> Result B) :
  r ≫= k = OutOfFuel -> r = OutOfFuel \/ exists a, r = Ok a /\ k a = OutOfFuel.
Proof. destruct r; simpl; try discriminate; eauto. Qed.

Ltac step_bind H :=
  let p := fresh "p" in
  let E := fresh "E" in
  apply bind_Ok in H as (p & E & H); destruct p; simpl in H.

Ltac step_expect H :=
  let p := fresh "p" in
  let E := fresh "E" in
  let Hty := fresh "Hty" in
  apply bind_Ok in H as (p & E & H); destruct p; simpl in H;
  apply expect_Ok in E as (-> & Hty & _).

Lemma parseCardinality_Ok ts c rest :
  parseCardinality ts = Ok (c, rest) ->
  exists t, ts = t :: rest /\
    ((tok_type t = ONE /\ c = One) \/ (tok_type t = M /\ c = Many)).
Proof.
  unfold parseCardinality.
  destruct (check ONE ts) eqn:E1.
  - apply check_true in E1 as (t & r & -> & Hty & _ & Hadv).
    intros [= <- <-]. exists t. rewrite Hadv. auto.
  - destruct (check M ts) eqn:E2; [|discriminate].
    apply check_true in E2 as (t & r & -> & Hty & _ & Hadv).
    intros [= <- <-]. exists t. rewrite Hadv. auto.
Qed.

Lemma parseCardinality_Throw ts :
  tok_type (current ts) <> ONE -> tok_type (current ts) <> M ->
  parseCardinality ts = Throw (cardinalityMessage (current ts)).
Proof.
  intros H1 H2. unfold parseCardinality, check.
  rewrite !bool_decide_eq_false_2 by assumption.
  rewrite !andb_false_r. reflexivity.
Qed.

Lemma parseIdentifyingRelation_shape ts r rest :
  parseIdentifyingRelation ts = Ok (r, rest) ->
  exists k1 k2 l p1 c1 q1 d p2 c2 q2 e co v,
    ts = k1 :: k2 :: l :: p1 :: c1 :: q1 :: d :: p2 :: c2 :: q2 :: e :: co :: v :: rest
    /\ List.map tok_type [k1; k2; l; p1; q1; d; p2; q2; e; co; v]
       = [IDENTIFYING; RELATION; IDENTIFIER; LPAREN; RPAREN; DASH; LPAREN; RPAREN;
          IDENTIFIER; COLON; IDENTIFIER]
    /\ (tok_type c1 = ONE \/ tok_type c1 = M)
    /\ (tok_type c2 = ONE \/ tok_type c2 = M)
    /\ r = {| rel_name := value v; relationshipType := identifying;
              leftSide := {| side_entityName := value l;
                             cardinality := if bool_decide (tok_type c1 = ONE) then One else Many;
                             participation := total |};
              rightSide := {| side_entityName := value e;
                              cardinality := if bool_decide (tok_type c2 = ONE) then One else Many;
                              participation := total |};
              verb := value v; rel_attributes := [] |}.
Proof.
  intros H. unfold parseIdentifyingRelation in H.
  do 4 step_expect H.
  step_bind H. apply parseCardinality_Ok in E as (c1 & -> & Hc1).
  do 3 step_expect H.
  step_bind H. apply parseCardinality_Ok in E as (c2 & -> & Hc2).
  do 4 step_expect H.
  injection H as <- <-.
  do 13 eexists. split; [reflexivity|]. split.
  { simpl. congruence. }
  split; [tauto|]. split; [tauto|].
  f_equal; f_equal.
  - destruct Hc1 as [[E ->]|[E ->]]; rewrite E; reflexivity.
  - destruct Hc2 as [[E ->]|[E ->]]; rewrite E; reflexivity.
Qed.

(** ** Invariants of the parser's loops *)

Section LoopInvariants.
Context (PA : AttributeNode -> Prop) (PE : EntityNode -> Prop)
        (PR : RelationshipNode -> Prop).

Lemma parseAttributeList_loop_Forall fuel : forall ts acc attrs rest,
  (forall ts a rest, parseAttribute ts = Ok (a, rest) -> PA a) ->
  Forall PA acc ->
  parseAttributeList_loop fuel ts acc = Ok (attrs, rest) ->
  Forall PA attrs.
Proof.
  induction fuel as [|fuel IH]; intros ts acc attrs rest HA Hacc H; [discriminate|].
  simpl in H.
  destruct (negb (isAtEnd ts) && negb (isEntityOrRelationStart ts)).
  - destruct (check IDENTIFIER ts).
    + step_bind H. eapply IH in H; eauto.
      apply Forall_app; split; [assumption|]. constructor; eauto.
    + destruct (check IDENTIFIED ts).
      * injection H as <- <-. assumption.
      * eapply IH in H; eauto.
  - injection H as <- <-. assumption.
Qed.

Lemma parse_loop_Forall fuel : forall ts ents rels ast,
  (forall ts e rest, parseEntity ts = Ok (e, rest) -> PE e) ->
  (forall ts e rest, parseWeakEntity ts = Ok (e, rest) -> PE e) ->
  (forall ts r rest, parseRelation ts = Ok (r, rest) -> PR r) ->
  (forall ts r rest, parseIdentifyingRelation ts = Ok (r, rest) -> PR r) ->
  Forall PE ents -> Forall PR rels ->
  parse_loop fuel ts ents rels = Ok ast ->
  Forall PE (entities ast) /\ Forall PR (relationships ast).
Proof.
  induction fuel as [|fuel IH]; intros ts ents rels ast H1 H2 H3 H4 He Hr H;
    [discriminate|].
  simpl in H. destruct (negb (isAtEnd ts)).
  - destruct (check ENTITY ts).
    { step_bind H. eapply IH in H; eauto.
      apply Forall_app; split; [assumption|]. constructor; eauto. }
    destruct (check WEAK ts).
    { step_bind H. eapply IH in H; eauto.
      apply Forall_app; split; [assumption|]. constructor; eauto. }
    destruct (check RELATION ts).
    { step_bind H. eapply IH in H; eauto.
      apply Forall_app; split; [assumption|]. constructor; eauto. }
    destruct (check IDENTIFYING ts).
    { step_bind H. eapply IH in H; eauto.
      apply Forall_app; split; [assumption|]. constructor; eauto. }
    eapply IH in H; eauto.
  - injection H as <-. simpl. auto.
Qed.
End LoopInvariants.

(** ** Identifying relationships *)

Lemma parseRelation_normal ts r rest :
  parseRelation ts = Ok (r, rest) -> relationshipType r = normal.
Proof.
  intros H. unfold parseRelation in H.
  repeat step_bind H. injection H as <- <-. reflexivity.
Qed.

(** C7. Every relationship that [parseDSL] builds from an "Identifying
    Relation" declaration has participation "total" on both sides, and the
    declaration has no place for a participation: the tokens that
    [parseIdentifyingRelation] accepts are the thirteen of
    "Identifying Relation L ( c ) -- ( c ) R : verb", the cardinalities being
    followed by the closing parenthesis at once, and the node is built from
    the two names, the two cardinalities and the verb alone. *)
Theorem C7_identifying_is_total :
  (forall s ast r,
      parseDSL s = Ok ast -> In r (relationships ast) ->
      relationshipType r = identifying -> bothTotal r)
  /\ (forall ts r rest,
        parseIdentifyingRelation ts = Ok (r, rest) ->
        relationshipType r = identifying /\ bothTotal r /\
        exists k1 k2 l p1 c1 q1 d p2 c2 q2 e co v,
          ts = k1 :: k2 :: l :: p1 :: c1 :: q1 :: d :: p2 :: c2 :: q2 :: e :: co :: v :: rest
          /\ List.map tok_type [k1; k2; l; p1; c1; q1; d; p2; c2; q2; e; co; v]
             = [IDENTIFYING; RELATION; IDENTIFIER; LPAREN; tok_type c1; RPAREN; DASH;
                LPAREN; tok_type c2; RPAREN; IDENTIFIER; COLON; IDENTIFIER]
          /\ (tok_type c1 = ONE \/ tok_type c1 = M)
          /\ (tok_type c2 = ONE \/ tok_type c2 = M)
          /\ side_entityName (leftSide r) = value l
          /\ side_entityName (rightSide r) = value e
          /\ verb r = value v).
Proof.
  assert (Hshape : forall ts r rest,
             parseIdentifyingRelation ts = Ok (r, rest) ->
             relationshipType r = identifying /\ bothTotal r).
  { intros ts r rest H.
    apply parseIdentifyingRelation_shape in H
      as (k1 & k2 & l & p1 & c1 & q1 & d & p2 & c2 & q2 & e & co & v & _ & _ & _ & _ & ->).
    repeat split. }
  split.
  - intros s ast r H Hin Hid. unfold parseDSL, parse in H.
    eapply (parse_loop_Forall (fun _ => True)
              (fun r => relationshipType r = identifying -> bothTotal r)) in H;
      auto.
    + destruct H as [_ H]. rewrite List.Forall_forall in H. auto.
    + intros ts r' rest H' Hid'. apply parseRelation_normal in H'. congruence.
    + intros ts r' rest H' _. apply Hshape in H'. tauto.
  - intros ts r rest H. destruct (Hshape _ _ _ H) as [Hid Htot].
    split; [assumption|]. split; [assumption|].
    apply parseIdentifyingRelation_shape in H
      as (k1 & k2 & l & p1 & c1 & q1 & d & p2 & c2 & q2 & e & co & v
          & -> & Hty & Hc1 & Hc2 & ->).
    exists k1, k2, l, p1, c1, q1, d, p2, c2, q2, e, co, v.
    split; [reflexivity|]. split.
    { simpl in *. congruence. }
    auto.
Qed.

(** ** Coherence of the attribute fields *)

Ltac solve_coherent :=
  unfold fieldsCoherent; simpl; repeat split; intros;
  try discriminate; try congruence;
  try (match goal with H : is_Some None |- _ => destruct H; discriminate end);
  eauto.

Lemma plain_coherent a : isPlain a -> Forall fieldsCoherent (allAttributes a).
Proof.
  intros [n ->]. simpl. constructor; [|constructor].
  solve_coherent.
Qed.

Lemma Forall_flat_map {A B} (P : B -> Prop) (f : A -> list B) l :
  Forall (fun a => Forall P (f a)) l -> Forall P (flat_map f l).
Proof.
  induction 1; simpl; [constructor|]. apply Forall_app. auto.
Qed.

Lemma Forall_flat_map_nested {A B C} (P : C -> Prop) (f : B -> list C)
    (g : A -> list B) l :
  Forall (fun a => Forall P (flat_map f (g a))) l ->
  Forall P (flat_map f (flat_map g l)).
Proof.
  induction 1; simpl; [constructor|].
  rewrite flat_map_app. apply Forall_app. auto.
Qed.

Lemma parseSubAttributeList_loop_plain fuel : forall ts acc attrs rest,
  Forall isPlain acc ->
  parseSubAttributeList_loop fuel ts acc = Ok (attrs, rest) ->
  Forall isPlain attrs.
Proof.
  induction fuel as [|fuel IH]; intros ts acc attrs rest Hacc H; [discriminate|].
  simpl in H.
  assert (Hsnoc : forall n, Forall isPlain (acc ++ [plainAttribute n])).
  { intros n. apply Forall_app. split; [assumption|]. constructor; [|constructor].
    exists n. reflexivity. }
  destruct (negb (isAtEnd ts) && check IDENTIFIER ts).
  - destruct (followedByMarker ts).
    + injection H as <- <-. assumption.
    + step_bind H.
      destruct (isEntityOrRelationStart _ || check IDENTIFIED _).
      * injection H as <- <-. apply Hsnoc.
      * eapply IH in H; eauto.
  - injection H as <- <-. assumption.
Qed.

Lemma parseRelationAttributeList_loop_plain fuel : forall ts acc attrs rest,
  Forall isPlain acc ->
  parseRelationAttributeList_loop fuel ts acc = Ok (attrs, rest) ->
  Forall isPlain attrs.
Proof.
  induction fuel as [|fuel IH]; intros ts acc attrs rest Hacc H; [discriminate|].
  simpl in H.
  destruct (negb (isAtEnd ts) && negb (isEntityOrRelationStart ts) && check IDENTIFIER ts).
  - step_bind H. eapply IH in H; eauto.
    apply Forall_app. split; [assumption|]. constructor; [|constructor].
    eexists. reflexivity.
  - injection H as <- <-. assumption.
Qed.

Ltac coherent_leaf := simpl; constructor; [|constructor]; solve_coherent.

Lemma parseAttribute_coherent ts a rest :
  parseAttribute ts = Ok (a, rest) -> Forall fieldsCoherent (allAttributes a).
Proof.
  intros H. unfold parseAttribute in H. step_bind H.
  destruct (check PK _). { injection H as <- <-. coherent_leaf. }
  destruct (check FK _).
  { destruct (check ARROW _).
    - step_bind H. injection H as <- <-. coherent_leaf.
    - injection H as <- <-. coherent_leaf. }
  destruct (check COMPOSITE _).
  { do 2 step_bind H. injection H as <- <-.
    match goal with
    | E : parseSubAttributeList _ = _ |- _ =>
        apply parseSubAttributeList_loop_plain in E; [|constructor];
        simpl; constructor; [solve_coherent|];
        apply Forall_flat_map; eapply List.Forall_impl; [|exact E]
    end.
    apply plain_coherent. }
  destruct (check MULTIVALUED _). { injection H as <- <-. coherent_leaf. }
  destruct (check DERIVED _). { injection H as <- <-. coherent_leaf. }
  destruct (check COLON _).
  { step_bind H. injection H as <- <-. coherent_leaf. }
  injection H as <- <-. apply plain_coherent. eexists. reflexivity.
Qed.

Lemma parseAttributeList_coherent ts attrs rest :
  parseAttributeList ts = Ok (attrs, rest) ->
  Forall fieldsCoherent (flat_map allAttributes attrs).
Proof.
  intros H. apply Forall_flat_map.
  eapply parseAttributeList_loop_Forall in H; eauto.
  intros ts' a rest'. apply parseAttribute_coherent.
Qed.

(** C10. In the AST that [parseDSL] returns, every attribute node, nested ones
    included, has [subAttributes] defined exactly when it is composite,
    [dataType] only when it is typed, [fkTarget] only when it is a foreign
    key, and a key marker only on a simple attribute. *)
Theorem C10_attribute_fields_coherent s ast :
  parseDSL s = Ok ast -> Forall fieldsCoherent (astAttributes ast).
Proof.
  intros H. unfold parseDSL, parse in H.
  eapply (parse_loop_Forall
            (fun e => Forall fieldsCoherent (flat_map allAttributes (ent_attributes e)))
            (fun r => Forall fieldsCoherent (flat_map allAttributes (rel_attributes r))))
    in H; try constructor.
  - destruct H as [He Hr]. unfold astAttributes.
    rewrite flat_map_app. apply Forall_app.
    split; apply Forall_flat_map_nested; assumption.
  - intros ts e rest H'. unfold parseEntity in H'. repeat step_bind H'.
    injection H' as <- <-. simpl. eapply parseAttributeList_coherent; eauto.
  - intros ts e rest H'. unfold parseWeakEntity in H'. do 5 step_bind H'.
    destruct (check IDENTIFIED _).
    + do 2 step_bind H'. injection H' as <- <-. simpl.
      eapply parseAttributeList_coherent; eauto.
    + injection H' as <- <-. simpl. eapply parseAttributeList_coherent; eauto.
  - intros ts r rest H'. unfold parseRelation in H'. repeat step_bind H'.
    injection H' as <- <-. simpl.
    match goal with
    | E : parseRelationAttributeList _ = _ |- _ =>
        apply parseRelationAttributeList_loop_plain in E; [|constructor];
        apply Forall_flat_map; eapply List.Forall_impl; [|exact E]
    end.
    apply plain_coherent.
  - intros ts r rest H'.
    apply parseIdentifyingRelation_shape in H'
      as (k1 & k2 & l & p1 & c1 & q1 & d & p2 & c2 & q2 & e & co & v & _ & _ & _ & _ & ->).
    simpl. constructor.
Qed.

(** ** The cardinality error *)

Lemma parseCardinality_cons_Ok c rest :
  isCardinalityToken c ->
  parseCardinality (c :: rest)
  = Ok (if bool_decide (tok_type c = ONE) then One else Many, rest).
Proof.
  intros [H|H]; unfold parseCardinality.
  - rewrite check_cons by (auto; discriminate). rewrite advance_cons by congruence.
    rewrite bool_decide_eq_true_2 by assumption. reflexivity.
  - rewrite check_other by congruence. rewrite check_cons by (auto; discriminate).
    rewrite advance_cons by congruence.
    rewrite bool_decide_eq_false_2 by congruence. reflexivity.
Qed.

Lemma parseOptionalParticipation_none t rest :
  tok_type t <> COMMA -> parseOptionalParticipation (t :: rest) = Ok (partial, t :: rest).
Proof. intros H. unfold parseOptionalParticipation. rewrite check_other; auto. Qed.

Lemma parseOptionalParticipation_some co pa rest :
  tok_type co = COMMA -> isParticipationToken pa ->
  parseOptionalParticipation (co :: pa :: rest)
  = Ok (if bool_decide (tok_type pa = TOTAL) then total else partial, rest).
Proof.
  intros Hco Hpa. unfold parseOptionalParticipation.
  rewrite check_cons by (auto; discriminate). rewrite advance_cons by congruence.
  unfold parseParticipation. destruct Hpa as [H|H].
  - rewrite check_cons by (auto; discriminate). rewrite advance_cons by congruence.
    rewrite bool_decide_eq_true_2 by assumption. reflexivity.
  - rewrite check_other by congruence. rewrite check_cons by (auto; discriminate).
    rewrite advance_cons by congruence.
    rewrite bool_decide_eq_false_2 by congruence. reflexivity.
Qed.

Ltac run_expect :=
  rewrite expect_cons by (first [assumption | discriminate]); simpl.

Lemma cardinalityPosition_declaration ts here :
  cardinalityPosition ts here ->
  tok_type (current here) <> ONE -> tok_type (current here) <> M ->
  (check RELATION ts = true /\ check ENTITY ts = false /\ check WEAK ts = false
   /\ isAtEnd ts = false
   /\ parseRelation ts = Throw (cardinalityMessage (current here)))
  \/ (check IDENTIFYING ts = true /\ check ENTITY ts = false /\ check WEAK ts = false
      /\ check RELATION ts = false /\ isAtEnd ts = false
      /\ parseIdentifyingRelation ts = Throw (cardinalityMessage (current here))).
Proof.
  intros Hpos H1 H2. pose proof (parseCardinality_Throw here H1 H2) as Hthrow.
  destruct Hpos as [k l p here Hty | k l p c q d p' here Hty Hc
                   | k l p c co pa q d p' here Hty Hc Hpa
                   | i k l p here Hty | i k l p c q d p' here Hty Hc];
    simpl in Hty; simplify_eq.
  - left. unfold isAtEnd. simpl.
    rewrite check_cons, !check_other, bool_decide_eq_false_2 by congruence.
    repeat split. unfold parseRelation. repeat run_expect. rewrite Hthrow. reflexivity.
  - left. unfold isAtEnd. simpl.
    rewrite check_cons, !check_other, bool_decide_eq_false_2 by congruence.
    repeat split. unfold parseRelation. repeat run_expect.
    rewrite parseCardinality_cons_Ok by assumption. simpl.
    rewrite parseOptionalParticipation_none by congruence. simpl.
    repeat run_expect. rewrite Hthrow. reflexivity.
  - left. unfold isAtEnd. simpl.
    rewrite check_cons, !check_other, bool_decide_eq_false_2 by congruence.
    repeat split. unfold parseRelation. repeat run_expect.
    rewrite parseCardinality_cons_Ok by assumption. simpl.
    rewrite parseOptionalParticipation_some by assumption. simpl.
    repeat run_expect. rewrite Hthrow. reflexivity.
  - right. unfold isAtEnd. simpl.
    rewrite check_cons, !check_other, bool_decide_eq_false_2 by congruence.
    repeat split. unfold parseIdentifyingRelation. repeat run_expect.
    rewrite Hthrow. reflexivity.
  - right. unfold isAtEnd. simpl.
    rewrite check_cons, !check_other, bool_decide_eq_false_2 by congruence.
    repeat split. unfold parseIdentifyingRelation. repeat run_expect.
    rewrite parseCardinality_cons_Ok by assumption. simpl.
    repeat run_expect. rewrite Hthrow. reflexivity.
Qed.

(** The error of [parseCardinality] seen from [parse]: when the parser stands
    at a relation declaration, plain or identifying, whose left or right
    cardinality position holds a token that is neither "1" nor "M", the parse
    throws, whatever was parsed before, "Expected cardinality (1 or M) at line
    N", N being the line of that token. *)
Lemma cardinality_error_at_declaration ts here fuel ents rels :
  cardinalityPosition ts here ->
  tok_type (current here) <> ONE -> tok_type (current here) <> M ->
  parse_loop (S fuel) ts ents rels
  = Throw (str "Expected cardinality (1 or M) at line " ++ decimal (line (current here))).
Proof.
  intros Hpos H1 H2.
  destruct (cardinalityPosition_declaration ts here Hpos H1 H2)
    as [(Hr & He & Hw & Hend & Hthrow) | (Hi & He & Hw & Hr & Hend & Hthrow)];
    simpl; rewrite Hend; simpl.
  - rewrite He, Hw, Hr, Hthrow. reflexivity.
  - rewrite He, Hw, Hr, Hi, Hthrow. reflexivity.
Qed.

(** ** The sub-attribute list of a composite attribute *)

Lemma check_implies_not_end ty ts : check ty ts = true -> isAtEnd ts = false.
Proof. unfold check. destruct (isAtEnd ts); [discriminate|reflexivity]. Qed.

Lemma start_or_identified_not_identifier ts :
  isEntityOrRelationStart ts || check IDENTIFIED ts = true -> check IDENTIFIER ts = false.
Proof.
  unfold isEntityOrRelationStart. intros H.
  destruct ts as [|t rest]; [reflexivity|].
  destruct (decide (tok_type t = IDENTIFIER)) as [E|E]; [|apply check_other; assumption].
  rewrite !check_other in H by congruence. discriminate.
Qed.

Lemma parseSubAttributeList_loop_spec fuel : forall ts acc,
  (length ts < fuel)%nat ->
  exists consumed rest,
    ts = consumed ++ rest
    /\ parseSubAttributeList_loop fuel ts acc
       = Ok (acc ++ List.map (fun t => plainAttribute (value t)) consumed, rest)
    /\ Forall (fun t => tok_type t = IDENTIFIER) consumed
    /\ subAttributeStop rest = true
    /\ (forall i, (i < length consumed)%nat -> subAttributeStop (drop i ts) = false).
Proof.
  induction fuel as [|fuel IH]; intros ts acc Hlen; [lia|].
  simpl. unfold subAttributeStop.
  destruct (check IDENTIFIER ts) eqn:Hid.
  - rewrite (check_implies_not_end _ _ Hid). simpl.
    destruct (followedByMarker ts) eqn:Hm.
    + exists [], ts. simpl. rewrite app_nil_r, Hid, Hm. repeat split; auto. intros; lia.
    + apply check_true in Hid as (t & ts' & -> & Hty & _ & _).
      rewrite expect_cons by (auto; discriminate). simpl.
      destruct (isEntityOrRelationStart ts' || check IDENTIFIED ts') eqn:Hstop.
      * exists [t], ts'. simpl. repeat split; auto.
        -- rewrite (start_or_identified_not_identifier _ Hstop). reflexivity.
        -- intros i Hi. assert (i = 0)%nat as -> by lia. simpl.
           rewrite check_cons by (auto; discriminate). rewrite Hm. reflexivity.
      * simpl in Hlen.
        destruct (IH ts' (acc ++ [plainAttribute (value t)]))
          as (consumed & rest & -> & Hrun & Hall & Hs & Hbefore);
          [lia|].
        exists (t :: consumed), rest. simpl. repeat split; auto.
        -- rewrite Hrun, <- app_assoc. reflexivity.
        -- intros [|i] Hi; simpl.
           ++ rewrite check_cons by (auto; discriminate). rewrite Hm. reflexivity.
           ++ apply Hbefore. lia.
  - assert (negb (isAtEnd ts) && false = false) as -> by apply andb_false_r.
    exists [], ts. simpl. rewrite app_nil_r, Hid. repeat split; auto. intros; lia.
Qed.

(** C5 (amended). Reading the sub-attribute list of a composite attribute
    always succeeds; it consumes a run of IDENTIFIER tokens, one sub-attribute
    each, and stops at the first place where the next token is not an
    IDENTIFIER (a top-level keyword, "Identified", any other token or the end
    of the input) or is an IDENTIFIER followed by PK, FK, Composite,
    Multivalued or Derived.  The token it stops at is never consumed. *)
Theorem C5_sub_attribute_list ts :
  exists consumed rest,
    ts = consumed ++ rest
    /\ parseSubAttributeList ts
       = Ok (List.map (fun t => plainAttribute (value t)) consumed, rest)
    /\ Forall (fun t => tok_type t = IDENTIFIER) consumed
    /\ subAttributeStop rest = true
    /\ (forall i, (i < length consumed)%nat -> subAttributeStop (drop i ts) = false).
Proof.
  destruct (parseSubAttributeList_loop_spec (S (length ts)) ts [])
    as (consumed & rest & Hts & Hrun & Hall & Hs & Hbefore); [lia|].
  exists consumed, rest. repeat split; auto.
Qed.

(** ** The parser never runs out of fuel *)

Lemma consumes_weaken {A} n m ts (r : Result (A * list Token)) :
  consumes n ts r -> (m <= n)%nat -> consumes m ts r.
Proof. destruct r as [[a rest]| |]; simpl; auto. lia. Qed.

Lemma consumes_bind {A B} n m ts (r : Result (A * list Token))
    (k : A * list Token -> Result (B * list Token)) :
  consumes n ts r ->
  (forall a rest, (length rest + n <= length ts)%nat -> consumes m rest (k (a, rest))) ->
  consumes (n + m) ts (r ≫= k).
Proof.
  destruct r as [[a rest]| |]; simpl; auto.
  intros Hr Hk. specialize (Hk a rest Hr).
  destruct (k (a, rest)) as [[b rest']| |]; simpl in *; auto. lia.
Qed.

Lemma consumes_Ok {A} (a : A) ts ts' n :
  (length ts' + n <= length ts)%nat -> consumes n ts (Ok (a, ts')).
Proof. auto. Qed.

Lemma consumes_expect ty ts : consumes 1 ts (expect ty ts).
Proof.
  unfold expect. destruct (check ty ts) eqn:E; simpl; [|trivial].
  apply check_true in E as (t & rest & -> & _ & _ & ->). simpl. lia.
Qed.

Lemma consumes_advance {A} n ts (r : Result (A * list Token)) :
  consumes n (advance ts) r -> consumes n ts r.
Proof.
  pose proof (advance_length ts).
  destruct r as [[a rest]| |]; simpl; auto. lia.
Qed.

Lemma consumes_check_advance {A} ty n ts (r : Result (A * list Token)) :
  check ty ts = true -> consumes n (advance ts) r -> consumes (S n) ts r.
Proof.
  intros Hc. apply check_implies_not_end, advance_length_lt in Hc.
  destruct r as [[a rest]| |]; simpl; auto. lia.
Qed.

Ltac done_ok :=
  first [ apply consumes_Ok; simpl in *; lia | simpl in *; lia | exact I ].

Ltac consumes_step :=
  match goal with
  | |- consumes _ _ (Ok _) => apply consumes_Ok; simpl in *; lia
  | |- (_ <= _)%nat => simpl in *; lia
  | |- consumes _ _ (Throw _) => exact I
  | |- consumes _ _ (expect _ _ ≫= _) =>
      eapply (consumes_bind 1); [apply consumes_expect|]; intros ? ? ?; cbv beta iota
  end.

Lemma consumes_parseCardinality ts : consumes 1 ts (parseCardinality ts).
Proof.
  unfold parseCardinality.
  destruct (check ONE ts) eqn:E1.
  { apply (consumes_check_advance ONE 0); auto. done_ok. }
  destruct (check M ts) eqn:E2; [|exact I].
  apply (consumes_check_advance M 0); auto. done_ok.
Qed.

Lemma consumes_parseOptionalParticipation ts :
  consumes 0 ts (parseOptionalParticipation ts).
Proof.
  unfold parseOptionalParticipation.
  destruct (check COMMA ts) eqn:E; [|done_ok].
  apply consumes_advance. unfold parseParticipation.
  destruct (check TOTAL _); [apply consumes_advance; done_ok|].
  destruct (check PARTIAL _); [apply consumes_advance; done_ok|exact I].
Qed.

Lemma consumes_parseFkTarget ts : consumes 3 ts (parseFkTarget ts).
Proof.
  unfold parseFkTarget. change 3%nat with (1 + (1 + (1 + 0)))%nat.
  repeat consumes_step.
Qed.

Lemma consumes_parseSubAttributeList ts : consumes 0 ts (parseSubAttributeList ts).
Proof.
  unfold parseSubAttributeList.
  destruct (parseSubAttributeList_loop_spec (S (length ts)) ts [])
    as (consumed & rest & -> & -> & _); [lia|].
  simpl. rewrite length_app. lia.
Qed.

Lemma consumes_parseAttribute ts : consumes 1 ts (parseAttribute ts).
Proof.
  unfold parseAttribute. change 1%nat with (1 + 0)%nat. consumes_step.
  destruct (check PK rest) eqn:?. { apply consumes_advance; done_ok. }
  destruct (check FK rest) eqn:?.
  { apply consumes_advance.
    destruct (check ARROW _) eqn:?; [|done_ok].
    apply consumes_advance. apply (consumes_bind 0 0).
    - eapply consumes_weaken; [apply consumes_parseFkTarget|lia].
    - intros ? ? ?. done_ok. }
  destruct (check COMPOSITE rest) eqn:?.
  { apply consumes_advance. apply (consumes_bind 0 0).
    - eapply consumes_weaken; [apply consumes_expect|lia].
    - intros ? ? ?. cbv beta iota. apply (consumes_bind 0 0).
      + apply consumes_parseSubAttributeList.
      + intros ? ? ?. done_ok. }
  destruct (check MULTIVALUED rest) eqn:?. { apply consumes_advance; done_ok. }
  destruct (check DERIVED rest) eqn:?. { apply consumes_advance; done_ok. }
  destruct (check COLON rest) eqn:?; [|done_ok].
  apply consumes_advance. apply (consumes_bind 0 0).
  - eapply consumes_weaken; [apply consumes_expect|lia].
  - intros ? ? ?. done_ok.
Qed.

Lemma consumes_parseAttributeList_loop fuel : forall ts acc,
  (length ts < fuel)%nat -> consumes 0 ts (parseAttributeList_loop fuel ts acc).
Proof.
  induction fuel as [|fuel IH]; intros ts acc Hlen; [lia|]. simpl.
  destruct (isAtEnd ts) eqn:Hend; simpl; [done_ok|].
  destruct (isEntityOrRelationStart ts); simpl; [done_ok|].
  destruct (check IDENTIFIER ts).
  - apply (consumes_weaken (1 + 0)); [|lia].
    apply consumes_bind; [apply consumes_parseAttribute|].
    intros a rest Hr. cbv beta iota. apply IH. lia.
  - destruct (check IDENTIFIED ts); [done_ok|].
    apply consumes_advance. apply IH.
    apply advance_length_lt in Hend. lia.
Qed.

Lemma consumes_parseAttributeList ts : consumes 0 ts (parseAttributeList ts).
Proof. apply consumes_parseAttributeList_loop. lia. Qed.

Lemma consumes_parseRelationAttributeList_loop fuel : forall ts acc,
  (length ts < fuel)%nat -> consumes 0 ts (parseRelationAttributeList_loop fuel ts acc).
Proof.
  induction fuel as [|fuel IH]; intros ts acc Hlen; [lia|]. simpl.
  destruct (negb (isAtEnd ts) && negb (isEntityOrRelationStart ts) && check IDENTIFIER ts);
    [|done_ok].
  apply (consumes_weaken (1 + 0)); [|lia].
  apply consumes_bind; [apply consumes_expect|].
  intros a rest Hr. cbv beta iota. apply IH. lia.
Qed.

Lemma consumes_parseIdentifiedByList_loop fuel : forall ts acc,
  (length ts < fuel)%nat -> consumes 0 ts (parseIdentifiedByList_loop fuel ts acc).
Proof.
  induction fuel as [|fuel IH]; intros ts acc Hlen; [lia|]. simpl.
  destruct (check PLUS ts); [|done_ok].
  apply consumes_advance. pose proof (advance_length ts).
  apply (consumes_weaken (3 + 0)); [|lia].
  apply consumes_bind; [apply consumes_parseFkTarget|].
  intros a rest Hr. cbv beta iota. apply IH. lia.
Qed.

Lemma consumes_parseEntity ts : consumes 1 ts (parseEntity ts).
Proof.
  unfold parseEntity. change 1%nat with (1 + 0)%nat. consumes_step.
  do 2 (apply (consumes_bind 0 0);
        [eapply consumes_weaken; [apply consumes_expect|lia]|]; intros ? ? ?; cbv beta iota).
  apply (consumes_bind 0 0); [apply consumes_parseAttributeList|].
  intros ? ? ?. done_ok.
Qed.

Lemma consumes_parseWeakEntity ts : consumes 1 ts (parseWeakEntity ts).
Proof.
  unfold parseWeakEntity. change 1%nat with (1 + 0)%nat. consumes_step.
  do 3 (apply (consumes_bind 0 0);
        [eapply consumes_weaken; [apply consumes_expect|lia]|]; intros ? ? ?; cbv beta iota).
  apply (consumes_bind 0 0); [apply consumes_parseAttributeList|].
  intros ? ? ?. cbv beta iota.
  destruct (check IDENTIFIED _); [|done_ok].
  apply consumes_advance.
  apply (consumes_bind 0 0); [eapply consumes_weaken; [apply consumes_expect|lia]|].
  intros ? ? ?. cbv beta iota.
  apply (consumes_bind 0 0).
  - unfold parseIdentifiedByList. apply (consumes_weaken (3 + 0)); [|lia].
    apply consumes_bind; [apply consumes_parseFkTarget|].
    intros ? ? ?. cbv beta iota. apply consumes_parseIdentifiedByList_loop. lia.
  - intros ? ? ?. done_ok.
Qed.

Ltac consumes_any :=
  apply (consumes_bind 0 0);
  [first [ eapply consumes_weaken; [apply consumes_expect|lia]
         | eapply consumes_weaken; [apply consumes_parseCardinality|lia]
         | apply consumes_parseOptionalParticipation ]
  |]; intros ? ? ?; cbv beta iota.

Lemma consumes_parseRelation ts : consumes 1 ts (parseRelation ts).
Proof.
  unfold parseRelation. change 1%nat with (1 + 0)%nat. consumes_step.
  repeat consumes_any.
  apply (consumes_bind 0 0).
  - apply consumes_parseRelationAttributeList_loop. lia.
  - intros ? ? ?. done_ok.
Qed.

Lemma consumes_parseIdentifyingRelation ts : consumes 1 ts (parseIdentifyingRelation ts).
Proof.
  unfold parseIdentifyingRelation. change 1%nat with (1 + 0)%nat. consumes_step.
  repeat consumes_any. done_ok.
Qed.

Lemma parse_loop_never_OutOfFuel fuel : forall ts ents rels,
  (length ts < fuel)%nat -> parse_loop fuel ts ents rels <> OutOfFuel.
Proof.
  induction fuel as [|fuel IH]; intros ts ents rels Hlen; [lia|]. simpl.
  assert (Hstep : forall A (r : Result (A * list Token)) (k : A * list Token -> Result ERDiagramAST),
             consumes 1 ts r ->
             (forall a rest, (length rest < fuel)%nat -> k (a, rest) <> OutOfFuel) ->
             r ≫= k <> OutOfFuel).
  { intros A r k Hr Hk. destruct r as [[a rest]| |]; simpl in *; try discriminate; auto.
    apply Hk. lia. }
  destruct (isAtEnd ts) eqn:Hend; simpl; [discriminate|].
  destruct (check ENTITY ts).
  { apply Hstep; [apply consumes_parseEntity|]. intros; simpl. auto. }
  destruct (check WEAK ts).
  { apply Hstep; [apply consumes_parseWeakEntity|]. intros; simpl. auto. }
  destruct (check RELATION ts).
  { apply Hstep; [apply consumes_parseRelation|]. intros; simpl. auto. }
  destruct (check IDENTIFYING ts).
  { apply Hstep; [apply consumes_parseIdentifyingRelation|]. intros; simpl. auto. }
  apply IH. apply advance_length_lt in Hend. lia.
Qed.

(** The fuel given to the loops of the parser is always enough: [parseDSL]
    returns an AST or throws. *)
Lemma parse_never_OutOfFuel s : parseDSL s <> OutOfFuel.
Proof. apply parse_loop_never_OutOfFuel. lia. Qed.

(** ** Weak entities *)

(** [parseWeakEntity] on a declaration whose attribute list is not followed
    by "Identified": an entity of type "weak" with the parsed attributes and
    an undefined [identifiedBy], which [parse] appends to the entities. *)
Lemma parseWeakEntity_without_identifier w e n c rest attrs rest' :
  List.map tok_type [w; e; n; c] = [WEAK; ENTITY; IDENTIFIER; COLON] ->
  parseAttributeList rest = Ok (attrs, rest') ->
  check IDENTIFIED rest' = false ->
  let node := {| ent_name := value n; entityType := weak;
                 ent_attributes := attrs; identifiedBy := None |} in
  parseWeakEntity (w :: e :: n :: c :: rest) = Ok (node, rest')
  /\ forall fuel ents rels,
       parse_loop (S fuel) (w :: e :: n :: c :: rest) ents rels
       = parse_loop fuel rest' (ents ++ [node]) rels.
Proof.
  intros Hty Hattrs Hnot node. simpl in Hty. simplify_eq.
  assert (Hw : parseWeakEntity (w :: e :: n :: c :: rest) = Ok (node, rest')).
  { unfold parseWeakEntity. repeat run_expect. rewrite Hattrs. simpl.
    rewrite Hnot. reflexivity. }
  split; [exact Hw|].
  intros fuel ents rels. simpl. unfold isAtEnd. simpl.
  rewrite bool_decide_eq_false_2 by congruence. simpl.
  rewrite check_other by congruence. rewrite check_cons by (auto; discriminate).
  rewrite Hw. reflexivity.
Qed.

(** ** The reverse transform: which edges are read *)



Lemma fold_left_map {A B C} (f : A -> B -> A) (g : C -> B) l a :
  fold_left f (List.map g l) a = fold_left (fun a c => f a (g c)) l a.
Proof. revert a; induction l; simpl; auto. Qed.




Lemma filter_filter_and {A} (p q : A -> bool) l :
  List.filter p (List.filter q l) = List.filter (fun a => p a && q a) l.
Proof.
  induction l as [|a l IH]; simpl; [reflexivity|].
  destruct (q a); simpl; destruct (p a); simpl; congruence.
Qed.




(** ** The reverse transform: the sides of a relationship *)

Lemma updateSides_fold nodeMap node es : forall l r,
  fold_left (updateSides nodeMap node) es (l, r)
  = (sideFrom (fun e n => {| side_entityName := label n;
                             cardinality := default One (sourceCardinality e);
                             participation := default partial (sourceParticipation e) |})
       (lastSupplier (leftSupplier nodeMap node) es) l,
     sideFrom (fun e n => {| side_entityName := label n;
                             cardinality := default Many (targetCardinality e);
                             participation := default partial (targetParticipation e) |})
       (lastSupplier (rightSupplier nodeMap node) es) r).
Proof.
  induction es as [|e es IH]; intros l r; simpl; [reflexivity|].
  unfold leftSupplier at 2, rightSupplier at 2.
  destruct (bool_decide (sourceId e = node_id node)); simpl.
  - destruct (bool_decide (targetId e = node_id node)); simpl.
    + rewrite IH.
      destruct (lastSupplier (leftSupplier nodeMap node) es) as [[? ?]|],
               (lastSupplier (rightSupplier nodeMap node) es) as [[? ?]|]; reflexivity.
    + destruct (nodeMap !! targetId e); rewrite IH;
        destruct (lastSupplier (leftSupplier nodeMap node) es) as [[? ?]|],
                 (lastSupplier (rightSupplier nodeMap node) es) as [[? ?]|]; reflexivity.
  - destruct (nodeMap !! sourceId e); rewrite IH;
      destruct (lastSupplier (leftSupplier nodeMap node) es) as [[? ?]|],
               (lastSupplier (rightSupplier nodeMap node) es) as [[? ?]|]; reflexivity.
Qed.

Lemma relationshipSides_expected nodeMap es node :
  relationshipSides nodeMap es node
  = (expectedLeftSide nodeMap es node, expectedRightSide nodeMap es node).
Proof.
  unfold relationshipSides, expectedLeftSide, expectedRightSide.
  rewrite updateSides_fold. unfold sideFrom, defaultLeftSide, defaultRightSide.
  destruct (lastSupplier (leftSupplier nodeMap node) _) as [[? ?]|],
           (lastSupplier (rightSupplier nodeMap node) _) as [[? ?]|]; reflexivity.
Qed.

(** ** The reverse transform: when the recursion stays within the stack *)

Lemma buildNodeMap_lookup ns k n :
  buildNodeMap ns !! k = Some n -> node_id n = k /\ In n ns.
Proof.
  unfold buildNodeMap.
  assert (H : forall (m : gmap jsstring DiagramNode),
             (forall k n, m !! k = Some n -> node_id n = k /\ In n ns) ->
             forall l, (forall n, In n l -> In n ns) ->
             forall k n, fold_left (fun m node => <[node_id node := node]> m) l m !! k = Some n ->
                         node_id n = k /\ In n ns).
  { intros m Hm l. revert m Hm. induction l as [|a l IH]; simpl; intros m Hm Hl k' n'; [apply Hm|].
    apply IH.
    - intros k2 n2. rewrite lookup_insert. case_decide.
      + intros [= <-]. split; [congruence|]. apply Hl. left. reflexivity.
      + apply Hm.
    - intros n2 Hin. apply Hl. right. assumption. }
  apply (H ∅ (fun k n => ltac:(rewrite lookup_empty; discriminate)) ns (fun n Hin => Hin)).
Qed.

Lemma buildChildrenMap_children nodeMap es k child :
  In child (default [] (buildChildrenMap nodeMap es !! k)) ->
  exists e, In e es /\ hasCardinality e = false /\ sourceId e = k
            /\ nodeMap !! targetId e = Some child.
Proof.
  unfold buildChildrenMap.
  assert (H : forall l (cm : gmap jsstring (list DiagramNode)),
             (forall k child, In child (default [] (cm !! k)) ->
                exists e, In e es /\ hasCardinality e = false /\ sourceId e = k
                          /\ nodeMap !! targetId e = Some child) ->
             (forall e, In e l -> In e es) ->
             forall k child, In child (default [] (fold_left (addChild nodeMap) l cm !! k)) ->
                exists e, In e es /\ hasCardinality e = false /\ sourceId e = k
                          /\ nodeMap !! targetId e = Some child).
  { induction l as [|a l IH]; simpl; intros cm Hcm Hl k' c'; [apply Hcm|].
    apply IH; [|intros; apply Hl; right; assumption].
    intros k2 c2. unfold addChild.
    destruct (hasCardinality a) eqn:Hc; simpl; [apply Hcm|].
    destruct (nodeMap !! targetId a) as [cn|] eqn:Hn; [|apply Hcm].
    rewrite lookup_insert. case_decide as Hk.
    - simpl. intros Hin. apply in_app_or in Hin as [Hin|[<-|[]]].
      + subst k2. apply Hcm. assumption.
      + exists a. repeat split; auto.
    - apply Hcm. }
  apply (H es ∅); auto.
  intros k' c'. rewrite lookup_empty. simpl. tauto.
Qed.

Lemma fold_attributes_Ok (step : DiagramNode -> Result (list AttributeNode) ->
                                 Result (list AttributeNode)) children :
  (forall child acc, In child children -> (exists a, acc = Ok a) -> exists a, step child acc = Ok a) ->
  forall acc, (exists a, acc = Ok a) ->
  exists a, fold_left (fun acc child => step child acc) children acc = Ok a.
Proof.
  induction children as [|c cs IH]; simpl; intros Hstep acc Hacc; [assumption|].
  apply IH.
  - intros child acc' Hin. apply Hstep. right. assumption.
  - apply Hstep; [left; reflexivity|assumption].
Qed.

Section WithinTheStack.
Context (m : DiagramModel) (rank : jsstring -> nat).
Hypothesis rank_descends :
  forall e, In e (edges m) -> descends m e -> (rank (targetId e) < rank (sourceId e))%nat.

Lemma getAttributesForNode_Ok depth : forall nodeId,
  (rank nodeId < depth)%nat ->
  exists attrs,
    getAttributesForNode depth nodeId
      (buildChildrenMap (buildNodeMap (nodes m)) (edges m)) = Ok attrs.
Proof.
  induction depth as [|depth IH]; intros nodeId Hrank; [lia|].
  simpl.
  apply (fold_attributes_Ok
           (fun child acc =>
              attributes ← acc;
              if includesAttribute (type child)
              then if bool_decide (type child = compositeAttribute)
                   then subs ← getAttributesForNode depth (node_id child)
                                 (buildChildrenMap (buildNodeMap (nodes m)) (edges m));
                        Ok (attributes ++ [withSubAttributes (attributeOfNode child) subs])
                   else Ok (attributes ++ [attributeOfNode child])
              else Ok attributes)); [|eauto].
  intros child acc Hin [a ->]. simpl.
  destruct (includesAttribute (type child)); [|eauto].
  destruct (bool_decide (type child = compositeAttribute)) eqn:Hcomp; [|eauto].
  apply bool_decide_eq_true_1 in Hcomp.
  apply buildChildrenMap_children in Hin as (e & He & Hc & Hsrc & Htgt).
  pose proof (buildNodeMap_lookup _ _ _ Htgt) as [Hid _].
  assert (Hlt : (rank (targetId e) < rank (sourceId e))%nat).
  { apply rank_descends; [assumption|]. split; [assumption|]. eauto. }
  destruct (IH (node_id child)) as [subs Hsubs]; [rewrite Hid, <- Hsrc in *; lia|].
  rewrite Hsubs. simpl. eauto.
Qed.
End WithinTheStack.

Lemma mapResult_Ok {A B} (f : A -> Result B) l :
  (forall a, In a l -> exists b, f a = Ok b) ->
  exists bs, mapResult f l = Ok bs /\ Forall2 (fun a b => f a = Ok b) l bs.
Proof.
  induction l as [|a l IH]; simpl; intros H.
  - exists []. split; [reflexivity|constructor].
  - destruct (H a) as [b Hb]; [left; reflexivity|].
    destruct IH as (bs & Hbs & Hall); [intros; apply H; right; assumption|].
    exists (b :: bs). rewrite Hb, Hbs. split; [reflexivity|]. constructor; assumption.
Qed.

(** C3 (amended). On a model whose containment edges into composite
    attributes do not loop ([rank] decreases along them) and are no deeper
    than the stack, [diagramModelToAST] returns an AST, whatever relational
    edges are missing; in it every relationship node has the sides of
    [expectedLeftSide] and [expectedRightSide]: a side that no relational edge
    supplies has the empty entity name and participation 'partial', with
    cardinality '1' on the left and 'M' on the right, and a side supplied by an
    edge takes the same defaults, '1' on the left and 'M' on the right and
    'partial', for the fields the edge omits. *)
Theorem C3_side_defaults depth m (rank : jsstring -> nat) :
  (forall e, In e (edges m) -> descends m e ->
             (rank (targetId e) < rank (sourceId e))%nat) ->
  (forall n, In n (nodes m) -> (rank (node_id n) < depth)%nat) ->
  exists ast,
    diagramModelToAST depth m = Ok ast
    /\ Forall2
         (fun node rel =>
            leftSide rel = expectedLeftSide (buildNodeMap (nodes m)) (edges m) node
            /\ rightSide rel = expectedRightSide (buildNodeMap (nodes m)) (edges m) node)
         (List.filter isRelationshipNode (nodes m)) (relationships ast).
Proof.
  intros Hrank Hdepth. unfold diagramModelToAST.
  destruct (mapResult_Ok
              (entityOfNode depth (buildChildrenMap (buildNodeMap (nodes m)) (edges m)))
              (List.filter isEntityNode (nodes m))) as (ents & -> & _).
  { intros n Hin. apply List.filter_In in Hin as [Hin _]. unfold entityOfNode.
    destruct (getAttributesForNode_Ok m rank Hrank depth (node_id n)) as [attrs ->];
      [auto|]. simpl. eauto. }
  destruct (mapResult_Ok
              (relationshipOfNode depth (buildNodeMap (nodes m))
                 (buildChildrenMap (buildNodeMap (nodes m)) (edges m)) (edges m))
              (List.filter isRelationshipNode (nodes m))) as (rels & -> & Hall).
  { intros n Hin. apply List.filter_In in Hin as [Hin _]. unfold relationshipOfNode.
    destruct (relationshipSides _ _ n).
    destruct (getAttributesForNode_Ok m rank Hrank depth (node_id n)) as [attrs ->];
      [auto|]. simpl. eauto. }
  simpl. eexists. split; [reflexivity|]. simpl.
  eapply Forall2_impl; [exact Hall|].
  intros node rel H. unfold relationshipOfNode in H.
  rewrite relationshipSides_expected in H.
  destruct (getAttributesForNode _ _ _); simpl in H; try discriminate.
  injection H as <-. simpl. auto.
Qed.

(** ** The forward transform: identifiers *)

Lemma str_inj s s' : str s = str s' -> s = s'.
Proof.
  unfold str. intros H.
  rewrite <- (string_of_list_ascii_of_string s), <- (string_of_list_ascii_of_string s').
  f_equal. revert H.
  generalize (list_ascii_of_string s) (list_ascii_of_string s').
  induction l as [|a l IH]; intros [|a' l']; simpl; intros H; try discriminate; auto.
  injection H as Ha Hl. f_equal; [|auto].
  rewrite <- (ascii_N_embedding a), <- (ascii_N_embedding a'). congruence.
Qed.

Lemma decimal_inj n n' : decimal n = decimal n' -> n = n'.
Proof.
  unfold decimal. intros H. apply str_inj in H.
  apply Unsigned.to_uint_inj.
  assert (Some (N.to_uint n) = Some (N.to_uint n')) as [= ?]; [|assumption].
  rewrite <- !NilEmpty.usu. congruence.
Qed.

Lemma nodeIdOf_inj k k' : nodeIdOf k = nodeIdOf k' -> k = k'.
Proof. unfold nodeIdOf. intros H. apply app_inv_head in H. apply decimal_inj, H. Qed.

Lemma nodeIdOf_nonempty k : nodeIdOf k <> [].
Proof. unfold nodeIdOf. discriminate. Qed.

Lemma idBetween_weaken lo hi lo' hi' i :
  idBetween lo hi i -> lo' <= lo -> hi <= hi' -> idBetween lo' hi' i.
Proof. intros (k & Hk & ->) H1 H2. exists k. split; [lia|reflexivity]. Qed.

Lemma idBetween_disjoint lo mid hi i j :
  idBetween lo mid i -> idBetween mid hi j -> i <> j.
Proof.
  intros (k & Hk & ->) (k' & Hk' & ->) H. apply nodeIdOf_inj in H. lia.
Qed.

(** ** The forward transform: what [processAttribute] adds *)

Lemma attributesAdded_refl b : attributesAdded b b.
Proof.
  split; [lia|]. split; exists []; rewrite app_nil_r; split; auto.
Qed.

Lemma attributesAdded_trans b1 b2 b3 :
  attributesAdded b1 b2 -> attributesAdded b2 b3 -> attributesAdded b1 b3.
Proof.
  intros (Hc & (ns & Hn & Hns) & (es & He & Hes)) (Hc' & (ns' & Hn' & Hns') & (es' & He' & Hes')).
  split; [lia|]. split.
  - exists (ns ++ ns'). rewrite Hn', Hn, <- app_assoc. split; [reflexivity|].
    apply Forall_app. split.
    + eapply List.Forall_impl; [|exact Hns]. intros n [? ?]. split; [assumption|].
      eapply idBetween_weaken; eauto; lia.
    + eapply List.Forall_impl; [|exact Hns']. intros n [? ?]. split; [assumption|].
      eapply idBetween_weaken; eauto; lia.
  - exists (es ++ es'). rewrite He', He, <- app_assoc. split; [reflexivity|].
    apply Forall_app. split; assumption.
Qed.

Lemma attributesAdded_fold {A} (f : Build -> A -> Build) l :
  Forall (fun a => forall b, attributesAdded b (f b a)) l ->
  forall b, attributesAdded b (fold_left f l b).
Proof.
  induction 1 as [|a l Ha _ IH]; simpl; intros b; [apply attributesAdded_refl|].
  eapply attributesAdded_trans; [apply Ha|apply IH].
Qed.

Lemma includesAttribute_attributeNodeType ty :
  includesAttribute (attributeNodeType ty) = true.
Proof. destruct ty; reflexivity. Qed.

Lemma processAttribute_added attr : forall parent b,
  attributesAdded b (processAttribute attr parent b).
Proof.
  induction attr as [n ty k target dt subs IH] using AttributeNode_ind.
  intros parent b.
  set (b1 := pushEdge
               (snd (generateEdgeId
                  (pushNode (snd (generateNodeId b))
                     (attributeDiagramNode
                        {| attr_name := n; attributeType := ty; keyType := k;
                           fkTarget := target; dataType := dt; subAttributes := subs |}
                        (nodeIdOf (nodeIdCounter b + 1)) parent))))
               (containmentEdge (edgeIdOf (edgeIdCounter b + 1)) parent
                  (nodeIdOf (nodeIdCounter b + 1)))).
  assert (H1 : attributesAdded b b1).
  { split; [simpl; lia|]. split.
    - eexists [_]. split; [reflexivity|]. constructor; [|constructor]. simpl.
      split; [apply includesAttribute_attributeNodeType|].
      exists (nodeIdCounter b + 1). split; [lia|reflexivity].
    - eexists [_]. split; [reflexivity|]. constructor; [|constructor]. reflexivity. }
  assert (Hrun : processAttribute
                   {| attr_name := n; attributeType := ty; keyType := k;
                      fkTarget := target; dataType := dt; subAttributes := subs |} parent b
                 = match ty, subs with
                   | composite, Some l =>
                       fold_left (fun b' subAttr =>
                                    processAttribute subAttr (nodeIdOf (nodeIdCounter b + 1)) b')
                         l b1
                   | _, _ => b1
                   end).
  { simpl. destruct ty, subs; reflexivity. }
  rewrite Hrun.
  destruct ty, subs as [l|]; try exact H1.
  eapply attributesAdded_trans; [exact H1|].
  apply attributesAdded_fold.
  eapply List.Forall_impl; [|exact IH]. intros a Ha b'. apply Ha.
Qed.

Lemma processAttributes_added attrs parent b :
  attributesAdded b (processAttributes attrs parent b).
Proof.
  unfold processAttributes. apply attributesAdded_fold.
  apply List.Forall_forall. intros a _ b'. apply processAttribute_added.
Qed.

(** ** The forward transform: the entities *)

Lemma attribute_not_entity n : includesAttribute (type n) = true -> isEntityNode n = false.
Proof. unfold isEntityNode. destruct (type n); simpl; intros; try discriminate; reflexivity. Qed.

Lemma attribute_not_relationship n :
  includesAttribute (type n) = true -> isRelationshipNode n = false.
Proof.
  unfold isRelationshipNode. destruct (type n); simpl; intros; try discriminate; reflexivity.
Qed.

Lemma filter_nil_Forall {A} (p : A -> bool) l :
  Forall (fun a => p a = false) l -> List.filter p l = [].
Proof. induction 1 as [|a l Ha _ IH]; simpl; [reflexivity|]. rewrite Ha. assumption. Qed.

Lemma processEntity_phase es b emap e :
  entityPhase es b emap ->
  entityPhase (es ++ [e]) (fst (processEntity (b, emap) e)) (snd (processEntity (b, emap) e)).
Proof.
  intros (Hids & Hedges & Hnorel & Hlabels & Hmap).
  pose (i := nodeIdOf (nodeIdCounter b + 1)).
  pose (b1 := pushNode (snd (generateNodeId b)) (entityDiagramNode e i)).
  pose (b2 := processAttributes (ent_attributes e) i b1).
  change (processEntity (b, emap) e) with (b2, <[ent_name e := i]> emap).
  destruct (processAttributes_added (ent_attributes e) i b1)
    as (Hc & (ns & Hn & Hns) & (xs & Hx & Hxs)).
  fold b2 in Hc, Hn, Hx.
  change (nodeIdCounter b1) with (nodeIdCounter b + 1) in *.
  change (out_nodes b1) with (out_nodes b ++ [entityDiagramNode e i]) in Hn.
  change (out_edges b1) with (out_edges b) in Hx.
  simpl fst. simpl snd.
  assert (Hent : isEntityNode (entityDiagramNode e i) = true).
  { unfold isEntityNode. simpl. destruct (entityType e); reflexivity. }
  assert (Hnsent : List.filter isEntityNode ns = []).
  { apply filter_nil_Forall. eapply List.Forall_impl; [|exact Hns].
    intros n [Hn' _]. apply attribute_not_entity, Hn'. }
  repeat split.
  - rewrite Hn. repeat (apply Forall_app; split).
    + eapply List.Forall_impl; [|exact Hids]. intros n Hn'.
      eapply idBetween_weaken; [exact Hn'|lia|lia].
    + constructor; [|constructor]. exists (nodeIdCounter b + 1). split; [lia|reflexivity].
    + eapply List.Forall_impl; [|exact Hns]. intros n [_ Hn'].
      eapply idBetween_weaken; [exact Hn'|lia|fold b2; lia].
  - rewrite Hx. apply Forall_app. split; assumption.
  - rewrite Hn. repeat (apply Forall_app; split).
    + assumption.
    + constructor; [|constructor]. unfold isRelationshipNode. simpl.
      destruct (entityType e); reflexivity.
    + eapply List.Forall_impl; [|exact Hns]. intros n [Hn' _].
      apply attribute_not_relationship, Hn'.
  - rewrite Hn, !List.filter_app, Hnsent, app_nil_r. simpl. rewrite Hent.
    rewrite !List.map_app, Hlabels. reflexivity.
  - intros n. rewrite Hn, !List.filter_app. simpl. rewrite Hent. simpl.
    assert (Hnone : List.filter (fun node => isEntityNode node && bool_decide (label node = n)) ns = []).
    { apply filter_nil_Forall. eapply List.Forall_impl; [|exact Hns].
      intros n' [Hn' _]. rewrite (attribute_not_entity _ Hn'). reflexivity. }
    rewrite Hnone, app_nil_r. rewrite lookup_insert. case_decide as Hname.
    + rewrite bool_decide_eq_true_2 by assumption. rewrite last_snoc. reflexivity.
    + rewrite bool_decide_eq_false_2 by assumption. rewrite app_nil_r. apply Hmap.
Qed.

Lemma entities_phase es : forall done b emap,
  entityPhase done b emap ->
  entityPhase (done ++ es) (fst (fold_left processEntity es (b, emap)))
    (snd (fold_left processEntity es (b, emap))).
Proof.
  induction es as [|e es IH]; intros done b emap H.
  - simpl. rewrite app_nil_r. assumption.
  - replace (done ++ e :: es) with ((done ++ [e]) ++ es) by (rewrite <- app_assoc; reflexivity).
    change (fold_left processEntity (e :: es) (b, emap))
      with (fold_left processEntity es (processEntity (b, emap) e)).
    pose proof (processEntity_phase done b emap e H) as H'.
    destruct (processEntity (b, emap) e) as [b' emap'].
    apply IH. exact H'.
Qed.

Lemma entityPhase_start : entityPhase [] resetIdCounters ∅.
Proof.
  repeat split; simpl; auto.
Qed.

(** ** The forward transform: the relationships *)

Lemma processRelationship_step emap b r :
  let k := nodeIdCounter b + 1 in
  let b' := processRelationship emap b r in
  k <= nodeIdCounter b'
  /\ List.filter isRelationshipNode (out_nodes b')
     = List.filter isRelationshipNode (out_nodes b) ++ [relationshipDiagramNode r (nodeIdOf k)]
  /\ List.filter isEntityNode (out_nodes b') = List.filter isEntityNode (out_nodes b)
  /\ List.map anonymous (List.filter hasCardinality (out_edges b'))
     = List.map anonymous (List.filter hasCardinality (out_edges b))
       ++ sideEdges r (nodeIdOf k)
            (getTruthy emap (side_entityName (leftSide r)))
            (getTruthy emap (side_entityName (rightSide r))).
Proof.
  intros k b'.
  pose (b1 := pushNode (snd (generateNodeId b)) (relationshipDiagramNode r (nodeIdOf k))).
  pose (b2 := match getTruthy emap (side_entityName (leftSide r)) with
              | Some leftEntityId =>
                  pushEdge (snd (generateEdgeId b1))
                    (leftEdge (edgeIdOf (edgeIdCounter b1 + 1)) leftEntityId (nodeIdOf k) r)
              | None => b1
              end).
  pose (b3 := match getTruthy emap (side_entityName (rightSide r)) with
              | Some rightEntityId =>
                  pushEdge (snd (generateEdgeId b2))
                    (rightEdge (edgeIdOf (edgeIdCounter b2 + 1)) (nodeIdOf k) rightEntityId r)
              | None => b2
              end).
  assert (Hb' : b' = processAttributes (rel_attributes r) (nodeIdOf k) b3).
  { subst b' b3 b2 b1. unfold processRelationship. simpl.
    destruct (getTruthy emap (side_entityName (leftSide r))),
             (getTruthy emap (side_entityName (rightSide r))); reflexivity. }
  assert (Hc3 : nodeIdCounter b3 = k).
  { subst b3 b2 b1.
    destruct (getTruthy emap (side_entityName (leftSide r))),
             (getTruthy emap (side_entityName (rightSide r))); reflexivity. }
  assert (Hn3 : out_nodes b3 = out_nodes b ++ [relationshipDiagramNode r (nodeIdOf k)]).
  { subst b3 b2 b1.
    destruct (getTruthy emap (side_entityName (leftSide r))),
             (getTruthy emap (side_entityName (rightSide r))); reflexivity. }
  assert (He3 : exists sides,
             out_edges b3 = out_edges b ++ sides
             /\ List.filter hasCardinality sides = sides
             /\ List.map anonymous sides
                = sideEdges r (nodeIdOf k)
                    (getTruthy emap (side_entityName (leftSide r)))
                    (getTruthy emap (side_entityName (rightSide r)))).
  { subst b3 b2 b1. unfold sideEdges.
    destruct (getTruthy emap (side_entityName (leftSide r))),
             (getTruthy emap (side_entityName (rightSide r))); simpl.
    - eexists [_; _]. rewrite <- app_assoc. repeat split.
    - eexists [_]. repeat split.
    - eexists [_]. repeat split.
    - exists []. rewrite app_nil_r. repeat split. }
  destruct He3 as (sides & He3 & Hsf & Hsa).
  destruct (processAttributes_added (rel_attributes r) (nodeIdOf k) b3)
    as (Hc & (ns & Hn & Hns) & (xs & Hx & Hxs)).
  rewrite <- Hb' in Hc, Hn, Hx. rewrite Hc3 in Hc. rewrite Hn3 in Hn. rewrite He3 in Hx.
  assert (Hrelnode : isRelationshipNode (relationshipDiagramNode r (nodeIdOf k)) = true).
  { unfold isRelationshipNode. simpl. destruct (relationshipType r); reflexivity. }
  assert (Hnotent : isEntityNode (relationshipDiagramNode r (nodeIdOf k)) = false).
  { unfold isEntityNode. simpl. destruct (relationshipType r); reflexivity. }
  split; [exact Hc|]. split; [|split].
  - rewrite Hn, !List.filter_app. simpl. rewrite Hrelnode.
    rewrite (filter_nil_Forall isRelationshipNode ns), app_nil_r; [reflexivity|].
    eapply List.Forall_impl; [|exact Hns]. intros n [Hn' _].
    apply attribute_not_relationship, Hn'.
  - rewrite Hn, !List.filter_app. simpl. rewrite Hnotent.
    rewrite (filter_nil_Forall isEntityNode ns), !app_nil_r; [reflexivity|].
    eapply List.Forall_impl; [|exact Hns]. intros n [Hn' _].
    apply attribute_not_entity, Hn'.
  - rewrite Hx, !List.filter_app, Hsf.
    rewrite (filter_nil_Forall hasCardinality xs), app_nil_r by assumption.
    rewrite List.map_app, Hsa. reflexivity.
Qed.

Lemma relationships_phase emap rs : forall b,
  let b' := fold_left (processRelationship emap) rs b in
  exists ks,
    length ks = length rs
    /\ Forall (fun k => nodeIdCounter b < k) ks
    /\ NoDup ks
    /\ nodeIdCounter b <= nodeIdCounter b'
    /\ List.filter isRelationshipNode (out_nodes b')
       = List.filter isRelationshipNode (out_nodes b)
         ++ zip_with (fun r k => relationshipDiagramNode r (nodeIdOf k)) rs ks
    /\ List.filter isEntityNode (out_nodes b') = List.filter isEntityNode (out_nodes b)
    /\ List.map anonymous (List.filter hasCardinality (out_edges b'))
       = List.map anonymous (List.filter hasCardinality (out_edges b))
         ++ List.concat
              (zip_with (fun r k => sideEdges r (nodeIdOf k)
                                      (getTruthy emap (side_entityName (leftSide r)))
                                      (getTruthy emap (side_entityName (rightSide r))))
                 rs ks).
Proof.
  induction rs as [|r rs IH]; intros b; simpl.
  - exists []. simpl. rewrite !app_nil_r. repeat split; auto; try constructor; try lia.
  - destruct (processRelationship_step emap b r) as (Hc & Hrel & Hent & Hedges).
    destruct (IH (processRelationship emap b r))
      as (ks & Hlen & Hgt & Hnd & Hc' & Hrel' & Hent' & Hedges').
    exists (nodeIdCounter b + 1 :: ks). simpl. repeat split.
    + congruence.
    + constructor; [lia|]. eapply List.Forall_impl; [|exact Hgt]. intros; simpl in *; lia.
    + constructor; [|assumption]. intros Hin.
      rewrite List.Forall_forall in Hgt. apply list_elem_of_In, Hgt in Hin. lia.
    + lia.
    + rewrite Hrel', Hrel, <- app_assoc. reflexivity.
    + congruence.
    + rewrite Hedges', Hedges, <- app_assoc. reflexivity.
Qed.

(** ** The forward transform: the edges of one relationship *)

Lemma filter_map_commute {A} (p : A -> bool) (f : A -> A) l :
  (forall a, p (f a) = p a) ->
  List.map f (List.filter p l) = List.filter p (List.map f l).
Proof.
  intros H. induction l as [|a l IH]; simpl; [reflexivity|].
  rewrite H. destruct (p a); simpl; congruence.
Qed.

Lemma relEdgesOf_touches es node :
  List.map anonymous (relEdgesOf es node)
  = List.filter (touches (node_id node)) (List.map anonymous (List.filter hasCardinality es)).
Proof.
  unfold relEdgesOf.
  rewrite <- (filter_map_commute (touches (node_id node)) anonymous) by reflexivity.
  rewrite filter_filter_and. reflexivity.
Qed.

Lemma filter_all_true {A} (p : A -> bool) l :
  Forall (fun a => p a = true) l -> List.filter p l = l.
Proof. induction 1 as [|a l Ha _ IH]; simpl; [reflexivity|]. rewrite Ha, IH. reflexivity. Qed.

Lemma filter_concat_zip_with {A B} (p : B -> bool) (F : A -> N -> list B) :
  forall rs ks i r k,
    NoDup ks -> rs !! i = Some r -> ks !! i = Some k ->
    (forall r' k', k' <> k -> Forall (fun e => p e = false) (F r' k')) ->
    Forall (fun e => p e = true) (F r k) ->
    List.filter p (List.concat (zip_with F rs ks)) = F r k.
Proof.
  induction rs as [|r0 rs IH]; intros ks i r k Hnd Hr Hk Hother Hself; [discriminate|].
  destruct ks as [|k0 ks]; [discriminate|].
  apply NoDup_cons in Hnd as [Hnotin Hnd].
  simpl. rewrite List.filter_app. destruct i as [|i]; simpl in Hr, Hk.
  - injection Hr as ->. injection Hk as ->.
    rewrite (filter_all_true p (F r k)) by assumption.
    rewrite (filter_nil_Forall p), app_nil_r; [reflexivity|].
    apply Forall_concat. apply List.Forall_forall. intros l Hin.
    apply list_elem_of_In, elem_of_lookup_zip_with in Hin as (j & r' & k' & -> & _ & Hk').
    apply Hother. intros ->. apply Hnotin. eapply list_elem_of_lookup_2; eauto.
  - rewrite (filter_nil_Forall p (F r0 k0)).
    + simpl. eapply IH; eauto.
    + apply Hother. intros ->. apply Hnotin. eapply list_elem_of_lookup_2; eauto.
Qed.

Lemma filter_and_split {A} (p q : A -> bool) l :
  List.filter (fun a => p a && q a) l = List.filter q (List.filter p l).
Proof.
  induction l as [|a l IH]; simpl; [reflexivity|].
  destruct (p a); simpl; [destruct (q a); simpl; congruence|assumption].
Qed.

Lemma last_is_Some_iff {A} (l : list A) : is_Some (last l) <-> l <> [].
Proof.
  destruct l as [|a l] using rev_ind; simpl.
  - split; [intros [? [=]]|congruence].
  - rewrite last_snoc. split; [intros _; destruct l; discriminate|eauto].
Qed.

Lemma last_In {A} (l : list A) a : last l = Some a -> In a l.
Proof.
  destruct l as [|b l] using rev_ind; [discriminate|].
  rewrite last_snoc. intros [= ->]. apply in_or_app. right. left. reflexivity.
Qed.

Lemma touches_leftEdge k src tgt r :
  touches k (leftEdge [] src tgt r) = bool_decide (src = k) || bool_decide (tgt = k).
Proof. reflexivity. Qed.

Lemma touches_rightEdge k src tgt r :
  touches k (rightEdge [] src tgt r) = bool_decide (src = k) || bool_decide (tgt = k).
Proof. reflexivity. Qed.

(** C4 (amended). For every AST and every relationship of it,
    [astToDiagramModel] makes one node for the relationship, and the
    relational edges at that node are exactly these: for the left side, when
    an entity of that name is declared in the AST, one edge from that entity's
    node to the relationship's node with the side's cardinality and
    participation as source fields; for the right side, when an entity of that
    name is declared, one edge from the relationship's node to that entity's
    node with the side's cardinality and participation as target fields.  A
    side that names no declared entity gets no edge; so there are exactly two
    relational edges when both names are declared. *)
Theorem C4_side_edges ast i rel :
  relationships ast !! i = Some rel ->
  let m := astToDiagramModel ast in
  exists relNode,
    List.filter isRelationshipNode (nodes m) !! i = Some relNode
    /\ relNode = relationshipDiagramNode rel (node_id relNode)
    /\ List.map anonymous (relEdgesOf (edges m) relNode)
       = sideEdges rel (node_id relNode)
           (node_id <$> entityNodeNamed m (side_entityName (leftSide rel)))
           (node_id <$> entityNodeNamed m (side_entityName (rightSide rel)))
    /\ (forall n, is_Some (entityNodeNamed m n) <-> In n (List.map ent_name (entities ast)))
    /\ (In (side_entityName (leftSide rel)) (List.map ent_name (entities ast)) ->
        In (side_entityName (rightSide rel)) (List.map ent_name (entities ast)) ->
        length (relEdgesOf (edges m) relNode) = 2%nat).
Proof.
  intros Hrel m.
  pose proof (entities_phase (entities ast) [] resetIdCounters ∅ entityPhase_start) as HE.
  simpl in HE.
  assert (Hm : m = let '(b, entityNodeMap) :=
                     fold_left processEntity (entities ast) (resetIdCounters, ∅) in
                   let b := fold_left (processRelationship entityNodeMap)
                              (relationships ast) b in
                   {| nodes := out_nodes b; edges := out_edges b |}) by reflexivity.
  destruct (fold_left processEntity (entities ast) (resetIdCounters, ∅)) as [bE emap].
  simpl in HE. destruct HE as (Hids & Hedges & Hnorel & Hlabels & Hmap).
  destruct (relationships_phase emap (relationships ast) bE)
    as (ks & Hlen & Hgt & Hnd & Hc & Hrelnodes & Hentnodes & Hreledges).
  set (b' := fold_left (processRelationship emap) (relationships ast) bE) in *.
  assert (Hnodes : nodes m = out_nodes b') by (rewrite Hm; reflexivity).
  assert (Hedgesm : edges m = out_edges b') by (rewrite Hm; reflexivity).
  clearbody m b'. clear Hm.
  rewrite (filter_nil_Forall isRelationshipNode (out_nodes bE)) in Hrelnodes by assumption.
  rewrite (filter_nil_Forall hasCardinality (out_edges bE)) in Hreledges by assumption.
  simpl in Hrelnodes, Hreledges.
  destruct (lookup_lt_is_Some_2 ks i) as [k Hk].
  { rewrite Hlen. eapply lookup_lt_Some; eauto. }
  assert (Hkgt : nodeIdCounter bE < k).
  { rewrite List.Forall_forall in Hgt. apply Hgt, list_elem_of_In.
    eapply list_elem_of_lookup_2; eauto. }
  (* the entity nodes found by name *)
  assert (Hnamed : forall n,
             entityNodeNamed m n
             = last (List.filter (fun node => isEntityNode node && bool_decide (label node = n))
                       (out_nodes bE))).
  { intros n. unfold entityNodeNamed. rewrite Hnodes, !filter_and_split, Hentnodes.
    reflexivity. }
  assert (Hentid : forall n node, entityNodeNamed m n = Some node ->
                                  idBetween 0 (nodeIdCounter bE) (node_id node)).
  { intros n node Hn. rewrite Hnamed in Hn. apply last_In, List.filter_In in Hn as [Hn _].
    rewrite List.Forall_forall in Hids. apply Hids, Hn. }
  assert (Htruthy : forall n, getTruthy emap n = node_id <$> entityNodeNamed m n).
  { intros n. unfold getTruthy. rewrite Hmap, <- Hnamed.
    destruct (entityNodeNamed m n) as [node|] eqn:E; simpl; [|reflexivity].
    destruct (Hentid n node E) as (k' & _ & ->).
    rewrite bool_decide_eq_false_2 by apply nodeIdOf_nonempty. reflexivity. }
  exists (relationshipDiagramNode rel (nodeIdOf k)).
  assert (Hedgeeq :
            List.map anonymous (relEdgesOf (edges m) (relationshipDiagramNode rel (nodeIdOf k)))
            = sideEdges rel (nodeIdOf k)
                (node_id <$> entityNodeNamed m (side_entityName (leftSide rel)))
                (node_id <$> entityNodeNamed m (side_entityName (rightSide rel)))).
  { rewrite relEdgesOf_touches, Hedgesm, Hreledges. simpl node_id.
    rewrite <- !Htruthy.
    apply (filter_concat_zip_with (touches (nodeIdOf k))
             (fun r k => sideEdges r (nodeIdOf k)
                           (getTruthy emap (side_entityName (leftSide r)))
                           (getTruthy emap (side_entityName (rightSide r))))
             (relationships ast) ks i rel k); auto.
    - intros r' k' Hne. unfold sideEdges. rewrite !Htruthy.
      assert (Hk' : bool_decide (nodeIdOf k' = nodeIdOf k) = false).
      { apply bool_decide_eq_false_2. intros H. apply nodeIdOf_inj in H. congruence. }
      assert (Hfar : forall n node, entityNodeNamed m n = Some node ->
                                    bool_decide (node_id node = nodeIdOf k) = false).
      { intros n node Hn. apply bool_decide_eq_false_2.
        destruct (Hentid n node Hn) as (j & Hj & ->). intros H.
        apply nodeIdOf_inj in H. lia. }
      apply Forall_app. split.
      + destruct (entityNodeNamed m (side_entityName (leftSide r'))) eqn:E; simpl;
          constructor; [|constructor].
        rewrite touches_leftEdge, Hk', (Hfar _ _ E). reflexivity.
      + destruct (entityNodeNamed m (side_entityName (rightSide r'))) eqn:E; simpl;
          constructor; [|constructor].
        rewrite touches_rightEdge, Hk', (Hfar _ _ E). reflexivity.
    - unfold sideEdges. apply Forall_app. split.
      + destruct (getTruthy emap _); constructor; [|constructor].
        rewrite touches_leftEdge, (bool_decide_eq_true_2 (nodeIdOf k = nodeIdOf k)) by reflexivity.
        apply orb_true_r.
      + destruct (getTruthy emap _); constructor; [|constructor].
        rewrite touches_rightEdge, (bool_decide_eq_true_2 (nodeIdOf k = nodeIdOf k)) by reflexivity.
        reflexivity. }
  assert (Hdeclared : forall n, is_Some (entityNodeNamed m n)
                                <-> In n (List.map ent_name (entities ast))).
  { intros n. rewrite Hnamed, last_is_Some_iff, <- Hlabels, filter_and_split.
    rewrite in_map_iff. split.
    - intros Hne.
      destruct (List.filter (fun a => bool_decide (label a = n)) _) as [|node l] eqn:E;
        [congruence|].
      assert (Hin : In node (node :: l)) by (left; reflexivity).
      rewrite <- E in Hin. apply List.filter_In in Hin as [Hin Hl].
      apply bool_decide_eq_true_1 in Hl. eauto.
    - intros (node & Hl & Hin) Hnil.
      assert (Hin' : In node (List.filter (fun a => bool_decide (label a = n))
                                (List.filter isEntityNode (out_nodes bE)))).
      { apply List.filter_In. split; [assumption|]. apply bool_decide_eq_true_2, Hl. }
      rewrite Hnil in Hin'. destruct Hin'. }
  split; [|split; [reflexivity|split; [exact Hedgeeq|split; [exact Hdeclared|]]]].
  - rewrite Hnodes, Hrelnodes. rewrite lookup_zip_with, Hrel, Hk. reflexivity.
  - intros Hl Hr. apply Hdeclared in Hl as [nl Hl]. apply Hdeclared in Hr as [nr Hr].
    rewrite <- (length_map anonymous), Hedgeeq. simpl node_id. rewrite Hl, Hr. reflexivity.
Qed.

(** ** The layout: the row of the entities *)

Lemma placeEntity_step positions (z : Z) e :
  placeEntity (positions, inject_Z z) e
  = (<[node_id e := {| pos_x := inject_Z z; pos_y := 250 |}]> positions,
     inject_Z (z + 200)).
Proof.
  unfold placeEntity, HORIZONTAL_SPACING. f_equal.
  unfold Qplus, inject_Z. simpl. f_equal. lia.
Qed.

Lemma placeEntity_other l : forall positions (z : Z) k,
  ~ In k (List.map node_id l) ->
  (fold_left placeEntity l (positions, inject_Z z)).1 !! k = positions !! k.
Proof.
  induction l as [|e l IH]; intros positions z k Hk; cbn [fold_left]; [reflexivity|].
  rewrite placeEntity_step, IH.
  - apply lookup_insert_ne. intros H. apply Hk. left. assumption.
  - intros H. apply Hk. right. assumption.
Qed.

Lemma entities_placed l : forall positions (z : Z) i e,
  List.NoDup (List.map node_id l) ->
  l !! i = Some e ->
  (fold_left placeEntity l (positions, inject_Z z)).1 !! node_id e
  = Some {| pos_x := inject_Z (z + 200 * Z.of_nat i); pos_y := 250 |}.
Proof.
  induction l as [|e0 l IH]; intros positions z i e Hnd Hi; [discriminate|].
  simpl in Hnd. apply List.NoDup_cons_iff in Hnd as [Hnotin Hnd].
  cbn [fold_left]. rewrite placeEntity_step. destruct i as [|i]; simpl in Hi.
  - injection Hi as ->. rewrite placeEntity_other by assumption.
    rewrite lookup_insert_eq. do 3 f_equal. lia.
  - rewrite (IH _ _ i e Hnd Hi). do 3 f_equal. lia.
Qed.

Lemma placeRelationships_other es rels : forall positions k,
  ~ In k (List.map node_id rels) ->
  fold_left (placeRelationship es) rels positions !! k = positions !! k.
Proof.
  induction rels as [|r rels IH]; intros positions k Hk; simpl; [reflexivity|].
  rewrite IH by (intros H; apply Hk; right; assumption).
  unfold placeRelationship.
  destruct (fold_left _ (relEdgesOf es r) _) as [avgX count].
  apply lookup_insert_ne. intros H. apply Hk. left. assumption.
Qed.

Lemma forEachIndexed_other {A} (f : gmap jsstring Position -> A -> nat -> gmap jsstring Position)
    (key : A -> jsstring) k l :
  (forall positions a index, In a l -> key a <> k -> f positions a index !! k = positions !! k) ->
  ~ In k (List.map key l) ->
  forall index positions, forEachIndexed f l index positions !! k = positions !! k.
Proof.
  induction l as [|a l IH]; intros Hf Hk index positions; simpl; [reflexivity|].
  rewrite IH.
  - apply Hf; [left; reflexivity|]. intros H. apply Hk. left. assumption.
  - intros ? ? ? Hin. apply Hf. right. assumption.
  - intros H. apply Hk. right. assumption.
Qed.

Lemma placeAttribute_other attributes parentMap startX baseY positions attr index k :
  node_id attr <> k -> ~ In k (List.map node_id attributes) ->
  placeAttribute attributes parentMap startX baseY positions attr index !! k = positions !! k.
Proof.
  intros Hattr Hk. unfold placeAttribute.
  set (subAttrs := List.filter _ attributes).
  destruct (Nat.ltb 0 (length subAttrs)).
  - rewrite (forEachIndexed_other _ node_id k).
    + apply lookup_insert_ne. assumption.
    + intros ps a idx _ Ha. apply lookup_insert_ne. assumption.
    + intros Hin. apply Hk. apply in_map_iff in Hin as (a & Ha & Hin).
      apply in_map_iff. exists a. split; [assumption|].
      apply List.filter_In in Hin. tauto.
  - apply lookup_insert_ne. assumption.
Qed.

Lemma placeGroup_other entityNodes attributes parentMap positions parent attrs k :
  (forall a, In a attrs -> In a attributes) ->
  ~ In k (List.map node_id attributes) ->
  placeGroup entityNodes attributes parentMap positions (parent, attrs) !! k = positions !! k.
Proof.
  intros Hsub Hk. unfold placeGroup.
  destruct (positions !! parent) as [parentPos|]; [|reflexivity].
  apply (forEachIndexed_other _ node_id k).
  - intros ps a idx Hin Ha. apply placeAttribute_other; assumption.
  - intros Hin. apply Hk. apply in_map_iff in Hin as (a & Ha & Hin).
    apply in_map_iff. exists a. split; [assumption|]. apply Hsub, Hin.
Qed.

Lemma assoc_In {A} k (groups : list (jsstring * A)) v :
  assoc k groups = Some v -> In (k, v) groups.
Proof.
  induction groups as [|[k' v'] groups IH]; simpl; [discriminate|].
  unfold jsstring_eqb. case_bool_decide as Hk.
  - intros [= ->]. left. congruence.
  - intros H. right. apply IH, H.
Qed.

Lemma setGroup_In groups : forall k v p g,
  In (p, g) (setGroup groups k v) -> (p, g) = (k, v) \/ In (p, g) groups.
Proof.
  induction groups as [|[k' v'] groups IH]; simpl; intros k v p g H.
  - destruct H as [H|[]]. left. congruence.
  - destruct (jsstring_eqb k k').
    + destruct H as [H|H]; [left; congruence|right; right; assumption].
    + destruct H as [H|H]; [right; left; assumption|].
      apply IH in H as [H|H]; [left; assumption|right; right; assumption].
Qed.

Lemma groups_members parentMap attributes :
  forall p g a,
    In (p, g) (fold_left (addToGroup parentMap) attributes []) -> In a g -> In a attributes.
Proof.
  assert (H : forall l groups,
             (forall p g a, In (p, g) groups -> In a g -> In a attributes) ->
             (forall a, In a l -> In a attributes) ->
             forall p g a, In (p, g) (fold_left (addToGroup parentMap) l groups) ->
                           In a g -> In a attributes).
  { induction l as [|x l IH]; simpl; intros groups Hg Hl p g a; [apply Hg|].
    apply IH; [|intros; apply Hl; right; assumption].
    intros p' g' a' Hin Ha. unfold addToGroup in Hin.
    destruct (getTruthy parentMap (node_id x)) as [parent|]; [|eapply Hg; eauto].
    apply setGroup_In in Hin as [[= -> ->]|Hin]; [|eapply Hg; eauto].
    apply in_app_or in Ha as [Ha|[<-|[]]].
    - destruct (assoc parent groups) as [old|] eqn:E; simpl in Ha; [|destruct Ha].
      apply assoc_In in E. eapply Hg; eauto.
    - apply Hl. left. reflexivity. }
  apply (H attributes []); auto. intros ? ? ? [].
Qed.

Lemma placeGroups_other entityNodes attributes parentMap k groups :
  (forall p g a, In (p, g) groups -> In a g -> In a attributes) ->
  ~ In k (List.map node_id attributes) ->
  forall positions,
    fold_left (placeGroup entityNodes attributes parentMap) groups positions !! k
    = positions !! k.
Proof.
  induction groups as [|[p g] groups IH]; intros Hg Hk positions; simpl; [reflexivity|].
  rewrite IH by (try assumption; intros; eapply Hg; eauto; right; eassumption).
  apply placeGroup_other; [|assumption].
  intros a Ha. eapply Hg; eauto. left. reflexivity.
Qed.

Lemma calculateLayout_entities entityNodes relationshipNodes attributes es i e :
  List.NoDup (List.map node_id entityNodes) ->
  ~ In (node_id e) (List.map node_id relationshipNodes) ->
  ~ In (node_id e) (List.map node_id attributes) ->
  entityNodes !! i = Some e ->
  calculateLayout entityNodes relationshipNodes attributes es !! node_id e
  = Some {| pos_x := inject_Z (100 + 200 * Z.of_nat i); pos_y := 250 |}.
Proof.
  intros Hnd Hrel Hattr Hi. unfold calculateLayout.
  pose proof (entities_placed entityNodes ∅ 100 i e Hnd Hi) as H.
  change (inject_Z 100) with (100 : Q) in H.
  destruct (fold_left placeEntity entityNodes (∅, 100%Q)) as [positions x].
  simpl in H.
  rewrite placeGroups_other; [|apply groups_members|assumption].
  rewrite placeRelationships_other by assumption. exact H.
Qed.

(** ** The layout reads identifiers, types and edges only *)

Lemma filter_Forall2 {A} (R : A -> A -> Prop) (p : A -> bool) l l' :
  (forall a a', R a a' -> p a = p a') ->
  Forall2 R l l' -> Forall2 R (List.filter p l) (List.filter p l').
Proof.
  intros Hp. induction 1 as [|a a' l l' Ha _ IH]; simpl; [constructor|].
  rewrite <- (Hp a a' Ha). destruct (p a); [constructor|]; assumption.
Qed.

Lemma fold_left_Forall2 {A S} (R : A -> A -> Prop) (RS : S -> S -> Prop)
    (f f' : S -> A -> S) l l' :
  (forall s s' a a', RS s s' -> R a a' -> RS (f s a) (f' s' a')) ->
  Forall2 R l l' -> forall s s', RS s s' -> RS (fold_left f l s) (fold_left f' l' s').
Proof.
  intros Hf. induction 1 as [|a a' l l' Ha _ IH]; simpl; intros s s' Hs; [assumption|].
  apply IH, Hf; assumption.
Qed.

Lemma forEachIndexed_Forall2 {A S} (R : A -> A -> Prop) (f f' : S -> A -> nat -> S) l l' :
  (forall s a a' i, R a a' -> f s a i = f' s a' i) ->
  Forall2 R l l' -> forall i s, forEachIndexed f l i s = forEachIndexed f' l' i s.
Proof.
  intros Hf. induction 1 as [|a a' l l' Ha _ IH]; simpl; intros i s; [reflexivity|].
  rewrite (Hf s a a' i Ha). apply IH.
Qed.

Lemma existsb_Forall2 {A} (R : A -> A -> Prop) (p : A -> bool) l l' :
  (forall a a', R a a' -> p a = p a') -> Forall2 R l l' -> existsb p l = existsb p l'.
Proof.
  intros Hp. induction 1 as [|a a' l l' Ha _ IH]; simpl; [reflexivity|].
  rewrite (Hp a a' Ha), IH. reflexivity.
Qed.

Lemma assoc_sameGroups k g g' :
  sameGroups g g' -> Forall2 sameShape (default [] (assoc k g)) (default [] (assoc k g')).
Proof.
  induction 1 as [|[p x] [p' x'] g g' [Hp Hx] _ IH]; simpl in *; [constructor|].
  subst p'. destruct (jsstring_eqb k p); simpl; assumption.
Qed.

Lemma setGroup_sameGroups k v v' g g' :
  sameGroups g g' -> Forall2 sameShape v v' -> sameGroups (setGroup g k v) (setGroup g' k v').
Proof.
  intros Hg Hv. induction Hg as [|[p x] [p' x'] g g' [Hp Hx] Hg IH]; simpl in *.
  - constructor; [split; [reflexivity|assumption]|constructor].
  - subst p'. destruct (jsstring_eqb k p).
    + constructor; [split; [reflexivity|assumption]|assumption].
    + constructor; [split; [reflexivity|assumption]|assumption].
Qed.

Lemma addToGroup_sameGroups parentMap g g' a a' :
  sameGroups g g' -> sameShape a a' ->
  sameGroups (addToGroup parentMap g a) (addToGroup parentMap g' a').
Proof.
  intros Hg [Hid Hty]. unfold addToGroup. rewrite <- Hid.
  destruct (getTruthy parentMap (node_id a)) as [parent|]; [|assumption].
  apply setGroup_sameGroups; [assumption|].
  apply Forall2_app; [apply assoc_sameGroups; assumption|].
  constructor; [split; assumption|constructor].
Qed.

Lemma placeAttribute_sameShape attributes attributes' parentMap startX baseY positions a a' i :
  Forall2 sameShape attributes attributes' -> sameShape a a' ->
  placeAttribute attributes parentMap startX baseY positions a i
  = placeAttribute attributes' parentMap startX baseY positions a' i.
Proof.
  intros Hattrs [Hid Hty]. unfold placeAttribute. rewrite <- Hid.
  assert (Hsub : Forall2 sameShape
                   (List.filter (fun x => bool_decide (parentMap !! node_id x = Some (node_id a)))
                      attributes)
                   (List.filter (fun x => bool_decide (parentMap !! node_id x = Some (node_id a)))
                      attributes')).
  { apply filter_Forall2; [|assumption]. intros x x' [Hx _]. rewrite Hx. reflexivity. }
  rewrite <- (Forall2_length _ _ _ Hsub).
  destruct (Nat.ltb 0 _); [|reflexivity].
  apply forEachIndexed_Forall2 with (R := sameShape); [|assumption].
  intros s x x' j [Hx _]. rewrite Hx. reflexivity.
Qed.

Lemma placeGroup_sameShape ents ents' attributes attributes' parentMap positions g g' :
  Forall2 sameShape ents ents' -> Forall2 sameShape attributes attributes' ->
  g.1 = g'.1 -> Forall2 sameShape g.2 g'.2 ->
  placeGroup ents attributes parentMap positions g
  = placeGroup ents' attributes' parentMap positions g'.
Proof.
  intros Hents Hattrs Hp Hg. destruct g as [p x], g' as [p' x']. simpl in *. subst p'.
  unfold placeGroup. destruct (positions !! p) as [parentPos|]; [|reflexivity].
  rewrite (existsb_Forall2 sameShape _ ents ents') by
    (try assumption; intros e e' [He _]; rewrite He; reflexivity).
  rewrite <- (Forall2_length _ _ _ Hg).
  apply forEachIndexed_Forall2 with (R := sameShape); [|assumption].
  intros s a a' i Ha. apply placeAttribute_sameShape; assumption.
Qed.

Lemma calculateLayout_sameShape ents ents' rels rels' attributes attributes' es :
  Forall2 sameShape ents ents' -> Forall2 sameShape rels rels' ->
  Forall2 sameShape attributes attributes' ->
  calculateLayout ents rels attributes es = calculateLayout ents' rels' attributes' es.
Proof.
  intros Hents Hrels Hattrs. unfold calculateLayout.
  assert (H1 : fold_left placeEntity ents (∅, 100%Q) = fold_left placeEntity ents' (∅, 100%Q)).
  { apply (fold_left_Forall2 sameShape eq placeEntity placeEntity); auto.
    intros s s' a a' -> [Ha _]. destruct s' as [ps x]. unfold placeEntity.
    rewrite Ha. reflexivity. }
  rewrite <- H1. destruct (fold_left placeEntity ents (∅, 100%Q)) as [positions x].
  assert (H2 : fold_left (placeRelationship es) rels positions
               = fold_left (placeRelationship es) rels' positions).
  { apply (fold_left_Forall2 sameShape eq); auto.
    intros s s' a a' -> [Ha _]. unfold placeRelationship, relEdgesOf.
    rewrite Ha. reflexivity. }
  rewrite <- H2.
  apply (fold_left_Forall2 (fun g g' => g.1 = g'.1 /\ Forall2 sameShape g.2 g'.2) eq); auto.
  - intros s s' g g' -> [Hp Hg]. apply placeGroup_sameShape; assumption.
  - apply (fold_left_Forall2 sameShape sameGroups); [|assumption|constructor].
    intros s s' a a'. apply addToGroup_sameGroups.
Qed.

Lemma NoDup_map_filter {A B} (f : A -> B) (p : A -> bool) l :
  List.NoDup (List.map f l) -> List.NoDup (List.map f (List.filter p l)).
Proof.
  induction l as [|a l IH]; simpl; intros H; [constructor|].
  apply List.NoDup_cons_iff in H as [Hnotin H].
  destruct (p a); simpl; [|auto].
  constructor; [|auto]. intros Hin. apply Hnotin.
  apply in_map_iff in Hin as (x & Hx & Hin). apply in_map_iff. exists x.
  split; [assumption|]. apply List.filter_In in Hin. tauto.
Qed.

Lemma NoDup_map_same {A B} (f : A -> B) l a b :
  List.NoDup (List.map f l) -> In a l -> In b l -> f a = f b -> a = b.
Proof.
  induction l as [|x l IH]; simpl; intros H Ha Hb Hf; [destruct Ha|].
  apply List.NoDup_cons_iff in H as [Hnotin H].
  destruct Ha as [->|Ha], Hb as [->|Hb]; auto.
  - exfalso. apply Hnotin. rewrite Hf. apply in_map. assumption.
  - exfalso. apply Hnotin. rewrite <- Hf. apply in_map. assumption.
Qed.

(** C9. The layout is a function of the graph alone, and of no more than the
    identifiers and types of its nodes and its edges: run again on the same
    graph, or on the graph with other labels and rectangles, it gives the same
    coordinates to every node.  On a graph whose node identifiers are distinct
    the entities lie on one row, [y = 250], the i-th one in list order at
    [x = 100 + 200 i]. *)
Theorem C9_layout_deterministic_entity_row m :
  (forall m', List.map (fun n => (node_id n, type n)) (nodes m')
              = List.map (fun n => (node_id n, type n)) (nodes m) ->
              edges m' = edges m -> layoutOf m' = layoutOf m)
  /\ (List.NoDup (List.map node_id (nodes m)) ->
      forall i e,
        List.filter isEntityNode (nodes m) !! i = Some e ->
        layoutOf m !! node_id e
        = Some {| pos_x := inject_Z (100 + 200 * Z.of_nat i); pos_y := 250 |}).
Proof.
  split.
  - intros m' Hnodes Hedges. unfold layoutOf. rewrite Hedges.
    assert (Hsame : Forall2 sameShape (nodes m') (nodes m)).
    { revert Hnodes. generalize (nodes m') (nodes m).
      induction l as [|a l IH]; intros [|b l'] H; simpl in H; try discriminate; constructor.
      - injection H as H1 H2 _. split; assumption.
      - injection H as _ _ H. apply IH, H. }
    apply calculateLayout_sameShape; (apply filter_Forall2; [|assumption]);
      intros a a' [_ Hty]; unfold isEntityNode, isRelationshipNode; rewrite Hty; reflexivity.
  - intros Hnd i e Hi. unfold layoutOf.
    assert (Hin : In e (List.filter isEntityNode (nodes m))).
    { apply list_elem_of_In. eapply list_elem_of_lookup_2; eauto. }
    apply List.filter_In in Hin as [Hin Hent].
    assert (Hother : forall p, (forall n, p n = true -> isEntityNode n = false) ->
                               ~ In (node_id e) (List.map node_id (List.filter p (nodes m)))).
    { intros p Hp H. apply in_map_iff in H as (n & Hid & Hn).
      apply List.filter_In in Hn as [Hn Hpn].
      assert (n = e) by (eapply NoDup_map_same; eauto). subst n.
      rewrite (Hp e Hpn) in Hent. discriminate. }
    apply calculateLayout_entities; auto.
    + apply NoDup_map_filter, Hnd.
    + apply Hother. intros n. unfold isRelationshipNode, isEntityNode.
      destruct (type n); simpl; intros; try discriminate; reflexivity.
    + apply Hother. intros n. unfold isEntityNode.
      destruct (type n); simpl; intros; try discriminate; reflexivity.
Qed.

(** ** The properties at concrete inputs *)


Lemma C3_counterexample :
  relEdgesOf (edges oneSidedModel) (bareNode (str "r") relationship (str "R"))
  = edges oneSidedModel
  /\ lastSupplier
       (rightSupplier (buildNodeMap (nodes oneSidedModel))
          (bareNode (str "r") relationship (str "R")))
       (edges oneSidedModel) = None
  /\ exists ast rel,
       diagramModelToAST 1 oneSidedModel = Ok ast
       /\ relationships ast = [rel]
       /\ rightSide rel = {| side_entityName := []; cardinality := Many;
                             participation := partial |}
       /\ cardinality (rightSide rel) <> One.
Proof.
  split; [vm_compute; reflexivity|]. split; [vm_compute; reflexivity|].
  eexists _, _. split; [vm_compute; reflexivity|]. split; [reflexivity|].
  split; [reflexivity|]. discriminate.
Qed.

Lemma C3_witness :
  exists ast,
    diagramModelToAST 1 oneSidedModel = Ok ast
    /\ Forall2
         (fun node rel =>
            leftSide rel
            = expectedLeftSide (buildNodeMap (nodes oneSidedModel)) (edges oneSidedModel) node
            /\ rightSide rel
               = expectedRightSide (buildNodeMap (nodes oneSidedModel))
                   (edges oneSidedModel) node)
         (List.filter isRelationshipNode (nodes oneSidedModel)) (relationships ast).
Proof.
  apply (C3_side_defaults 1 oneSidedModel (fun _ => O)).
  - intros e [<-|[]] [Hc _]. vm_compute in Hc. discriminate.
  - intros n _. lia.
Defined.

Lemma C4_counterexample :
  let m := astToDiagramModel danglingRelationAST in
  exists rel relNode,
    relationships danglingRelationAST !! O = Some rel
    /\ List.filter isRelationshipNode (nodes m) !! O = Some relNode
    /\ relEdgesOf (edges m) relNode = []
    /\ edges m = [].
Proof.
  eexists _, _. split; [reflexivity|]. split; [vm_compute; reflexivity|].
  split; vm_compute; reflexivity.
Qed.

Lemma C4_witness :
  exists rel relNode,
    relationships sellsAST !! O = Some rel
    /\ List.filter isRelationshipNode (nodes (astToDiagramModel sellsAST)) !! O = Some relNode
    /\ length (relEdgesOf (edges (astToDiagramModel sellsAST)) relNode) = 2%nat.
Proof.
  destruct (C4_side_edges sellsAST O _ eq_refl) as (relNode & Hnode & _ & _ & _ & Hlen).
  eexists _, relNode. split; [reflexivity|]. split; [exact Hnode|].
  apply Hlen; vm_compute; tauto.
Defined.

Lemma C5_counterexample :
  tokenize compositeDocument = compositeTokens
  /\ exists street phones rest,
       drop 6 compositeTokens = street :: phones :: rest
       /\ parseSubAttributeList (drop 6 compositeTokens)
          = Ok ([plainAttribute (str "street")], phones :: rest)
       /\ tok_type phones = IDENTIFIER
       /\ isEntityOrRelationStart (phones :: rest) || check IDENTIFIED (phones :: rest) = false
       /\ Exists (fun t => tok_type t = ENTITY) rest.
Proof.
  split; [vm_compute; reflexivity|].
  eexists _, _, _. split; [reflexivity|]. split; [vm_compute; reflexivity|].
  split; [reflexivity|]. split; [reflexivity|].
  apply List.Exists_cons_tl, List.Exists_cons_hd. reflexivity.
Qed.

Lemma C7_witness :
  exists r, In r (relationships sampleAST)
            /\ relationshipType r = identifying /\ bothTotal r.
Proof.
  eexists. split; [right; left; reflexivity|]. split; [reflexivity|].
  apply (proj1 C7_identifying_is_total sampleDSL sampleAST).
  - vm_compute. reflexivity.
  - right. left. reflexivity.
  - reflexivity.
Defined.

Lemma C9_witness :
  List.NoDup (List.map node_id (nodes sellsModel))
  /\ exists e,
       List.filter isEntityNode (nodes sellsModel) !! 1%nat = Some e
       /\ layoutOf sellsModel !! node_id e
          = Some {| pos_x := inject_Z 300; pos_y := 250 |}.
Proof.
  assert (Hnd : List.NoDup (List.map node_id (nodes sellsModel))).
  { apply NoDup_ListNoDup. apply (bool_decide_unpack _). vm_compute. reflexivity. }
  split; [exact Hnd|].
  eexists. split; [reflexivity|].
  apply (proj2 (C9_layout_deterministic_entity_row sellsModel) Hnd 1%nat).
  reflexivity.
Defined.

Lemma C10_witness : Forall fieldsCoherent (astAttributes sampleAST).
Proof.
  apply (C10_attribute_fields_coherent sampleDSL). vm_compute. reflexivity.
Defined.

(** ** The tokenizer without positions *)

Lemma skipComment_fst s : forall col col', (skipComment s col).1 = (skipComment s col').1.
Proof.
  induction s as [|c s IH]; intros col col'; simpl; [reflexivity|].
  destruct (c =? c_lf); [reflexivity|]. apply IH.
Qed.

Lemma skipComment_length s col : (length (skipComment s col).1 <= length s)%nat.
Proof.
  revert col. induction s as [|c s IH]; intros col; simpl; [lia|].
  destruct (c =? c_lf); simpl; [lia|]. specialize (IH (col + 1)). lia.
Qed.

Lemma skip_loop_fst fuel : forall s col col',
  (skipWhitespaceAndComments_loop fuel s col).1
  = (skipWhitespaceAndComments_loop fuel s col').1.
Proof.
  induction fuel as [|fuel IH]; intros s col col'; simpl; [reflexivity|].
  destruct s as [|c s]; [reflexivity|].
  destruct ((c =? c_space) || (c =? c_tab) || (c =? c_cr)); [apply IH|].
  destruct (c =? c_hash); [|reflexivity].
  pose proof (skipComment_fst (c :: s) col col') as H.
  destruct (skipComment (c :: s) col) as [s2 col2], (skipComment (c :: s) col') as [s2' col2'].
  simpl in H. subst s2'. apply IH.
Qed.

Lemma skip_loop_length fuel : forall s col,
  (length (skipWhitespaceAndComments_loop fuel s col).1 <= length s)%nat.
Proof.
  induction fuel as [|fuel IH]; intros s col; simpl; [lia|].
  destruct s as [|c s]; [simpl; lia|].
  destruct ((c =? c_space) || (c =? c_tab) || (c =? c_cr)).
  { specialize (IH s (col + 1)). simpl. lia. }
  destruct (c =? c_hash); [|simpl; lia].
  pose proof (skipComment_length (c :: s) col) as H.
  destruct (skipComment (c :: s) col) as [s2 col2]. simpl in H.
  specialize (IH s2 col2). simpl length. lia.
Qed.

Lemma skipWhitespaceAndComments_input t :
  input (skipWhitespaceAndComments t) = skipped (input t)
  /\ tokens (skipWhitespaceAndComments t) = tokens t.
Proof.
  unfold skipWhitespaceAndComments, skipped.
  pose proof (skip_loop_fst (S (length (input t))) (input t) (cur_column t) 0) as H.
  destruct (skipWhitespaceAndComments_loop (S (length (input t))) (input t) (cur_column t))
    as [s col].
  simpl in *. auto.
Qed.

Lemma skipped_length s : (length (skipped s) <= length s)%nat.
Proof. apply skip_loop_length. Qed.

Lemma tokenize_step_lexStep t c r :
  input t = c :: r ->
  input (tokenize_step t c) = (lexStep c (c :: r)).2
  /\ List.map tv (tokens (tokenize_step t c))
     = List.map tv (tokens t) ++ (lexStep c (c :: r)).1.
Proof.
  intros Hin. unfold tokenize_step, lexStep, readIdentifier, readNumber, lex_peek.
  rewrite Hin.
  destruct (c =? c_lf). { simpl. rewrite app_nil_r. auto. }
  destruct (isLetter c).
  { destruct (readWhile isWordChar (c :: r)) as [v r']. simpl.
    rewrite List.map_app. auto. }
  destruct (isDigit c).
  { destruct (readWhile isDigit (c :: r)) as [v r']. simpl.
    rewrite List.map_app. destruct (jsstring_eqb v (str "1")); auto. }
  assert (Hadv : forall u tok,
             input u = c :: r ->
             input (lex_advance (push u tok)) = r
             /\ List.map tv (tokens (lex_advance (push u tok)))
                = List.map tv (tokens u) ++ [tv tok]).
  { intros u tok Hu. simpl. rewrite Hu, List.map_app. auto. }
  assert (Hadv2 : forall u tok,
             input u = c :: r ->
             input (lex_advance (lex_advance (push u tok))) = tl r
             /\ List.map tv (tokens (lex_advance (lex_advance (push u tok))))
                = List.map tv (tokens u) ++ [tv tok]).
  { intros u tok Hu. simpl. rewrite Hu, List.map_app. auto. }
  destruct (c =? c_colon); [apply Hadv, Hin|].
  destruct (c =? c_lparen); [apply Hadv, Hin|].
  destruct (c =? c_rparen); [apply Hadv, Hin|].
  destruct (c =? c_comma); [apply Hadv, Hin|].
  destruct (c =? c_dot); [apply Hadv, Hin|].
  destruct (c =? c_plus); [apply Hadv, Hin|].
  destruct (c =? c_minus), (c =? c_emdash); simpl;
    repeat case_bool_decide; simpl; try congruence;
    first [ apply Hadv, Hin | apply Hadv2, Hin | rewrite Hin, ?app_nil_r; auto ].
Qed.

Lemma tokenize_loop_lexFuel fuel : forall t,
  List.map tv (tokens (tokenize_loop fuel t))
  = List.map tv (tokens t) ++ lexFuel fuel (input t).
Proof.
  induction fuel as [|fuel IH]; intros t; simpl; [rewrite app_nil_r; reflexivity|].
  destruct (skipWhitespaceAndComments_input t) as [Hin Htok].
  destruct (input t) as [|c0 r0] eqn:E.
  - rewrite app_nil_r. reflexivity.
  - destruct (input (skipWhitespaceAndComments t)) as [|c r] eqn:E1; rewrite <- Hin.
    + rewrite Htok, app_nil_r. reflexivity.
    + destruct (tokenize_step_lexStep (skipWhitespaceAndComments t) c r E1) as [H1 H2].
      rewrite IH, H1, H2, Htok, <- app_assoc. reflexivity.
Qed.

(** The tokens of [tokenize] are the lexemes of the text and a final EOF. *)
Lemma tokenize_lexemes s : List.map tv (tokenize s) = lexemes s ++ [(EOF, [])].
Proof.
  unfold tokenize, lexemes. rewrite List.map_app, tokenize_loop_lexFuel. reflexivity.
Qed.

(** ** The lexemes of a text, step by step *)

Lemma skip_loop_indep fuel : forall fuel' s col col',
  (length s < fuel)%nat -> (length s < fuel')%nat ->
  (skipWhitespaceAndComments_loop fuel s col).1
  = (skipWhitespaceAndComments_loop fuel' s col').1.
Proof.
  induction fuel as [|fuel IH]; intros fuel' s col col' Hlen Hlen'; [lia|].
  destruct fuel' as [|fuel']; [lia|].
  destruct s as [|c s]; [reflexivity|]. simpl in Hlen, Hlen'.
  cbn [skipWhitespaceAndComments_loop].
  destruct ((c =? c_space) || (c =? c_tab) || (c =? c_cr)); [apply IH; lia|].
  destruct (c =? c_hash) eqn:Hh; [|reflexivity].
  assert (Hc : (c =? c_lf) = false).
  { apply N.eqb_eq in Hh. subst c. reflexivity. }
  simpl. rewrite Hc.
  pose proof (skipComment_length s (col + 1)) as H1.
  pose proof (skipComment_fst s (col + 1) (col' + 1)) as H2.
  destruct (skipComment s (col + 1)) as [s2 col2], (skipComment s (col' + 1)) as [s2' col2'].
  simpl in H1, H2. subst s2'. apply IH; lia.
Qed.

Lemma skip_loop_S fuel c s col :
  skipWhitespaceAndComments_loop (S fuel) (c :: s) col
  = if (c =? c_space) || (c =? c_tab) || (c =? c_cr)
    then skipWhitespaceAndComments_loop fuel s (col + 1)
    else if c =? c_hash
         then skipWhitespaceAndComments_loop fuel (skipComment (c :: s) col).1
                (skipComment (c :: s) col).2
         else (c :: s, col).
Proof.
  cbn [skipWhitespaceAndComments_loop].
  destruct (skipComment (c :: s) col). reflexivity.
Qed.

Lemma skipped_nil : skipped [] = [].
Proof. reflexivity. Qed.

Lemma skipped_blank c s :
  (c =? c_space) || (c =? c_tab) || (c =? c_cr) = true -> skipped (c :: s) = skipped s.
Proof.
  intros H. unfold skipped. simpl length. rewrite skip_loop_S, H.
  apply skip_loop_indep; lia.
Qed.

Lemma skipped_stop c s :
  (c =? c_space) || (c =? c_tab) || (c =? c_cr) = false -> (c =? c_hash) = false ->
  skipped (c :: s) = c :: s.
Proof.
  intros H1 H2. unfold skipped. simpl length. rewrite skip_loop_S, H1, H2. reflexivity.
Qed.

Lemma skipped_comment s :
  skipped (c_hash :: s) = skipped (skipComment s 0).1.
Proof.
  unfold skipped at 1. simpl length. rewrite skip_loop_S.
  change ((c_hash =? c_space) || (c_hash =? c_tab) || (c_hash =? c_cr)) with false.
  change (c_hash =? c_hash) with true. cbv iota.
  change (skipComment (c_hash :: s) 0) with (skipComment s (0 + 1)).
  pose proof (skipComment_length s (0 + 1)) as H1.
  pose proof (skipComment_fst s (0 + 1) 0) as H2.
  rewrite <- H2. unfold skipped. apply skip_loop_indep; lia.
Qed.

Lemma readWhile_length p s :
  (length (readWhile p s).1 + length (readWhile p s).2 = length s)%nat.
Proof.
  induction s as [|c s IH]; simpl; [reflexivity|].
  destruct (p c); [|simpl; lia].
  destruct (readWhile p s) as [v r]. simpl in *. lia.
Qed.

Lemma readWhile_cons p c s :
  p c = true -> readWhile p (c :: s) = (c :: (readWhile p s).1, (readWhile p s).2).
Proof. intros H. simpl. rewrite H. destruct (readWhile p s). reflexivity. Qed.

Lemma isLetter_isWordChar c : isLetter c = true -> isWordChar c = true.
Proof. unfold isWordChar. intros ->. reflexivity. Qed.

Lemma lexStep_length (c : N) (r : list N) :
  (length (lexStep c (c :: r)).2 <= length r)%nat.
Proof.
  unfold lexStep.
  destruct (c =? c_lf); [simpl; lia|].
  destruct (isLetter c) eqn:Hl.
  { rewrite (readWhile_cons isWordChar) by (apply isLetter_isWordChar, Hl).
    pose proof (readWhile_length isWordChar r) as H.
    destruct (readWhile isWordChar r) as [v r']. simpl in *. lia. }
  destruct (isDigit c) eqn:Hd.
  { rewrite (readWhile_cons isDigit) by assumption.
    pose proof (readWhile_length isDigit r) as H.
    destruct (readWhile isDigit r) as [v r']. simpl in *. lia. }
  repeat match goal with
         | |- context [if ?b then _ else _] => destruct b
         end; simpl; try lia; destruct r; simpl; lia.
Qed.

Lemma lexFuel_enough fuel : forall fuel' s,
  (length s < fuel)%nat -> (length s < fuel')%nat -> lexFuel fuel s = lexFuel fuel' s.
Proof.
  induction fuel as [|fuel IH]; intros fuel' s Hlen Hlen'; [lia|].
  destruct fuel' as [|fuel']; [lia|]. simpl.
  pose proof (skipped_length s) as Hs.
  destruct (skipped s) as [|c r]; [reflexivity|].
  pose proof (lexStep_length c r) as Hr. simpl in Hs.
  f_equal. apply IH; lia.
Qed.

(** The lexemes of a text, one step of the tokenizer at a time. *)
Lemma lexemes_unfold s :
  lexemes s = match skipped s with
              | [] => []
              | c :: r => (lexStep c (c :: r)).1 ++ lexemes (lexStep c (c :: r)).2
              end.
Proof.
  unfold lexemes at 1. simpl.
  pose proof (skipped_length s) as Hs.
  destruct (skipped s) as [|c r]; [reflexivity|].
  pose proof (lexStep_length c r) as Hr. simpl in Hs.
  f_equal. apply lexFuel_enough; lia.
Qed.

Lemma skipped_idempotent s : skipped (skipped s) = skipped s.
Proof.
  remember (length s) as n eqn:Hn. revert s Hn.
  induction n as [n IH] using lt_wf_ind. intros s Hn.
  destruct s as [|c s]; [reflexivity|].
  destruct ((c =? c_space) || (c =? c_tab) || (c =? c_cr)) eqn:Hb.
  { rewrite (skipped_blank c s Hb). apply (IH (length s)); simpl in *; lia. }
  destruct (c =? c_hash) eqn:Hh.
  - apply N.eqb_eq in Hh. subst c. rewrite skipped_comment.
    pose proof (skipComment_length s 0).
    apply (IH (length (skipComment s 0).1)); simpl in *; lia.
  - rewrite (skipped_stop c s Hb Hh). apply skipped_stop; assumption.
Qed.

Lemma lexemes_skipped s : lexemes (skipped s) = lexemes s.
Proof. rewrite (lexemes_unfold (skipped s)), skipped_idempotent, <- lexemes_unfold. reflexivity. Qed.

Ltac nbool :=
  repeat match goal with
    | H : _ && _ = true |- _ => apply andb_true_iff in H as [? ?]
    | H : _ || _ = true |- _ => apply orb_true_iff in H as [?|?]
    | H : _ && _ = false |- _ => apply andb_false_iff in H as [?|?]
    | H : _ || _ = false |- _ => apply orb_false_iff in H as [? ?]
    | H : (_ =? _) = true |- _ => apply N.eqb_eq in H
    | H : (_ =? _) = false |- _ => apply N.eqb_neq in H
    | H : (_ <=? _) = true |- _ => apply N.leb_le in H
    | H : (_ <=? _) = false |- _ => apply N.leb_gt in H
    end.

Ltac chars :=
  unfold c_tab, c_lf, c_cr, c_space, c_hash, c_lparen, c_rparen, c_plus, c_comma,
    c_minus, c_dot, c_colon, c_gt, c_underscore, c_emdash in *.

(** A character that [trim] strips makes no token and ends a word. *)
Lemma trimmed_classes c :
  isTrimmed c = true ->
  isLetter c = false /\ isDigit c = false /\ (c =? c_hash) = false
  /\ (c =? c_colon) = false /\ (c =? c_lparen) = false /\ (c =? c_rparen) = false
  /\ (c =? c_comma) = false /\ (c =? c_dot) = false /\ (c =? c_plus) = false
  /\ (c =? c_minus) = false /\ (c =? c_emdash) = false /\ (c =? c_gt) = false.
Proof.
  intros H. unfold isTrimmed in H.
  repeat split;
    match goal with
    | |- ?b = false => destruct b eqn:E; [|reflexivity]
    end;
    exfalso; unfold isLetter, isDigit in *; chars; nbool; lia.
Qed.

Lemma lexemes_trimmed c s : isTrimmed c = true -> lexemes (c :: s) = lexemes s.
Proof.
  intros H.
  destruct (trimmed_classes c H)
    as (Hl & Hd & Hh & H1 & H2 & H3 & H4 & H5 & H6 & H7 & H8 & _).
  destruct ((c =? c_space) || (c =? c_tab) || (c =? c_cr)) eqn:Hb.
  - rewrite (lexemes_unfold (c :: s)), (skipped_blank c s Hb), <- lexemes_unfold. reflexivity.
  - rewrite (lexemes_unfold (c :: s)), (skipped_stop c s Hb Hh).
    unfold lexStep. rewrite Hl, Hd, H1, H2, H3, H4, H5, H6, H7, H8.
    destruct (c =? c_lf); reflexivity.
Qed.

Lemma lexemes_all_trimmed ws : forallb isTrimmed ws = true -> lexemes ws = [].
Proof.
  induction ws as [|c ws IH]; simpl; intros H; [reflexivity|].
  apply andb_true_iff in H as [Hc Hws]. rewrite lexemes_trimmed by assumption. auto.
Qed.

Lemma lexemes_space s : lexemes (c_space :: s) = lexemes s.
Proof. apply lexemes_trimmed. reflexivity. Qed.

Lemma lexemes_lf s : lexemes (c_lf :: s) = lexemes s.
Proof. apply lexemes_trimmed. reflexivity. Qed.

Lemma readWhile_app p w s :
  forallb p w = true ->
  match s with c :: _ => p c = false | [] => True end ->
  readWhile p (w ++ s) = (w, s).
Proof.
  intros Hw Hs. induction w as [|c w IH]; simpl in *.
  - destruct s as [|c s]; [reflexivity|]. simpl. rewrite Hs. reflexivity.
  - apply andb_true_iff in Hw as [Hc Hw]. rewrite Hc, IH by assumption. reflexivity.
Qed.

Lemma letter_classes c :
  isLetter c = true ->
  (c =? c_space) || (c =? c_tab) || (c =? c_cr) = false
  /\ (c =? c_hash) = false /\ (c =? c_lf) = false.
Proof.
  intros H. unfold isLetter in H.
  repeat split;
    match goal with
    | |- ?b = false => destruct b eqn:E; [|reflexivity]
    end;
    exfalso; chars; nbool; lia.
Qed.

(** A word followed by something that is no part of a word is one token. *)
Lemma lexemes_word w s :
  isWord w = true -> wordEnds s = true ->
  lexemes (w ++ s) = (keywordType w, w) :: lexemes s.
Proof.
  intros Hw Hs. destruct w as [|c w]; [discriminate|]. simpl in Hw.
  apply andb_true_iff in Hw as [Hc Hw].
  destruct (letter_classes c Hc) as (Hb & Hh & Hlf).
  rewrite lexemes_unfold. simpl app. rewrite (skipped_stop c (w ++ s) Hb Hh).
  unfold lexStep. rewrite Hlf, Hc.
  change (c :: w ++ s) with ((c :: w) ++ s).
  rewrite (readWhile_app isWordChar (c :: w) s).
  - reflexivity.
  - simpl. rewrite (isLetter_isWordChar c Hc). assumption.
  - destruct s as [|c' s]; [exact I|]. simpl in Hs. apply negb_true_iff, Hs.
Qed.

Lemma lexemes_colon s : lexemes (c_colon :: s) = (COLON, str ":") :: lexemes s.
Proof. rewrite lexemes_unfold, skipped_stop by reflexivity. reflexivity. Qed.

Lemma lexemes_lparen s : lexemes (c_lparen :: s) = (LPAREN, str "(") :: lexemes s.
Proof. rewrite lexemes_unfold, skipped_stop by reflexivity. reflexivity. Qed.

Lemma lexemes_rparen s : lexemes (c_rparen :: s) = (RPAREN, str ")") :: lexemes s.
Proof. rewrite lexemes_unfold, skipped_stop by reflexivity. reflexivity. Qed.

Lemma lexemes_comma s : lexemes (c_comma :: s) = (COMMA, str ",") :: lexemes s.
Proof. rewrite lexemes_unfold, skipped_stop by reflexivity. reflexivity. Qed.

Lemma lexemes_dot s : lexemes (c_dot :: s) = (DOT, str ".") :: lexemes s.
Proof. rewrite lexemes_unfold, skipped_stop by reflexivity. reflexivity. Qed.

Lemma lexemes_plus s : lexemes (c_plus :: s) = (PLUS, str "+") :: lexemes s.
Proof. rewrite lexemes_unfold, skipped_stop by reflexivity. reflexivity. Qed.

Lemma lexemes_emdash s : lexemes (c_emdash :: s) = (DASH, [c_emdash]) :: lexemes s.
Proof. rewrite lexemes_unfold, skipped_stop by reflexivity. reflexivity. Qed.

Lemma lexemes_arrow s : lexemes (c_minus :: c_gt :: s) = (ARROW, str "->") :: lexemes s.
Proof. rewrite lexemes_unfold, skipped_stop by reflexivity. reflexivity. Qed.

Lemma lexemes_one s :
  match s with c :: _ => isDigit c = false | [] => True end ->
  lexemes (49 :: s) = (ONE, str "1") :: lexemes s.
Proof.
  intros Hs. rewrite lexemes_unfold, skipped_stop by reflexivity.
  unfold lexStep.
  change (49 =? c_lf) with false. change (isLetter 49) with false.
  change (isDigit 49) with true. cbv iota.
  change (49 :: s) with ([49] ++ s).
  rewrite (readWhile_app isDigit [49] s) by (try reflexivity; assumption).
  reflexivity.
Qed.

(** ** Trailing white space makes no token *)

Lemma readWhile_app_end p s ws :
  match ws with c :: _ => p c = false | [] => True end ->
  readWhile p (s ++ ws) = ((readWhile p s).1, (readWhile p s).2 ++ ws).
Proof.
  intros Hws. induction s as [|c s IH]; simpl.
  - destruct ws as [|c ws]; [reflexivity|]. simpl. rewrite Hws. reflexivity.
  - destruct (p c); [|reflexivity]. rewrite IH. destruct (readWhile p s). reflexivity.
Qed.

Lemma lexStep_app (c : N) (s ws : list N) :
  forallb isTrimmed ws = true ->
  lexStep c (c :: s ++ ws) = ((lexStep c (c :: s)).1, (lexStep c (c :: s)).2 ++ ws).
Proof.
  intros Hws.
  assert (Hhead : match ws with
                  | c' :: _ => isWordChar c' = false /\ isDigit c' = false
                               /\ c' <> c_gt /\ c' <> c_minus
                  | [] => True
                  end).
  { destruct ws as [|c' ws]; [exact I|]. simpl in Hws.
    apply andb_true_iff in Hws as [Hc' _].
    destruct (trimmed_classes c' Hc') as (Hl & Hd & _ & _ & _ & _ & _ & _ & _ & Hm & _ & Hg).
    unfold isWordChar. rewrite Hl, Hd. repeat split; auto; apply N.eqb_neq; assumption. }
  unfold lexStep.
  destruct (c =? c_lf); [reflexivity|].
  destruct (isLetter c).
  { change (c :: s ++ ws) with ((c :: s) ++ ws). rewrite readWhile_app_end.
    - destruct (readWhile isWordChar (c :: s)). reflexivity.
    - destruct ws; [exact I|]. tauto. }
  destruct (isDigit c).
  { change (c :: s ++ ws) with ((c :: s) ++ ws). rewrite readWhile_app_end.
    - destruct (readWhile isDigit (c :: s)). reflexivity.
    - destruct ws; [exact I|]. tauto. }
  destruct (c =? c_colon); [reflexivity|].
  destruct (c =? c_lparen); [reflexivity|].
  destruct (c =? c_rparen); [reflexivity|].
  destruct (c =? c_comma); [reflexivity|].
  destruct (c =? c_dot); [reflexivity|].
  destruct (c =? c_plus); [reflexivity|].
  destruct (c =? c_minus), (c =? c_emdash); destruct s as [|c2 s];
    try (destruct ws as [|c' ws]; [|destruct Hhead as (_ & _ & Hg & Hm)]);
    simpl; repeat case_bool_decide; simpl; try congruence; try reflexivity.
Qed.

Lemma skipComment_app s ws col :
  (skipComment (s ++ ws) col).1
  = match (skipComment s col).1 with
    | [] => (skipComment ws 0).1
    | r => r ++ ws
    end.
Proof.
  revert col. induction s as [|c s IH]; intros col; simpl.
  - apply skipComment_fst.
  - destruct (c =? c_lf); [reflexivity|]. apply IH.
Qed.

Lemma skipComment_trimmed ws col :
  forallb isTrimmed ws = true -> forallb isTrimmed (skipComment ws col).1 = true.
Proof.
  revert col. induction ws as [|c ws IH]; intros col H; simpl; [reflexivity|].
  destruct (c =? c_lf); [exact H|].
  simpl in H. apply andb_true_iff in H as [_ H]. apply IH, H.
Qed.

Lemma lexemes_comment s : lexemes (c_hash :: s) = lexemes (skipComment s 0).1.
Proof. rewrite <- lexemes_skipped, skipped_comment, lexemes_skipped. reflexivity. Qed.

(** White space after the text changes none of its lexemes. *)
Lemma lexemes_app_trimmed ws :
  forallb isTrimmed ws = true -> forall s, lexemes (s ++ ws) = lexemes s.
Proof.
  intros Hws s. remember (length s) as n eqn:Hn. revert s Hn.
  induction n as [n IH] using lt_wf_ind. intros s Hn.
  destruct s as [|c s].
  { simpl. rewrite lexemes_all_trimmed by assumption. reflexivity. }
  simpl app.
  destruct ((c =? c_space) || (c =? c_tab) || (c =? c_cr)) eqn:Hb.
  { rewrite (lexemes_unfold (c :: s ++ ws)), (lexemes_unfold (c :: s)).
    rewrite !(skipped_blank c _ Hb), <- !lexemes_unfold.
    apply (IH (length s)); simpl in *; lia. }
  destruct (c =? c_hash) eqn:Hh.
  { apply N.eqb_eq in Hh. subst c. rewrite !lexemes_comment, skipComment_app.
    pose proof (skipComment_length s 0) as Hlen.
    destruct (skipComment s 0).1 as [|c r] eqn:E.
    - rewrite lexemes_all_trimmed by (apply skipComment_trimmed, Hws). reflexivity.
    - apply (IH (length (c :: r))); simpl in *; lia. }
  rewrite (lexemes_unfold (c :: s ++ ws)), (lexemes_unfold (c :: s)).
  rewrite !(skipped_stop c _ Hb Hh), (lexStep_app c s ws Hws). simpl.
  f_equal. pose proof (lexStep_length c s).
  apply (IH (length (lexStep c (c :: s)).2)); simpl in *; lia.
Qed.

Lemma trimStart_lexemes s : lexemes (trimStart s) = lexemes s.
Proof.
  induction s as [|c s IH]; simpl; [reflexivity|].
  destruct (isTrimmed c) eqn:Hc; [|reflexivity].
  rewrite IH, lexemes_trimmed by assumption. reflexivity.
Qed.

Lemma trimStart_split s :
  exists ws, forallb isTrimmed ws = true /\ s = ws ++ trimStart s.
Proof.
  induction s as [|c s (ws & Hws & IH)]; simpl.
  - exists []. auto.
  - destruct (isTrimmed c) eqn:Hc.
    + exists (c :: ws). simpl. rewrite Hc, Hws. split; [reflexivity|]. congruence.
    + exists []. auto.
Qed.

Lemma trimEnd_lexemes s : lexemes (trimEnd s) = lexemes s.
Proof.
  unfold trimEnd. destruct (trimStart_split (rev s)) as (ws & Hws & Hs).
  assert (Hs' : s = rev (trimStart (rev s)) ++ rev ws).
  { rewrite <- rev_app_distr, <- Hs, rev_involutive. reflexivity. }
  rewrite Hs' at 2. rewrite lexemes_app_trimmed; [reflexivity|].
  rewrite forallb_forall in *. intros c Hc. apply Hws, in_rev, Hc.
Qed.

(** [trim] changes none of the lexemes of a text. *)
Lemma trim_lexemes s : lexemes (trim s) = lexemes s.
Proof. unfold trim. rewrite trimEnd_lexemes, trimStart_lexemes. reflexivity. Qed.

(** ** The lexemes of a sequence of pieces *)

Lemma wordEnds_not_digit s :
  wordEnds s = true -> match s with c :: _ => isDigit c = false | [] => True end.
Proof.
  destruct s as [|c s]; [trivial|]. simpl. unfold isWordChar.
  intros H. apply negb_true_iff, orb_false_iff in H. tauto.
Qed.

Lemma lexemes_render ps : forall rest,
  separated ps rest = true ->
  lexemes (render ps ++ rest) = pieceTokens ps ++ lexemes rest.
Proof.
  induction ps as [|p ps IH]; intros rest H; [reflexivity|].
  simpl in H. apply andb_true_iff in H as [Hp Hps].
  unfold render, pieceTokens. simpl flat_map.
  fold (render ps). fold (pieceTokens ps). rewrite <- !app_assoc.
  specialize (IH rest Hps).
  destruct p; simpl pieceText; simpl pieceToken; cbn [app].
  - rewrite lexemes_space. exact IH.
  - rewrite lexemes_lf. exact IH.
  - apply andb_true_iff in Hp as [Hw He].
    rewrite lexemes_word by assumption. rewrite IH. reflexivity.
  - rewrite lexemes_one by (apply wordEnds_not_digit, Hp). rewrite IH. reflexivity.
  - rewrite lexemes_colon, IH. reflexivity.
  - rewrite lexemes_lparen, IH. reflexivity.
  - rewrite lexemes_rparen, IH. reflexivity.
  - rewrite lexemes_comma, IH. reflexivity.
  - rewrite lexemes_dot, IH. reflexivity.
  - rewrite lexemes_plus, IH. reflexivity.
  - rewrite lexemes_arrow, IH. reflexivity.
  - rewrite lexemes_emdash, IH. reflexivity.
Qed.

Lemma join_nl_snoc ls : forall l,
  join nl (l :: ls) ++ nl = flat_map (fun l => l ++ nl) (l :: ls).
Proof.
  induction ls as [|l' ls IH]; intros l.
  - simpl. rewrite app_nil_r. reflexivity.
  - change (join nl (l :: l' :: ls)) with (l ++ nl ++ join nl (l' :: ls)).
    rewrite <- !app_assoc, IH. simpl. rewrite <- !app_assoc. reflexivity.
Qed.

Lemma join_nl_lines ls rest :
  lexemes (join nl ls ++ nl ++ rest)
  = lexemes (flat_map (fun l => l ++ nl) ls ++ rest).
Proof.
  destruct ls as [|l ls].
  - apply lexemes_lf.
  - rewrite app_assoc, join_nl_snoc. reflexivity.
Qed.

Lemma lexemes_join_nl ls :
  lexemes (join nl ls) = lexemes (flat_map (fun l => l ++ nl) ls).
Proof.
  rewrite <- (lexemes_app_trimmed nl eq_refl (join nl ls)).
  rewrite <- (app_nil_r (join nl ls ++ nl)), <- app_assoc, join_nl_lines, app_nil_r.
  reflexivity.
Qed.

(** ** The lexemes of the printed text *)

Lemma isName_word n : isName n = true -> isWord n = true.
Proof. unfold isName. intros H. apply andb_true_iff in H. tauto. Qed.

Lemma isName_type n : isName n = true -> keywordType n = IDENTIFIER.
Proof.
  unfold isName. intros H. apply andb_true_iff in H as [_ H].
  apply bool_decide_eq_true_1 in H. exact H.
Qed.

Ltac norm_str :=
  repeat match goal with
    | |- context [str ?s] =>
        let v := eval vm_compute in (str s) in change (str s) with v
    end.

(** [lex_pieces ps rest]: read the text of the goal as the pieces [ps]
    followed by [rest], and take their tokens. *)
Ltac lex_pieces ps rest :=
  let H := fresh "H" in
  match goal with
  | |- lexemes ?t = _ =>
      assert (H : t = render ps ++ rest)
        by (unfold render, nl; cbn [flat_map pieceText]; norm_str;
            repeat rewrite <- app_assoc; cbn [app]; reflexivity);
      rewrite H; clear H
  end;
  rewrite lexemes_render;
  [ unfold pieceTokens; cbn [flat_map pieceToken app];
    repeat match goal with
      | Hn : isName ?n = true |- context [keywordType ?n] =>
          rewrite (isName_type n Hn)
      end
  | cbn [separated render flat_map pieceText app wordEnds andb];
    repeat match goal with
      | Hn : isName ?n = true |- context [isWord ?n] =>
          rewrite (isName_word n Hn)
      end;
    reflexivity ].

Lemma lexemes_plain_line indent n rest :
  isName n = true -> forallb (fun c => c =? c_space) indent = true ->
  lexemes ((indent ++ n) ++ nl ++ rest) = ident n :: lexemes rest.
Proof.
  intros Hn Hi. rewrite <- app_assoc.
  induction indent as [|c indent IH]; simpl in Hi |- *.
  - lex_pieces [P_word n; P_nl] rest. reflexivity.
  - apply andb_true_iff in Hi as [Hc Hi]. apply N.eqb_eq in Hc. subst c.
    rewrite lexemes_space. apply IH, Hi.
Qed.

Lemma lexemes_sub_lines subs rest :
  Forall namedPlain subs ->
  lexemes (flat_map (fun l => l ++ nl)
             (List.map (fun sub => generateAttribute sub (str "  " ++ str "  ")) subs)
           ++ rest)
  = List.map (fun sub => ident (attr_name sub)) subs ++ lexemes rest.
Proof.
  induction 1 as [|sub subs [Hp Hn] _ IH]; [reflexivity|].
  cbn [List.map flat_map app]. rewrite Hp. cbn [generateAttribute plainAttribute
    keyType fkTarget attributeType subAttributes dataType attr_name].
  rewrite <- !app_assoc.
  lex_pieces [P_space; P_space; P_space; P_space; P_word (attr_name sub); P_nl]
    (flat_map (fun l => l ++ nl)
       (List.map (fun sub => generateAttribute sub (str "  " ++ str "  ")) subs) ++ rest).
  rewrite IH. reflexivity.
Qed.

Lemma lexemes_attribute_line a rest :
  attributeShape a -> hasTarget a = true ->
  lexemes ((generateAttribute a (str "  ") ++ nl) ++ rest)
  = attributeTokens a ++ lexemes rest.
Proof.
  destruct a as [n ty k target dt subs]. unfold attributeShape, hasTarget, attributeTokens.
  cbn [attr_name keyType attributeType fkTarget dataType subAttributes].
  intros [Hn Hshape] Htarget.
  destruct k, ty; try contradiction.
  - (* PK *)
    destruct Hshape as (-> & -> & ->). cbn [generateAttribute
      keyType fkTarget attributeType subAttributes dataType attr_name].
    lex_pieces [P_space; P_space; P_word n; P_space; P_word (str "PK"); P_nl] rest.
    reflexivity.
  - (* FK -> target *)
    destruct Hshape as (-> & -> & Ht).
    destruct target as [t|]; [|discriminate]. destruct Ht as [He Ha].
    cbn [generateAttribute keyType fkTarget attributeType subAttributes dataType attr_name].
    lex_pieces [P_space; P_space; P_word n; P_space; P_word (str "FK"); P_space; P_arrow;
                P_space; P_word (entityName t); P_dot; P_word (attributeName t); P_nl] rest.
    reflexivity.
  - (* plain *)
    destruct Hshape as (-> & -> & ->). cbn [generateAttribute
      keyType fkTarget attributeType subAttributes dataType attr_name].
    lex_pieces [P_space; P_space; P_word n; P_nl] rest. reflexivity.
  - (* composite *)
    destruct Hshape as (-> & -> & subs' & -> & Hsubs).
    cbn [generateAttribute keyType fkTarget attributeType subAttributes dataType attr_name].
    rewrite <- !app_assoc.
    assert (H : forall x, lexemes (str "  " ++ n ++ str " Composite:" ++ nl ++ x)
                          = [ident n; (COMPOSITE, str "Composite"); (COLON, str ":")]
                            ++ lexemes x).
    { intros x.
      lex_pieces [P_space; P_space; P_word n; P_space; P_word (str "Composite"); P_colon;
                  P_nl] x.
      reflexivity. }
    rewrite H, join_nl_lines, lexemes_sub_lines by assumption. reflexivity.
  - (* multivalued *)
    destruct Hshape as (-> & -> & ->). cbn [generateAttribute
      keyType fkTarget attributeType subAttributes dataType attr_name].
    lex_pieces [P_space; P_space; P_word n; P_space; P_word (str "Multivalued"); P_nl] rest.
    reflexivity.
  - (* derived *)
    destruct Hshape as (-> & -> & ->). cbn [generateAttribute
      keyType fkTarget attributeType subAttributes dataType attr_name].
    lex_pieces [P_space; P_space; P_word n; P_space; P_word (str "Derived"); P_nl] rest.
    reflexivity.
  - (* typed *)
    destruct Hshape as (-> & -> & ty & -> & Hty).
    cbn [generateAttribute keyType fkTarget attributeType subAttributes dataType attr_name].
    assert (Hne : ty <> []) by (intros ->; discriminate).
    rewrite bool_decide_eq_false_2 by assumption.
    lex_pieces [P_space; P_space; P_word n; P_colon; P_space; P_word ty; P_nl] rest.
    reflexivity.
Qed.

Lemma lexemes_attribute_lines attrs rest :
  Forall attributeShape attrs -> forallb hasTarget attrs = true ->
  lexemes (flat_map (fun l => l ++ nl)
             (List.map (fun attr => generateAttribute attr (str "  ")) attrs) ++ rest)
  = flat_map attributeTokens attrs ++ lexemes rest.
Proof.
  induction 1 as [|a attrs Ha _ IH]; intros Ht; [reflexivity|].
  simpl in Ht. apply andb_true_iff in Ht as [Hta Ht].
  cbn [List.map flat_map]. rewrite <- !app_assoc.
  rewrite (app_assoc (generateAttribute a (str "  ")) nl).
  rewrite lexemes_attribute_line by assumption. rewrite IH by assumption. reflexivity.
Qed.

Lemma lexemes_targets targets : forall t rest,
  Forall namedTarget (t :: targets) ->
  lexemes (join (str " + ") (List.map fkText (t :: targets)) ++ nl ++ rest)
  = identifiedByTokens (t :: targets) ++ lexemes rest.
Proof.
  induction targets as [|t' targets IH]; intros t rest H;
    apply Forall_cons in H as [[He Ha] H].
  - cbn [List.map join identifiedByTokens]. unfold fkText.
    lex_pieces [P_word (entityName t); P_dot; P_word (attributeName t); P_nl] rest.
    reflexivity.
  - change (join (str " + ") (List.map fkText (t :: t' :: targets)))
      with (fkText t ++ str " + " ++ join (str " + ") (List.map fkText (t' :: targets))).
    change (identifiedByTokens (t :: t' :: targets))
      with (fkTokens t ++ [(PLUS, str "+")] ++ identifiedByTokens (t' :: targets)).
    unfold fkText at 1.
    lex_pieces [P_word (entityName t); P_dot; P_word (attributeName t); P_space; P_plus;
                P_space]
      (join (str " + ") (List.map fkText (t' :: targets)) ++ nl ++ rest).
    rewrite IH by assumption. reflexivity.
Qed.

Lemma lexemes_identified_line t targets rest :
  Forall namedTarget (t :: targets) ->
  lexemes (str "  Identified By " ++ join (str " + ") (List.map fkText (t :: targets))
           ++ nl ++ rest)
  = [(IDENTIFIED, str "Identified"); (BY, str "By")]
    ++ identifiedByTokens (t :: targets) ++ lexemes rest.
Proof.
  intros H.
  lex_pieces [P_space; P_space; P_word (str "Identified"); P_space; P_word (str "By");
              P_space]
    (join (str " + ") (List.map fkText (t :: targets)) ++ nl ++ rest).
  rewrite lexemes_targets by assumption. reflexivity.
Qed.

Lemma flat_map_lines_app (l1 l2 : list jsstring) :
  flat_map (fun l => l ++ nl) (l1 ++ l2)
  = flat_map (fun l => l ++ nl) l1 ++ flat_map (fun l => l ++ nl) l2.
Proof. apply flat_map_app. Qed.

Lemma lexemes_entity e rest :
  entityShape e -> forallb hasTarget (ent_attributes e) = true ->
  lexemes (flat_map (fun l => l ++ nl) (entityLines e) ++ rest)
  = entityTokens e ++ lexemes rest.
Proof.
  destruct e as [n ty attrs idby]. unfold entityShape, entityLines, entityTokens.
  cbn [ent_name entityType ent_attributes identifiedBy].
  intros (Hn & Hattrs & Hid) Ht.
  rewrite !flat_map_lines_app. cbn [flat_map]. rewrite <- !app_assoc.
  assert (Htail : forall x, lexemes (([] ++ nl) ++ [] ++ x) = lexemes x).
  { intros x. apply lexemes_lf. }
  destruct ty.
  - (* strong *)
    assert (Hno : idby = None) by (destruct idby; [contradiction|reflexivity]). subst idby.
    lex_pieces [P_word (str "Entity"); P_space; P_word n; P_colon; P_nl]
      (flat_map (fun l => l ++ nl)
         (List.map (fun attr => generateAttribute attr (str "  ")) attrs)
       ++ flat_map (fun l => l ++ nl) [] ++ ([] ++ nl) ++ [] ++ rest).
    rewrite lexemes_attribute_lines by assumption.
    cbn [flat_map app]. unfold nl. cbn [app]. rewrite lexemes_lf. reflexivity.
  - (* weak *)
    lex_pieces [P_word (str "Weak"); P_space; P_word (str "Entity"); P_space; P_word n;
                P_colon; P_nl]
      (flat_map (fun l => l ++ nl)
         (List.map (fun attr => generateAttribute attr (str "  ")) attrs)
       ++ flat_map (fun l => l ++ nl)
            match idby with
            | Some targets =>
                [str "  Identified By " ++ join (str " + ") (List.map fkText targets)]
            | None => []
            end
       ++ ([] ++ nl) ++ [] ++ rest).
    rewrite lexemes_attribute_lines by assumption.
    destruct idby as [targets|].
    + destruct Hid as [Hne Htargets]. destruct targets as [|t targets]; [congruence|].
      cbn [flat_map]. rewrite app_nil_r, <- !app_assoc.
      rewrite lexemes_identified_line by assumption.
      unfold nl. cbn [app]. rewrite lexemes_lf. rewrite <- ?app_assoc. reflexivity.
    + cbn [flat_map app]. unfold nl. cbn [app]. rewrite lexemes_lf. rewrite ?app_nil_r.
      reflexivity.
Qed.

Lemma lexemes_side rel side rest :
  lexemes (sidePart rel side ++ c_space :: rest)
  = sideTokens rel side ++ lexemes rest.
Proof.
  unfold sidePart, sideTokens.
  destruct (participation side), (relationshipType rel), (cardinality side);
    cbn [cardinalityText cardinalityToken];
    first
      [ lex_pieces [P_lparen; P_one; P_comma; P_space; P_word (str "total"); P_rparen;
                    P_space] rest
      | lex_pieces [P_lparen; P_word (str "M"); P_comma; P_space; P_word (str "total");
                    P_rparen; P_space] rest
      | lex_pieces [P_lparen; P_one; P_comma; P_space; P_word (str "partial"); P_rparen;
                    P_space] rest
      | lex_pieces [P_lparen; P_word (str "M"); P_comma; P_space; P_word (str "partial");
                    P_rparen; P_space] rest
      | lex_pieces [P_lparen; P_one; P_rparen; P_space] rest
      | lex_pieces [P_lparen; P_word (str "M"); P_rparen; P_space] rest ];
    reflexivity.
Qed.

Lemma lexemes_relation_attribute_lines attrs rest :
  Forall namedPlain attrs ->
  lexemes (flat_map (fun l => l ++ nl)
             (List.map (fun attr => str "  " ++ attr_name attr) attrs) ++ rest)
  = List.map (fun a => ident (attr_name a)) attrs ++ lexemes rest.
Proof.
  induction 1 as [|a attrs [_ Hn] _ IH]; [reflexivity|].
  cbn [List.map flat_map]. rewrite <- !app_assoc.
  lex_pieces [P_space; P_space; P_word (attr_name a); P_nl]
    (flat_map (fun l => l ++ nl)
       (List.map (fun attr => str "  " ++ attr_name attr) attrs) ++ rest).
  rewrite IH. reflexivity.
Qed.

Lemma lexemes_relationship_header rel rest :
  isName (verb rel) = true ->
  isName (side_entityName (leftSide rel)) = true ->
  isName (side_entityName (rightSide rel)) = true ->
  lexemes (side_entityName (leftSide rel) ++ str " "
           ++ sidePart rel (leftSide rel) ++ str " " ++ c_emdash :: str " "
           ++ sidePart rel (rightSide rel) ++ str " "
           ++ side_entityName (rightSide rel) ++ str ": " ++ verb rel ++ nl ++ rest)
  = [ident (side_entityName (leftSide rel))]
    ++ sideTokens rel (leftSide rel) ++ [(DASH, [c_emdash])]
    ++ sideTokens rel (rightSide rel)
    ++ [ident (side_entityName (rightSide rel)); (COLON, str ":"); ident (verb rel)]
    ++ lexemes rest.
Proof.
  intros Hv Hl Hr.
  lex_pieces [P_word (side_entityName (leftSide rel)); P_space]
    (sidePart rel (leftSide rel) ++ str " " ++ [c_emdash] ++ str " "
     ++ sidePart rel (rightSide rel) ++ str " "
     ++ side_entityName (rightSide rel) ++ str ": " ++ verb rel ++ nl ++ rest).
  change (str " ") with [c_space]. cbn [app].
  rewrite (lexemes_side rel (leftSide rel)), lexemes_emdash, lexemes_space.
  rewrite (lexemes_side rel (rightSide rel)).
  assert (Hline : lexemes (side_entityName (rightSide rel) ++ str ": " ++ verb rel
                           ++ nl ++ rest)
                  = [ident (side_entityName (rightSide rel)); (COLON, str ":");
                     ident (verb rel)] ++ lexemes rest).
  { lex_pieces [P_word (side_entityName (rightSide rel)); P_colon; P_space;
                P_word (verb rel); P_nl] rest. reflexivity. }
  rewrite Hline. rewrite <- ?app_assoc. reflexivity.
Qed.

Lemma lexemes_relationship rel rest :
  relationshipShape rel ->
  lexemes (flat_map (fun l => l ++ nl) (relationshipLines rel) ++ rest)
  = relationshipTokens rel ++ lexemes rest.
Proof.
  intros (_ & Hv & Hl & Hr & Hattrs & _).
  unfold relationshipLines, relationshipTokens.
  rewrite !flat_map_lines_app. cbn [flat_map]. rewrite <- !app_assoc. cbn [app].
  assert (Htail : forall x,
            lexemes (flat_map (fun l => l ++ nl)
                       (List.map (fun attr => str "  " ++ attr_name attr)
                          (rel_attributes rel)) ++ nl ++ x)
            = List.map (fun a => ident (attr_name a)) (rel_attributes rel) ++ lexemes x).
  { intros x. rewrite lexemes_relation_attribute_lines by assumption.
    unfold nl. cbn [app]. rewrite lexemes_lf. reflexivity. }
  destruct (relationshipType rel).
  - change (str "Relation " ++ ?x) with (str "Relation" ++ c_space :: x).
    rewrite lexemes_word by (try reflexivity). rewrite lexemes_space.
    rewrite lexemes_relationship_header, Htail by assumption.
    rewrite <- ?app_assoc. reflexivity.
  - change (str "Identifying Relation " ++ ?x)
      with (str "Identifying" ++ c_space :: str "Relation" ++ c_space :: x).
    rewrite lexemes_word by (try reflexivity). rewrite lexemes_space.
    rewrite lexemes_word by (try reflexivity). rewrite lexemes_space.
    rewrite lexemes_relationship_header, Htail by assumption.
    rewrite <- ?app_assoc. reflexivity.
Qed.

Lemma flat_map_concat_map {A B C} (f : B -> list C) (g : A -> list B) l :
  flat_map f (List.concat (List.map g l)) = flat_map (fun a => flat_map f (g a)) l.
Proof.
  induction l as [|a l IH]; simpl; [reflexivity|]. rewrite flat_map_app, IH. reflexivity.
Qed.

Lemma lexemes_entities ents rest :
  Forall (fun e => entityShape e /\ forallb hasTarget (ent_attributes e) = true) ents ->
  lexemes (flat_map (fun e => flat_map (fun l => l ++ nl) (entityLines e)) ents ++ rest)
  = flat_map entityTokens ents ++ lexemes rest.
Proof.
  induction 1 as [|e ents [Hs Ht] _ IH]; [reflexivity|].
  cbn [flat_map]. rewrite <- !app_assoc, lexemes_entity, IH by assumption. reflexivity.
Qed.

Lemma lexemes_relationships rels rest :
  Forall relationshipShape rels ->
  lexemes (flat_map (fun r => flat_map (fun l => l ++ nl) (relationshipLines r)) rels ++ rest)
  = flat_map relationshipTokens rels ++ lexemes rest.
Proof.
  induction 1 as [|r rels Hr _ IH]; [reflexivity|].
  cbn [flat_map]. rewrite <- !app_assoc, lexemes_relationship, IH by assumption. reflexivity.
Qed.

(** The tokens of the text that [generateDSL] prints. *)
Lemma tokens_of_generateDSL ast :
  astShape ast ->
  Forall (fun e => forallb hasTarget (ent_attributes e) = true) (entities ast) ->
  List.map tv (tokenize (generateDSL ast)) = astTokens ast ++ [(EOF, [])].
Proof.
  intros [Hents Hrels] Ht.
  rewrite tokenize_lexemes. f_equal. unfold generateDSL, astTokens.
  rewrite trim_lexemes, lexemes_join_nl, flat_map_lines_app, !flat_map_concat_map.
  rewrite lexemes_entities.
  - rewrite <- (app_nil_r (flat_map _ (relationships ast))).
    rewrite lexemes_relationships by assumption. rewrite app_nil_r. reflexivity.
  - rewrite List.Forall_forall in *. intros e He. split; auto.
Qed.

(** ** Reading back the tokens of the printed text *)

(** *** The cursor on a token of known type *)

Lemma tv_type t ty v : tv t = (ty, v) -> tok_type t = ty.
Proof. unfold tv. congruence. Qed.

Lemma tv_value t ty v : tv t = (ty, v) -> value t = v.
Proof. unfold tv. congruence. Qed.

Lemma check_headType ty ts :
  check ty ts = negb (bool_decide (headType ts = EOF)) && bool_decide (headType ts = ty).
Proof. reflexivity. Qed.

Lemma isAtEnd_headType ts : isAtEnd ts = bool_decide (headType ts = EOF).
Proof. reflexivity. Qed.

Lemma headType_cons t ts : headType (t :: ts) = tok_type t.
Proof. reflexivity. Qed.

(** [head_cases]: decide the tests of the cursor from the type of its token. *)
Ltac head_cases :=
  unfold afterAttribute, afterComposite, endsAttributes, startsDeclaration,
    subAttributeStop, isEntityOrRelationStart in *;
  rewrite ?check_headType, ?isAtEnd_headType in *;
  repeat match goal with
    | H : tok_type ?t = _ |- _ => rewrite ?headType_cons, ?H in *; clear H
    end;
  repeat match goal with
    | |- context [headType ?ts] => destruct (headType ts)
    | H : context [headType ?ts] |- _ => destruct (headType ts)
    end;
  repeat case_bool_decide; simpl in *; try congruence.

Lemma map_tv_cons pre x l :
  List.map tv pre = x :: l ->
  exists t pre', pre = t :: pre' /\ tv t = x /\ List.map tv pre' = l.
Proof. destruct pre as [|t pre']; simpl; [discriminate|]. intros [= ? ?]. eauto. Qed.

Lemma map_tv_nil pre : List.map tv pre = [] -> pre = [].
Proof. destruct pre; [reflexivity|discriminate]. Qed.

(** [next_token H]: take the first token off the list whose types and values
    [H] gives. *)
Ltac next_token H :=
  let t := fresh "t" in
  let Ht := fresh "Ht" in
  let Hty := fresh "Hty" in
  let Hv := fresh "Hv" in
  match type of H with
  | List.map tv ?pre = _ :: _ =>
      apply map_tv_cons in H as (t & ? & -> & Ht & H);
      pose proof (tv_type _ _ _ Ht) as Hty; pose proof (tv_value _ _ _ Ht) as Hv;
      clear Ht; cbn [fst snd ident] in Hty, Hv
  end.

Ltac last_token H :=
  match type of H with
  | List.map tv ?pre = [] => apply map_tv_nil in H; subst pre
  end.

Ltac read_expect :=
  rewrite expect_cons by (first [assumption | discriminate]);
  cbn [mbind Result_bind].

Lemma check_at ty t rest :
  tok_type t = ty -> ty <> EOF -> check ty (t :: rest) = true.
Proof. apply check_cons. Qed.

Lemma check_not ty ty' t rest :
  tok_type t = ty' -> ty' <> ty -> check ty (t :: rest) = false.
Proof. intros H1 H2. apply check_other. congruence. Qed.

(** *** Foreign key targets *)

Lemma parseFkTarget_run target pre rest :
  List.map tv pre = fkTokens target ->
  parseFkTarget (pre ++ rest) = Ok (target, rest).
Proof.
  intros H. destruct target as [e a]. unfold fkTokens in H. cbn in H.
  do 3 next_token H. last_token H. cbn [app]. unfold parseFkTarget.
  do 3 read_expect. rewrite Hv, Hv1. reflexivity.
Qed.

(** *** Sub-attributes *)

Lemma followedByMarker_cons t ts :
  followedByMarker (t :: ts)
  = match ts with t' :: _ => isMarker (tok_type t') | [] => false end.
Proof.
  unfold followedByMarker, peek. cbn [nth_error]. destruct ts as [|t' ts]; [reflexivity|].
  destruct (tok_type t'); reflexivity.
Qed.

Lemma afterComposite_not_marker t rest :
  afterComposite (t :: rest) = true -> isMarker (tok_type t) = false.
Proof.
  unfold afterComposite, endsAttributes, startsDeclaration. rewrite headType_cons.
  destruct (tok_type t); try reflexivity; repeat case_bool_decide; simpl; congruence.
Qed.

Lemma parseSubAttributeList_loop_run subs :
  Forall namedPlain subs ->
  forall pre rest acc fuel,
    List.map tv pre = List.map (fun sub => ident (attr_name sub)) subs ->
    afterComposite rest = true -> (length pre < fuel)%nat ->
    parseSubAttributeList_loop fuel (pre ++ rest) acc = Ok (acc ++ subs, rest).
Proof.
  induction 1 as [|sub subs [Hp _] _ IH]; intros pre rest acc fuel H Hrest Hfuel;
    (destruct fuel as [|fuel]; [lia|]); cbn [List.map] in H.
  - last_token H. cbn [app parseSubAttributeList_loop]. rewrite app_nil_r.
    destruct (negb (isAtEnd rest) && check IDENTIFIER rest) eqn:E; [|reflexivity].
    replace (followedByMarker rest) with true; [reflexivity|].
    revert E Hrest. unfold afterComposite, endsAttributes, startsDeclaration.
    rewrite check_headType, isAtEnd_headType.
    destruct (headType rest); intros; repeat case_bool_decide; simpl in *; congruence.
  - next_token H. cbn [app parseSubAttributeList_loop].
    rewrite check_at by (first [assumption|discriminate]).
    replace (isAtEnd (t :: x ++ rest)) with false
      by (rewrite isAtEnd_headType, headType_cons, Hty; case_bool_decide; congruence).
    cbn [negb andb].
    assert (Hx : match x with t' :: _ => tok_type t' = IDENTIFIER | [] => subs = [] end).
    { destruct subs; cbn [List.map] in H.
      - last_token H. reflexivity.
      - next_token H. assumption. }
    assert (Hm : followedByMarker (t :: x ++ rest) = false).
    { rewrite followedByMarker_cons. destruct x as [|t' x]; cbn [app].
      - destruct rest as [|r rest]; [reflexivity|].
        apply afterComposite_not_marker in Hrest. exact Hrest.
      - rewrite Hx. reflexivity. }
    rewrite Hm. read_expect. rewrite Hv, <- Hp.
    cbn [length] in Hfuel.
    destruct (isEntityOrRelationStart (x ++ rest) || check IDENTIFIED (x ++ rest)) eqn:E.
    + destruct x as [|t' x].
      * rewrite Hx. reflexivity.
      * exfalso. revert E. unfold isEntityOrRelationStart. cbn [app].
        rewrite !check_headType, headType_cons, Hx.
        repeat case_bool_decide; simpl; congruence.
    + rewrite IH by (first [assumption|lia]). rewrite <- app_assoc. reflexivity.
Qed.

Lemma parseSubAttributeList_run subs pre rest :
  Forall namedPlain subs ->
  List.map tv pre = List.map (fun sub => ident (attr_name sub)) subs ->
  afterComposite rest = true ->
  parseSubAttributeList (pre ++ rest) = Ok (subs, rest).
Proof.
  intros Hs H Hrest. unfold parseSubAttributeList.
  apply (parseSubAttributeList_loop_run subs Hs pre rest []); auto.
  rewrite length_app. lia.
Qed.

(** *** Attributes *)

Ltac run_check :=
  first [ rewrite check_at by (first [eassumption | discriminate])
        | erewrite check_not by (first [eassumption | discriminate]) ].

Ltac run_advance := rewrite advance_cons by (first [congruence | discriminate]).

Lemma isName_not_empty n : isName n = true -> n <> [].
Proof. intros H ->. discriminate. Qed.

Lemma parseAttribute_run a pre rest :
  attributeShape a -> hasTarget a = true ->
  List.map tv pre = attributeTokens a ->
  afterAttribute rest = true ->
  (attributeType a = composite -> afterComposite rest = true) ->
  parseAttribute (pre ++ rest) = Ok (a, rest).
Proof.
  destruct a as [n ty k target dt subs].
  unfold attributeShape, hasTarget, attributeTokens.
  cbn [attr_name attributeType keyType fkTarget dataType subAttributes].
  intros [Hn Hshape] Htarget H Hrest Hcomposite. unfold parseAttribute.
  destruct k, ty; try contradiction.
  - (* pk *)
    destruct Hshape as (-> & -> & ->). cbv beta iota in H. do 2 next_token H. last_token H.
    cbn [app]. read_expect. repeat run_check. run_advance. rewrite Hv. reflexivity.
  - (* fk *)
    destruct Hshape as (-> & -> & Ht). destruct target as [target|]; [|discriminate].
    cbv beta iota in H. cbn [app] in H. do 3 next_token H. cbn [app]. read_expect. repeat run_check.
    run_advance. run_check. run_advance.
    rewrite (parseFkTarget_run target) by assumption.
    cbn [mbind Result_bind]. rewrite Hv. reflexivity.
  - (* none, simple *)
    destruct Hshape as (-> & -> & ->). cbv beta iota in H. do 1 next_token H. last_token H.
    cbn [app]. read_expect. rewrite Hv.
    replace (check PK rest) with false by (revert Hrest; clear; head_cases).
    replace (check FK rest) with false by (revert Hrest; clear; head_cases).
    replace (check COMPOSITE rest) with false by (revert Hrest; clear; head_cases).
    replace (check MULTIVALUED rest) with false by (revert Hrest; clear; head_cases).
    replace (check DERIVED rest) with false by (revert Hrest; clear; head_cases).
    replace (check COLON rest) with false by (revert Hrest; clear; head_cases).
    reflexivity.
  - (* none, composite *)
    destruct Hshape as (-> & -> & subs' & -> & Hsubs). cbv beta iota in H.
    cbn [app] in H. do 3 next_token H. cbn [app]. read_expect. repeat run_check.
    run_advance. read_expect.
    rewrite (parseSubAttributeList_run subs') by auto.
    cbn [mbind Result_bind]. rewrite Hv. reflexivity.
  - (* none, multivalued *)
    destruct Hshape as (-> & -> & ->). cbv beta iota in H. do 2 next_token H. last_token H.
    cbn [app]. read_expect. repeat run_check. run_advance. rewrite Hv. reflexivity.
  - (* none, derived *)
    destruct Hshape as (-> & -> & ->). cbv beta iota in H. do 2 next_token H. last_token H.
    cbn [app]. read_expect. repeat run_check. run_advance. rewrite Hv. reflexivity.
  - (* none, typed *)
    destruct Hshape as (-> & -> & ty & -> & Hty). cbv beta iota in H.
    rewrite bool_decide_eq_false_2 in H by (apply isName_not_empty, Hty).
    do 3 next_token H. last_token H.
    cbn [app]. read_expect. repeat run_check. run_advance. read_expect.
    rewrite Hv, Hv1. reflexivity.
Qed.

Lemma attributeTokens_head a :
  exists more, attributeTokens a = ident (attr_name a) :: more.
Proof. unfold attributeTokens. eauto. Qed.

Lemma attributeTokens_marker a :
  attributeShape a -> hasTarget a = true -> printsMarker a = true ->
  exists ty v more,
    attributeTokens a = ident (attr_name a) :: (ty, v) :: more /\ isMarker ty = true.
Proof.
  destruct a as [n ty k target dt subs].
  unfold attributeShape, hasTarget, printsMarker, attributeTokens.
  cbn [attr_name attributeType keyType fkTarget dataType subAttributes].
  intros [_ Hshape] Htarget Hm.
  destruct k, ty; try contradiction; try discriminate.
  - eauto 6.
  - destruct target; [|discriminate]. cbn [app]. eauto 6.
  - destruct Hshape as (-> & _ & subs' & -> & _). cbn [app]. eauto 6.
  - destruct Hshape as (-> & _ & ->). eauto 6.
  - destruct Hshape as (-> & _ & ->). eauto 6.
Qed.

Lemma after_attributes a attrs pre rest :
  Forall attributeShape attrs -> forallb hasTarget attrs = true ->
  compositeThenMarker (a :: attrs) = true ->
  List.map tv pre = flat_map attributeTokens attrs ->
  endsAttributes (headType rest) = true ->
  afterAttribute (pre ++ rest) = true
  /\ (attributeType a = composite -> afterComposite (pre ++ rest) = true).
Proof.
  intros Hshape Htarget Hm H Hrest. unfold afterAttribute, afterComposite.
  destruct attrs as [|b attrs]; cbn [flat_map] in H.
  - last_token H. cbn [app]. rewrite Hrest. auto.
  - cbn [compositeThenMarker] in Hm. apply andb_true_iff in Hm as [Hm _].
    cbn [forallb] in Htarget. apply andb_true_iff in Htarget as [Htarget _].
    apply Forall_cons_iff in Hshape as [Hshape _]. split.
    + destruct (attributeTokens_head b) as (more & E). rewrite E in H. cbn [app] in H.
      next_token H. cbn [app]. rewrite headType_cons, Hty.
      rewrite (bool_decide_eq_true_2 (IDENTIFIER = IDENTIFIER)) by reflexivity.
      apply orb_true_r.
    + intros Hc. rewrite Hc in Hm.
      rewrite bool_decide_eq_true_2 in Hm by reflexivity. cbn [negb orb] in Hm.
      destruct (attributeTokens_marker b Hshape Htarget Hm) as (ty & v & more & E & Hty).
      rewrite E in H. cbn [app] in H. do 2 next_token H. cbn [app].
      rewrite headType_cons, Hty0, followedByMarker_cons, Hty1, Hty.
      rewrite (bool_decide_eq_true_2 (IDENTIFIER = IDENTIFIER)) by reflexivity.
      apply orb_true_r.
Qed.

Lemma parseAttributeList_loop_run attrs :
  Forall attributeShape attrs ->
  forallb hasTarget attrs = true -> compositeThenMarker attrs = true ->
  forall pre rest acc fuel,
    List.map tv pre = flat_map attributeTokens attrs ->
    endsAttributes (headType rest) = true -> (length pre < fuel)%nat ->
    parseAttributeList_loop fuel (pre ++ rest) acc = Ok (acc ++ attrs, rest).
Proof.
  induction 1 as [|a attrs Ha Hattrs IH]; intros Htarget Hm pre rest acc fuel H Hrest Hfuel;
    (destruct fuel as [|fuel]; [lia|]); cbn [flat_map] in H.
  - last_token H. cbn [app parseAttributeList_loop]. rewrite app_nil_r.
    revert Hrest. unfold endsAttributes, startsDeclaration, isEntityOrRelationStart.
    rewrite !check_headType, isAtEnd_headType.
    destruct (headType rest); intros; repeat case_bool_decide; simpl in *; congruence.
  - apply map_eq_app in H as (pa & pre' & -> & Hpa & Hpre').
    pose proof Hm as Hm'. cbn [compositeThenMarker] in Hm'.
    apply andb_true_iff in Hm' as [_ Hm']. 
    cbn [forallb] in Htarget. apply andb_true_iff in Htarget as [Ht Htarget].
    destruct (after_attributes a attrs pre' rest Hattrs Htarget Hm Hpre' Hrest)
      as [Hafter Hcomposite].
    pose proof (parseAttribute_run a pa (pre' ++ rest) Ha Ht Hpa Hafter Hcomposite) as Hrun.
    destruct (attributeTokens_head a) as (more & E). rewrite E in Hpa.
    next_token Hpa. rewrite <- app_assoc in *. cbn [app] in *.
    cbn [parseAttributeList_loop]. unfold isEntityOrRelationStart.
    replace (isAtEnd (t :: x ++ pre' ++ rest)) with false
      by (rewrite isAtEnd_headType, headType_cons, Hty; case_bool_decide; congruence).
    repeat run_check. cbn [negb andb orb]. rewrite Hrun. cbn [mbind Result_bind].
    rewrite IH; auto.
    + rewrite <- app_assoc. reflexivity.
    + cbn [length] in Hfuel. rewrite length_app in Hfuel. lia.
Qed.

Lemma parseAttributeList_run attrs pre rest :
  Forall attributeShape attrs ->
  forallb hasTarget attrs = true -> compositeThenMarker attrs = true ->
  List.map tv pre = flat_map attributeTokens attrs ->
  endsAttributes (headType rest) = true ->
  parseAttributeList (pre ++ rest) = Ok (attrs, rest).
Proof.
  intros Hs Ht Hm H Hrest. unfold parseAttributeList.
  apply (parseAttributeList_loop_run attrs Hs Ht Hm pre rest []); auto.
  rewrite length_app. lia.
Qed.

(** *** Identified-by lists *)

Lemma identifiedByTokens_cons t more :
  identifiedByTokens (t :: more)
  = fkTokens t ++ flat_map (fun t' => (PLUS, str "+") :: fkTokens t') more.
Proof.
  revert t. induction more as [|t' more IH]; intros t; [reflexivity|].
  change (identifiedByTokens (t :: t' :: more))
    with (fkTokens t ++ [(PLUS, str "+")] ++ identifiedByTokens (t' :: more)).
  rewrite IH. reflexivity.
Qed.

Lemma parseIdentifiedByList_loop_run more : forall pre rest acc fuel,
  List.map tv pre = flat_map (fun t' => (PLUS, str "+") :: fkTokens t') more ->
  check PLUS rest = false -> (length pre < fuel)%nat ->
  parseIdentifiedByList_loop fuel (pre ++ rest) acc = Ok (acc ++ more, rest).
Proof.
  induction more as [|t' more IH]; intros pre rest acc fuel H Hrest Hfuel;
    (destruct fuel as [|fuel]; [lia|]); cbn [flat_map] in H.
  - last_token H. cbn [app parseIdentifiedByList_loop]. rewrite Hrest, app_nil_r.
    reflexivity.
  - apply map_eq_app in H as (p1 & pre' & -> & H1 & H2). next_token H1.
    rewrite <- app_assoc. cbn [app parseIdentifiedByList_loop].
    run_check. run_advance.
    rewrite (parseFkTarget_run t') by assumption. cbn [mbind Result_bind].
    rewrite IH; auto.
    + rewrite <- app_assoc. reflexivity.
    + rewrite length_app in Hfuel. cbn [length] in Hfuel. lia.
Qed.

Lemma parseIdentifiedByList_run targets pre rest :
  targets <> [] ->
  List.map tv pre = identifiedByTokens targets ->
  check PLUS rest = false ->
  parseIdentifiedByList (pre ++ rest) = Ok (targets, rest).
Proof.
  intros Hne H Hrest. destruct targets as [|t more]; [congruence|].
  rewrite identifiedByTokens_cons in H.
  apply map_eq_app in H as (p1 & pre' & -> & H1 & H2).
  unfold parseIdentifiedByList. rewrite <- app_assoc.
  rewrite (parseFkTarget_run t) by assumption. cbn [mbind Result_bind].
  rewrite (parseIdentifiedByList_loop_run more pre' rest [t]); auto.
  rewrite length_app. lia.
Qed.

(** *** Entities *)

Lemma starts_not_plus rest :
  startsDeclaration (headType rest) = true -> check PLUS rest = false.
Proof.
  unfold startsDeclaration. rewrite check_headType.
  destruct (headType rest); intros; repeat case_bool_decide; simpl in *; congruence.
Qed.

Lemma starts_not_identified rest :
  startsDeclaration (headType rest) = true -> check IDENTIFIED rest = false.
Proof.
  unfold startsDeclaration. rewrite check_headType.
  destruct (headType rest); intros; repeat case_bool_decide; simpl in *; congruence.
Qed.

Lemma starts_ends rest :
  startsDeclaration (headType rest) = true -> endsAttributes (headType rest) = true.
Proof. unfold endsAttributes. intros ->. reflexivity. Qed.

Lemma parseEntity_run e pre rest :
  entityShape e -> entityType e = strong ->
  forallb hasTarget (ent_attributes e) = true ->
  compositeThenMarker (ent_attributes e) = true ->
  List.map tv pre = entityTokens e ->
  startsDeclaration (headType rest) = true ->
  parseEntity (pre ++ rest) = Ok (e, rest).
Proof.
  destruct e as [n ty attrs ident_by]. unfold entityShape, entityTokens.
  cbn [ent_name entityType ent_attributes identifiedBy].
  intros (Hn & Hattrs & Hid) -> Ht Hm H Hrest.
  destruct ident_by; [contradiction|]. cbv beta iota in H. cbn [app] in H.
  do 3 next_token H. rewrite app_nil_r in H.
  cbn [app]. unfold parseEntity. do 3 read_expect.
  rewrite (parseAttributeList_run attrs) by auto using starts_ends.
  cbn [mbind Result_bind]. rewrite Hv0. reflexivity.
Qed.

Lemma parseWeakEntity_run e pre rest :
  entityShape e -> entityType e = weak ->
  forallb hasTarget (ent_attributes e) = true ->
  compositeThenMarker (ent_attributes e) = true ->
  List.map tv pre = entityTokens e ->
  startsDeclaration (headType rest) = true ->
  parseWeakEntity (pre ++ rest) = Ok (e, rest).
Proof.
  destruct e as [n ty attrs ident_by]. unfold entityShape, entityTokens.
  cbn [ent_name entityType ent_attributes identifiedBy].
  intros (Hn & Hattrs & Hid) -> Ht Hm H Hrest.
  cbv beta iota in H. cbn [app] in H. do 4 next_token H.
  cbn [app]. unfold parseWeakEntity. do 4 read_expect.
  destruct ident_by as [targets|].
  - destruct Hid as [Hne Htargets].
    apply map_eq_app in H as (pa & pre' & -> & Hpa & H). cbn [app] in H.
    do 2 next_token H. rewrite <- app_assoc. cbn [app].
    rewrite (parseAttributeList_run attrs).
    + cbn [mbind Result_bind]. run_check. run_advance. read_expect.
      rewrite (parseIdentifiedByList_run targets) by auto using starts_not_plus.
      cbn [mbind Result_bind]. rewrite Hv1. reflexivity.
    + assumption.
    + assumption.
    + assumption.
    + assumption.
    + unfold endsAttributes. rewrite headType_cons, Hty3.
      rewrite (bool_decide_eq_true_2 (IDENTIFIED = IDENTIFIED)) by reflexivity.
      apply orb_true_r.
  - rewrite app_nil_r in H.
    rewrite (parseAttributeList_run attrs) by auto using starts_ends.
    cbn [mbind Result_bind]. rewrite starts_not_identified by assumption.
    rewrite Hv1. reflexivity.
Qed.

(** *** Relationships *)

Lemma parseCardinality_run c t rest :
  tv t = cardinalityToken c -> parseCardinality (t :: rest) = Ok (c, rest).
Proof.
  intros H. unfold parseCardinality. destruct c; cbn [cardinalityToken] in H;
    pose proof (tv_type _ _ _ H) as Hty;
    repeat run_check; run_advance; reflexivity.
Qed.

Lemma parseOptionalParticipation_run p t1 t2 rest :
  tok_type t1 = COMMA ->
  tok_type t2 = match p with total => TOTAL | partial => PARTIAL end ->
  parseOptionalParticipation (t1 :: t2 :: rest) = Ok (p, rest).
Proof.
  intros H1 H2. unfold parseOptionalParticipation, parseParticipation.
  run_check. run_advance. destruct p; repeat run_check; run_advance; reflexivity.
Qed.

Lemma parseOptionalParticipation_skip t rest :
  tok_type t = RPAREN -> parseOptionalParticipation (t :: rest) = Ok (partial, t :: rest).
Proof. intros H. unfold parseOptionalParticipation. run_check. reflexivity. Qed.

Lemma sideTokens_normal rel side :
  relationshipType rel = normal ->
  sideTokens rel side
  = [(LPAREN, str "("); cardinalityToken (cardinality side); (COMMA, str ",");
     match participation side with
     | total => (TOTAL, str "total")
     | partial => (PARTIAL, str "partial")
     end; (RPAREN, str ")")].
Proof. unfold sideTokens. intros ->. destruct (participation side); reflexivity. Qed.

Lemma sideTokens_identifying rel side :
  relationshipType rel = identifying ->
  sideTokens rel side
  = [(LPAREN, str "("); cardinalityToken (cardinality side); (RPAREN, str ")")].
Proof. unfold sideTokens. intros ->. destruct (participation side); reflexivity. Qed.

Lemma parseRelationAttributeList_loop_run attrs :
  Forall namedPlain attrs ->
  forall pre rest acc fuel,
    List.map tv pre = List.map (fun a => ident (attr_name a)) attrs ->
    startsDeclaration (headType rest) = true -> (length pre < fuel)%nat ->
    parseRelationAttributeList_loop fuel (pre ++ rest) acc = Ok (acc ++ attrs, rest).
Proof.
  induction 1 as [|a attrs [Hp _] _ IH]; intros pre rest acc fuel H Hrest Hfuel;
    (destruct fuel as [|fuel]; [lia|]); cbn [List.map] in H.
  - last_token H. cbn [app parseRelationAttributeList_loop]. rewrite app_nil_r.
    revert Hrest. unfold startsDeclaration, isEntityOrRelationStart.
    rewrite !check_headType, isAtEnd_headType.
    destruct (headType rest); intros; repeat case_bool_decide; simpl in *; congruence.
  - next_token H. cbn [app parseRelationAttributeList_loop].
    unfold isEntityOrRelationStart.
    replace (isAtEnd (t :: x ++ rest)) with false
      by (rewrite isAtEnd_headType, headType_cons, Hty; case_bool_decide; congruence).
    repeat run_check. cbn [negb andb orb]. read_expect. rewrite Hv, <- Hp.
    cbn [length] in Hfuel. rewrite IH by (first [assumption|lia]).
    rewrite <- app_assoc. reflexivity.
Qed.

Lemma parseRelationAttributeList_run attrs pre rest :
  Forall namedPlain attrs ->
  List.map tv pre = List.map (fun a => ident (attr_name a)) attrs ->
  startsDeclaration (headType rest) = true ->
  parseRelationAttributeList (pre ++ rest) = Ok (attrs, rest).
Proof.
  intros Hs H Hrest. unfold parseRelationAttributeList.
  apply (parseRelationAttributeList_loop_run attrs Hs pre rest []); auto.
  rewrite length_app. lia.
Qed.

(** [take_token H]: as [next_token], keeping the equation of the token. *)
Ltac take_token H :=
  let t := fresh "c" in
  let Ht := fresh "Hc" in
  match type of H with
  | List.map tv ?pre = _ :: _ => apply map_tv_cons in H as (t & ? & -> & Ht & H)
  end.

Lemma participation_type (p : Participation) t :
  tv t = match p with
         | total => (TOTAL, str "total")
         | partial => (PARTIAL, str "partial")
         end ->
  tok_type t = match p with total => TOTAL | partial => PARTIAL end.
Proof. destruct p; apply tv_type. Qed.

Lemma parseRelation_run rel pre rest :
  relationshipShape rel -> relationshipType rel = normal ->
  List.map tv pre = relationshipTokens rel ->
  startsDeclaration (headType rest) = true ->
  parseRelation (pre ++ rest) = Ok (rel, rest).
Proof.
  intros (Hname & Hv & Hl & Hr & Hattrs & _) Hty H Hrest.
  unfold relationshipTokens in H. rewrite !sideTokens_normal in H by assumption.
  rewrite Hty in H. cbn [app] in H.
  do 3 next_token H. take_token H. next_token H. take_token H. do 3 next_token H.
  take_token H. next_token H. take_token H. do 4 next_token H.
  apply participation_type in Hc0, Hc2.
  cbn [app]. unfold parseRelation. do 3 read_expect.
  rewrite (parseCardinality_run _ _ _ Hc). cbn [mbind Result_bind].
  rewrite (parseOptionalParticipation_run (participation (leftSide rel))) by assumption.
  cbn [mbind Result_bind]. do 3 read_expect.
  rewrite (parseCardinality_run _ _ _ Hc1). cbn [mbind Result_bind].
  rewrite (parseOptionalParticipation_run (participation (rightSide rel))) by assumption.
  cbn [mbind Result_bind]. do 4 read_expect.
  rewrite (parseRelationAttributeList_run (rel_attributes rel)) by assumption.
  cbn [mbind Result_bind].
  destruct rel as [n ty [ln lc lp] [rn rc rp] v attrs]. simpl in *. subst. reflexivity.
Qed.

Lemma parseIdentifyingRelation_run rel pre rest :
  relationshipShape rel -> relationshipType rel = identifying ->
  List.map tv pre = relationshipTokens rel ->
  parseIdentifyingRelation (pre ++ rest) = Ok (rel, rest).
Proof.
  intros (Hname & Hv & Hl & Hr & Hattrs & Hid) Hty H.
  destruct (Hid Hty) as [[Hlt Hrt] Hnil].
  unfold relationshipTokens in H. rewrite !sideTokens_identifying in H by assumption.
  rewrite Hty, Hnil in H. cbn [app List.map] in H.
  do 4 next_token H. take_token H. do 3 next_token H. take_token H. do 4 next_token H.
  last_token H.
  cbn [app]. unfold parseIdentifyingRelation. do 4 read_expect.
  rewrite (parseCardinality_run _ _ _ Hc). cbn [mbind Result_bind]. do 3 read_expect.
  rewrite (parseCardinality_run _ _ _ Hc0). cbn [mbind Result_bind]. do 4 read_expect.
  destruct rel as [n ty [ln lc lp] [rn rc rp] v attrs]. simpl in *. subst. reflexivity.
Qed.

(** *** Documents *)

Lemma entityTokens_head e :
  exists v more,
    entityTokens e
    = (match entityType e with weak => WEAK | strong => ENTITY end, v) :: more.
Proof. unfold entityTokens. destruct (entityType e); cbn [app]; eauto. Qed.

Lemma relationshipTokens_head r :
  exists v more,
    relationshipTokens r
    = (match relationshipType r with identifying => IDENTIFYING | normal => RELATION end,
       v) :: more.
Proof. unfold relationshipTokens. destruct (relationshipType r); cbn [app]; eauto. Qed.

Lemma declarations_start ents rels pre eof :
  List.map tv pre = flat_map entityTokens ents ++ flat_map relationshipTokens rels ->
  tok_type eof = EOF ->
  startsDeclaration (headType (pre ++ [eof])) = true.
Proof.
  intros H Heof. destruct ents as [|e ents]; cbn [flat_map app] in H.
  - destruct rels as [|r rels]; cbn [flat_map] in H.
    + last_token H. cbn [app]. rewrite headType_cons, Heof. reflexivity.
    + destruct (relationshipTokens_head r) as (v & more & E). rewrite E in H.
      cbn [app] in H. next_token H. cbn [app]. rewrite headType_cons, Hty.
      destruct (relationshipType r); reflexivity.
  - destruct (entityTokens_head e) as (v & more & E). rewrite E in H.
    cbn [app] in H. next_token H. cbn [app]. rewrite headType_cons, Hty.
    destruct (entityType e); reflexivity.
Qed.

Lemma parse_loop_relationships rels :
  Forall relationshipShape rels ->
  forall pre eof ents acc fuel,
    List.map tv pre = flat_map relationshipTokens rels ->
    tok_type eof = EOF -> (length pre < fuel)%nat ->
    parse_loop fuel (pre ++ [eof]) ents acc
    = Ok {| entities := ents; relationships := acc ++ rels |}.
Proof.
  induction 1 as [|r rels Hr _ IH]; intros pre eof ents acc fuel H Heof Hfuel;
    (destruct fuel as [|fuel]; [lia|]); cbn [flat_map] in H.
  - last_token H. cbn [app parse_loop]. rewrite app_nil_r.
    replace (isAtEnd [eof]) with true
      by (rewrite isAtEnd_headType, headType_cons, Heof; reflexivity).
    reflexivity.
  - apply map_eq_app in H as (pr & pre' & -> & Hpr & Hpre').
    pose proof (declarations_start [] rels pre' eof Hpre' Heof) as Hstart.
    assert (Hrun : (if bool_decide (relationshipType r = normal)
                    then parseRelation (pr ++ pre' ++ [eof])
                    else parseIdentifyingRelation (pr ++ pre' ++ [eof]))
                   = Ok (r, pre' ++ [eof])).
    { destruct (relationshipType r) eqn:E.
      - rewrite bool_decide_eq_true_2 by reflexivity. apply parseRelation_run; auto.
      - rewrite bool_decide_eq_false_2 by discriminate.
        apply parseIdentifyingRelation_run; auto. }
    destruct (relationshipTokens_head r) as (v & more & E). rewrite E in Hpr.
    next_token Hpr. rewrite <- app_assoc in *. cbn [app] in *. cbn [parse_loop].
    replace (isAtEnd (t :: x ++ pre' ++ [eof])) with false
      by (rewrite isAtEnd_headType, headType_cons, Hty; destruct (relationshipType r);
          repeat case_bool_decide; congruence).
    cbn [negb]. cbn [length] in Hfuel. rewrite length_app in Hfuel.
    destruct (relationshipType r).
    + rewrite bool_decide_eq_true_2 in Hrun by reflexivity.
      repeat run_check. rewrite Hrun. cbn [mbind Result_bind].
      rewrite IH by (first [assumption|lia]). rewrite <- app_assoc. reflexivity.
    + rewrite bool_decide_eq_false_2 in Hrun by discriminate.
      repeat run_check. rewrite Hrun. cbn [mbind Result_bind].
      rewrite IH by (first [assumption|lia]). rewrite <- app_assoc. reflexivity.
Qed.

Lemma parse_loop_entities ents rels :
  Forall entityShape ents ->
  Forall (fun e => forallb hasTarget (ent_attributes e) = true
                   /\ compositeThenMarker (ent_attributes e) = true) ents ->
  Forall relationshipShape rels ->
  forall pre eof acc fuel,
    List.map tv pre = flat_map entityTokens ents ++ flat_map relationshipTokens rels ->
    tok_type eof = EOF -> (length pre < fuel)%nat ->
    parse_loop fuel (pre ++ [eof]) acc []
    = Ok {| entities := acc ++ ents; relationships := rels |}.
Proof.
  intros Hents Hround Hrels. revert Hround.
  induction Hents as [|e ents He _ IH]; intros Hround pre eof acc fuel H Heof Hfuel.
  - cbn [flat_map app] in H. rewrite app_nil_r.
    apply (parse_loop_relationships rels Hrels pre eof acc []); assumption.
  - destruct fuel as [|fuel]; [lia|]. cbn [flat_map] in H. rewrite <- app_assoc in H.
    apply map_eq_app in H as (pe & pre' & -> & Hpe & Hpre').
    apply Forall_cons_iff in Hround as [[Ht Hm] Hround].
    pose proof (declarations_start ents rels pre' eof Hpre' Heof) as Hstart.
    assert (Hrun : (if bool_decide (entityType e = strong)
                    then parseEntity (pe ++ pre' ++ [eof])
                    else parseWeakEntity (pe ++ pre' ++ [eof]))
                   = Ok (e, pre' ++ [eof])).
    { destruct (entityType e) eqn:E.
      - rewrite bool_decide_eq_true_2 by reflexivity. apply parseEntity_run; auto.
      - rewrite bool_decide_eq_false_2 by discriminate.
        apply parseWeakEntity_run; auto. }
    destruct (entityTokens_head e) as (v & more & E). rewrite E in Hpe.
    next_token Hpe. rewrite <- app_assoc in *. cbn [app] in *. cbn [parse_loop].
    replace (isAtEnd (t :: x ++ pre' ++ [eof])) with false
      by (rewrite isAtEnd_headType, headType_cons, Hty; destruct (entityType e);
          repeat case_bool_decide; congruence).
    cbn [negb]. cbn [length] in Hfuel. rewrite length_app in Hfuel.
    destruct (entityType e).
    + rewrite bool_decide_eq_true_2 in Hrun by reflexivity.
      repeat run_check. rewrite Hrun. cbn [mbind Result_bind].
      rewrite IH by (first [assumption|lia]). rewrite <- app_assoc. reflexivity.
    + rewrite bool_decide_eq_false_2 in Hrun by discriminate.
      repeat run_check. rewrite Hrun. cbn [mbind Result_bind].
      rewrite IH by (first [assumption|lia]). rewrite <- app_assoc. reflexivity.
Qed.

(** Parsing the text that [generateDSL] prints for an AST of the parser's
    shape gives the AST back, when its foreign keys have targets and its
    composite attributes are followed by marked attributes. *)
Lemma parse_generateDSL ast :
  astShape ast -> roundTrips ast -> parseDSL (generateDSL ast) = Ok ast.
Proof.
  intros Hshape Hround. pose proof Hshape as [Hents Hrels].
  assert (Htargets : Forall (fun e => forallb hasTarget (ent_attributes e) = true)
                       (entities ast)).
  { eapply List.Forall_impl; [|exact Hround]. intros e [H _]. exact H. }
  pose proof (tokens_of_generateDSL ast Hshape Htargets) as H.
  unfold parseDSL, parse.
  apply map_eq_app in H as (pre & last & E & Hpre & Hlast). rewrite E.
  next_token Hlast. last_token Hlast. unfold astTokens in Hpre.
  rewrite (parse_loop_entities (entities ast) (relationships ast) Hents Hround Hrels
             pre t [] (S (length (pre ++ [t])))); auto.
  - destruct ast. reflexivity.
  - rewrite length_app. lia.
Qed.

(** ** The shape of what the parser builds *)

(** *** The names in the tokens of a text *)

Lemma readWhile_forallb p s : forallb p (readWhile p s).1 = true.
Proof.
  induction s as [|c s IH]; [reflexivity|]. simpl.
  destruct (p c) eqn:E; [|reflexivity].
  destruct (readWhile p s) as [v r]. simpl in *. rewrite E, IH. reflexivity.
Qed.

Lemma lexStep_named (c : N) (r : list N) :
  Forall (fun x => x.1 = IDENTIFIER -> isName x.2 = true) (lexStep c (c :: r)).1.
Proof.
  unfold lexStep.
  destruct (c =? c_lf); [constructor|].
  destruct (isLetter c) eqn:Hl.
  { rewrite (readWhile_cons isWordChar) by (apply isLetter_isWordChar, Hl).
    pose proof (readWhile_forallb isWordChar r) as Hw.
    destruct (readWhile isWordChar r) as [v r']. simpl in *.
    constructor; [|constructor]. simpl. intros E. unfold isName, isWord.
    rewrite Hl, Hw, E. rewrite bool_decide_eq_true_2 by reflexivity. reflexivity. }
  destruct (isDigit c).
  { destruct (readWhile isDigit (c :: r)) as [v r']. simpl.
    constructor; [|constructor]. destruct (jsstring_eqb v (str "1")); discriminate. }
  repeat match goal with
    | |- context [if ?b then _ else _] => destruct b
    end; simpl; repeat constructor; simpl; discriminate.
Qed.

Lemma lexFuel_named fuel : forall s,
  Forall (fun x => x.1 = IDENTIFIER -> isName x.2 = true) (lexFuel fuel s).
Proof.
  induction fuel as [|fuel IH]; intros s; simpl; [constructor|].
  destruct (skipped s) as [|c r]; [constructor|].
  apply Forall_app. split; [apply lexStep_named|apply IH].
Qed.

Lemma tokenize_named s : Forall namedToken (tokenize s).
Proof.
  assert (H : Forall (fun x => x.1 = IDENTIFIER -> isName x.2 = true)
                (List.map tv (tokenize s))).
  { rewrite tokenize_lexemes. apply Forall_app. split; [apply lexFuel_named|].
    constructor; [discriminate|constructor]. }
  rewrite List.Forall_map in H. exact H.
Qed.

(** *** The cursor on named tokens *)

Lemma advance_named ts : Forall namedToken ts -> Forall namedToken (advance ts).
Proof.
  unfold advance. destruct (isAtEnd ts); [auto|].
  destruct ts as [|t ts]; [auto|]. intros H. apply Forall_cons_iff in H. tauto.
Qed.

Lemma expect_named ty ts t rest :
  Forall namedToken ts -> expect ty ts = Ok (t, rest) ->
  tok_type t = ty /\ namedToken t /\ Forall namedToken rest.
Proof.
  intros Hts H. apply expect_Ok in H as (-> & Hty & _).
  apply Forall_cons_iff in Hts. tauto.
Qed.

(** [step_named H]: the next call of the sequence [H] is an [expect]. *)
Ltac step_named H :=
  let p := fresh "p" in
  let E := fresh "E" in
  let Hty := fresh "Hty" in
  let Hn := fresh "Hn" in
  apply bind_Ok in H as (p & E & H); destruct p; simpl in H;
  match type of E with
  | expect _ _ = _ =>
      eapply expect_named in E as (Hty & Hn & ?);
      [|first [eassumption | apply advance_named; eassumption]]
  end.

Lemma parseFkTarget_shape ts target rest :
  Forall namedToken ts -> parseFkTarget ts = Ok (target, rest) ->
  namedTarget target /\ Forall namedToken rest.
Proof.
  intros Hts H. unfold parseFkTarget in H. do 3 step_named H.
  injection H as <- <-. unfold namedTarget. simpl. auto.
Qed.

Lemma parseSubAttributeList_shape ts subs rest :
  Forall namedToken ts -> parseSubAttributeList ts = Ok (subs, rest) ->
  Forall namedPlain subs /\ Forall namedToken rest.
Proof.
  intros Hts H. unfold parseSubAttributeList in H.
  destruct (parseSubAttributeList_loop_spec (S (length ts)) ts [])
    as (consumed & rest' & -> & E & Hids & _); [lia|].
  rewrite E in H. injection H as <- <-. apply Forall_app in Hts as [Hc Hr].
  split; [|assumption]. simpl. rewrite List.Forall_map.
  rewrite List.Forall_forall in *. intros t Hin. split; [reflexivity|].
  simpl. apply Hc; auto.
Qed.

Lemma parseAttribute_shape ts a rest :
  Forall namedToken ts -> parseAttribute ts = Ok (a, rest) ->
  attributeShape a /\ Forall namedToken rest.
Proof.
  intros Hts H. unfold parseAttribute in H. step_named H.
  specialize (Hn Hty). unfold attributeShape.
  destruct (check PK l).
  { injection H as <- <-. simpl. auto using advance_named. }
  destruct (check FK l).
  { destruct (check ARROW (advance l)).
    - step_bind H. apply parseFkTarget_shape in E as [Ht Hr];
        [|auto using advance_named].
      injection H as <- <-. simpl. auto.
    - injection H as <- <-. simpl. auto 6 using advance_named. }
  destruct (check COMPOSITE l).
  { step_named H. step_bind H. apply parseSubAttributeList_shape in E as [Hs Hr]; [|auto].
    injection H as <- <-. simpl. eauto 8. }
  destruct (check MULTIVALUED l).
  { injection H as <- <-. simpl. auto using advance_named. }
  destruct (check DERIVED l).
  { injection H as <- <-. simpl. auto using advance_named. }
  destruct (check COLON l).
  { step_named H. injection H as <- <-. simpl. eauto 8. }
  injection H as <- <-. simpl. auto.
Qed.

Lemma parseAttributeList_loop_shape fuel : forall ts acc attrs rest,
  Forall namedToken ts -> Forall attributeShape acc ->
  parseAttributeList_loop fuel ts acc = Ok (attrs, rest) ->
  Forall attributeShape attrs /\ Forall namedToken rest.
Proof.
  induction fuel as [|fuel IH]; intros ts acc attrs rest Hts Hacc H; [discriminate|].
  simpl in H.
  destruct (negb (isAtEnd ts) && negb (isEntityOrRelationStart ts)).
  - destruct (check IDENTIFIER ts).
    + step_bind H. apply parseAttribute_shape in E as [Ha Hr]; [|assumption].
      eapply IH in H; eauto. apply Forall_app. split; [assumption|]. constructor; auto.
    + destruct (check IDENTIFIED ts).
      * injection H as <- <-. auto.
      * eapply IH in H; eauto using advance_named.
  - injection H as <- <-. auto.
Qed.

Lemma parseIdentifiedByList_loop_shape fuel : forall ts acc targets rest,
  Forall namedToken ts -> acc <> [] -> Forall namedTarget acc ->
  parseIdentifiedByList_loop fuel ts acc = Ok (targets, rest) ->
  (targets <> [] /\ Forall namedTarget targets) /\ Forall namedToken rest.
Proof.
  induction fuel as [|fuel IH]; intros ts acc targets rest Hts Hne Hacc H; [discriminate|].
  simpl in H. destruct (check PLUS ts).
  - step_bind H. apply parseFkTarget_shape in E as [Ht Hr]; [|auto using advance_named].
    eapply IH in H; eauto.
    + intros E. apply app_eq_nil in E as [_ E]. discriminate.
    + apply Forall_app. split; [assumption|]. constructor; auto.
  - injection H as <- <-. auto.
Qed.

Lemma parseIdentifiedByList_shape ts targets rest :
  Forall namedToken ts -> parseIdentifiedByList ts = Ok (targets, rest) ->
  (targets <> [] /\ Forall namedTarget targets) /\ Forall namedToken rest.
Proof.
  intros Hts H. unfold parseIdentifiedByList in H.
  apply bind_Ok in H as ([t l] & E & H). cbv beta iota in H.
  apply parseFkTarget_shape in E as [Ht Hr]; [|assumption].
  eapply parseIdentifiedByList_loop_shape in H; eauto.
Qed.

Lemma parseEntity_shape ts e rest :
  Forall namedToken ts -> parseEntity ts = Ok (e, rest) ->
  entityShape e /\ Forall namedToken rest.
Proof.
  intros Hts H. unfold parseEntity in H. do 3 step_named H. step_bind H.
  apply parseAttributeList_loop_shape in E as [Ha Hr]; [|assumption|constructor].
  injection H as <- <-. unfold entityShape. simpl. auto.
Qed.

Lemma parseWeakEntity_shape ts e rest :
  Forall namedToken ts -> parseWeakEntity ts = Ok (e, rest) ->
  entityShape e /\ Forall namedToken rest.
Proof.
  intros Hts H. unfold parseWeakEntity in H. do 4 step_named H. step_bind H.
  apply parseAttributeList_loop_shape in E as [Ha Hr]; [|assumption|constructor].
  match type of H with context [check IDENTIFIED ?x] => destruct (check IDENTIFIED x) end.
  - step_named H. step_bind H.
    apply parseIdentifiedByList_shape in E as [Ht Hr']; [|assumption].
    injection H as <- <-. unfold entityShape. simpl. auto.
  - injection H as <- <-. unfold entityShape. simpl. auto.
Qed.

Lemma parseRelationAttributeList_loop_shape fuel : forall ts acc attrs rest,
  Forall namedToken ts -> Forall namedPlain acc ->
  parseRelationAttributeList_loop fuel ts acc = Ok (attrs, rest) ->
  Forall namedPlain attrs /\ Forall namedToken rest.
Proof.
  induction fuel as [|fuel IH]; intros ts acc attrs rest Hts Hacc H; [discriminate|].
  simpl in H.
  destruct (negb (isAtEnd ts) && negb (isEntityOrRelationStart ts) && check IDENTIFIER ts).
  - step_named H. eapply IH in H; eauto.
    apply Forall_app. split; [assumption|]. constructor; [|constructor].
    split; [reflexivity|]. simpl. auto.
  - injection H as <- <-. auto.
Qed.

Lemma parseCardinality_named ts c rest :
  Forall namedToken ts -> parseCardinality ts = Ok (c, rest) -> Forall namedToken rest.
Proof.
  intros Hts H. apply parseCardinality_Ok in H as (t & -> & _).
  apply Forall_cons_iff in Hts. tauto.
Qed.

Lemma parseOptionalParticipation_named ts p rest :
  Forall namedToken ts -> parseOptionalParticipation ts = Ok (p, rest) ->
  Forall namedToken rest.
Proof.
  intros Hts H. unfold parseOptionalParticipation, parseParticipation in H.
  destruct (check COMMA ts); [|injection H as <- <-; assumption].
  destruct (check TOTAL _); [injection H as <- <-; auto using advance_named|].
  destruct (check PARTIAL _); [injection H as <- <-; auto using advance_named|].
  discriminate.
Qed.

(** [step_side H]: the next call of the sequence [H] reads a cardinality or a
    participation. *)
Ltac step_side H :=
  let p := fresh "p" in
  let E := fresh "E" in
  apply bind_Ok in H as (p & E & H); destruct p; cbv beta iota in H;
  match type of E with
  | parseCardinality _ = _ => eapply parseCardinality_named in E; [|eassumption]
  | parseOptionalParticipation _ = _ =>
      eapply parseOptionalParticipation_named in E; [|eassumption]
  end.

Lemma parseRelation_shape ts r rest :
  Forall namedToken ts -> parseRelation ts = Ok (r, rest) ->
  relationshipShape r /\ Forall namedToken rest.
Proof.
  intros Hts H. unfold parseRelation in H.
  do 3 step_named H. do 2 step_side H. do 3 step_named H. do 2 step_side H.
  do 4 step_named H.
  apply bind_Ok in H as ([attrs l'] & Hrun & H). cbv beta iota in H.
  apply parseRelationAttributeList_loop_shape in Hrun as [Ha Hr];
    [|assumption|constructor].
  injection H as <- <-. unfold relationshipShape. simpl.
  repeat split; auto; discriminate.
Qed.

Lemma parseIdentifyingRelation_named ts r rest :
  Forall namedToken ts -> parseIdentifyingRelation ts = Ok (r, rest) ->
  relationshipShape r /\ Forall namedToken rest.
Proof.
  intros Hts H. unfold parseIdentifyingRelation in H.
  do 4 step_named H. step_side H. do 3 step_named H. step_side H. do 4 step_named H.
  injection H as <- <-. unfold relationshipShape, bothTotal. simpl.
  repeat split; auto.
Qed.

Lemma parse_loop_shape fuel : forall ts ents rels ast,
  Forall namedToken ts -> Forall entityShape ents -> Forall relationshipShape rels ->
  parse_loop fuel ts ents rels = Ok ast -> astShape ast.
Proof.
  induction fuel as [|fuel IH]; intros ts ents rels ast Hts He Hr H; [discriminate|].
  simpl in H. destruct (negb (isAtEnd ts)).
  - destruct (check ENTITY ts).
    { step_bind H. apply parseEntity_shape in E as [? ?]; [|assumption].
      eapply IH in H; eauto. apply Forall_app. split; [assumption|]. constructor; auto. }
    destruct (check WEAK ts).
    { step_bind H. apply parseWeakEntity_shape in E as [? ?]; [|assumption].
      eapply IH in H; eauto. apply Forall_app. split; [assumption|]. constructor; auto. }
    destruct (check RELATION ts).
    { step_bind H. apply parseRelation_shape in E as [? ?]; [|assumption].
      eapply IH in H; eauto. apply Forall_app. split; [assumption|]. constructor; auto. }
    destruct (check IDENTIFYING ts).
    { step_bind H. apply parseIdentifyingRelation_named in E as [? ?]; [|assumption].
      eapply IH in H; eauto. apply Forall_app. split; [assumption|]. constructor; auto. }
    eapply IH in H; eauto using advance_named.
  - injection H as <-. split; assumption.
Qed.

(** Every AST that [parseDSL] returns has the shape of [astShape]. *)
Lemma parseDSL_shape s ast : parseDSL s = Ok ast -> astShape ast.
Proof.
  intros H. unfold parseDSL, parse in H.
  eapply parse_loop_shape in H; eauto using tokenize_named.
Qed.

(** ** The round trip *)

(** C1 (amended). Round trip: for every document D that [parseDSL] accepts,
    with AST [ast], in which every foreign-key attribute of an entity names
    its target and every attribute that comes right after a composite
    attribute of an entity is one printed with PK, FK, Composite, Multivalued
    or Derived after its name, parsing the text that [generateDSL] prints for
    [ast] returns [ast] again: parse(print(parse(D))) = parse(D).  The
    participation that D leaves out is 'partial' in [ast] already. *)
Theorem C1_round_trip (D : jsstring) (ast : ERDiagramAST) :
  parseDSL D = Ok ast -> roundTrips ast -> parseDSL (generateDSL ast) = Ok ast.
Proof.
  intros Hparse Hround. apply parse_generateDSL; [|exact Hround].
  exact (parseDSL_shape D ast Hparse).
Qed.

Lemma C1_witness :
  parseDSL sampleDSL = Ok sampleAST /\ roundTrips sampleAST
  /\ parseDSL (generateDSL sampleAST) = Ok sampleAST.
Proof.
  assert (H1 : parseDSL sampleDSL = Ok sampleAST) by (vm_compute; reflexivity).
  assert (H2 : roundTrips sampleAST)
    by (repeat (apply List.Forall_cons; [split; vm_compute; reflexivity|]);
        apply List.Forall_nil).
  split; [exact H1|]. split; [exact H2|].
  exact (C1_round_trip sampleDSL sampleAST H1 H2).
Defined.

Lemma C1_counterexample :
  parseDSL typedAfterComposite = Ok typedAfterCompositeAST
  /\ generateDSL typedAfterCompositeAST = typedAfterCompositePrinted
  /\ parseDSL typedAfterCompositePrinted = Ok typedAfterCompositeReparsed
  /\ typedAfterCompositeReparsed <> typedAfterCompositeAST
  /\ ~ (forall D ast, parseDSL D = Ok ast -> parseDSL (generateDSL ast) = Ok ast).
Proof.
  assert (H1 : parseDSL typedAfterComposite = Ok typedAfterCompositeAST)
    by (vm_compute; reflexivity).
  assert (H2 : generateDSL typedAfterCompositeAST = typedAfterCompositePrinted)
    by (vm_compute; reflexivity).
  assert (H3 : parseDSL typedAfterCompositePrinted = Ok typedAfterCompositeReparsed)
    by (vm_compute; reflexivity).
  assert (H4 : typedAfterCompositeReparsed <> typedAfterCompositeAST) by discriminate.
  split; [exact H1|]. split; [exact H2|]. split; [exact H3|]. split; [exact H4|].
  intros H. specialize (H _ _ H1). rewrite H2, H3 in H.
  apply H4. congruence.
Qed.

(** ** The parser reads types and values only *)

Lemma sameTokens_length ts1 ts2 : sameTokens ts1 ts2 -> length ts1 = length ts2.
Proof. intros H. apply (f_equal (@length _)) in H. rewrite !length_map in H. exact H. Qed.

Lemma sameTokens_current ts1 ts2 :
  sameTokens ts1 ts2 -> tv (current ts1) = tv (current ts2).
Proof.
  unfold sameTokens. destruct ts1 as [|t1 ts1], ts2 as [|t2 ts2]; cbn [List.map current];
    try discriminate; [reflexivity|]. intros H. unfold tv in *. congruence.
Qed.

Lemma sameTokens_headType ts1 ts2 :
  sameTokens ts1 ts2 -> tok_type (current ts1) = tok_type (current ts2).
Proof. intros H. apply sameTokens_current in H. unfold tv in H. congruence. Qed.

Lemma same_isAtEnd ts1 ts2 : sameTokens ts1 ts2 -> isAtEnd ts1 = isAtEnd ts2.
Proof. intros H. unfold isAtEnd. rewrite (sameTokens_headType _ _ H). reflexivity. Qed.

Lemma same_check ty ts1 ts2 : sameTokens ts1 ts2 -> check ty ts1 = check ty ts2.
Proof.
  intros H. unfold check. rewrite (same_isAtEnd _ _ H), (sameTokens_headType _ _ H).
  reflexivity.
Qed.

Lemma same_start ts1 ts2 :
  sameTokens ts1 ts2 -> isEntityOrRelationStart ts1 = isEntityOrRelationStart ts2.
Proof.
  intros H. unfold isEntityOrRelationStart.
  rewrite !(same_check _ _ _ H). reflexivity.
Qed.

Lemma sameTokens_tl ts1 ts2 : sameTokens ts1 ts2 -> sameTokens (tl ts1) (tl ts2).
Proof.
  unfold sameTokens. destruct ts1, ts2; cbn [List.map tl]; try discriminate; auto.
  intros H. congruence.
Qed.

Lemma same_advance ts1 ts2 :
  sameTokens ts1 ts2 -> sameTokens (advance ts1) (advance ts2).
Proof.
  intros H. unfold advance. rewrite (same_isAtEnd _ _ H).
  destruct (isAtEnd ts2); [exact H|apply sameTokens_tl, H].
Qed.

Lemma same_followedByMarker ts1 ts2 :
  sameTokens ts1 ts2 -> followedByMarker ts1 = followedByMarker ts2.
Proof.
  intros H. unfold followedByMarker, peek.
  apply sameTokens_tl in H. unfold sameTokens in H.
  destruct ts1 as [|a1 [|b1 ts1]], ts2 as [|a2 [|b2 ts2]]; cbn [List.map tl nth_error] in *;
    try discriminate; try reflexivity.
  assert (E : tok_type b1 = tok_type b2) by (unfold tv in H; congruence).
  rewrite E. reflexivity.
Qed.

Lemma same_expect ty ts1 ts2 :
  sameTokens ts1 ts2 ->
  sameOutcome (fun t1 t2 => tv t1 = tv t2) (expect ty ts1) (expect ty ts2).
Proof.
  intros H. unfold expect. rewrite (same_check _ _ _ H).
  destruct (check ty ts2); simpl; [|exact I].
  split; [apply sameTokens_current, H|apply same_advance, H].
Qed.

Lemma sameOutcome_bind {A B} (R : A -> A -> Prop) (R' : B -> B -> Prop) r1 r2
    (k1 k2 : A * list Token -> Result (B * list Token)) :
  sameOutcome R r1 r2 ->
  (forall a1 a2 rest1 rest2,
      R a1 a2 -> sameTokens rest1 rest2 -> sameOutcome R' (k1 (a1, rest1)) (k2 (a2, rest2))) ->
  sameOutcome R' (r1 ≫= k1) (r2 ≫= k2).
Proof.
  destruct r1 as [[a1 rest1]| |], r2 as [[a2 rest2]| |]; simpl; try tauto.
  intros [Ha Hr] Hk. apply Hk; assumption.
Qed.

Lemma sameOutcome_Ok {A} (R : A -> A -> Prop) a1 a2 rest1 rest2 :
  R a1 a2 -> sameTokens rest1 rest2 -> sameOutcome R (Ok (a1, rest1)) (Ok (a2, rest2)).
Proof. simpl. auto. Qed.

(** [same_step]: one call, or one test, of two runs of the same function on
    the same tokens. *)
Ltac same_values :=
  repeat match goal with
    | H : tv ?t1 = tv ?t2 |- _ =>
        let Hv := fresh "Hv" in
        assert (Hv : value t1 = value t2) by (unfold tv in H; congruence);
        rewrite ?Hv; clear H Hv
    end.

Ltac same_tokens :=
  first [ assumption | apply same_advance; same_tokens ].

Ltac same_step :=
  match goal with
  | |- sameOutcome _ (Ok _) (Ok _) =>
      apply sameOutcome_Ok; [same_values; reflexivity | same_tokens]
  | |- sameOutcome _ (Throw _) (Throw _) => exact I
  | |- sameOutcome _ (if check ?ty ?a then _ else _) (if check ?ty ?b then _ else _) =>
      rewrite (same_check ty a b) by same_tokens; destruct (check ty b)
  | |- sameOutcome _ (expect ?ty ?a ≫= _) (expect ?ty ?b ≫= _) =>
      eapply sameOutcome_bind;
      [ apply same_expect; same_tokens | intros ? ? ? ? ? ?; cbv beta iota in * ]
  end.

Lemma same_parseCardinality ts1 ts2 :
  sameTokens ts1 ts2 -> sameOutcome eq (parseCardinality ts1) (parseCardinality ts2).
Proof. intros H. unfold parseCardinality. repeat same_step. Qed.

Lemma same_parseParticipation ts1 ts2 :
  sameTokens ts1 ts2 -> sameOutcome eq (parseParticipation ts1) (parseParticipation ts2).
Proof. intros H. unfold parseParticipation. repeat same_step. Qed.

Lemma same_parseOptionalParticipation ts1 ts2 :
  sameTokens ts1 ts2 ->
  sameOutcome eq (parseOptionalParticipation ts1) (parseOptionalParticipation ts2).
Proof.
  intros H. unfold parseOptionalParticipation. same_step.
  - apply same_parseParticipation, same_advance, H.
  - same_step.
Qed.

Lemma same_parseFkTarget ts1 ts2 :
  sameTokens ts1 ts2 -> sameOutcome eq (parseFkTarget ts1) (parseFkTarget ts2).
Proof. intros H. unfold parseFkTarget. repeat same_step. Qed.

(** [same_tests a b H]: the tests of the cursor agree on [a] and [b]. *)
Ltac same_tests a b H :=
  rewrite ?(same_isAtEnd a b H), ?(same_start a b H), ?(same_followedByMarker a b H),
    ?(same_check _ a b H).

Ltac same_if :=
  match goal with
  | |- sameOutcome _ (if ?c then _ else _) (if ?c then _ else _) => destruct c
  | |- sameAST (if ?c then _ else _) (if ?c then _ else _) => destruct c
  end.

Lemma same_parseSubAttributeList_loop fuel : forall ts1 ts2 acc,
  sameTokens ts1 ts2 ->
  sameOutcome eq (parseSubAttributeList_loop fuel ts1 acc)
    (parseSubAttributeList_loop fuel ts2 acc).
Proof.
  induction fuel as [|fuel IH]; intros ts1 ts2 acc H; [exact I|].
  cbn [parseSubAttributeList_loop]. same_tests ts1 ts2 H.
  same_if; [|same_step]. same_if; [same_step|]. same_step.
  same_values.
  match goal with
  | Hs : sameTokens ?a ?b |- _ => same_tests a b Hs
  end.
  same_if; [same_step|]. apply IH. assumption.
Qed.

Lemma same_parseSubAttributeList ts1 ts2 :
  sameTokens ts1 ts2 ->
  sameOutcome eq (parseSubAttributeList ts1) (parseSubAttributeList ts2).
Proof.
  intros H. unfold parseSubAttributeList. rewrite (sameTokens_length _ _ H).
  apply same_parseSubAttributeList_loop, H.
Qed.

Lemma same_parseAttribute ts1 ts2 :
  sameTokens ts1 ts2 -> sameOutcome eq (parseAttribute ts1) (parseAttribute ts2).
Proof.
  intros H. unfold parseAttribute. same_step. same_values.
  match goal with
  | Hs : sameTokens ?a ?b |- _ =>
      same_tests a b Hs; rewrite ?(same_check ARROW (advance a) (advance b))
        by (apply same_advance, Hs)
  end.
  same_if; [same_step|]. same_if.
  { same_if.
    - eapply sameOutcome_bind; [apply same_parseFkTarget; repeat apply same_advance; eauto|].
      intros ? ? ? ? -> ?. cbv beta iota. same_step.
    - same_step. }
  same_if.
  { same_step. eapply sameOutcome_bind; [apply same_parseSubAttributeList; assumption|].
    intros ? ? ? ? -> ?. cbv beta iota. same_step. }
  same_if; [same_step|]. same_if; [same_step|]. same_if; [|same_step].
  repeat same_step.
Qed.

Lemma same_parseAttributeList_loop fuel : forall ts1 ts2 acc,
  sameTokens ts1 ts2 ->
  sameOutcome eq (parseAttributeList_loop fuel ts1 acc) (parseAttributeList_loop fuel ts2 acc).
Proof.
  induction fuel as [|fuel IH]; intros ts1 ts2 acc H; [exact I|].
  cbn [parseAttributeList_loop]. same_tests ts1 ts2 H.
  same_if; [|same_step]. same_if.
  - eapply sameOutcome_bind; [apply same_parseAttribute, H|].
    intros ? ? ? ? -> ?. cbv beta iota. apply IH. assumption.
  - same_if; [same_step|]. apply IH, same_advance, H.
Qed.

Lemma same_parseAttributeList ts1 ts2 :
  sameTokens ts1 ts2 -> sameOutcome eq (parseAttributeList ts1) (parseAttributeList ts2).
Proof.
  intros H. unfold parseAttributeList. rewrite (sameTokens_length _ _ H).
  apply same_parseAttributeList_loop, H.
Qed.

Lemma same_parseIdentifiedByList_loop fuel : forall ts1 ts2 acc,
  sameTokens ts1 ts2 ->
  sameOutcome eq (parseIdentifiedByList_loop fuel ts1 acc)
    (parseIdentifiedByList_loop fuel ts2 acc).
Proof.
  induction fuel as [|fuel IH]; intros ts1 ts2 acc H; [exact I|].
  cbn [parseIdentifiedByList_loop]. same_tests ts1 ts2 H. same_if; [|same_step].
  eapply sameOutcome_bind; [apply same_parseFkTarget, same_advance, H|].
  intros ? ? ? ? -> ?. cbv beta iota. apply IH. assumption.
Qed.

Lemma same_parseIdentifiedByList ts1 ts2 :
  sameTokens ts1 ts2 ->
  sameOutcome eq (parseIdentifiedByList ts1) (parseIdentifiedByList ts2).
Proof.
  intros H. unfold parseIdentifiedByList.
  eapply sameOutcome_bind; [apply same_parseFkTarget, H|].
  intros ? ? ? ? -> Hs. cbv beta iota. rewrite (sameTokens_length _ _ Hs).
  apply same_parseIdentifiedByList_loop, Hs.
Qed.

Lemma same_parseRelationAttributeList_loop fuel : forall ts1 ts2 acc,
  sameTokens ts1 ts2 ->
  sameOutcome eq (parseRelationAttributeList_loop fuel ts1 acc)
    (parseRelationAttributeList_loop fuel ts2 acc).
Proof.
  induction fuel as [|fuel IH]; intros ts1 ts2 acc H; [exact I|].
  cbn [parseRelationAttributeList_loop]. same_tests ts1 ts2 H. same_if; [|same_step].
  same_step. same_values. apply IH. assumption.
Qed.

Lemma same_parseRelationAttributeList ts1 ts2 :
  sameTokens ts1 ts2 ->
  sameOutcome eq (parseRelationAttributeList ts1) (parseRelationAttributeList ts2).
Proof.
  intros H. unfold parseRelationAttributeList. rewrite (sameTokens_length _ _ H).
  apply same_parseRelationAttributeList_loop, H.
Qed.

(** [same_call]: a call of a function that is known to read types and values
    only. *)
Ltac same_call :=
  first
    [ same_step
    | eapply sameOutcome_bind;
      [ first [ apply same_parseCardinality | apply same_parseOptionalParticipation
              | apply same_parseAttributeList | apply same_parseRelationAttributeList
              | apply same_parseIdentifiedByList ]; same_tokens
      | intros ? ? ? ? -> ?; cbv beta iota in * ] ].

Lemma same_parseEntity ts1 ts2 :
  sameTokens ts1 ts2 -> sameOutcome eq (parseEntity ts1) (parseEntity ts2).
Proof. intros H. unfold parseEntity. repeat same_call. Qed.

Lemma same_parseWeakEntity ts1 ts2 :
  sameTokens ts1 ts2 -> sameOutcome eq (parseWeakEntity ts1) (parseWeakEntity ts2).
Proof. intros H. unfold parseWeakEntity. repeat same_call. Qed.

Lemma same_parseRelation ts1 ts2 :
  sameTokens ts1 ts2 -> sameOutcome eq (parseRelation ts1) (parseRelation ts2).
Proof. intros H. unfold parseRelation. repeat same_call. Qed.

Lemma same_parseIdentifyingRelation ts1 ts2 :
  sameTokens ts1 ts2 ->
  sameOutcome eq (parseIdentifyingRelation ts1) (parseIdentifyingRelation ts2).
Proof. intros H. unfold parseIdentifyingRelation. repeat same_call. Qed.

Lemma sameAST_bind {A} r1 r2 (k1 k2 : A * list Token -> Result ERDiagramAST) :
  sameOutcome eq r1 r2 ->
  (forall a rest1 rest2, sameTokens rest1 rest2 -> sameAST (k1 (a, rest1)) (k2 (a, rest2))) ->
  sameAST (r1 ≫= k1) (r2 ≫= k2).
Proof.
  destruct r1 as [[a1 rest1]| |], r2 as [[a2 rest2]| |]; simpl; try tauto.
  intros [-> Hr] Hk. apply Hk; assumption.
Qed.

Lemma same_parse_loop fuel : forall ts1 ts2 ents rels,
  sameTokens ts1 ts2 -> sameAST (parse_loop fuel ts1 ents rels) (parse_loop fuel ts2 ents rels).
Proof.
  induction fuel as [|fuel IH]; intros ts1 ts2 ents rels H; [exact I|].
  cbn [parse_loop]. same_tests ts1 ts2 H.
  same_if; [|reflexivity].
  same_if. { eapply sameAST_bind; [apply same_parseEntity, H|]. intros. apply IH. assumption. }
  same_if. { eapply sameAST_bind; [apply same_parseWeakEntity, H|]. intros. apply IH. assumption. }
  same_if. { eapply sameAST_bind; [apply same_parseRelation, H|]. intros. apply IH. assumption. }
  same_if.
  { eapply sameAST_bind; [apply same_parseIdentifyingRelation, H|]. intros. apply IH. assumption. }
  apply IH, same_advance, H.
Qed.

Lemma same_parse ts1 ts2 : sameTokens ts1 ts2 -> sameAST (parse ts1) (parse ts2).
Proof.
  intros H. unfold parse. rewrite (sameTokens_length _ _ H). apply same_parse_loop, H.
Qed.

(** ** Further properties of the tokenizer and the parser *)

(** X1. [parseDSL] reads the types and the values of the tokens and nothing
    else: two documents whose tokens agree in type and value, whatever their
    lines and columns, are both parsed to the same AST or both rejected.
    Indentation, line breaks and comments matter only through the tokens. *)
Theorem X1_parse_reads_types_and_values (s1 s2 : jsstring) :
  List.map tv (tokenize s1) = List.map tv (tokenize s2) ->
  (forall ast, parseDSL s1 = Ok ast <-> parseDSL s2 = Ok ast)
  /\ ((exists m, parseDSL s1 = Throw m) <-> (exists m, parseDSL s2 = Throw m)).
Proof.
  intros H. pose proof (same_parse (tokenize s1) (tokenize s2) H) as Hsame.
  unfold parseDSL. destruct (parse (tokenize s1)) as [a1|m1|], (parse (tokenize s2)) as [a2|m2|];
    simpl in Hsame; try contradiction.
  - subst a2. split; [tauto|]. split; intros [m Hm]; discriminate.
  - split; [split; discriminate|]. split; eauto.
  - split; [split; discriminate|]. split; intros [m Hm]; discriminate.
Qed.

Lemma X1_witness :
  List.map tv (tokenize sellsOneLine) = List.map tv (tokenize sellsDocument)
  /\ parseDSL sellsOneLine = Ok sellsAST.
Proof.
  assert (H : List.map tv (tokenize sellsOneLine) = List.map tv (tokenize sellsDocument))
    by (vm_compute; reflexivity).
  split; [exact H|].
  apply (proj1 (X1_parse_reads_types_and_values sellsOneLine sellsDocument H) sellsAST).
  vm_compute. reflexivity.
Defined.

Lemma lexStep_not_EOF (c : N) (r : list N) :
  Forall (fun x => x.1 <> EOF) (lexStep c (c :: r)).1.
Proof.
  unfold lexStep.
  destruct (c =? c_lf); [constructor|].
  destruct (isLetter c).
  { destruct (readWhile isWordChar (c :: r)) as [v r']. simpl.
    constructor; [|constructor]. simpl. unfold keywordType.
    destruct (assoc v keywords) eqn:E.
    - unfold keywords in E. simpl in E.
      repeat match type of E with
        | (if ?b then _ else _) = _ => destruct b; [injection E as <-; discriminate|]
        end.
      discriminate.
    - destruct (existsb _ _); discriminate. }
  destruct (isDigit c).
  { destruct (readWhile isDigit (c :: r)) as [v r']. simpl.
    constructor; [|constructor]. destruct (jsstring_eqb v (str "1")); discriminate. }
  repeat match goal with
    | |- context [if ?b then _ else _] => destruct b
    end; simpl; repeat constructor; simpl; discriminate.
Qed.

Lemma lexFuel_not_EOF fuel : forall s, Forall (fun x => x.1 <> EOF) (lexFuel fuel s).
Proof.
  induction fuel as [|fuel IH]; intros s; simpl; [constructor|].
  destruct (skipped s) as [|c r]; [constructor|].
  apply Forall_app. split; [apply lexStep_not_EOF|apply IH].
Qed.

Lemma tokenize_loop_not_EOF s :
  Forall (fun t => tok_type t <> EOF)
    (tokens (tokenize_loop (S (length s))
               {| input := s; cur_line := 1; cur_column := 1; tokens := [] |})).
Proof.
  pose proof (tokenize_loop_lexFuel (S (length s))
                {| input := s; cur_line := 1; cur_column := 1; tokens := [] |}) as H.
  cbn [tokens List.map app input] in H.
  pose proof (lexFuel_not_EOF (S (length s)) s) as Hn. rewrite <- H in Hn.
  rewrite List.Forall_map in Hn. exact Hn.
Qed.

Lemma tokenize_endsWithEOF s : endsWithEOF (tokenize s).
Proof.
  unfold tokenize. eexists _, _. split; [reflexivity|]. split; [reflexivity|].
  apply tokenize_loop_not_EOF.
Qed.

(** X2. The token list that [tokenize] returns ends with an EOF token whose
    value is empty, and that is its only EOF token. *)
Theorem X2_tokenize_ends_with_EOF (s : jsstring) :
  exists ts eof,
    tokenize s = ts ++ [eof]
    /\ tok_type eof = EOF /\ value eof = []
    /\ Forall (fun t => tok_type t <> EOF) ts.
Proof.
  unfold tokenize. eexists _, _. split; [reflexivity|]. split; [reflexivity|].
  split; [reflexivity|]. apply tokenize_loop_not_EOF.
Qed.

(** X3. Every loop of the parser comes to an end: each turn of a loop of
    [parse], [parseAttributeList], [parseSubAttributeList],
    [parseRelationAttributeList] and [parseIdentifiedByList] consumes a token
    or leaves the loop, so that on every document [parseDSL] either returns
    an AST or throws an error. *)
Theorem X3_parseDSL_returns_or_throws (s : jsstring) :
  (exists ast, parseDSL s = Ok ast) \/ (exists message, parseDSL s = Throw message).
Proof.
  pose proof (parse_never_OutOfFuel s) as H.
  destruct (parseDSL s) as [ast|m|]; [left|right|]; eauto. contradiction.
Qed.

(** X4. A document made of white space only, the empty document included, is
    accepted: [parseDSL] returns the AST with no entity and no relationship. *)
Theorem X4_blank_document (s : jsstring) :
  forallb isTrimmed s = true -> parseDSL s = Ok emptyAST.
Proof.
  intros H. pose proof (tokenize_lexemes s) as Ht.
  rewrite (lexemes_all_trimmed s H) in Ht. cbn [app] in Ht.
  unfold parseDSL, parse.
  destruct (tokenize s) as [|eof [|t ts]]; try discriminate.
  cbn [List.map] in Ht. injection Ht as Ht. unfold tv in Ht.
  assert (E : tok_type eof = EOF) by congruence.
  cbn [length parse_loop]. unfold isAtEnd. cbn [current]. rewrite E.
  rewrite bool_decide_eq_true_2 by reflexivity. reflexivity.
Qed.

Lemma X4_witness : forallb isTrimmed blankDocument = true /\ parseDSL blankDocument = Ok emptyAST.
Proof.
  split; [reflexivity|]. apply (X4_blank_document blankDocument). reflexivity.
Defined.

(** X5. The shape of every AST that [parseDSL] returns: all names (of
    entities, attributes, sub-attributes, foreign-key targets, data types,
    relationship sides and verbs) are words that are no keyword; a primary or
    foreign key is a simple attribute; sub-attributes are plain attributes
    and only composite attributes have them, always; only typed attributes have a
    data type, always; only weak entities are identified by a list of targets,
    which is then not empty; the name of a relationship is its verb; an
    identifying relationship has no attributes. *)
Theorem X5_parseDSL_shape (s : jsstring) (ast : ERDiagramAST) :
  parseDSL s = Ok ast -> astShape ast.
Proof. apply parseDSL_shape. Qed.

Lemma X5_witness : parseDSL sampleDSL = Ok sampleAST /\ astShape sampleAST.
Proof.
  assert (H : parseDSL sampleDSL = Ok sampleAST) by (vm_compute; reflexivity).
  split; [exact H|]. exact (X5_parseDSL_shape sampleDSL sampleAST H).
Defined.

(** X6. The contract of the printer on ASTs, whether a document was parsed to
    them or not: for every AST of the shape of X5 in which every foreign key of
    an entity names its target and every attribute right after a composite
    attribute is printed with PK, FK, Composite, Multivalued or Derived,
    parsing the text that [generateDSL] prints returns the AST. *)
Theorem X6_parse_after_print (ast : ERDiagramAST) :
  astShape ast -> roundTrips ast -> parseDSL (generateDSL ast) = Ok ast.
Proof. apply parse_generateDSL. Qed.

Lemma X6_witness :
  astShape sellsAST /\ roundTrips sellsAST /\ parseDSL (generateDSL sellsAST) = Ok sellsAST.
Proof.
  assert (H1 : astShape sellsAST).
  { split.
    - repeat (apply List.Forall_cons || apply List.Forall_nil).
      + split; [reflexivity|]. split; [|exact I].
        repeat (apply List.Forall_cons || apply List.Forall_nil).
        split; [reflexivity|]. simpl. auto.
      + split; [reflexivity|]. split; [|exact I].
        repeat (apply List.Forall_cons || apply List.Forall_nil).
        split; [reflexivity|]. simpl. auto.
    - repeat (apply List.Forall_cons || apply List.Forall_nil).
      split; [reflexivity|]. split; [reflexivity|]. split; [reflexivity|].
      split; [reflexivity|]. split; [apply List.Forall_nil|]. discriminate. }
  assert (H2 : roundTrips sellsAST)
    by (repeat (apply List.Forall_cons; [split; vm_compute; reflexivity|]);
        apply List.Forall_nil).
  split; [exact H1|]. split; [exact H2|]. exact (X6_parse_after_print sellsAST H1 H2).
Defined.

(** ** Declarations and keywords *)

Lemma eats_Ok {A} (a : A) ts : eats ts (Ok (a, ts)).
Proof. exists []. split; [reflexivity|constructor]. Qed.

Lemma eats_bind {A B} ts (r : Result (A * list Token))
    (k : A * list Token -> Result (B * list Token)) :
  eats ts r -> (forall a rest, eats rest (k (a, rest))) -> eats ts (r ≫= k).
Proof.
  destruct r as [[a rest]| |]; simpl; auto.
  intros (c1 & -> & H1) Hk. specialize (Hk a rest).
  destruct (k (a, rest)) as [[b rest']| |]; simpl in *; auto.
  destruct Hk as (c2 & -> & H2). exists (c1 ++ c2).
  split; [rewrite app_assoc; reflexivity|]. apply Forall_app. auto.
Qed.

Lemma eats_cons {A} t ts (r : Result (A * list Token)) :
  inert t -> eats ts r -> eats (t :: ts) r.
Proof.
  intros Ht. destruct r as [[a rest]| |]; simpl; auto.
  intros (c & -> & Hc). exists (t :: c). split; [reflexivity|]. constructor; assumption.
Qed.

Lemma eats_expect ty ts : ty <> ENTITY -> ty <> RELATION -> eats ts (expect ty ts).
Proof.
  intros H1 H2. unfold expect. destruct (check ty ts) eqn:E; simpl; [|trivial].
  apply check_true in E as (t & rest & -> & Hty & Hne & ->).
  exists [t]. split; [reflexivity|]. constructor; [|constructor].
  repeat split; congruence.
Qed.

Lemma eats_check_advance {A} ty ts (r : Result (A * list Token)) :
  check ty ts = true -> ty <> ENTITY -> ty <> RELATION ->
  eats (advance ts) r -> eats ts r.
Proof.
  intros E H1 H2. apply check_true in E as (t & rest & -> & Hty & Hne & ->).
  apply eats_cons. repeat split; congruence.
Qed.

Lemma eats_skip {A} ts (r : Result (A * list Token)) :
  isAtEnd ts = false -> isEntityOrRelationStart ts = false ->
  eats (advance ts) r -> eats ts r.
Proof.
  intros He Hs. unfold advance. rewrite He. destruct ts as [|t ts]; [discriminate|].
  simpl. apply eats_cons. unfold isEntityOrRelationStart, check in Hs. rewrite He in Hs.
  simpl in Hs. unfold isAtEnd in He. simpl in He. apply bool_decide_eq_false_1 in He.
  repeat split; try assumption; intros E; rewrite E in Hs; discriminate.
Qed.

(** [eats_step]: the next call, or test, of the function. *)
Ltac eats_step :=
  match goal with
  | |- eats _ (Ok _) => apply eats_Ok
  | |- eats _ (Throw _) => exact I
  | |- eats _ (expect _ _ ≫= _) =>
      apply eats_bind; [apply eats_expect; discriminate|]; intros ? ?; cbv beta iota
  | |- eats ?ts (if check ?ty ?ts then _ else _) =>
      let E := fresh "E" in
      destruct (check ty ts) eqn:E;
      [apply (eats_check_advance ty); [exact E|discriminate|discriminate|]|]
  end.

Lemma eats_parseCardinality ts : eats ts (parseCardinality ts).
Proof. unfold parseCardinality. repeat eats_step. Qed.

Lemma eats_parseOptionalParticipation ts : eats ts (parseOptionalParticipation ts).
Proof. unfold parseOptionalParticipation, parseParticipation. repeat eats_step. Qed.

Lemma eats_parseFkTarget ts : eats ts (parseFkTarget ts).
Proof. unfold parseFkTarget. repeat eats_step. Qed.

Lemma eats_parseSubAttributeList ts : eats ts (parseSubAttributeList ts).
Proof.
  unfold parseSubAttributeList.
  destruct (parseSubAttributeList_loop_spec (S (length ts)) ts [])
    as (consumed & rest & -> & -> & Hids & _); [lia|].
  exists consumed. split; [reflexivity|].
  eapply List.Forall_impl; [|exact Hids]. intros t Ht. repeat split; congruence.
Qed.

Lemma eats_parseAttribute ts : eats ts (parseAttribute ts).
Proof.
  unfold parseAttribute. eats_step. eats_step; [eats_step|].
  eats_step.
  { destruct (check ARROW (advance rest)) eqn:E1; [|eats_step].
    apply (eats_check_advance ARROW); [exact E1|discriminate|discriminate|].
    apply eats_bind; [apply eats_parseFkTarget|]. intros ? ?. eats_step. }
  eats_step.
  { eats_step. apply eats_bind; [apply eats_parseSubAttributeList|]. intros ? ?. eats_step. }
  eats_step; [eats_step|]. eats_step; [eats_step|]. eats_step; repeat eats_step.
Qed.

Lemma eats_parseAttributeList_loop fuel : forall ts acc,
  eats ts (parseAttributeList_loop fuel ts acc).
Proof.
  induction fuel as [|fuel IH]; intros ts acc; [exact I|].
  cbn [parseAttributeList_loop].
  destruct (isAtEnd ts) eqn:Hend; cbn [negb andb]; [eats_step|].
  destruct (isEntityOrRelationStart ts) eqn:Hs; cbn [negb andb]; [eats_step|].
  destruct (check IDENTIFIER ts).
  - apply eats_bind; [apply eats_parseAttribute|]. intros ? ?. apply IH.
  - destruct (check IDENTIFIED ts); [eats_step|]. apply eats_skip; auto.
Qed.

Lemma eats_parseRelationAttributeList_loop fuel : forall ts acc,
  eats ts (parseRelationAttributeList_loop fuel ts acc).
Proof.
  induction fuel as [|fuel IH]; intros ts acc; [exact I|].
  cbn [parseRelationAttributeList_loop].
  destruct (negb (isAtEnd ts) && negb (isEntityOrRelationStart ts) && check IDENTIFIER ts);
    [|eats_step].
  eats_step. apply IH.
Qed.

Lemma eats_parseIdentifiedByList_loop fuel : forall ts acc,
  eats ts (parseIdentifiedByList_loop fuel ts acc).
Proof.
  induction fuel as [|fuel IH]; intros ts acc; [exact I|].
  cbn [parseIdentifiedByList_loop].
  eats_step; [|eats_step].
  apply eats_bind; [apply eats_parseFkTarget|]. intros ? ?. apply IH.
Qed.

Lemma eats_parseIdentifiedByList ts : eats ts (parseIdentifiedByList ts).
Proof.
  unfold parseIdentifiedByList. apply eats_bind; [apply eats_parseFkTarget|].
  intros ? ?. apply eats_parseIdentifiedByList_loop.
Qed.

Ltac eats_call :=
  first
    [ eats_step
    | apply eats_bind;
      [ first [ apply eats_parseCardinality | apply eats_parseOptionalParticipation
              | apply eats_parseAttributeList_loop | apply eats_parseRelationAttributeList_loop
              | apply eats_parseIdentifiedByList ]
      | intros ? ?; cbv beta iota ] ].

(** What a declaration consumes after its keywords. *)
Lemma expect_then_eats {A} ty ts (k : Token * list Token -> Result (A * list Token)) a rest :
  (forall t ts', eats ts' (k (t, ts'))) ->
  expect ty ts ≫= k = Ok (a, rest) ->
  exists t consumed, ts = t :: consumed ++ rest /\ tok_type t = ty /\ Forall inert consumed.
Proof.
  intros Hk H. apply bind_Ok in H as ([t ts'] & E & H).
  apply expect_Ok in E as (-> & Hty & _). specialize (Hk t ts'). rewrite H in Hk.
  destruct Hk as (c & -> & Hc). eauto.
Qed.

Lemma parseEntity_consumed ts e rest :
  parseEntity ts = Ok (e, rest) ->
  exists t consumed, ts = t :: consumed ++ rest /\ tok_type t = ENTITY /\ Forall inert consumed.
Proof.
  unfold parseEntity. apply expect_then_eats. intros t ts'. cbv beta iota.
  repeat eats_call.
Qed.

Lemma parseRelation_consumed ts r rest :
  parseRelation ts = Ok (r, rest) ->
  exists t consumed, ts = t :: consumed ++ rest /\ tok_type t = RELATION /\ Forall inert consumed.
Proof.
  unfold parseRelation. apply expect_then_eats. intros t ts'. cbv beta iota.
  repeat eats_call.
Qed.

Lemma parseWeakEntity_consumed ts e rest :
  parseWeakEntity ts = Ok (e, rest) ->
  exists w t consumed,
    ts = w :: t :: consumed ++ rest /\ tok_type w = WEAK /\ tok_type t = ENTITY
    /\ Forall inert consumed.
Proof.
  unfold parseWeakEntity. intros H. apply bind_Ok in H as ([w ts'] & E & H).
  apply expect_Ok in E as (-> & Hw & _). cbv beta iota in H.
  apply expect_then_eats in H as (t & c & -> & Ht & Hc); [eauto 8|].
  intros t ts''. cbv beta iota. repeat eats_call.
Qed.

Lemma parseIdentifyingRelation_consumed ts r rest :
  parseIdentifyingRelation ts = Ok (r, rest) ->
  exists i t consumed,
    ts = i :: t :: consumed ++ rest /\ tok_type i = IDENTIFYING /\ tok_type t = RELATION
    /\ Forall inert consumed.
Proof.
  unfold parseIdentifyingRelation. intros H. apply bind_Ok in H as ([i ts'] & E & H).
  apply expect_Ok in E as (-> & Hi & _). cbv beta iota in H.
  apply expect_then_eats in H as (t & c & -> & Ht & Hc); [eauto 8|].
  intros t ts''. cbv beta iota. repeat eats_call.
Qed.

Lemma countType_app ty ts1 ts2 :
  countType ty (ts1 ++ ts2) = (countType ty ts1 + countType ty ts2)%nat.
Proof. unfold countType. rewrite List.filter_app, length_app. reflexivity. Qed.

Lemma countType_cons ty t ts :
  countType ty (t :: ts)
  = ((if bool_decide (tok_type t = ty) then 1 else 0) + countType ty ts)%nat.
Proof. unfold countType. simpl. destruct (bool_decide (tok_type t = ty)); reflexivity. Qed.

Lemma countType_inert consumed :
  Forall inert consumed ->
  countType ENTITY consumed = O /\ countType RELATION consumed = O.
Proof.
  induction 1 as [|t ts (H1 & H2 & _) _ [IH1 IH2]]; [split; reflexivity|].
  rewrite !countType_cons, IH1, IH2.
  rewrite !bool_decide_eq_false_2 by assumption. split; reflexivity.
Qed.

Lemma endsWithEOF_at_end ts :
  endsWithEOF ts -> isAtEnd ts = true ->
  countType ENTITY ts = O /\ countType RELATION ts = O.
Proof.
  intros (pre & eof & -> & Heof & Hpre) He. destruct pre as [|t pre].
  - cbn [app]. rewrite !countType_cons, Heof. split; reflexivity.
  - exfalso. apply Forall_cons_iff in Hpre as [Ht _]. unfold isAtEnd in He. simpl in He.
    apply bool_decide_eq_true_1 in He. contradiction.
Qed.

Lemma endsWithEOF_rest consumed rest :
  endsWithEOF (consumed ++ rest) -> Forall (fun t => tok_type t <> EOF) consumed ->
  endsWithEOF rest.
Proof.
  intros (pre & eof & E & Heof & Hpre) Hc.
  apply app_eq_app in E as (l & [[-> E]|[-> ->]]).
  - apply Forall_app in Hc as [_ Hl]. destruct l as [|x l].
    + simpl in E. subst rest. exists [], eof. auto.
    + exfalso. injection E as <- E. apply Forall_cons_iff in Hl as [Hx _]. contradiction.
  - exists l, eof. apply Forall_app in Hpre as [_ Hl]. auto.
Qed.

Lemma endsWithEOF_advance ts : endsWithEOF ts -> endsWithEOF (advance ts).
Proof.
  intros H. unfold advance. destruct (isAtEnd ts) eqn:He; [exact H|].
  destruct ts as [|t ts]; [exact H|]. simpl.
  apply (endsWithEOF_rest [t] ts H). constructor; [|constructor].
  unfold isAtEnd in He. simpl in He. apply bool_decide_eq_false_1 in He. exact He.
Qed.

Lemma inert_not_EOF consumed :
  Forall inert consumed -> Forall (fun t => tok_type t <> EOF) consumed.
Proof. apply List.Forall_impl. intros t (_ & _ & H). exact H. Qed.

Lemma parse_loop_counts fuel : forall ts ents rels ast,
  endsWithEOF ts ->
  parse_loop fuel ts ents rels = Ok ast ->
  length (entities ast) = (length ents + countType ENTITY ts)%nat
  /\ length (relationships ast) = (length rels + countType RELATION ts)%nat.
Proof.
  induction fuel as [|fuel IH]; intros ts ents rels ast Hts H; [discriminate|].
  cbn [parse_loop] in H. destruct (isAtEnd ts) eqn:Hend; cbn [negb] in H.
  { injection H as <-. destruct (endsWithEOF_at_end ts Hts Hend) as [-> ->]. simpl. lia. }
  destruct (check ENTITY ts) eqn:Hce.
  { apply bind_Ok in H as ([e rest] & E & H). cbv beta iota in H.
    apply parseEntity_consumed in E as (t & c & -> & Ht & Hc).
    apply IH in H.
    - rewrite length_app in H. rewrite !countType_cons, !countType_app, Ht.
      destruct (countType_inert c Hc) as [-> ->]. simpl in *. lia.
    - apply (endsWithEOF_rest (t :: c) rest Hts). constructor; [congruence|].
      apply inert_not_EOF, Hc. }
  destruct (check WEAK ts).
  { apply bind_Ok in H as ([e rest] & E & H). cbv beta iota in H.
    apply parseWeakEntity_consumed in E as (w & t & c & -> & Hw & Ht & Hc).
    apply IH in H.
    - rewrite length_app in H. rewrite !countType_cons, !countType_app, Hw, Ht.
      destruct (countType_inert c Hc) as [-> ->]. simpl in *. lia.
    - apply (endsWithEOF_rest (w :: t :: c) rest Hts).
      constructor; [congruence|]. constructor; [congruence|]. apply inert_not_EOF, Hc. }
  destruct (check RELATION ts) eqn:Hcr.
  { apply bind_Ok in H as ([r rest] & E & H). cbv beta iota in H.
    apply parseRelation_consumed in E as (t & c & -> & Ht & Hc).
    apply IH in H.
    - rewrite length_app in H. rewrite !countType_cons, !countType_app, Ht.
      destruct (countType_inert c Hc) as [-> ->]. simpl in *. lia.
    - apply (endsWithEOF_rest (t :: c) rest Hts). constructor; [congruence|].
      apply inert_not_EOF, Hc. }
  destruct (check IDENTIFYING ts) eqn:Hi.
  { apply bind_Ok in H as ([r rest] & E & H). cbv beta iota in H.
    apply parseIdentifyingRelation_consumed in E as (i & t & c & -> & Hit & Ht & Hc).
    apply IH in H.
    - rewrite length_app in H. rewrite !countType_cons, !countType_app, Hit, Ht.
      destruct (countType_inert c Hc) as [-> ->]. simpl in *. lia.
    - apply (endsWithEOF_rest (i :: t :: c) rest Hts).
      constructor; [congruence|]. constructor; [congruence|]. apply inert_not_EOF, Hc. }
  apply IH in H; [|apply endsWithEOF_advance, Hts].
  unfold advance in H. rewrite Hend in H. destruct ts as [|t ts]; [discriminate|].
  cbn [tl] in H. rewrite !countType_cons.
  unfold check in Hce, Hcr. rewrite Hend in Hce, Hcr. cbn [negb andb current] in Hce, Hcr.
  rewrite Hce, Hcr. exact H.
Qed.

(** X7. In a document that [parseDSL] accepts, every keyword Entity starts an
    entity (strong, or weak after the keyword Weak) and every keyword Relation
    a relationship (plain, or identifying after the keyword Identifying): the
    AST has as many entities as the document has Entity tokens and as many
    relationships as it has Relation tokens. *)
Theorem X7_declarations_and_keywords (s : jsstring) (ast : ERDiagramAST) :
  parseDSL s = Ok ast ->
  length (entities ast) = countType ENTITY (tokenize s)
  /\ length (relationships ast) = countType RELATION (tokenize s).
Proof.
  intros H. unfold parseDSL, parse in H. apply parse_loop_counts in H; [exact H|].
  apply tokenize_endsWithEOF.
Qed.

Lemma X7_witness :
  parseDSL sampleDSL = Ok sampleAST
  /\ length (entities sampleAST) = 5%nat /\ countType ENTITY (tokenize sampleDSL) = 5%nat
  /\ length (relationships sampleAST) = 3%nat
  /\ countType RELATION (tokenize sampleDSL) = 3%nat.
Proof.
  assert (H : parseDSL sampleDSL = Ok sampleAST) by (vm_compute; reflexivity).
  destruct (X7_declarations_and_keywords sampleDSL sampleAST H) as [H1 H2].
  split; [exact H|]. split; [reflexivity|]. split; [rewrite <- H1; reflexivity|].
  split; [reflexivity|]. rewrite <- H2. reflexivity.
Defined.

(** ** The errors of the parser *)

Lemma eats_leaves {A} ts (r : Result (A * list Token)) : eats ts r -> leaves ts r.
Proof.
  destruct r as [[a rest]| |]; simpl; auto.
  intros (c & -> & Hc). exists c. split; [reflexivity|]. apply inert_not_EOF, Hc.
Qed.

Lemma leaves_expect ty ts : leaves ts (expect ty ts).
Proof.
  unfold expect. destruct (check ty ts) eqn:E; simpl; [|trivial].
  apply check_true in E as (t & rest & -> & Hty & Hne & ->).
  exists [t]. split; [reflexivity|]. constructor; [congruence|constructor].
Qed.

Lemma endsWithEOF_current ts : endsWithEOF ts -> In (current ts) ts.
Proof. intros (pre & eof & -> & _). destruct pre; simpl; auto. Qed.

Lemma errorAt_suffix m consumed rest : errorAt m rest -> errorAt m (consumed ++ rest).
Proof. intros (t & Hin & H). exists t. split; [apply in_or_app; auto|exact H]. Qed.

Lemma reports_bind {A B} ts (r : Result (A * list Token))
    (k : A * list Token -> Result B) :
  leaves ts r -> reports ts r -> (forall a rest, reports rest (k (a, rest))) ->
  reports ts (r ≫= k).
Proof.
  intros Hl Hr Hk Hts. specialize (Hr Hts).
  destruct r as [[a rest]| |]; simpl in *; auto.
  destruct Hl as (c & -> & Hc). specialize (Hk a rest (endsWithEOF_rest c rest Hts Hc)).
  destruct (k (a, rest)); auto. apply errorAt_suffix, Hk.
Qed.

Lemma reports_expect ty ts : reports ts (expect ty ts).
Proof.
  intros Hts. unfold expect. destruct (check ty ts); [exact I|].
  exists (current ts). split; [apply endsWithEOF_current, Hts|]. right. right.
  exists ty. reflexivity.
Qed.

Lemma reports_advance {A} ts (r : Result A) : reports (advance ts) r -> reports ts r.
Proof.
  intros H Hts. specialize (H (endsWithEOF_advance ts Hts)).
  destruct r; auto. unfold advance in H. destruct (isAtEnd ts); [exact H|].
  destruct ts as [|t ts]; [exact H|]. apply (errorAt_suffix _ [t]), H.
Qed.

Lemma reports_Ok {A} ts (a : A) : reports ts (Ok a).
Proof. intros _. exact I. Qed.

Ltac reports_step :=
  match goal with
  | |- reports _ (Ok _) => apply reports_Ok
  | |- reports _ (expect _ _ ≫= _) =>
      apply reports_bind; [apply leaves_expect|apply reports_expect|];
      intros ? ?; cbv beta iota
  | |- reports ?ts (if check ?ty ?ts then _ else _) =>
      destruct (check ty ts); [try apply reports_advance|]
  end.

Lemma reports_parseCardinality ts : reports ts (parseCardinality ts).
Proof.
  unfold parseCardinality. repeat reports_step. intros Hts.
  exists (current ts). split; [apply endsWithEOF_current, Hts|]. left. reflexivity.
Qed.

Lemma reports_parseParticipation ts : reports ts (parseParticipation ts).
Proof.
  unfold parseParticipation. repeat reports_step. intros Hts.
  exists (current ts). split; [apply endsWithEOF_current, Hts|]. right. left. reflexivity.
Qed.

Lemma reports_parseOptionalParticipation ts : reports ts (parseOptionalParticipation ts).
Proof.
  unfold parseOptionalParticipation. destruct (check COMMA ts); [|apply reports_Ok].
  apply reports_advance, reports_parseParticipation.
Qed.

Lemma reports_parseFkTarget ts : reports ts (parseFkTarget ts).
Proof. unfold parseFkTarget. repeat reports_step. Qed.

Lemma reports_parseSubAttributeList ts : reports ts (parseSubAttributeList ts).
Proof.
  unfold parseSubAttributeList.
  destruct (parseSubAttributeList_loop_spec (S (length ts)) ts [])
    as (consumed & rest & _ & -> & _); [lia|].
  apply reports_Ok.
Qed.

Lemma reports_parseAttribute ts : reports ts (parseAttribute ts).
Proof.
  unfold parseAttribute. reports_step. reports_step; [reports_step|].
  destruct (check FK rest).
  { apply reports_advance. destruct (check ARROW (advance rest)); [|reports_step].
    apply reports_advance. apply reports_bind;
      [apply eats_leaves, eats_parseFkTarget|apply reports_parseFkTarget|].
    intros ? ?. reports_step. }
  destruct (check COMPOSITE rest).
  { apply reports_advance. reports_step.
    apply reports_bind;
      [apply eats_leaves, eats_parseSubAttributeList|apply reports_parseSubAttributeList|].
    intros ? ?. reports_step. }
  reports_step; [reports_step|]. reports_step; [reports_step|].
  reports_step; repeat reports_step.
Qed.

Lemma reports_parseAttributeList_loop fuel : forall ts acc,
  reports ts (parseAttributeList_loop fuel ts acc).
Proof.
  induction fuel as [|fuel IH]; intros ts acc; [intros _; exact I|].
  cbn [parseAttributeList_loop].
  destruct (negb (isAtEnd ts) && negb (isEntityOrRelationStart ts)); [|reports_step].
  destruct (check IDENTIFIER ts).
  - apply reports_bind; [apply eats_leaves, eats_parseAttribute|apply reports_parseAttribute|].
    intros ? ?. apply IH.
  - destruct (check IDENTIFIED ts); [reports_step|]. apply reports_advance, IH.
Qed.

Lemma reports_parseRelationAttributeList_loop fuel : forall ts acc,
  reports ts (parseRelationAttributeList_loop fuel ts acc).
Proof.
  induction fuel as [|fuel IH]; intros ts acc; [intros _; exact I|].
  cbn [parseRelationAttributeList_loop].
  destruct (negb (isAtEnd ts) && negb (isEntityOrRelationStart ts) && check IDENTIFIER ts);
    [|reports_step].
  reports_step. apply IH.
Qed.

Lemma reports_parseIdentifiedByList_loop fuel : forall ts acc,
  reports ts (parseIdentifiedByList_loop fuel ts acc).
Proof.
  induction fuel as [|fuel IH]; intros ts acc; [intros _; exact I|].
  cbn [parseIdentifiedByList_loop]. destruct (check PLUS ts); [|reports_step].
  apply reports_advance.
  apply reports_bind; [apply eats_leaves, eats_parseFkTarget|apply reports_parseFkTarget|].
  intros ? ?. apply IH.
Qed.

Lemma reports_parseIdentifiedByList ts : reports ts (parseIdentifiedByList ts).
Proof.
  unfold parseIdentifiedByList.
  apply reports_bind; [apply eats_leaves, eats_parseFkTarget|apply reports_parseFkTarget|].
  intros ? ?. apply reports_parseIdentifiedByList_loop.
Qed.

Ltac reports_call :=
  first
    [ reports_step
    | apply reports_bind;
      [ apply eats_leaves;
        first [ apply eats_parseCardinality | apply eats_parseOptionalParticipation
              | apply eats_parseAttributeList_loop
              | apply eats_parseRelationAttributeList_loop
              | apply eats_parseIdentifiedByList ]
      | first [ apply reports_parseCardinality | apply reports_parseOptionalParticipation
              | apply reports_parseAttributeList_loop
              | apply reports_parseRelationAttributeList_loop
              | apply reports_parseIdentifiedByList ]
      | intros ? ?; cbv beta iota ] ].

Lemma reports_parseEntity ts : reports ts (parseEntity ts).
Proof. unfold parseEntity. repeat reports_call. Qed.

Lemma reports_parseWeakEntity ts : reports ts (parseWeakEntity ts).
Proof. unfold parseWeakEntity. repeat reports_call. Qed.

Lemma reports_parseRelation ts : reports ts (parseRelation ts).
Proof. unfold parseRelation. repeat reports_call. Qed.

Lemma reports_parseIdentifyingRelation ts : reports ts (parseIdentifyingRelation ts).
Proof. unfold parseIdentifyingRelation. repeat reports_call. Qed.

Lemma leaves_parseEntity ts : leaves ts (parseEntity ts).
Proof.
  destruct (parseEntity ts) as [[e rest]| |] eqn:E; simpl; auto.
  apply parseEntity_consumed in E as (t & c & -> & Ht & Hc).
  exists (t :: c). split; [reflexivity|]. constructor; [congruence|apply inert_not_EOF, Hc].
Qed.

Lemma leaves_parseWeakEntity ts : leaves ts (parseWeakEntity ts).
Proof.
  destruct (parseWeakEntity ts) as [[e rest]| |] eqn:E; simpl; auto.
  apply parseWeakEntity_consumed in E as (w & t & c & -> & Hw & Ht & Hc).
  exists (w :: t :: c). split; [reflexivity|].
  constructor; [congruence|]. constructor; [congruence|apply inert_not_EOF, Hc].
Qed.

Lemma leaves_parseRelation ts : leaves ts (parseRelation ts).
Proof.
  destruct (parseRelation ts) as [[e rest]| |] eqn:E; simpl; auto.
  apply parseRelation_consumed in E as (t & c & -> & Ht & Hc).
  exists (t :: c). split; [reflexivity|]. constructor; [congruence|apply inert_not_EOF, Hc].
Qed.

Lemma leaves_parseIdentifyingRelation ts : leaves ts (parseIdentifyingRelation ts).
Proof.
  destruct (parseIdentifyingRelation ts) as [[e rest]| |] eqn:E; simpl; auto.
  apply parseIdentifyingRelation_consumed in E as (w & t & c & -> & Hw & Ht & Hc).
  exists (w :: t :: c). split; [reflexivity|].
  constructor; [congruence|]. constructor; [congruence|apply inert_not_EOF, Hc].
Qed.

Lemma reports_parse_loop fuel : forall ts ents rels,
  reports ts (parse_loop fuel ts ents rels).
Proof.
  induction fuel as [|fuel IH]; intros ts ents rels; [intros _; exact I|].
  cbn [parse_loop]. destruct (negb (isAtEnd ts)); [|apply reports_Ok].
  destruct (check ENTITY ts).
  { apply reports_bind; [apply leaves_parseEntity|apply reports_parseEntity|].
    intros ? ?. apply IH. }
  destruct (check WEAK ts).
  { apply reports_bind; [apply leaves_parseWeakEntity|apply reports_parseWeakEntity|].
    intros ? ?. apply IH. }
  destruct (check RELATION ts).
  { apply reports_bind; [apply leaves_parseRelation|apply reports_parseRelation|].
    intros ? ?. apply IH. }
  destruct (check IDENTIFYING ts).
  { apply reports_bind;
      [apply leaves_parseIdentifyingRelation|apply reports_parseIdentifyingRelation|].
    intros ? ?. apply IH. }
  apply reports_advance, IH.
Qed.

(** X8. Every error that [parseDSL] throws is about a token of the document:
    its message is that of [expect] ("Expected T but got U at line L, column
    C"), of [parseCardinality] ("Expected cardinality (1 or M) at line L") or
    of [parseParticipation] ("Expected participation (total or partial) at
    line L"), with U, L and C the type, line and column of a token that
    [tokenize] produced for the document. *)
Theorem X8_errors_name_a_token (s : jsstring) (message : jsstring) :
  parseDSL s = Throw message -> errorAt message (tokenize s).
Proof.
  intros H. pose proof (reports_parse_loop (S (length (tokenize s))) (tokenize s) [] []
                          (tokenize_endsWithEOF s)) as Hr.
  unfold parseDSL, parse in H. rewrite H in Hr. exact Hr.
Qed.

Lemma X8_witness :
  parseDSL namelessEntity
  = Throw (str "Expected IDENTIFIER but got COLON at line 1, column 8")
  /\ errorAt (str "Expected IDENTIFIER but got COLON at line 1, column 8")
       (tokenize namelessEntity).
Proof.
  assert (H : parseDSL namelessEntity
              = Throw (str "Expected IDENTIFIER but got COLON at line 1, column 8"))
    by (vm_compute; reflexivity).
  split; [exact H|]. exact (X8_errors_name_a_token namelessEntity _ H).
Defined.

Lemma member_word n :
  In n objectPrototypeMembers -> isWord n = true /\ keywordType n = INHERITED.
Proof.
  intros Hin. unfold objectPrototypeMembers in Hin.
  repeat (destruct Hin as [<-|Hin]; [split; vm_compute; reflexivity|]).
  destruct Hin.
Qed.

(** X9. An entity cannot bear the name of a member that JavaScript objects
    inherit from [Object.prototype] (constructor, toString, valueOf,
    hasOwnProperty, ...): [keywords[value]] finds the inherited member, the
    token does not get the type IDENTIFIER, and a document that starts with
    "Entity" and such a name is rejected by [expect], whatever follows. *)
Theorem X9_inherited_names (n rest : jsstring) :
  In n objectPrototypeMembers -> wordEnds rest = true ->
  exists t,
    tv t = (INHERITED, n)
    /\ parseDSL (str "Entity " ++ n ++ rest) = Throw (expectMessage IDENTIFIER t).
Proof.
  intros Hin Hrest. destruct (member_word n Hin) as [Hw Hk].
  pose proof (tokenize_lexemes (str "Entity " ++ n ++ rest)) as H.
  change (str "Entity " ++ n ++ rest) with (str "Entity" ++ c_space :: n ++ rest) in H at 2.
  rewrite lexemes_word, lexemes_space, lexemes_word, Hk in H by (try reflexivity; assumption).
  unfold parseDSL, parse.
  destruct (tokenize (str "Entity " ++ n ++ rest)) as [|k [|t ts]]; try discriminate.
  cbn [List.map app] in H. exists t.
  change (keywordType (str "Entity")) with ENTITY in H.
  assert (Hk' : tok_type k = ENTITY) by (unfold tv in H; congruence).
  assert (Ht : tv t = (INHERITED, n)) by congruence.
  split; [exact Ht|]. apply tv_type in Ht.
  cbn [parse_loop]. unfold isAtEnd. cbn [current]. rewrite Hk'.
  rewrite (bool_decide_eq_false_2 (ENTITY = EOF)) by discriminate. cbn [negb].
  rewrite check_cons by (first [assumption|discriminate]).
  unfold parseEntity. rewrite expect_cons by (first [assumption|discriminate]).
  cbn [mbind Result_bind]. unfold expect.
  rewrite check_other by (rewrite Ht; discriminate). reflexivity.
Qed.

Lemma X9_witness :
  exists t,
    tv t = (INHERITED, str "constructor")
    /\ parseDSL (str "Entity " ++ str "constructor" ++ str ":
  id PK")
       = Throw (expectMessage IDENTIFIER t)
    /\ expectMessage IDENTIFIER t
       = str "Expected IDENTIFIER but got function Object() { [native code] } at line 1, column 8".
Proof.
  destruct (X9_inherited_names (str "constructor") (str ":
  id PK")) as (t & Ht & H); [left; reflexivity|reflexivity|].
  exists t. split; [exact Ht|]. split; [exact H|].
  assert (E : parseDSL (str "Entity " ++ str "constructor" ++ str ":
  id PK")
              = Throw (str "Expected IDENTIFIER but got function Object() { [native code] } at line 1, column 8"))
    by (vm_compute; reflexivity).
  rewrite E in H. congruence.
Defined.

(** ** The forward transform read back: attributes *)

Lemma processAttribute_unfold a parent b :
  processAttribute a parent b
  = match attributeType a, subAttributes a with
    | composite, Some subs =>
        fold_left (fun b' subAttr => processAttribute subAttr (nodeIdOf (nodeIdCounter b + 1)) b')
          subs (pushAttribute a parent b)
    | _, _ => pushAttribute a parent b
    end.
Proof. destruct a as [n ty k target dt subs]. simpl. destruct ty, subs; reflexivity. Qed.

Lemma getAttributesForNode_read depth q cm children attrs :
  default [] (cm !! q) = children ->
  Forall2 (fun y s => readChild depth cm y = Ok (Some s)) children attrs ->
  getAttributesForNode (S depth) q cm = Ok attrs.
Proof.
  intros Hc H. cbn [getAttributesForNode]. rewrite Hc. clear Hc.
  match goal with
  | |- fold_left ?f ?c _ = _ =>
      enough (Hf : forall acc, fold_left f c (Ok acc) = Ok (acc ++ attrs)) by apply (Hf [])
  end.
  induction H as [|y s children attrs Hy _ IH]; intros acc; cbn [fold_left].
  - rewrite app_nil_r. reflexivity.
  - cbn [mbind Result_bind]. unfold readChild in Hy.
    destruct (includesAttribute (type y)); [|discriminate].
    destruct (bool_decide (type y = compositeAttribute)).
    + destruct (getAttributesForNode depth (node_id y) cm) as [subs| |];
        cbn [mbind Result_bind] in Hy |- *; try discriminate Hy.
      injection Hy as <-. rewrite IH, <- app_assoc. reflexivity.
    + injection Hy as <-. rewrite IH, <- app_assoc. reflexivity.
Qed.

Lemma includesAttribute_false_readChild depth cm y :
  includesAttribute (type y) = false -> readChild depth cm y = Ok None.
Proof. unfold readChild. intros ->. reflexivity. Qed.

(** The attribute read from its own node, the sub-attributes apart. *)
Lemma attributeOfNode_attributeDiagramNode a i p :
  attributeType a <> typed ->
  attributeOfNode (attributeDiagramNode a i p)
  = {| attr_name := attr_name a; attributeType := attributeType a; keyType := keyType a;
       fkTarget := fkTarget a; dataType := dataType a; subAttributes := None |}.
Proof.
  intros Hty. unfold attributeOfNode, attributeDiagramNode. cbn.
  f_equal.
  - destruct (attributeType a); try reflexivity. contradiction.
  - destruct (keyType a); reflexivity.
Qed.

Lemma childrenIn_app ns1 ns2 q : childrenIn (ns1 ++ ns2) q = childrenIn ns1 q ++ childrenIn ns2 q.
Proof. apply List.filter_app. Qed.

Lemma childrenIn_outside lo hi k ns :
  lo < k <= hi -> Forall (parentOutside lo hi) ns -> childrenIn ns (nodeIdOf k) = [].
Proof.
  intros Hk H. apply filter_nil_Forall. eapply List.Forall_impl; [|exact H].
  intros y Hy. apply bool_decide_eq_false_2. intros E. unfold parentOutside in Hy.
  rewrite E in Hy. destruct Hy as (k' & Hk' & Heq). apply nodeIdOf_inj in Heq. lia.
Qed.

Lemma childrenIn_between lo hi k ns :
  k <= lo \/ hi < k -> Forall (parentBetween lo hi) ns -> childrenIn ns (nodeIdOf k) = [].
Proof.
  intros Hk H. apply filter_nil_Forall. eapply List.Forall_impl; [|exact H].
  intros y (k' & Hk' & Hy). apply bool_decide_eq_false_2. rewrite Hy. intros E.
  assert (E' : nodeIdOf k' = nodeIdOf k) by congruence.
  apply nodeIdOf_inj in E'. lia.
Qed.

Lemma parentOutside_narrow lo hi lo' hi' x :
  parentOutside lo hi x -> lo <= lo' -> hi' <= hi -> parentOutside lo' hi' x.
Proof.
  unfold parentOutside. destruct (parentId x); [|auto].
  intros (k & Hk & ->) H1 H2. exists k. split; [lia|reflexivity].
Qed.

Lemma parentBetween_outside lo hi lo' hi' x :
  parentBetween lo hi x -> hi <= lo' \/ hi' <= lo -> parentOutside lo' hi' x.
Proof.
  intros (k & Hk & E) H. unfold parentOutside. rewrite E. exists k. split; [lia|reflexivity].
Qed.

Lemma chunk_widen q lo hi lo' hi' ns :
  chunk q lo hi ns -> lo' <= lo -> hi <= hi' -> chunk q lo' hi' ns.
Proof.
  intros H H1 H2. eapply List.Forall_impl; [|exact H].
  intros y [Hy|(k & Hk & Hy)]; [left; exact Hy|right]. exists k. split; [lia|exact Hy].
Qed.

Lemma chunk_outside q kq lo hi lo' hi' ns :
  chunk q lo hi ns -> q = nodeIdOf kq -> kq <= lo' \/ hi' < kq ->
  hi <= lo' \/ hi' <= lo -> Forall (parentOutside lo' hi') ns.
Proof.
  intros H -> Hq Hr. eapply List.Forall_impl; [|exact H].
  intros y [Hy|Hy].
  - unfold parentOutside. rewrite Hy. exists kq. split; [exact Hq|reflexivity].
  - eapply parentBetween_outside; eauto.
Qed.

Lemma adds_nil q b : adds q [] b b.
Proof.
  exists []. split; [rewrite app_nil_r; reflexivity|]. split; [lia|].
  split; [constructor|]. intros N0 N2 cm depth _ _ _ _ _. constructor.
Qed.

Lemma adds_app q kq l1 l2 b b1 b2 :
  q = nodeIdOf kq -> kq <= nodeIdCounter b ->
  adds q l1 b b1 -> adds q l2 b1 b2 -> adds q (l1 ++ l2) b b2.
Proof.
  intros Hq Hkq (ns1 & Hn1 & Hc1 & Hch1 & Hr1) (ns2 & Hn2 & Hc2 & Hch2 & Hr2).
  exists (ns1 ++ ns2). split; [rewrite Hn2, Hn1, <- app_assoc; reflexivity|].
  split; [lia|]. split.
  - apply Forall_app. split; eapply chunk_widen; eauto; lia.
  - intros N0 N2 cm depth Hb H0 H2 Hrev Hdepth.
    rewrite forallb_app in Hrev. apply andb_true_iff in Hrev as [Hrev1 Hrev2].
    apply Forall_app in Hdepth as [Hd1 Hd2].
    rewrite childrenIn_app. apply Forall2_app.
    + apply (Hr1 N0 (ns2 ++ N2)); auto.
      * rewrite <- app_assoc in Hb. exact Hb.
      * eapply List.Forall_impl; [|exact H0]. intros y Hy.
        eapply parentOutside_narrow; eauto; lia.
      * apply Forall_app. split.
        -- eapply chunk_outside; eauto; lia.
        -- eapply List.Forall_impl; [|exact H2]. intros y Hy.
           eapply parentOutside_narrow; eauto; lia.
    + apply (Hr2 (N0 ++ ns1) N2); auto.
      * rewrite <- !app_assoc in *. exact Hb.
      * apply Forall_app. split.
        -- eapply List.Forall_impl; [|exact H0]. intros y Hy.
           eapply parentOutside_narrow; eauto; lia.
        -- eapply chunk_outside; eauto; lia.
      * eapply List.Forall_impl; [|exact H2]. intros y Hy.
        eapply parentOutside_narrow; eauto; lia.
Qed.

Lemma adds_fold q kq (l : list AttributeNode) :
  q = nodeIdOf kq ->
  Forall (fun s => forall b, kq <= nodeIdCounter b -> adds q [s] b (processAttribute s q b)) l ->
  forall b, kq <= nodeIdCounter b ->
            adds q l b (fold_left (fun b' s => processAttribute s q b') l b).
Proof.
  intros Hq. induction 1 as [|s l Hs _ IH]; intros b Hb; cbn [fold_left].
  - apply adds_nil.
  - change (s :: l) with ([s] ++ l). eapply adds_app; eauto.
    apply IH. destruct (Hs b Hb) as (_ & _ & Hc & _). lia.
Qed.

Lemma reversible_unfold a :
  reversible a = true ->
  attributeType a <> typed
  /\ match subAttributes a with
     | Some subs => attributeType a = composite /\ forallb reversible subs = true
     | None => attributeType a <> composite
     end.
Proof.
  destruct a as [n ty k target dt subs]. simpl.
  destruct ty, subs; intros H; try discriminate; repeat split; auto; discriminate.
Qed.

(** What [processAttribute] adds is read back as the attribute. *)
Lemma processAttribute_adds a : forall q kq b,
  q = nodeIdOf kq -> kq <= nodeIdCounter b -> adds q [a] b (processAttribute a q b).
Proof.
  induction a as [n ty k target dt subs IH] using AttributeNode_ind.
  intros q kq b Hq Hkq.
  set (a := {| attr_name := n; attributeType := ty; keyType := k; fkTarget := target;
               dataType := dt; subAttributes := subs |}) in *.
  set (x := attributeDiagramNode a (nodeIdOf (nodeIdCounter b + 1)) q).
  assert (Hsubs : exists NS,
             out_nodes (processAttribute a q b) = out_nodes b ++ x :: NS
             /\ nodeIdCounter b + 1 <= nodeIdCounter (processAttribute a q b)
             /\ chunk (nodeIdOf (nodeIdCounter b + 1)) (nodeIdCounter b + 1)
                  (nodeIdCounter (processAttribute a q b)) NS
             /\ forall l, subAttributes a = Some l -> attributeType a = composite ->
                          readsBack (nodeIdOf (nodeIdCounter b + 1)) (nodeIdCounter b + 1)
                            (nodeIdCounter (processAttribute a q b)) NS l).
  { rewrite processAttribute_unfold.
    assert (Hleaf : exists NS,
               out_nodes (pushAttribute a q b) = out_nodes b ++ x :: NS
               /\ nodeIdCounter b + 1 <= nodeIdCounter (pushAttribute a q b)
               /\ chunk (nodeIdOf (nodeIdCounter b + 1)) (nodeIdCounter b + 1)
                    (nodeIdCounter (pushAttribute a q b)) NS
               /\ NS = []).
    { exists []. split; [reflexivity|]. split; [simpl; lia|]. split; [constructor|reflexivity]. }
    destruct (attributeType a) eqn:Ety, (subAttributes a) as [l|] eqn:Esubs;
      try (destruct Hleaf as (NS & H1 & H2 & H3 & ->); exists []; split; [exact H1|];
           split; [exact H2|]; split; [exact H3|]; intros l' Hl' Hc;
           first [discriminate Hl' | discriminate Hc]).
    clear Hleaf. subst a. simpl in Esubs, Ety. subst subs ty.
    destruct (adds_fold (nodeIdOf (nodeIdCounter b + 1)) (nodeIdCounter b + 1) l eq_refl)
      with (b := pushAttribute
                   {| attr_name := n; attributeType := composite; keyType := k;
                      fkTarget := target; dataType := dt; subAttributes := Some l |} q b)
      as (NS & Hn & Hc & Hch & Hr).
    - eapply List.Forall_impl; [|exact IH]. intros s Hs b' Hb'. eapply Hs; eauto.
    - simpl. lia.
    - exists NS. split; [rewrite Hn; simpl; rewrite <- app_assoc; reflexivity|].
      split; [exact Hc|]. split; [exact Hch|].
      intros l' [= <-] _. exact Hr. }
  destruct Hsubs as (NS & Hn & Hc & Hch & Hr).
  assert (HNS : Forall (parentBetween (nodeIdCounter b) (nodeIdCounter (processAttribute a q b)))
                  NS).
  { eapply List.Forall_impl; [|exact Hch]. intros y [Hy|(k' & Hk' & Hy)].
    - exists (nodeIdCounter b + 1). split; [lia|exact Hy].
    - exists k'. split; [lia|exact Hy]. }
  exists (x :: NS). split; [exact Hn|]. split; [lia|]. split.
  { constructor; [left; reflexivity|].
    eapply List.Forall_impl; [|exact HNS]. intros y Hy. right. exact Hy. }
  intros N0 N2 cm depth Hb H0 H2 Hrev Hdepth.
  cbn [forallb] in Hrev. rewrite andb_true_r in Hrev.
  apply Forall_cons_iff in Hdepth as [Hdepth _].
  destruct (reversible_unfold a Hrev) as [Hty Hshape].
  assert (Hkids : childrenIn (x :: NS) q = [x]).
  { change (x :: NS) with ([x] ++ NS). rewrite childrenIn_app.
    rewrite Hq at 2. rewrite (childrenIn_between _ _ kq NS (or_introl Hkq) HNS), app_nil_r.
    unfold childrenIn. cbn [List.filter]. rewrite bool_decide_eq_true_2 by reflexivity.
    reflexivity. }
  rewrite Hkids. constructor; [|constructor].
  unfold readChild. change (type x) with (attributeNodeType (attributeType a)).
  rewrite includesAttribute_attributeNodeType.
  pose proof (attributeOfNode_attributeDiagramNode a (nodeIdOf (nodeIdCounter b + 1)) q Hty)
    as Hback. fold x in Hback.
  destruct (subAttributes a) as [l|] eqn:Esubs.
  - destruct Hshape as [Hcomp Hl]. rewrite Hcomp. cbn [attributeNodeType].
    rewrite bool_decide_eq_true_2 by reflexivity.
    destruct depth as [|depth].
    { exfalso. subst a. simpl in Esubs, Hcomp, Hdepth. subst. simpl in Hdepth. lia. }
    rewrite (getAttributesForNode_read depth (node_id x) cm (childrenIn NS (node_id x)) l).
    + cbn [mbind Result_bind]. rewrite Hback. unfold withSubAttributes. cbn.
      subst a. simpl in *. subst. reflexivity.
    + rewrite Hb. rewrite !childrenIn_app.
      change (node_id x) with (nodeIdOf (nodeIdCounter b + 1)).
      rewrite (childrenIn_outside (nodeIdCounter b) (nodeIdCounter (processAttribute a q b))) by
        (first [lia | assumption]).
      rewrite (childrenIn_outside (nodeIdCounter b) (nodeIdCounter (processAttribute a q b))
                 _ N2) by (first [lia | assumption]).
      rewrite app_nil_r. cbn [app].
      change (x :: NS) with ([x] ++ NS). rewrite childrenIn_app.
      replace (childrenIn [x] (nodeIdOf (nodeIdCounter b + 1))) with (@nil DiagramNode);
        [reflexivity|].
      unfold childrenIn. cbn [List.filter]. rewrite bool_decide_eq_false_2; [reflexivity|].
      change (parentId x) with (Some q). rewrite Hq. intros E.
      assert (E' : nodeIdOf kq = nodeIdOf (nodeIdCounter b + 1)) by congruence.
      apply nodeIdOf_inj in E'. lia.
    + apply (Hr l eq_refl Hcomp (N0 ++ [x]) N2); auto.
      * rewrite <- app_assoc. exact Hb.
      * apply Forall_app. split.
        -- eapply List.Forall_impl; [|exact H0]. intros y Hy.
           eapply parentOutside_narrow; eauto; lia.
        -- constructor; [|constructor]. unfold parentOutside. change (parentId x) with (Some q).
           exists kq. split; [lia|exact Hq].
      * eapply List.Forall_impl; [|exact H2]. intros y Hy.
        eapply parentOutside_narrow; eauto; lia.
      * subst a. simpl in Esubs, Hcomp, Hdepth. subst. simpl in Hdepth.
        apply List.Forall_forall. intros s Hs.
        assert (attrDepth s <= List.list_max (List.map attrDepth l))%nat; [|lia].
        pose proof (proj1 (List.list_max_le (List.map attrDepth l)
                             (List.list_max (List.map attrDepth l))) (Nat.le_refl _)) as Hmax.
        rewrite List.Forall_forall in Hmax. apply Hmax, List.in_map, Hs.
  - replace (bool_decide (attributeNodeType (attributeType a) = compositeAttribute)) with false.
    + rewrite Hback. subst a. simpl in *. subst. reflexivity.
    + symmetry. apply bool_decide_eq_false_2. destruct (attributeType a); try discriminate.
      contradiction.
Qed.

Lemma processAttributes_adds attrs q kq b :
  q = nodeIdOf kq -> kq <= nodeIdCounter b -> adds q attrs b (processAttributes attrs q b).
Proof.
  intros Hq Hkq. unfold processAttributes. eapply adds_fold; eauto.
  apply List.Forall_forall. intros s _ b' Hb'. eapply processAttribute_adds; eauto.
Qed.

(** ** Invariants of the forward transform *)

Section Invariant.
Context (Inv : Build -> Prop).
Hypothesis Inv_attribute : forall a q b, Inv b -> Inv (pushAttribute a q b).
Hypothesis Inv_node : forall b (mk : jsstring -> DiagramNode),
  (forall i, node_id (mk i) = i) -> (forall i, parentId (mk i) = None) ->
  Inv b -> Inv (pushNode (snd (generateNodeId b)) (mk (nodeIdOf (nodeIdCounter b + 1)))).
Hypothesis Inv_edge : forall b (mk : jsstring -> DiagramEdge),
  (forall i, edge_id (mk i) = i) -> (forall i, hasCardinality (mk i) = true) ->
  Inv b -> Inv (pushEdge (snd (generateEdgeId b)) (mk (edgeIdOf (edgeIdCounter b + 1)))).

Lemma fold_left_invariant {A} (f : Build -> A -> Build) l :
  Forall (fun a => forall b, Inv b -> Inv (f b a)) l ->
  forall b, Inv b -> Inv (fold_left f l b).
Proof. induction 1 as [|a l Ha _ IH]; cbn [fold_left]; auto. Qed.

Lemma processAttribute_invariant a : forall q b, Inv b -> Inv (processAttribute a q b).
Proof.
  induction a as [n ty k target dt subs IH] using AttributeNode_ind. intros q b Hb.
  rewrite processAttribute_unfold. cbn [attributeType subAttributes].
  destruct ty, subs as [l|]; try (apply Inv_attribute; assumption).
  apply fold_left_invariant; [|apply Inv_attribute; assumption].
  eapply List.Forall_impl; [|exact IH]. intros s Hs b'. apply Hs.
Qed.

Lemma processAttributes_invariant attrs q b : Inv b -> Inv (processAttributes attrs q b).
Proof.
  unfold processAttributes. apply fold_left_invariant.
  apply List.Forall_forall. intros a _ b'. apply processAttribute_invariant.
Qed.

Lemma processEntity_invariant b emap e : Inv b -> Inv (processEntity (b, emap) e).1.
Proof.
  intros Hb. unfold processEntity. cbn [generateNodeId fst snd].
  apply processAttributes_invariant.
  apply (Inv_node b (entityDiagramNode e)); auto.
Qed.

Lemma processRelationship_invariant emap b r : Inv b -> Inv (processRelationship emap b r).
Proof.
  intros Hb. unfold processRelationship. cbn [generateNodeId fst snd].
  apply processAttributes_invariant.
  pose proof (Inv_node b (relationshipDiagramNode r) (fun _ => eq_refl) (fun _ => eq_refl) Hb)
    as H1.
  set (b1 := pushNode _ _) in *.
  assert (H2 : Inv match getTruthy emap (side_entityName (leftSide r)) with
                   | Some leftEntityId =>
                       let '(i, b0) := generateEdgeId b1 in
                       pushEdge b0 (leftEdge i leftEntityId (nodeIdOf (nodeIdCounter b + 1)) r)
                   | None => b1
                   end).
  { destruct (getTruthy emap (side_entityName (leftSide r))) as [l|]; [|exact H1].
    apply (Inv_edge b1 (fun i => leftEdge i l (nodeIdOf (nodeIdCounter b + 1)) r)); auto. }
  set (b2 := match getTruthy emap (side_entityName (leftSide r)) with
             | Some _ => _ | None => _ end) in *.
  destruct (getTruthy emap (side_entityName (rightSide r))) as [l|]; [|exact H2].
  apply (Inv_edge b2 (fun i => rightEdge i (nodeIdOf (nodeIdCounter b + 1)) l r)); auto.
Qed.

Lemma astToDiagramModel_invariant ast :
  Inv resetIdCounters ->
  exists b, Inv b /\ astToDiagramModel ast = {| nodes := out_nodes b; edges := out_edges b |}.
Proof.
  intros H0. unfold astToDiagramModel.
  assert (HE : forall es st, Inv st.1 -> Inv (fold_left processEntity es st).1).
  { induction es as [|e es IH]; intros [b emap] Hst; cbn [fold_left]; [exact Hst|].
    apply IH. apply processEntity_invariant, Hst. }
  specialize (HE (entities ast) (resetIdCounters, ∅) H0).
  destruct (fold_left processEntity (entities ast) (resetIdCounters, ∅)) as [bE emap].
  eexists. split; [|reflexivity].
  apply fold_left_invariant; [|exact HE].
  apply List.Forall_forall. intros r _ b'. apply processRelationship_invariant.
Qed.
End Invariant.

Lemma seq_snoc_map {A} (f : nat -> A) n :
  List.map f (seq 1 (S n)) = List.map f (seq 1 n) ++ [f (S n)].
Proof. rewrite seq_S, List.map_app. reflexivity. Qed.

Lemma numbered_node b x :
  node_id x = nodeIdOf (nodeIdCounter b + 1) ->
  numbered b -> numbered (pushNode (snd (generateNodeId b)) x).
Proof.
  intros Hx (Hn & He & Hns & Hes). unfold numbered.
  cbn [pushNode generateNodeId snd out_nodes out_edges nodeIdCounter edgeIdCounter].
  rewrite length_app, List.map_app. cbn [length List.map]. rewrite Nat.add_1_r.
  rewrite seq_snoc_map, <- Hns, Hx, Hn, Nat2N.inj_succ, N.add_1_r.
  repeat split; auto.
Qed.

Lemma numbered_edge b e :
  edge_id e = edgeIdOf (edgeIdCounter b + 1) ->
  numbered b -> numbered (pushEdge (snd (generateEdgeId b)) e).
Proof.
  intros Hx (Hn & He & Hns & Hes). unfold numbered.
  cbn [pushEdge generateEdgeId snd out_nodes out_edges nodeIdCounter edgeIdCounter].
  rewrite length_app, List.map_app. cbn [length List.map]. rewrite Nat.add_1_r.
  rewrite seq_snoc_map, <- Hes, Hx, He, Nat2N.inj_succ, N.add_1_r.
  repeat split; auto.
Qed.

Lemma numbered_attribute a q b : numbered b -> numbered (pushAttribute a q b).
Proof.
  intros H. unfold pushAttribute.
  apply (numbered_node b (attributeDiagramNode a (nodeIdOf (nodeIdCounter b + 1)) q))
    in H; [|reflexivity].
  apply (numbered_edge _ (containmentEdge (edgeIdOf (edgeIdCounter b + 1)) q
                            (nodeIdOf (nodeIdCounter b + 1)))) in H; [exact H|reflexivity].
Qed.

Lemma ends_app es1 es2 : ends (es1 ++ es2) = ends es1 ++ ends es2.
Proof. apply flat_map_app. Qed.

Lemma links_app ns1 ns2 : links (ns1 ++ ns2) = links ns1 ++ links ns2.
Proof. apply flat_map_app. Qed.

Lemma linked_attribute a q b : linked b -> linked (pushAttribute a q b).
Proof.
  unfold linked, pushAttribute.
  cbn [pushNode pushEdge generateNodeId generateEdgeId snd out_nodes out_edges].
  intros H. rewrite ends_app, links_app, H. reflexivity.
Qed.

Lemma linked_node b x :
  parentId x = None -> linked b -> linked (pushNode (snd (generateNodeId b)) x).
Proof.
  unfold linked. cbn [pushNode generateNodeId snd out_nodes out_edges].
  intros Hx H. rewrite links_app, H.
  replace (links [x]) with (@nil (jsstring * jsstring))
    by (unfold links; cbn [flat_map]; rewrite Hx; reflexivity).
  rewrite app_nil_r. reflexivity.
Qed.

Lemma linked_edge b e :
  hasCardinality e = true -> linked b -> linked (pushEdge (snd (generateEdgeId b)) e).
Proof.
  unfold linked. cbn [pushEdge generateEdgeId snd out_nodes out_edges].
  intros He H. rewrite ends_app, H.
  replace (ends [e]) with (@nil (jsstring * jsstring))
    by (unfold ends; cbn [flat_map]; rewrite He; reflexivity).
  rewrite app_nil_r. reflexivity.
Qed.

(** The build that [astToDiagramModel] returns the arrays of. *)
Lemma astToDiagramModel_built ast :
  exists b,
    numbered b /\ linked b
    /\ astToDiagramModel ast = {| nodes := out_nodes b; edges := out_edges b |}.
Proof.
  destruct (astToDiagramModel_invariant (fun b => numbered b /\ linked b)) with (ast := ast)
    as (b & [H1 H2] & Hb).
  - intros a q b [H1 H2]. split; [apply numbered_attribute|apply linked_attribute]; assumption.
  - intros b mk Hid Hp [H1 H2]. split.
    + apply numbered_node; [apply Hid|assumption].
    + apply linked_node; [apply Hp|assumption].
  - intros b mk Hid Hc [H1 H2]. split.
    + apply numbered_edge; [apply Hid|assumption].
    + apply linked_edge; [apply Hc|assumption].
  - split; [repeat split|reflexivity].
  - eauto.
Qed.

Lemma nodeIdOf_of_nat_inj i j : nodeIdOf (N.of_nat i) = nodeIdOf (N.of_nat j) -> i = j.
Proof. intros H. apply nodeIdOf_inj in H. lia. Qed.

Lemma edgeIdOf_inj k k' : edgeIdOf k = edgeIdOf k' -> k = k'.
Proof. unfold edgeIdOf. intros H. apply app_inv_head in H. apply decimal_inj, H. Qed.

Lemma NoDup_map_injective {A B} (f : A -> B) l :
  (forall a a', f a = f a' -> a = a') -> List.NoDup l -> List.NoDup (List.map f l).
Proof.
  intros Hf. induction 1 as [|a l Ha _ IH]; cbn; constructor; auto.
  intros Hin. apply List.in_map_iff in Hin as (a' & E & Hin). apply Hf in E. subst. auto.
Qed.

Lemma numbered_NoDup b : numbered b -> List.NoDup (List.map node_id (out_nodes b)).
Proof.
  intros (_ & _ & H & _). rewrite H. apply NoDup_map_injective.
  - apply nodeIdOf_of_nat_inj.
  - apply List.seq_NoDup.
Qed.

(** X10. The identifiers that [astToDiagramModel] gives are the counters in
    the order of the arrays: the i-th node of the model is node_i and the i-th
    edge is edge_i, whatever the AST, so that no two nodes and no two edges of
    a model share an identifier. *)
Theorem X10_identifiers_in_order (ast : ERDiagramAST) :
  let m := astToDiagramModel ast in
  List.map node_id (nodes m)
  = List.map (fun i => nodeIdOf (N.of_nat i)) (seq 1 (length (nodes m)))
  /\ List.map edge_id (edges m)
     = List.map (fun i => edgeIdOf (N.of_nat i)) (seq 1 (length (edges m)))
  /\ List.NoDup (List.map node_id (nodes m))
  /\ List.NoDup (List.map edge_id (edges m)).
Proof.
  destruct (astToDiagramModel_built ast) as (b & Hn & _ & ->). cbn.
  pose proof Hn as (_ & _ & H1 & H2). split; [exact H1|]. split; [exact H2|].
  split; [apply numbered_NoDup, Hn|].
  rewrite H2. apply NoDup_map_injective; [|apply List.seq_NoDup].
  intros i j H. apply edgeIdOf_inj in H. lia.
Qed.

(** ** The maps of [diagramModelToAST] on a model of [astToDiagramModel] *)

Lemma buildNodeMap_snoc ns x : buildNodeMap (ns ++ [x]) = <[node_id x := x]> (buildNodeMap ns).
Proof. unfold buildNodeMap. rewrite fold_left_app. reflexivity. Qed.

Lemma buildNodeMap_NoDup ns :
  List.NoDup (List.map node_id ns) ->
  forall x, In x ns -> buildNodeMap ns !! node_id x = Some x.
Proof.
  induction ns as [|y ns IH] using rev_ind; intros Hnd x Hin; [destruct Hin|].
  rewrite buildNodeMap_snoc. rewrite List.map_app in Hnd. cbn in Hnd.
  apply in_app_or in Hin as [Hin|[<-|[]]].
  - rewrite lookup_insert_ne.
    + apply IH; [|exact Hin]. apply List.NoDup_remove_1 in Hnd.
      rewrite app_nil_r in Hnd. exact Hnd.
    + intros E. apply List.NoDup_remove_2 in Hnd. rewrite app_nil_r in Hnd.
      apply Hnd. rewrite E. apply List.in_map, Hin.
  - apply lookup_insert_eq.
Qed.

(** The children that [buildChildrenMap] lists for [q]: the targets, when
    they are nodes, of the edges without cardinality that leave [q]. *)
Lemma buildChildrenMap_children_of nodeMap es q :
  default [] (buildChildrenMap nodeMap es !! q)
  = flat_map (fun st => if bool_decide (st.1 = q)
                        then match nodeMap !! st.2 with Some c => [c] | None => [] end
                        else [])
      (ends es).
Proof.
  unfold buildChildrenMap.
  enough (H : forall cm,
             default [] (fold_left (addChild nodeMap) es cm !! q)
             = default [] (cm !! q)
               ++ flat_map (fun st => if bool_decide (st.1 = q)
                                      then match nodeMap !! st.2 with
                                           | Some c => [c] | None => []
                                           end
                                      else [])
                    (ends es)) by (rewrite H; reflexivity).
  induction es as [|e es IH]; intros cm; cbn [fold_left].
  - cbn. rewrite app_nil_r. reflexivity.
  - rewrite IH. unfold ends at 2. cbn [flat_map]. fold (ends es).
    unfold addChild. destruct (hasCardinality e); cbn [negb app]; [reflexivity|].
    cbn [flat_map fst snd].
    destruct (nodeMap !! targetId e) as [c|].
    + case_bool_decide as Hq.
      * rewrite Hq, lookup_insert_eq. cbn [default]. unfold id.
        rewrite <- !app_assoc. reflexivity.
      * rewrite lookup_insert_ne by assumption. reflexivity.
    + case_bool_decide; reflexivity.
Qed.

Lemma flat_map_links {B} (f : jsstring * jsstring -> list B) ns :
  flat_map f (links ns)
  = flat_map (fun x => match parentId x with Some p => f (p, node_id x) | None => [] end) ns.
Proof.
  induction ns as [|x ns IH]; [reflexivity|].
  unfold links. cbn [flat_map]. fold (links ns). rewrite flat_map_app, IH.
  destruct (parentId x); cbn; rewrite ?app_nil_r; reflexivity.
Qed.

(** On a build of [astToDiagramModel], the children map lists for every node
    the nodes whose parent it is. *)
Lemma built_bridged b :
  numbered b -> linked b ->
  bridged (out_nodes b) (buildChildrenMap (buildNodeMap (out_nodes b)) (out_edges b)).
Proof.
  intros Hn Hl q. rewrite buildChildrenMap_children_of, Hl, flat_map_links.
  pose proof (buildNodeMap_NoDup _ (numbered_NoDup b Hn)) as Hlook.
  unfold childrenIn. generalize (buildNodeMap (out_nodes b)) Hlook. clear.
  intros nm Hlook. induction (out_nodes b) as [|x ns IH]; [reflexivity|].
  cbn [flat_map List.filter]. rewrite IH by (intros y Hy; apply Hlook; right; exact Hy).
  destruct (parentId x) as [p|] eqn:Ep; cbn [fst snd].
  - rewrite (Hlook x) by (left; reflexivity).
    destruct (bool_decide (p = q)) eqn:E.
    + apply bool_decide_eq_true_1 in E. subst p.
      rewrite bool_decide_eq_true_2 by reflexivity. reflexivity.
    + apply bool_decide_eq_false_1 in E.
      rewrite bool_decide_eq_false_2 by congruence. reflexivity.
  - rewrite bool_decide_eq_false_2 by discriminate. reflexivity.
Qed.

(** ** The forward transform read back: declarations *)

Lemma inside_outside lo hi lo' hi' ns :
  inside lo hi ns -> hi <= lo' \/ hi' <= lo -> Forall (parentOutside lo' hi') ns.
Proof.
  intros H Hr. eapply List.Forall_impl; [|exact H]. intros y Hy. unfold parentOutside.
  cbv beta in Hy. destruct (parentId y); [|exact I]. destruct Hy as (k & Hk & ->). exists k.
  split; [lia|reflexivity].
Qed.

Lemma inside_widen lo hi lo' hi' ns :
  inside lo hi ns -> lo' <= lo -> hi <= hi' -> inside lo' hi' ns.
Proof.
  intros H H1 H2. eapply List.Forall_impl; [|exact H]. intros y Hy.
  cbv beta in Hy. destruct (parentId y); [|exact I]. destruct Hy as (k & Hk & ->). exists k.
  split; [lia|reflexivity].
Qed.

Lemma chunk_inside lo hi ns :
  chunk (nodeIdOf (lo + 1)) (lo + 1) hi ns -> lo + 1 <= hi -> inside lo hi ns.
Proof.
  intros H Hle. eapply List.Forall_impl; [|exact H]. intros y [Hy|(k & Hk & Hy)]; rewrite Hy.
  - exists (lo + 1). split; [lia|reflexivity].
  - exists k. split; [lia|reflexivity].
Qed.

Section Declarations.
Context {D : Type} (mk : D -> jsstring -> DiagramNode) (attrsOf : D -> list AttributeNode)
        (top : DiagramNode -> bool) (step : Build -> D -> Build).
Hypothesis mk_id : forall d i, node_id (mk d i) = i.
Hypothesis mk_parent : forall d i, parentId (mk d i) = None.
Hypothesis mk_top : forall d i, top (mk d i) = true.
Hypothesis attribute_top : forall y, includesAttribute (type y) = true -> top y = false.
Hypothesis step_nodes : forall b d,
  exists b1,
    out_nodes b1 = out_nodes b ++ [mk d (nodeIdOf (nodeIdCounter b + 1))]
    /\ nodeIdCounter b1 = nodeIdCounter b + 1
    /\ step b d = processAttributes (attrsOf d) (nodeIdOf (nodeIdCounter b + 1)) b1.

Lemma declares_nil lo : declares mk attrsOf top lo lo [] [].
Proof.
  split; [constructor|]. split; [constructor|]. intros. constructor.
Qed.

Lemma declares_app lo mid hi ns1 ns2 ds1 ds2 :
  lo <= mid -> mid <= hi ->
  declares mk attrsOf top lo mid ns1 ds1 -> declares mk attrsOf top mid hi ns2 ds2 ->
  declares mk attrsOf top lo hi (ns1 ++ ns2) (ds1 ++ ds2).
Proof.
  intros H1 H2 (Hi1 & Hm1 & Hr1) (Hi2 & Hm2 & Hr2). split; [|split].
  - apply Forall_app. split; eapply inside_widen; eauto; lia.
  - rewrite List.filter_app. apply Forall2_app; assumption.
  - intros N0 N2 cm depth Hb H0 HN2 Hds. apply Forall_app in Hds as [Hds1 Hds2].
    rewrite List.filter_app. apply Forall2_app.
    + apply (Hr1 N0 (ns2 ++ N2)); auto.
      * rewrite <- app_assoc in Hb. exact Hb.
      * eapply List.Forall_impl; [|exact H0]. intros y Hy.
        eapply parentOutside_narrow; eauto; lia.
      * apply Forall_app. split.
        -- eapply inside_outside; eauto; lia.
        -- eapply List.Forall_impl; [|exact HN2]. intros y Hy.
           eapply parentOutside_narrow; eauto; lia.
    + apply (Hr2 (N0 ++ ns1) N2); auto.
      * rewrite <- !app_assoc in *. exact Hb.
      * apply Forall_app. split.
        -- eapply List.Forall_impl; [|exact H0]. intros y Hy.
           eapply parentOutside_narrow; eauto; lia.
        -- eapply inside_outside; eauto; lia.
      * eapply List.Forall_impl; [|exact HN2]. intros y Hy.
        eapply parentOutside_narrow; eauto; lia.
Qed.

Lemma step_declares b d :
  exists ns,
    out_nodes (step b d) = out_nodes b ++ ns
    /\ nodeIdCounter b <= nodeIdCounter (step b d)
    /\ declares mk attrsOf top (nodeIdCounter b) (nodeIdCounter (step b d)) ns [d].
Proof.
  destruct (step_nodes b d) as (b1 & Hn1 & Hc1 & Hstep).
  assert (Hn : out_nodes (step b d)
               = out_nodes (processAttributes (attrsOf d) (nodeIdOf (nodeIdCounter b + 1)) b1))
    by (rewrite Hstep; reflexivity).
  assert (Hc : nodeIdCounter (step b d)
               = nodeIdCounter (processAttributes (attrsOf d)
                                  (nodeIdOf (nodeIdCounter b + 1)) b1))
    by (rewrite Hstep; reflexivity).
  clear Hstep. set (i := nodeIdOf (nodeIdCounter b + 1)) in *.
  destruct (processAttributes_adds (attrsOf d) i (nodeIdCounter b + 1) b1 eq_refl)
    as (ns & Hns & Hle & Hch & Hr); [lia|].
  destruct (processAttributes_added (attrsOf d) i b1) as (_ & (ns' & Hns' & Hattr) & _).
  assert (ns' = ns) as -> by (rewrite Hns in Hns'; apply app_inv_head in Hns'; auto).
  rewrite <- Hn in Hns. rewrite <- Hc in Hle, Hch, Hr. rewrite Hc1 in Hle, Hch, Hr.
  rewrite Hn1, <- app_assoc in Hns. cbn [app] in Hns.
  assert (Htop : List.filter top (mk d i :: ns) = [mk d i]).
  { cbn [List.filter]. rewrite mk_top. f_equal. apply filter_nil_Forall.
    eapply List.Forall_impl; [|exact Hattr]. intros y [Hy _]. apply attribute_top, Hy. }
  exists (mk d i :: ns). split; [exact Hns|]. split; [lia|]. split; [|split].
  - constructor; [rewrite mk_parent; exact I|]. apply chunk_inside; assumption.
  - rewrite Htop. constructor; [|constructor]. rewrite mk_id. reflexivity.
  - intros N0 N2 cm depth Hb H0 H2 Hd. apply Forall_cons_iff in Hd as [[Hrev Hdepth] _].
    rewrite Htop. constructor; [|constructor]. rewrite mk_id.
    apply (getAttributesForNode_read depth i cm (childrenIn ns i)).
    + rewrite Hb, !childrenIn_app. unfold i at 1 4.
      rewrite (childrenIn_outside (nodeIdCounter b) (nodeIdCounter (step b d)))
        by (first [lia|assumption]).
      rewrite (childrenIn_outside (nodeIdCounter b) (nodeIdCounter (step b d)) _ N2)
        by (first [lia|assumption]).
      rewrite app_nil_r. cbn [app]. unfold childrenIn at 1. cbn [List.filter].
      rewrite mk_parent. rewrite bool_decide_eq_false_2 by discriminate. reflexivity.
    + apply (Hr (N0 ++ [mk d i]) N2); auto.
      * rewrite <- app_assoc. exact Hb.
      * apply Forall_app. split.
        -- eapply List.Forall_impl; [|exact H0]. intros y Hy.
           eapply parentOutside_narrow; eauto; lia.
        -- constructor; [|constructor]. unfold parentOutside. rewrite mk_parent. exact I.
      * eapply List.Forall_impl; [|exact H2]. intros y Hy.
        eapply parentOutside_narrow; eauto; lia.
Qed.

Lemma fold_declares ds : forall b,
  exists ns,
    out_nodes (fold_left step ds b) = out_nodes b ++ ns
    /\ nodeIdCounter b <= nodeIdCounter (fold_left step ds b)
    /\ declares mk attrsOf top (nodeIdCounter b) (nodeIdCounter (fold_left step ds b)) ns ds.
Proof.
  induction ds as [|d ds IH]; intros b; cbn [fold_left].
  - exists []. rewrite app_nil_r. split; [reflexivity|]. split; [lia|apply declares_nil].
  - destruct (step_declares b d) as (ns1 & Hn1 & Hc1 & Hd1).
    destruct (IH (step b d)) as (ns2 & Hn2 & Hc2 & Hd2).
    exists (ns1 ++ ns2). split; [rewrite Hn2, Hn1, <- app_assoc; reflexivity|].
    split; [lia|]. change (d :: ds) with ([d] ++ ds).
    eapply declares_app; eauto.
Qed.
End Declarations.

Lemma entity_top e i : isEntityNode (entityDiagramNode e i) = true.
Proof. unfold isEntityNode. cbn. destruct (entityType e); reflexivity. Qed.

Lemma relationship_top r i : isRelationshipNode (relationshipDiagramNode r i) = true.
Proof. unfold isRelationshipNode. cbn. destruct (relationshipType r); reflexivity. Qed.

Lemma fold_processEntity es : forall b emap,
  (fold_left processEntity es (b, emap)).1 = fold_left buildEntity es b.
Proof.
  induction es as [|e es IH]; intros b emap; cbn [fold_left]; [reflexivity|].
  change (processEntity (b, emap) e) with (buildEntity b e, <[ent_name e := nodeIdOf (nodeIdCounter b + 1)]> emap).
  apply IH.
Qed.

Lemma entities_declare es b :
  exists ns,
    out_nodes (fold_left buildEntity es b) = out_nodes b ++ ns
    /\ nodeIdCounter b <= nodeIdCounter (fold_left buildEntity es b)
    /\ declares entityDiagramNode ent_attributes isEntityNode (nodeIdCounter b)
         (nodeIdCounter (fold_left buildEntity es b)) ns es.
Proof.
  apply fold_declares; auto using entity_top, attribute_not_entity.
  intros b' e. eexists. split; [|split]; [| |reflexivity]; reflexivity.
Qed.

Lemma processRelationship_start emap b r :
  exists b1,
    out_nodes b1 = out_nodes b ++ [relationshipDiagramNode r (nodeIdOf (nodeIdCounter b + 1))]
    /\ nodeIdCounter b1 = nodeIdCounter b + 1
    /\ processRelationship emap b r
       = processAttributes (rel_attributes r) (nodeIdOf (nodeIdCounter b + 1)) b1.
Proof.
  unfold processRelationship. cbn [generateNodeId fst snd].
  destruct (getTruthy emap (side_entityName (leftSide r))),
           (getTruthy emap (side_entityName (rightSide r)));
    eexists; (split; [|split]; [| |reflexivity]; reflexivity).
Qed.

Lemma relationships_declare emap rs b :
  exists ns,
    out_nodes (fold_left (processRelationship emap) rs b) = out_nodes b ++ ns
    /\ nodeIdCounter b <= nodeIdCounter (fold_left (processRelationship emap) rs b)
    /\ declares relationshipDiagramNode rel_attributes isRelationshipNode (nodeIdCounter b)
         (nodeIdCounter (fold_left (processRelationship emap) rs b)) ns rs.
Proof.
  apply fold_declares; auto using relationship_top, attribute_not_relationship.
  intros b' r. apply processRelationship_start.
Qed.

(** ** The forward transform read back: the sides of the relationships *)

Lemma updateSides_anonymous nodeMap node sides e :
  updateSides nodeMap node sides (anonymous e) = updateSides nodeMap node sides e.
Proof. reflexivity. Qed.

Lemma relationshipSides_anonymous nodeMap es node :
  relationshipSides nodeMap es node
  = fold_left (updateSides nodeMap node) (List.map anonymous (relEdgesOf es node))
      (defaultLeftSide, defaultRightSide).
Proof. unfold relationshipSides. rewrite fold_left_map. reflexivity. Qed.

(** The entity node that [entityNodeMap] names, for a declared name. *)
Lemma entityPhase_declared es b emap n :
  entityPhase es b emap -> In n (List.map ent_name es) ->
  exists x k,
    getTruthy emap n = Some (node_id x)
    /\ In x (out_nodes b) /\ label x = n
    /\ node_id x = nodeIdOf k /\ k <= nodeIdCounter b.
Proof.
  intros (Hids & _ & _ & Hlabels & Hmap) Hin.
  rewrite <- Hlabels in Hin. apply List.in_map_iff in Hin as (x0 & Hl0 & Hin0).
  assert (Hne : List.filter (fun node => isEntityNode node && bool_decide (label node = n))
                  (out_nodes b) <> []).
  { intros E. apply List.filter_In in Hin0 as [Hin0 He0].
    assert (Hin' : In x0 (List.filter (fun node => isEntityNode node
                                                   && bool_decide (label node = n))
                            (out_nodes b))).
    { apply List.filter_In. split; [exact Hin0|]. rewrite He0.
      apply bool_decide_eq_true_2, Hl0. }
    rewrite E in Hin'. destruct Hin'. }
  apply last_is_Some_iff in Hne as [x Hx].
  pose proof (last_In _ _ Hx) as Hin. apply List.filter_In in Hin as [Hin Hp].
  apply andb_true_iff in Hp as [_ Hl]. apply bool_decide_eq_true_1 in Hl.
  rewrite List.Forall_forall in Hids. destruct (Hids x Hin) as (k & Hk & Hid).
  exists x, k. split; [|repeat split; auto; lia].
  unfold getTruthy. rewrite Hmap, Hx. cbn. rewrite Hid.
  rewrite bool_decide_eq_false_2 by apply nodeIdOf_nonempty. reflexivity.
Qed.

Lemma entityPhase_ids es b emap n i :
  entityPhase es b emap -> getTruthy emap n = Some i ->
  exists k, k <= nodeIdCounter b /\ i = nodeIdOf k.
Proof.
  intros (Hids & _ & _ & _ & Hmap) H. unfold getTruthy in H. rewrite Hmap in H.
  destruct (last _) as [x|] eqn:Hx; cbn in H; [|discriminate].
  destruct (bool_decide (node_id x = [])); [discriminate|]. injection H as <-.
  apply last_In, List.filter_In in Hx as [Hin _].
  rewrite List.Forall_forall in Hids. destruct (Hids x Hin) as (k & Hk & Hid).
  exists k. split; [lia|exact Hid].
Qed.

(** The relational edges at each relationship node of the build. *)
Lemma relationship_edges es bE emap rs :
  entityPhase es bE emap ->
  let bF := fold_left (processRelationship emap) rs bE in
  exists ks,
    length ks = length rs
    /\ Forall (fun k => nodeIdCounter bE < k) ks
    /\ List.filter isRelationshipNode (out_nodes bF)
       = zip_with (fun r k => relationshipDiagramNode r (nodeIdOf k)) rs ks
    /\ List.filter isEntityNode (out_nodes bF) = List.filter isEntityNode (out_nodes bE)
    /\ forall i r k,
         rs !! i = Some r -> ks !! i = Some k ->
         List.map anonymous (relEdgesOf (out_edges bF) (relationshipDiagramNode r (nodeIdOf k)))
         = sideEdges r (nodeIdOf k) (getTruthy emap (side_entityName (leftSide r)))
             (getTruthy emap (side_entityName (rightSide r))).
Proof.
  intros HE bF. pose proof HE as (Hids & Hedges & Hnorel & Hlabels & Hmap).
  destruct (relationships_phase emap rs bE)
    as (ks & Hlen & Hgt & Hnd & Hc & Hrelnodes & Hentnodes & Hreledges).
  fold bF in Hc, Hrelnodes, Hentnodes, Hreledges.
  rewrite (filter_nil_Forall isRelationshipNode (out_nodes bE)) in Hrelnodes by assumption.
  rewrite (filter_nil_Forall hasCardinality (out_edges bE)) in Hreledges by assumption.
  cbn [app List.map] in Hrelnodes, Hreledges.
  exists ks. split; [exact Hlen|]. split; [exact Hgt|]. split; [exact Hrelnodes|].
  split; [exact Hentnodes|]. intros i r k Hr Hk.
  assert (Hkgt : nodeIdCounter bE < k).
  { rewrite List.Forall_forall in Hgt. apply Hgt, list_elem_of_In.
    eapply list_elem_of_lookup_2; eauto. }
  rewrite relEdgesOf_touches, Hreledges. cbn [node_id relationshipDiagramNode].
  apply (filter_concat_zip_with (touches (nodeIdOf k))
           (fun r k => sideEdges r (nodeIdOf k)
                         (getTruthy emap (side_entityName (leftSide r)))
                         (getTruthy emap (side_entityName (rightSide r))))
           rs ks i r k); auto.
  - intros r' k' Hne. unfold sideEdges.
    assert (Hk' : bool_decide (nodeIdOf k' = nodeIdOf k) = false).
    { apply bool_decide_eq_false_2. intros H. apply nodeIdOf_inj in H. congruence. }
    assert (Hfar : forall n j, getTruthy emap n = Some j ->
                               bool_decide (j = nodeIdOf k) = false).
    { intros n j Hn. apply bool_decide_eq_false_2.
      destruct (entityPhase_ids es bE emap n j HE Hn) as (k0 & Hk0 & ->). intros H.
      apply nodeIdOf_inj in H. lia. }
    apply Forall_app. split.
    + destruct (getTruthy emap (side_entityName (leftSide r'))) eqn:E;
        constructor; [|constructor].
      rewrite touches_leftEdge, Hk', (Hfar _ _ E). reflexivity.
    + destruct (getTruthy emap (side_entityName (rightSide r'))) eqn:E;
        constructor; [|constructor].
      rewrite touches_rightEdge, Hk', (Hfar _ _ E). reflexivity.
  - unfold sideEdges. apply Forall_app. split.
    + destruct (getTruthy emap _); constructor; [|constructor].
      rewrite touches_leftEdge, (bool_decide_eq_true_2 (nodeIdOf k = nodeIdOf k)) by reflexivity.
      apply orb_true_r.
    + destruct (getTruthy emap _); constructor; [|constructor].
      rewrite touches_rightEdge, (bool_decide_eq_true_2 (nodeIdOf k = nodeIdOf k)) by reflexivity.
      reflexivity.
Qed.

(** The sides that [diagramModelToAST] finds for a relationship whose two
    sides name declared entities. *)
Lemma sides_read nodeMap es r k xl xr kl kr :
  List.map anonymous (relEdgesOf es (relationshipDiagramNode r (nodeIdOf k)))
  = sideEdges r (nodeIdOf k) (Some (node_id xl)) (Some (node_id xr)) ->
  nodeMap !! node_id xl = Some xl -> nodeMap !! node_id xr = Some xr ->
  label xl = side_entityName (leftSide r) -> label xr = side_entityName (rightSide r) ->
  node_id xl = nodeIdOf kl -> node_id xr = nodeIdOf kr -> kl < k -> kr < k ->
  relationshipSides nodeMap es (relationshipDiagramNode r (nodeIdOf k))
  = (leftSide r, rightSide r).
Proof.
  intros He Hl Hr Hll Hlr Hil Hir Hkl Hkr.
  rewrite relationshipSides_anonymous, He. unfold sideEdges. cbn [app fold_left].
  unfold updateSides at 2. cbn [sourceId targetId leftEdge node_id relationshipDiagramNode].
  rewrite (bool_decide_eq_false_2 (node_id xl = nodeIdOf k))
    by (rewrite Hil; intros E; apply nodeIdOf_inj in E; lia).
  cbn [negb]. rewrite Hl. unfold updateSides.
  cbn [sourceId targetId rightEdge leftEdge node_id relationshipDiagramNode
         sourceCardinality sourceParticipation targetCardinality targetParticipation default].
  rewrite (bool_decide_eq_true_2 (nodeIdOf k = nodeIdOf k)) by reflexivity. cbn [negb].
  rewrite (bool_decide_eq_false_2 (node_id xr = nodeIdOf k))
    by (rewrite Hir; intros E; apply nodeIdOf_inj in E; lia).
  cbn [negb]. rewrite Hr, Hll, Hlr.
  destruct (leftSide r), (rightSide r). reflexivity.
Qed.

(** ** The two transforms, one after the other *)

Lemma mapResult_Forall2 {A B} (f : A -> Result B) xs ys :
  Forall2 (fun x y => f x = Ok y) xs ys -> mapResult f xs = Ok ys.
Proof.
  induction 1 as [|x y xs ys Hx _ IH]; cbn [mapResult]; [reflexivity|].
  rewrite Hx, IH. reflexivity.
Qed.

Lemma Forall2_and {A B} (P Q : A -> B -> Prop) xs ys :
  Forall2 P xs ys -> Forall2 Q xs ys -> Forall2 (fun x y => P x y /\ Q x y) xs ys.
Proof.
  intros HP. induction HP as [|x y xs ys Hx _ IH]; intros HQ; [constructor|].
  apply Forall2_cons_1 in HQ as [Hq HQ]. constructor; auto.
Qed.

Lemma forward_bridged ast :
  let m := astToDiagramModel ast in
  bridged (nodes m) (buildChildrenMap (buildNodeMap (nodes m)) (edges m))
  /\ forall x, In x (nodes m) -> buildNodeMap (nodes m) !! node_id x = Some x.
Proof.
  destruct (astToDiagramModel_built ast) as (b & Hn & Hl & ->). cbn. split.
  - apply built_bridged; assumption.
  - apply buildNodeMap_NoDup, numbered_NoDup, Hn.
Qed.

Lemma attributesBack_read depth (ds : list AttributeNode) :
  attributesBack (S depth) ds ->
  forallb reversible ds = true /\ Forall (fun s => (attrDepth s <= depth)%nat) ds.
Proof.
  intros [H1 H2]. split; [exact H1|]. eapply List.Forall_impl; [|exact H2].
  intros s Hs. cbv beta in Hs. lia.
Qed.

(** The model of an AST, read back. *)
Lemma forward_read depth ast :
  modelRoundTrips (S depth) ast ->
  let m := astToDiagramModel ast in
  let nodeMap := buildNodeMap (nodes m) in
  let childrenMap := buildChildrenMap nodeMap (edges m) in
  Forall2 (fun x e => entityOfNode (S depth) childrenMap x = Ok e)
    (List.filter isEntityNode (nodes m)) (entities ast)
  /\ Forall2 (fun x r => relationshipOfNode (S depth) nodeMap childrenMap (edges m) x = Ok r)
       (List.filter isRelationshipNode (nodes m)) (relationships ast).
Proof.
  intros (_ & Hents & Hrels) m nodeMap childrenMap.
  destruct (forward_bridged ast) as [Hbridge Hlook]. fold m nodeMap childrenMap in Hbridge, Hlook.
  pose proof (entities_phase (entities ast) [] resetIdCounters ∅ entityPhase_start) as HE.
  cbn [app] in HE.
  pose proof (fold_processEntity (entities ast) resetIdCounters ∅) as HbE.
  assert (Hm : m = let '(b, entityNodeMap) :=
                     fold_left processEntity (entities ast) (resetIdCounters, ∅) in
                   let b := fold_left (processRelationship entityNodeMap)
                              (relationships ast) b in
                   {| nodes := out_nodes b; edges := out_edges b |}) by reflexivity.
  destruct (fold_left processEntity (entities ast) (resetIdCounters, ∅)) as [bE emap].
  cbn [fst snd] in HE, HbE.
  destruct (entities_declare (entities ast) resetIdCounters) as (NE & HNE & HcE & HdE).
  rewrite <- HbE in HNE, HcE, HdE. cbn [app out_nodes resetIdCounters nodeIdCounter] in HNE, HcE, HdE.
  destruct (relationships_declare emap (relationships ast) bE) as (NR & HNR & HcR & HdR).
  destruct (relationship_edges (entities ast) bE emap (relationships ast) HE)
    as (ks & Hlen & Hgt & Hrelnodes & Hentnodes & Hsides).
  set (bF := fold_left (processRelationship emap) (relationships ast) bE) in *.
  assert (Hnodes : nodes m = NE ++ NR) by (rewrite Hm; cbn; rewrite HNR, HNE; reflexivity).
  assert (Hedges : edges m = out_edges bF) by (rewrite Hm; reflexivity).
  clearbody m. clear Hm.
  destruct HdE as (HiE & HmkE & HrE). destruct HdR as (HiR & HmkR & HrR).
  pose proof HE as (_ & _ & Hnorel & _ & _).
  assert (HfE : List.filter isEntityNode (nodes m) = List.filter isEntityNode NE).
  { rewrite Hnodes, <- HNE, <- HNR, Hentnodes. reflexivity. }
  assert (HfR : List.filter isRelationshipNode (nodes m) = List.filter isRelationshipNode NR).
  { rewrite Hnodes, List.filter_app.
    rewrite (filter_nil_Forall isRelationshipNode NE) by (rewrite <- HNE; exact Hnorel).
    reflexivity. }
  split.
  - rewrite HfE.
    assert (Hattrs : Forall2 (fun x e => getAttributesForNode (S depth) (node_id x) childrenMap
                                         = Ok (ent_attributes e))
                       (List.filter isEntityNode NE) (entities ast)).
    { apply (HrE [] NR).
      - cbn [app]. rewrite <- Hnodes. exact Hbridge.
      - constructor.
      - eapply inside_outside; eauto; lia.
      - eapply List.Forall_impl; [|exact Hents]. intros e He. apply attributesBack_read, He. }
    eapply Forall2_impl; [apply (Forall2_and _ _ _ _ HmkE Hattrs)|].
    intros x e [Hx Ha]. unfold entityOfNode. rewrite Ha. cbn [mbind Result_bind].
    rewrite Hx. cbn. destruct e. reflexivity.
  - rewrite HfR.
    assert (Hattrs : Forall2 (fun x r => getAttributesForNode (S depth) (node_id x) childrenMap
                                         = Ok (rel_attributes r))
                       (List.filter isRelationshipNode NR) (relationships ast)).
    { apply (HrR NE []).
      - rewrite app_nil_r, <- Hnodes. exact Hbridge.
      - eapply inside_outside; eauto; lia.
      - constructor.
      - eapply List.Forall_impl; [|exact Hrels]. intros r Hr. apply attributesBack_read, Hr. }
    assert (Hsd : Forall2 (fun x r => relationshipSides nodeMap (edges m) x
                                      = (leftSide r, rightSide r)
                                      /\ rel_name r <> [])
                    (List.filter isRelationshipNode NR) (relationships ast)).
    { rewrite <- HfR, Hnodes, <- HNE, <- HNR, Hrelnodes.
      apply Forall2_same_length_lookup_2.
      { rewrite length_zip_with. lia. }
      intros i x r Hx Hr. apply lookup_zip_with_Some in Hx as (r' & k & -> & Hr' & Hk).
      rewrite Hr in Hr'. injection Hr' as <-.
      rewrite List.Forall_forall in Hrels.
      destruct (Hrels r) as (_ & Hname & Hl & Hri).
      { apply list_elem_of_In. eapply list_elem_of_lookup_2; eauto. }
      split; [|exact Hname].
      destruct (entityPhase_declared _ _ _ _ HE Hl) as (xl & kl & Hgl & Hinl & Hll & Hidl & Hkl).
      destruct (entityPhase_declared _ _ _ _ HE Hri) as (xr & kr & Hgr & Hinr & Hlr & Hidr & Hkr).
      assert (Hkgt : nodeIdCounter bE < k).
      { rewrite List.Forall_forall in Hgt. apply Hgt, list_elem_of_In.
        eapply list_elem_of_lookup_2; eauto. }
      apply (sides_read nodeMap (edges m) r k xl xr kl kr); auto; try lia.
      - rewrite Hedges, (Hsides i r k Hr Hk), Hgl, Hgr. reflexivity.
      - apply Hlook. rewrite Hnodes, <- HNE. apply in_or_app. left. exact Hinl.
      - apply Hlook. rewrite Hnodes, <- HNE. apply in_or_app. left. exact Hinr. }
    eapply Forall2_impl; [apply (Forall2_and _ _ _ _ HmkR (Forall2_and _ _ _ _ Hattrs Hsd))|].
    intros x r (Hx & Ha & Hs & Hname). unfold relationshipOfNode. rewrite Hs, Ha.
    cbn [mbind Result_bind]. rewrite Hx. cbn.
    rewrite bool_decide_eq_false_2 by assumption. destruct r. reflexivity.
Qed.

Lemma diagramModelToAST_astToDiagramModel (depth : nat) (ast : ERDiagramAST) :
  modelRoundTrips depth ast ->
  diagramModelToAST depth (astToDiagramModel ast) = Ok ast.
Proof.
  intros H. destruct depth as [|depth]; [destruct H as [H _]; lia|].
  destruct (forward_read depth ast H) as [He Hr].
  unfold diagramModelToAST.
  rewrite (mapResult_Forall2 _ _ _ He). cbn [mbind Result_bind].
  rewrite (mapResult_Forall2 _ _ _ Hr). cbn [mbind Result_bind].
  destruct ast. reflexivity.
Qed.

(** ** What the model keeps of the AST *)

Lemma attributeDiagramNode_asDrawn a i q :
  attributeDiagramNode (asDrawn a) i q = attributeDiagramNode a i q.
Proof. destruct a as [n ty k target dt subs]. destruct ty; reflexivity. Qed.

Lemma pushAttribute_asDrawn a q b : pushAttribute (asDrawn a) q b = pushAttribute a q b.
Proof. unfold pushAttribute. rewrite attributeDiagramNode_asDrawn. reflexivity. Qed.

Lemma fold_left_map_ext {A B} (f : B -> A -> B) (g : A -> A) l :
  Forall (fun a => forall b, f b (g a) = f b a) l ->
  forall b, fold_left f (List.map g l) b = fold_left f l b.
Proof.
  induction 1 as [|a l Ha _ IH]; intros b; simpl; [reflexivity|].
  rewrite Ha. apply IH.
Qed.

Lemma processAttribute_asDrawn a : forall q b,
  processAttribute (asDrawn a) q b = processAttribute a q b.
Proof.
  induction a as [n ty k target dt subs IH] using AttributeNode_ind. intros q b.
  rewrite !processAttribute_unfold, pushAttribute_asDrawn.
  destruct ty, subs as [l|]; try reflexivity.
  cbn [asDrawn attributeType subAttributes].
  apply (fold_left_map_ext
           (fun b' subAttr => processAttribute subAttr (nodeIdOf (nodeIdCounter b + 1)) b')).
  eapply List.Forall_impl; [|exact IH]. intros a Ha b'. apply Ha.
Qed.

Lemma processAttributes_asDrawn l q b :
  processAttributes (List.map asDrawn l) q b = processAttributes l q b.
Proof.
  unfold processAttributes.
  apply (fold_left_map_ext (fun b' attr => processAttribute attr q b')).
  apply List.Forall_forall. intros a _ b'. apply processAttribute_asDrawn.
Qed.

Lemma astToDiagramModel_asDrawn ast :
  astToDiagramModel (astAsDrawn ast) = astToDiagramModel ast.
Proof.
  unfold astToDiagramModel, astAsDrawn. cbn [entities relationships].
  rewrite (fold_left_map_ext processEntity entityAsDrawn).
  2:{ apply List.Forall_forall. intros e _ [b m]. unfold processEntity.
      cbn [generateNodeId]. unfold entityAsDrawn at 1. cbn [ent_name ent_attributes].
      rewrite processAttributes_asDrawn. reflexivity. }
  destruct (fold_left processEntity (entities ast) (resetIdCounters, ∅)) as [b m].
  rewrite (fold_left_map_ext (processRelationship m) relationshipAsDrawn); [reflexivity|].
  apply List.Forall_forall. intros r _ b'. unfold processRelationship.
  cbn [generateNodeId]. unfold relationshipAsDrawn at 1.
  cbn [rel_attributes leftSide rightSide]. rewrite processAttributes_asDrawn. reflexivity.
Qed.

Lemma reversible_asDrawn a : reversible (asDrawn a) = true.
Proof.
  induction a as [n ty k target dt subs IH] using AttributeNode_ind.
  destruct ty, subs as [l|]; try reflexivity.
  cbn [asDrawn reversible attributeType subAttributes].
  apply forallb_forall. intros s Hs. apply in_map_iff in Hs as (a & <- & Ha).
  rewrite List.Forall_forall in IH. apply IH, Ha.
Qed.

Lemma asDrawn_fixed a : asDrawn a = a <-> reversible a = true.
Proof.
  induction a as [n ty k target dt subs IH] using AttributeNode_ind.
  destruct ty, subs as [l|]; cbn [asDrawn reversible attributeType subAttributes attr_name
                                   keyType fkTarget dataType];
    try (split; [reflexivity|discriminate]); try (split; [discriminate|reflexivity]);
    try (split; [intros H; reflexivity|intros _; reflexivity]);
    try (split; intros H; [injection H; discriminate|discriminate]).
  assert (Hl : List.map asDrawn l = l <-> forallb reversible l = true).
  { clear -IH. induction IH as [|a l Ha _ IHl]; simpl; [tauto|].
    rewrite andb_true_iff, <- Ha, <- IHl. split.
    - intros [= H1 H2]. split; assumption.
    - intros [-> ->]. reflexivity. }
  rewrite <- Hl. split; [intros [= H]; exact H|intros ->; reflexivity].
Qed.

Lemma map_asDrawn_fixed l : List.map asDrawn l = l <-> forallb reversible l = true.
Proof.
  induction l as [|a l IH]; simpl; [tauto|].
  rewrite andb_true_iff, <- asDrawn_fixed, <- IH. split.
  - intros [= H1 H2]. split; assumption.
  - intros [-> ->]. reflexivity.
Qed.

Lemma astAsDrawn_fixed ast : astAsDrawn ast = ast <-> allReversible ast.
Proof.
  destruct ast as [es rs]. unfold astAsDrawn, allReversible. cbn [entities relationships].
  assert (He : List.map entityAsDrawn es = es
               <-> Forall (fun e => forallb reversible (ent_attributes e) = true) es).
  { induction es as [|e es IH]; simpl.
    - split; [constructor|reflexivity].
    - rewrite List.Forall_cons_iff, <- IH, <- map_asDrawn_fixed. split.
      + intros [= H1 H2]. split; [|exact H2]. destruct e. unfold entityAsDrawn in H1.
        simpl in *. congruence.
      + intros [H1 H2]. rewrite H2. f_equal. destruct e. unfold entityAsDrawn.
        simpl in *. congruence. }
  assert (Hr : List.map relationshipAsDrawn rs = rs
               <-> Forall (fun r => forallb reversible (rel_attributes r) = true) rs).
  { induction rs as [|r rs IH]; simpl.
    - split; [constructor|reflexivity].
    - rewrite List.Forall_cons_iff, <- IH, <- map_asDrawn_fixed. split.
      + intros [= H1 H2]. split; [|exact H2]. destruct r. unfold relationshipAsDrawn in H1.
        simpl in *. congruence.
      + intros [H1 H2]. rewrite H2. f_equal. destruct r. unfold relationshipAsDrawn.
        simpl in *. congruence. }
  rewrite <- He, <- Hr. split.
  - intros [= H1 H2]. split; assumption.
  - intros [-> ->]. reflexivity.
Qed.

Lemma readWithin_back depth l :
  readWithin depth l -> attributesBack depth (List.map asDrawn l).
Proof.
  intros H. split.
  - apply forallb_forall. intros s Hs. apply in_map_iff in Hs as (a & <- & _).
    apply reversible_asDrawn.
  - apply List.Forall_map. exact H.
Qed.

Lemma modelReads_asDrawn depth ast :
  modelReads depth ast -> modelRoundTrips depth (astAsDrawn ast).
Proof.
  intros (Hd & He & Hr). split; [exact Hd|]. unfold astAsDrawn. cbn [entities relationships].
  split.
  - apply List.Forall_map. eapply List.Forall_impl; [|exact He].
    intros e H. apply readWithin_back, H.
  - apply List.Forall_map. eapply List.Forall_impl; [|exact Hr].
    intros r (H1 & H2 & H3 & H4). rewrite List.map_map. cbn [ent_name entityAsDrawn].
    split; [apply readWithin_back, H1|]. split; [exact H2|]. split; assumption.
Qed.

(** X11. What an AST loses on its way through the model: [diagramModelToAST]
    gives back, from the model that [astToDiagramModel] makes of an AST, the
    AST with every attribute as the model holds it, a 'typed' attribute as a
    simple one, sub-attributes only below composite attributes, and a composite
    attribute with a list of them; so the AST comes back as it was exactly
    when all its attributes are [reversible]. *)
Theorem X11_model_keeps (depth : nat) (ast : ERDiagramAST) :
  modelReads depth ast ->
  diagramModelToAST depth (astToDiagramModel ast) = Ok (astAsDrawn ast)
  /\ (diagramModelToAST depth (astToDiagramModel ast) = Ok ast <-> allReversible ast).
Proof.
  intros H.
  assert (E : diagramModelToAST depth (astToDiagramModel ast) = Ok (astAsDrawn ast)).
  { rewrite <- astToDiagramModel_asDrawn.
    apply diagramModelToAST_astToDiagramModel, modelReads_asDrawn, H. }
  split; [exact E|]. rewrite E, <- astAsDrawn_fixed. split; congruence.
Qed.

Lemma X11_witness :
  modelReads 2 typedAfterCompositeAST
  /\ diagramModelToAST 2 (astToDiagramModel typedAfterCompositeAST)
     = Ok (astAsDrawn typedAfterCompositeAST)
  /\ (diagramModelToAST 2 (astToDiagramModel typedAfterCompositeAST)
      = Ok typedAfterCompositeAST <-> allReversible typedAfterCompositeAST).
Proof.
  assert (H : modelReads 2 typedAfterCompositeAST).
  { split; [lia|]. split; [|apply List.Forall_nil].
    repeat (apply List.Forall_cons;
            [repeat (apply List.Forall_cons; [vm_compute; lia|]); apply List.Forall_nil|]).
    apply List.Forall_nil. }
  split; [exact H|]. apply (X11_model_keeps 2 typedAfterCompositeAST H).
Defined.

(** ** The nodes and the edges of the model of an AST *)

Lemma attributeKinds_app l1 l2 :
  attributeKinds (l1 ++ l2) = attributeKinds l1 ++ attributeKinds l2.
Proof. unfold attributeKinds. rewrite flat_map_app, List.map_app. reflexivity. Qed.

Lemma fold_kinds (f : Build -> AttributeNode -> Build) l :
  Forall (fun a => forall b, List.map kind (out_nodes (f b a))
                             = List.map kind (out_nodes b) ++ attributeKinds [a]) l ->
  forall b, List.map kind (out_nodes (fold_left f l b))
            = List.map kind (out_nodes b) ++ attributeKinds l.
Proof.
  induction 1 as [|a l Ha _ IH]; intros b; cbn [fold_left].
  - unfold attributeKinds. simpl. rewrite app_nil_r. reflexivity.
  - rewrite IH, Ha, <- app_assoc, <- attributeKinds_app. reflexivity.
Qed.

Lemma processAttribute_kinds a : forall q b,
  List.map kind (out_nodes (processAttribute a q b))
  = List.map kind (out_nodes b) ++ attributeKinds [a].
Proof.
  induction a as [n ty k target dt subs IH] using AttributeNode_ind. intros q b.
  rewrite processAttribute_unfold. cbn [attributeType subAttributes].
  assert (Hpush : forall a' : AttributeNode,
             List.map kind (out_nodes (pushAttribute a' q b))
             = List.map kind (out_nodes b)
               ++ [(attributeNodeType (attributeType a'), attr_name a')]).
  { intros a'. unfold pushAttribute. cbn. rewrite List.map_app. reflexivity. }
  destruct ty, subs as [l|];
    try (rewrite Hpush; unfold attributeKinds; cbn; reflexivity).
  rewrite (fold_kinds _ l).
  - rewrite Hpush, <- app_assoc. unfold attributeKinds. cbn. rewrite app_nil_r. reflexivity.
  - eapply List.Forall_impl; [|exact IH]. intros s Hs b'. apply Hs.
Qed.

Lemma processAttributes_kinds l q b :
  List.map kind (out_nodes (processAttributes l q b))
  = List.map kind (out_nodes b) ++ attributeKinds l.
Proof.
  unfold processAttributes. apply fold_kinds.
  apply List.Forall_forall. intros a _ b'. apply processAttribute_kinds.
Qed.

Lemma processEntity_kinds b emap e :
  List.map kind (out_nodes (processEntity (b, emap) e).1)
  = List.map kind (out_nodes b) ++ entityKinds e.
Proof.
  unfold processEntity. cbn [generateNodeId fst]. rewrite processAttributes_kinds.
  cbn [pushNode out_nodes]. rewrite List.map_app, <- app_assoc. reflexivity.
Qed.

Lemma processRelationship_kinds emap b r :
  List.map kind (out_nodes (processRelationship emap b r))
  = List.map kind (out_nodes b) ++ relationshipKinds r.
Proof.
  unfold processRelationship. cbn [generateNodeId]. rewrite processAttributes_kinds.
  destruct (getTruthy emap (side_entityName (leftSide r))),
           (getTruthy emap (side_entityName (rightSide r)));
    cbn [generateEdgeId pushEdge pushNode out_nodes];
    rewrite List.map_app, <- app_assoc; reflexivity.
Qed.

Lemma astToDiagramModel_kinds ast :
  List.map kind (nodes (astToDiagramModel ast)) = astKinds ast.
Proof.
  unfold astToDiagramModel, astKinds.
  assert (HE : forall es st,
             List.map kind (out_nodes (fold_left processEntity es st).1)
             = List.map kind (out_nodes st.1) ++ flat_map entityKinds es).
  { induction es as [|e es IH]; intros [b emap]; cbn [fold_left flat_map].
    - rewrite app_nil_r. reflexivity.
    - rewrite IH. destruct (processEntity (b, emap) e) as [b' emap'] eqn:E.
      pose proof (processEntity_kinds b emap e) as H. rewrite E in H. cbn [fst] in *.
      rewrite H, <- app_assoc. reflexivity. }
  specialize (HE (entities ast) (resetIdCounters, ∅)).
  destruct (fold_left processEntity (entities ast) (resetIdCounters, ∅)) as [bE emap].
  cbn [fst resetIdCounters out_nodes List.map app] in HE. cbn [nodes]. rewrite <- HE.
  generalize bE. induction (relationships ast) as [|r rs IH]; intros b; cbn [fold_left flat_map].
  - rewrite app_nil_r. reflexivity.
  - rewrite IH, processRelationship_kinds, <- app_assoc. reflexivity.
Qed.

(** X12. The nodes of the model are the declarations of the AST in order:
    every entity, then every relationship, each followed by its attributes,
    and every composite attribute by its sub-attributes; a node has the type
    of what it stands for, a 'typed' attribute that of a simple one, and its
    label is the name of the entity or attribute and the verb of the
    relationship.  So the model has one node for each of them. *)
Theorem X12_nodes_in_order (ast : ERDiagramAST) :
  List.map kind (nodes (astToDiagramModel ast)) = astKinds ast
  /\ length (nodes (astToDiagramModel ast)) = length (astKinds ast).
Proof.
  split; [apply astToDiagramModel_kinds|].
  rewrite <- astToDiagramModel_kinds, length_map. reflexivity.
Qed.

(** *** Edges join nodes *)

Lemma joins_more ids1 ids2 es :
  (forall i, In i ids1 -> In i ids2) -> joins ids1 es -> joins ids2 es.
Proof.
  intros Hsub. apply List.Forall_impl. intros e [H1 H2]. split; apply Hsub; assumption.
Qed.

Lemma joined_attribute a q b :
  In q (ids b) -> joined b ->
  joined (pushAttribute a q b)
  /\ In (nodeIdOf (nodeIdCounter b + 1)) (ids (pushAttribute a q b))
  /\ forall i, In i (ids b) -> In i (ids (pushAttribute a q b)).
Proof.
  intros Hq Hb. unfold joined, ids, pushAttribute.
  cbn [pushNode pushEdge generateNodeId generateEdgeId snd out_nodes out_edges].
  rewrite List.map_app. cbn [List.map attributeDiagramNode node_id].
  assert (Hsub : forall i, In i (List.map node_id (out_nodes b)) ->
                           In i (List.map node_id (out_nodes b)
                                 ++ [nodeIdOf (nodeIdCounter b + 1)])).
  { intros i Hi. apply in_or_app. left. exact Hi. }
  split; [|split; [apply in_or_app; right; left; reflexivity|exact Hsub]].
  apply List.Forall_app. split; [eapply joins_more; [exact Hsub|exact Hb]|].
  constructor; [|constructor]. cbn. split; [apply Hsub, Hq|].
  apply in_or_app. right. left. reflexivity.
Qed.

Lemma fold_joined (f : Build -> AttributeNode -> Build) (q : jsstring) l :
  Forall (fun a => forall b, In q (ids b) -> joined b ->
                             joined (f b a) /\ forall i, In i (ids b) -> In i (ids (f b a))) l ->
  forall b, In q (ids b) -> joined b ->
            joined (fold_left f l b) /\ forall i, In i (ids b) -> In i (ids (fold_left f l b)).
Proof.
  induction 1 as [|a l Ha _ IH]; intros b Hq Hb; cbn [fold_left]; [split; auto|].
  destruct (Ha b Hq Hb) as [H1 H2]. destruct (IH (f b a) (H2 q Hq) H1) as [H3 H4].
  split; [exact H3|]. intros i Hi. apply H4, H2, Hi.
Qed.

Lemma processAttribute_joined a : forall q b,
  In q (ids b) -> joined b ->
  joined (processAttribute a q b)
  /\ forall i, In i (ids b) -> In i (ids (processAttribute a q b)).
Proof.
  induction a as [n ty k target dt subs IH] using AttributeNode_ind. intros q b Hq Hb.
  rewrite processAttribute_unfold. cbn [attributeType subAttributes].
  set (a := {| attr_name := n; attributeType := ty; keyType := k; fkTarget := target;
               dataType := dt; subAttributes := subs |}).
  destruct (joined_attribute a q b Hq Hb) as (H1 & H2 & H3).
  destruct ty, subs as [l|]; try (split; assumption).
  destruct (fold_joined
              (fun b' subAttr => processAttribute subAttr (nodeIdOf (nodeIdCounter b + 1)) b')
              (nodeIdOf (nodeIdCounter b + 1)) l) with (b := pushAttribute a q b)
    as [H4 H5]; try assumption.
  - eapply List.Forall_impl; [|exact IH]. intros s Hs b'. apply Hs.
  - split; [exact H4|]. intros i Hi. apply H5, H3, Hi.
Qed.

Lemma processAttributes_joined l q b :
  In q (ids b) -> joined b ->
  joined (processAttributes l q b)
  /\ forall i, In i (ids b) -> In i (ids (processAttributes l q b)).
Proof.
  unfold processAttributes. apply fold_joined.
  apply List.Forall_forall. intros a _ b'. apply processAttribute_joined.
Qed.

Lemma joined_node b x :
  joined b ->
  joined (pushNode (snd (generateNodeId b)) x)
  /\ In (node_id x) (ids (pushNode (snd (generateNodeId b)) x))
  /\ forall i, In i (ids b) -> In i (ids (pushNode (snd (generateNodeId b)) x)).
Proof.
  intros Hb. unfold joined, ids. cbn [pushNode generateNodeId snd out_nodes out_edges].
  rewrite List.map_app.
  assert (Hsub : forall i, In i (List.map node_id (out_nodes b)) ->
                           In i (List.map node_id (out_nodes b) ++ List.map node_id [x])).
  { intros i Hi. apply in_or_app. left. exact Hi. }
  split; [eapply joins_more; [exact Hsub|exact Hb]|].
  split; [apply in_or_app; right; left; reflexivity|exact Hsub].
Qed.

Lemma joined_edge b e :
  In (sourceId e) (ids b) -> In (targetId e) (ids b) -> joined b ->
  joined (pushEdge (snd (generateEdgeId b)) e)
  /\ forall i, In i (ids b) -> In i (ids (pushEdge (snd (generateEdgeId b)) e)).
Proof.
  intros Hs Ht Hb. unfold joined, ids. cbn [pushEdge generateEdgeId snd out_nodes out_edges].
  split; [|auto]. apply List.Forall_app. split; [exact Hb|].
  constructor; [split; assumption|constructor].
Qed.

Lemma getTruthy_lookup (emap : gmap jsstring jsstring) n i :
  getTruthy emap n = Some i -> emap !! n = Some i.
Proof.
  unfold getTruthy. destruct (emap !! n) as [v|]; [|discriminate].
  destruct (bool_decide (v = [])); [discriminate|]. congruence.
Qed.

Lemma processEntity_joined b emap e :
  joined b -> mapped b emap ->
  joined (processEntity (b, emap) e).1
  /\ mapped (processEntity (b, emap) e).1 (processEntity (b, emap) e).2.
Proof.
  intros Hb Hm. unfold processEntity. cbn [generateNodeId fst snd].
  destruct (joined_node b (entityDiagramNode e (nodeIdOf (nodeIdCounter b + 1))) Hb)
    as (H1 & H2 & H3).
  cbn [generateNodeId snd entityDiagramNode node_id] in *.
  destruct (processAttributes_joined (ent_attributes e) _ _ H2 H1) as [H4 H5].
  split; [exact H4|]. intros n i Hi.
  destruct (decide (n = ent_name e)) as [->|Hn].
  - rewrite lookup_insert_eq in Hi. injection Hi as <-. apply H5, H2.
  - rewrite lookup_insert_ne in Hi by congruence. apply H5, H3, (Hm n i Hi).
Qed.

Lemma processRelationship_joined emap b r :
  joined b -> mapped b emap ->
  joined (processRelationship emap b r) /\ mapped (processRelationship emap b r) emap.
Proof.
  intros Hb Hm. unfold processRelationship. cbn [generateNodeId].
  destruct (joined_node b (relationshipDiagramNode r (nodeIdOf (nodeIdCounter b + 1))) Hb)
    as (H1 & H2 & H3).
  cbn [generateNodeId snd relationshipDiagramNode node_id] in *.
  set (b1 := pushNode _ _) in *.
  set (b2 := match getTruthy emap (side_entityName (leftSide r)) with
             | Some leftEntityId => _
             | None => b1
             end).
  assert (Hb2 : joined b2 /\ forall i, In i (ids b1) -> In i (ids b2)).
  { subst b2. destruct (getTruthy emap (side_entityName (leftSide r))) as [l|] eqn:El;
      [|split; auto].
    apply (joined_edge b1 (leftEdge (edgeIdOf (edgeIdCounter b1 + 1)) l
                             (nodeIdOf (nodeIdCounter b + 1)) r)); auto.
    cbn. apply H3, (Hm _ _ (getTruthy_lookup _ _ _ El)). }
  destruct Hb2 as [H4 H5].
  set (b3 := match getTruthy emap (side_entityName (rightSide r)) with
             | Some rightEntityId => _
             | None => b2
             end).
  assert (Hb3 : joined b3 /\ forall i, In i (ids b2) -> In i (ids b3)).
  { subst b3. destruct (getTruthy emap (side_entityName (rightSide r))) as [l|] eqn:El;
      [|split; auto].
    apply (joined_edge b2 (rightEdge (edgeIdOf (edgeIdCounter b2 + 1))
                             (nodeIdOf (nodeIdCounter b + 1)) l r)); auto.
    cbn. apply H5, H3, (Hm _ _ (getTruthy_lookup _ _ _ El)). }
  destruct Hb3 as [H6 H7].
  destruct (processAttributes_joined (rel_attributes r) (nodeIdOf (nodeIdCounter b + 1)) b3)
    as [H8 H9]; auto.
  split; [exact H8|]. intros n i Hi. apply H9, H7, H5, H3, (Hm n i Hi).
Qed.

Lemma astToDiagramModel_joined ast :
  joins (List.map node_id (nodes (astToDiagramModel ast))) (edges (astToDiagramModel ast)).
Proof.
  unfold astToDiagramModel.
  assert (HE : forall es st, joined st.1 -> mapped st.1 st.2 ->
                             joined (fold_left processEntity es st).1
                             /\ mapped (fold_left processEntity es st).1
                                  (fold_left processEntity es st).2).
  { induction es as [|e es IH]; intros [b emap] H1 H2; cbn [fold_left]; [split; assumption|].
    destruct (processEntity_joined b emap e H1 H2) as [H3 H4].
    destruct (processEntity (b, emap) e) as [b' emap']. apply IH; assumption. }
  destruct (HE (entities ast) (resetIdCounters, ∅)) as [H1 H2].
  { constructor. }
  { intros n i Hi. cbn [snd] in Hi. rewrite lookup_empty in Hi. discriminate. }
  destruct (fold_left processEntity (entities ast) (resetIdCounters, ∅)) as [bE emap].
  cbn [fst snd] in *. cbn [nodes edges].
  assert (HR : forall rs b, joined b -> mapped b emap ->
                            joined (fold_left (processRelationship emap) rs b)).
  { induction rs as [|r rs IH]; intros b H3 H4; cbn [fold_left]; [exact H3|].
    destruct (processRelationship_joined emap b r H3 H4) as [H5 H6]. apply IH; assumption. }
  apply (HR _ _ H1 H2).
Qed.

(** X13. Every edge of the model of an AST joins two nodes of the model, and
    the edges without cardinality are the edges from a parent to its
    attribute: one for every node that has a parent, from the node named by
    its [parentId] to the node, in the order of the nodes. *)
Theorem X13_edges_join_nodes (ast : ERDiagramAST) :
  let m := astToDiagramModel ast in
  joins (List.map node_id (nodes m)) (edges m)
  /\ ends (edges m) = links (nodes m).
Proof.
  split; [apply astToDiagramModel_joined|].
  destruct (astToDiagramModel_built ast) as (b & _ & H & ->). exact H.
Qed.

(** ** What the reverse transform does not read *)

Section Relaid.
Context (g : DiagramNode -> DiagramNode).
Let h := relaidNode g.

Lemma buildNodeMap_relaid ns : buildNodeMap (List.map h ns) = h <$> buildNodeMap ns.
Proof.
  unfold buildNodeMap.
  assert (H : forall acc : gmap jsstring DiagramNode,
             fold_left (fun m node => <[node_id node := node]> m) (List.map h ns) (h <$> acc)
             = h <$> fold_left (fun m node => <[node_id node := node]> m) ns acc).
  { induction ns as [|x ns IH]; intros acc; simpl; [reflexivity|].
    rewrite <- IH, fmap_insert. reflexivity. }
  rewrite <- H, fmap_empty. reflexivity.
Qed.

Lemma addChild_relaid nm cm e :
  addChild (h <$> nm) (List.map h <$> cm) e = List.map h <$> addChild nm cm e.
Proof.
  unfold addChild. destruct (negb (hasCardinality e)); [|reflexivity].
  rewrite !lookup_fmap. destruct (nm !! targetId e) as [child|]; cbn; [|reflexivity].
  rewrite fmap_insert. f_equal.
  destruct (cm !! sourceId e) as [children|]; cbn; [|reflexivity].
  rewrite List.map_app. reflexivity.
Qed.

Lemma buildChildrenMap_relaid nm es :
  buildChildrenMap (h <$> nm) es = List.map h <$> buildChildrenMap nm es.
Proof.
  unfold buildChildrenMap.
  assert (H : forall acc : gmap jsstring (list DiagramNode),
             fold_left (addChild (h <$> nm)) es (List.map h <$> acc)
             = List.map h <$> fold_left (addChild nm) es acc).
  { induction es as [|e es IH]; intros acc; simpl; [reflexivity|].
    rewrite addChild_relaid, IH. reflexivity. }
  rewrite <- H, fmap_empty. reflexivity.
Qed.

Lemma fold_left_relaid {B} (f f' : B -> DiagramNode -> B) l :
  (forall b x, f' b (h x) = f b x) ->
  forall b, fold_left f' (List.map h l) b = fold_left f l b.
Proof.
  intros Hf. induction l as [|x l IH]; intros b; simpl; [reflexivity|].
  rewrite Hf. apply IH.
Qed.

Lemma getAttributesForNode_relaid depth : forall q cm,
  getAttributesForNode depth q (List.map h <$> cm) = getAttributesForNode depth q cm.
Proof.
  induction depth as [|depth IH]; intros q cm; [reflexivity|].
  cbn [getAttributesForNode]. rewrite lookup_fmap.
  replace (default [] (List.map h <$> cm !! q)) with (List.map h (default [] (cm !! q)))
    by (destruct (cm !! q); reflexivity).
  apply fold_left_relaid. intros acc child.
  destruct acc as [attributes|message|]; cbn [mbind Result_bind]; try reflexivity.
  change (type (h child)) with (type child).
  change (attributeOfNode (h child)) with (attributeOfNode child).
  change (node_id (h child)) with (node_id child).
  rewrite IH. reflexivity.
Qed.

Lemma entityOfNode_relaid depth cm x :
  entityOfNode depth (List.map h <$> cm) (h x) = entityOfNode depth cm x.
Proof.
  unfold entityOfNode. change (node_id (h x)) with (node_id x).
  rewrite getAttributesForNode_relaid. reflexivity.
Qed.

Lemma updateSides_relaid nm x sides e :
  updateSides (h <$> nm) (h x) sides e = updateSides nm x sides e.
Proof.
  unfold updateSides. destruct sides as [lside rside].
  change (node_id (h x)) with (node_id x). rewrite !lookup_fmap.
  destruct (nm !! sourceId e), (nm !! targetId e); reflexivity.
Qed.

Lemma relationshipSides_relaid nm es x :
  relationshipSides (h <$> nm) es (h x) = relationshipSides nm es x.
Proof.
  unfold relationshipSides. change (relEdgesOf es (h x)) with (relEdgesOf es x).
  generalize (defaultLeftSide, defaultRightSide).
  induction (relEdgesOf es x) as [|e l IH]; intros sides; simpl; [reflexivity|].
  rewrite updateSides_relaid. apply IH.
Qed.

Lemma relationshipOfNode_relaid depth nm cm es x :
  relationshipOfNode depth (h <$> nm) (List.map h <$> cm) es (h x)
  = relationshipOfNode depth nm cm es x.
Proof.
  unfold relationshipOfNode. rewrite relationshipSides_relaid.
  change (node_id (h x)) with (node_id x). rewrite getAttributesForNode_relaid. reflexivity.
Qed.

Lemma filter_relaid (p : DiagramNode -> bool) ns :
  (forall x, p (h x) = p x) -> List.filter p (List.map h ns) = List.map h (List.filter p ns).
Proof.
  intros Hp. induction ns as [|x ns IH]; simpl; [reflexivity|].
  rewrite Hp. destruct (p x); simpl; rewrite IH; reflexivity.
Qed.

Lemma mapResult_relaid {B} (f f' : DiagramNode -> Result B) l :
  (forall x, f' (h x) = f x) -> mapResult f' (List.map h l) = mapResult f l.
Proof.
  intros Hf. induction l as [|x l IH]; simpl; [reflexivity|]. rewrite Hf, IH. reflexivity.
Qed.

End Relaid.

(** X14. [diagramModelToAST] reads neither the geometry of the nodes nor their
    [parentId]: whatever [x], [y], [width], [height] and [parentId] the nodes
    of a model are given, the AST, or the error, is the same.  Which attribute
    belongs to which node is read from the edges alone. *)
Theorem X14_geometry_is_not_read (g : DiagramNode -> DiagramNode) (depth : nat)
    (m : DiagramModel) :
  diagramModelToAST depth (relaid g m) = diagramModelToAST depth m.
Proof.
  unfold diagramModelToAST, relaid. cbn [nodes edges].
  rewrite (buildNodeMap_relaid g), (buildChildrenMap_relaid g).
  rewrite !(filter_relaid g) by reflexivity.
  rewrite (mapResult_relaid g
             (entityOfNode depth (buildChildrenMap (buildNodeMap (nodes m)) (edges m))))
    by (intros x; apply entityOfNode_relaid).
  rewrite (mapResult_relaid g
             (relationshipOfNode depth (buildNodeMap (nodes m))
                (buildChildrenMap (buildNodeMap (nodes m)) (edges m)) (edges m)))
    by (intros x; apply relationshipOfNode_relaid).
  reflexivity.
Qed.

Lemma X14_witness :
  diagramModelToAST 1 (relaid (fun x => bareNode (node_id x) (type x) (label x)) sellsModel)
  = diagramModelToAST 1 sellsModel.
Proof.
  apply (X14_geometry_is_not_read (fun x => bareNode (node_id x) (type x) (label x)) 1
           sellsModel).
Defined.

(** ** The layout: the row of the relationships *)

Lemma connected_sum (positions : gmap jsstring Position) rel edges xs :
  Forall2 (fun e x => exists p, positions !! otherEnd rel e = Some p /\ pos_x p = x) edges xs ->
  forall (a : Q) (c : nat),
    fold_left
      (fun (acc : Q * nat) edge =>
         let otherId := if bool_decide (sourceId edge = node_id rel)
                        then targetId edge else sourceId edge in
         match positions !! otherId with
         | Some otherPos => (fl (fst acc + pos_x otherPos), S (snd acc))%Q
         | None => acc
         end)
      edges (a, c)
    = (fold_left (fun sum x => fl (sum + x)%Q) xs a, (c + length xs)%nat).
Proof.
  induction 1 as [|e x edges xs (p & Hp & Hx) _ IH]; intros a c; cbn [fold_left length].
  - rewrite Nat.add_0_r. reflexivity.
  - unfold otherEnd in Hp. rewrite Hp. cbn [fst snd]. rewrite IH, Hx. f_equal. lia.
Qed.

Lemma placeRelationship_mean es positions rel xs :
  Forall2 (fun e x => exists p, positions !! otherEnd rel e = Some p /\ pos_x p = x)
    (relEdgesOf es rel) xs ->
  placeRelationship es positions rel
  = <[node_id rel := {| pos_x := meanOr400 xs; pos_y := 400 |}]> positions.
Proof.
  intros H. unfold placeRelationship. rewrite (connected_sum _ _ _ _ H). reflexivity.
Qed.

Lemma entities_stay entityNodes rels es k x :
  List.NoDup (List.map node_id entityNodes) ->
  ~ In (node_id x) (List.map node_id rels) ->
  entityNodes !! k = Some x ->
  fold_left (placeRelationship es) rels (fold_left placeEntity entityNodes (∅, 100%Q)).1
    !! node_id x
  = Some {| pos_x := entityColumn k; pos_y := 250 |}.
Proof.
  intros Hnd Hx Hk. rewrite placeRelationships_other by assumption.
  apply (entities_placed entityNodes ∅ 100 k x Hnd Hk).
Qed.

(** X15. [calculateLayout] puts every relationship on the row y = 400, below
    the row of the entities.  When all the edges with a cardinality at the
    relationship come from or go to entities, its abscissa is the mean of the
    abscissas of these entities as the program computes it: one term for
    every such edge, added in the order of the edges and divided by their
    number, every sum and the quotient rounded to the nearest double; it is
    400 when there is no such edge.  The identifiers of the entities and
    relationships are distinct, and the relationship is not listed among the
    attributes. *)
Theorem X15_relationship_between_its_entities
    (entityNodes relationshipNodes attributes : list DiagramNode) (es : list DiagramEdge)
    (j : nat) (r : DiagramNode) :
  List.NoDup (List.map node_id (entityNodes ++ relationshipNodes)) ->
  ~ In (node_id r) (List.map node_id attributes) ->
  relationshipNodes !! j = Some r ->
  (exists x, calculateLayout entityNodes relationshipNodes attributes es !! node_id r
             = Some {| pos_x := x; pos_y := 400 |})
  /\ forall ks,
       Forall2 (fun e k => exists x, entityNodes !! k = Some x /\ node_id x = otherEnd r e)
         (relEdgesOf es r) ks ->
       calculateLayout entityNodes relationshipNodes attributes es !! node_id r
       = Some {| pos_x := meanOr400 (List.map entityColumn ks); pos_y := 400 |}.
Proof.
  intros Hnd Hattr Hj. unfold calculateLayout.
  rewrite List.map_app in Hnd. apply List.NoDup_app_remove_l in Hnd as HndR.
  assert (HndE : List.NoDup (List.map node_id entityNodes))
    by (eapply List.NoDup_app_remove_r; exact Hnd).
  assert (Hdisj : forall x, In x entityNodes ->
                            ~ In (node_id x) (List.map node_id relationshipNodes)).
  { intros x Hx Hin. apply (in_map node_id), in_split in Hx as (l1 & l2 & E).
    rewrite E, <- app_assoc in Hnd. cbn [app] in Hnd. apply List.NoDup_remove_2 in Hnd.
    apply Hnd, in_or_app. right. apply in_or_app. right. exact Hin. }
  pose proof (fun k x => entities_stay entityNodes (take j relationshipNodes) es k x HndE)
    as Hstay.
  destruct (fold_left placeEntity entityNodes (∅, 100%Q)) as [positions ex].
  cbn [fst] in Hstay.
  rewrite placeGroups_other; [|apply groups_members|assumption].
  assert (Hkey : fold_left (placeRelationship es) relationshipNodes positions !! node_id r
                 = placeRelationship es
                     (fold_left (placeRelationship es) (take j relationshipNodes) positions) r
                   !! node_id r).
  { rewrite <- (take_drop_middle relationshipNodes j r Hj) at 1.
    rewrite fold_left_app. cbn [fold_left].
    rewrite <- (take_drop_middle relationshipNodes j r Hj) in HndR.
    rewrite List.map_app in HndR. cbn [List.map] in HndR.
    apply List.NoDup_remove_2 in HndR.
    apply placeRelationships_other. intros Hin. apply HndR, in_or_app. right. exact Hin. }
  rewrite Hkey. split.
  - unfold placeRelationship.
    destruct (fold_left _ (relEdgesOf es r) _) as [avgX count].
    rewrite lookup_insert_eq. eexists. reflexivity.
  - intros ks Hks. rewrite (placeRelationship_mean _ _ _ (List.map entityColumn ks)).
    + apply lookup_insert_eq.
    + apply Forall2_fmap_r. eapply Forall2_impl; [exact Hks|].
      intros e k (x & Hx & Hid). exists {| pos_x := entityColumn k; pos_y := 250 |}.
      split; [|reflexivity]. rewrite <- Hid. apply Hstay; [|exact Hx].
      intros Hin. apply (Hdisj x).
      * apply list_elem_of_In. eapply list_elem_of_lookup_2, Hx.
      * apply in_map_iff in Hin as (y & Hy & Hin). apply in_map_iff. exists y.
        split; [exact Hy|]. rewrite <- (List.firstn_skipn j relationshipNodes).
        apply in_or_app. left. exact Hin.
Qed.

Lemma X15_witness :
  layoutOf threeEdgesModel !! str "r"
  = Some {| pos_x := meanOr400 [entityColumn 0; entityColumn 0; entityColumn 1];
            pos_y := 400 |}
  /\ meanOr400 [entityColumn 0; entityColumn 0; entityColumn 1] = nearest500over3.
Proof.
  split; [|vm_compute; reflexivity].
  assert (H1 : List.NoDup
                 (List.map node_id
                    (List.filter isEntityNode (nodes threeEdgesModel)
                     ++ List.filter isRelationshipNode (nodes threeEdgesModel)))).
  { vm_compute.
    repeat (apply List.NoDup_cons; [cbn; intuition discriminate|]). apply List.NoDup_nil. }
  assert (H2 : ~ In (str "r")
                 (List.map node_id
                    (List.filter (fun n => includesAttribute (type n))
                       (nodes threeEdgesModel)))).
  { vm_compute. intuition discriminate. }
  apply (proj2 (X15_relationship_between_its_entities
                  (List.filter isEntityNode (nodes threeEdgesModel))
                  (List.filter isRelationshipNode (nodes threeEdgesModel))
                  (List.filter (fun n => includesAttribute (type n)) (nodes threeEdgesModel))
                  (edges threeEdgesModel) 0 (bareNode (str "r") relationship (str "R"))
                  H1 H2 eq_refl) [0; 0; 1]%nat).
  vm_compute. repeat constructor; eexists; split; reflexivity.
Defined.

(** ** The layout: the attributes around their parent *)

Lemma assoc_setGroup groups : forall k v k',
  assoc k' (setGroup groups k v)
  = if bool_decide (k' = k) then Some v else assoc k' groups.
Proof.
  induction groups as [|[k0 v0] groups IH]; intros k v k'; cbn [setGroup assoc];
    unfold jsstring_eqb.
  - reflexivity.
  - case_bool_decide as E0; cbn [assoc]; unfold jsstring_eqb.
    + subst k0. repeat case_bool_decide; congruence.
    + rewrite IH. repeat case_bool_decide; congruence.
Qed.

Lemma setGroup_keys groups : forall k v k',
  In k' (List.map fst (setGroup groups k v)) -> k' = k \/ In k' (List.map fst groups).
Proof.
  induction groups as [|[k0 v0] groups IH]; intros k v k'; cbn [setGroup].
  - intros [H|[]]. left. symmetry. exact H.
  - unfold jsstring_eqb. case_bool_decide as E0; cbn [List.map fst In].
    + intros [H|H]; [left; congruence|right; right; exact H].
    + intros [H|H]; [right; left; exact H|].
      apply IH in H as [H|H]; [left; exact H|right; right; exact H].
Qed.

Lemma setGroup_NoDup groups : forall k v,
  List.NoDup (List.map fst groups) -> List.NoDup (List.map fst (setGroup groups k v)).
Proof.
  induction groups as [|[k0 v0] groups IH]; intros k v Hnd; cbn [setGroup].
  - constructor; [intros []|constructor].
  - cbn [List.map fst] in Hnd. apply List.NoDup_cons_iff in Hnd as [Hnotin Hnd].
    unfold jsstring_eqb. case_bool_decide as E0; cbn [List.map fst].
    + subst k0. constructor; assumption.
    + constructor; [|apply IH, Hnd].
      intros H. apply setGroup_keys in H as [H|H]; [congruence|contradiction].
Qed.

Lemma groupOf_snoc pm l x p :
  groupOf pm (l ++ [x]) p
  = groupOf pm l p ++ (if bool_decide (getTruthy pm (node_id x) = Some p) then [x] else []).
Proof. unfold groupOf. rewrite List.filter_app. reflexivity. Qed.

Lemma addToGroup_grouped pm l groups x :
  grouped pm l groups -> grouped pm (l ++ [x]) (addToGroup pm groups x).
Proof.
  intros [Hnd Hassoc]. unfold addToGroup.
  destruct (getTruthy pm (node_id x)) as [parent|] eqn:Ex.
  - split; [apply setGroup_NoDup, Hnd|]. intros p.
    rewrite assoc_setGroup, groupOf_snoc, Ex. case_bool_decide as Ep.
    + subst p. rewrite bool_decide_eq_true_2 by reflexivity. rewrite Hassoc.
      destruct (groupOf pm l parent) as [|c g]; reflexivity.
    + rewrite bool_decide_eq_false_2 by congruence. rewrite app_nil_r. apply Hassoc.
  - split; [exact Hnd|]. intros p. rewrite groupOf_snoc, Ex.
    rewrite bool_decide_eq_false_2 by discriminate. rewrite app_nil_r. apply Hassoc.
Qed.

Lemma groups_grouped pm attributes :
  grouped pm attributes (fold_left (addToGroup pm) attributes []).
Proof.
  assert (H : forall l l0 groups,
             grouped pm l0 groups ->
             grouped pm (l0 ++ l) (fold_left (addToGroup pm) l groups)).
  { induction l as [|x l IH]; intros l0 groups Hg; cbn [fold_left].
    - rewrite app_nil_r. exact Hg.
    - replace (l0 ++ x :: l) with ((l0 ++ [x]) ++ l) by (rewrite <- app_assoc; reflexivity).
      apply IH, addToGroup_grouped, Hg. }
  apply (H attributes [] []). split; [constructor|reflexivity].
Qed.

Lemma In_assoc {A} (groups : list (jsstring * A)) k v :
  List.NoDup (List.map fst groups) -> In (k, v) groups -> assoc k groups = Some v.
Proof.
  induction groups as [|[k0 v0] groups IH]; intros Hnd Hin; [destruct Hin|].
  cbn [List.map fst] in Hnd. apply List.NoDup_cons_iff in Hnd as [Hnotin Hnd].
  cbn [assoc]. unfold jsstring_eqb. destruct Hin as [[= -> ->]|Hin].
  - rewrite bool_decide_eq_true_2 by reflexivity. reflexivity.
  - case_bool_decide as E; [|apply IH; assumption].
    subst k0. exfalso. apply Hnotin. apply in_map_iff. exists (k, v). split; [reflexivity|exact Hin].
Qed.

Lemma grouped_In pm l groups p g :
  grouped pm l groups -> In (p, g) groups -> g = groupOf pm l p.
Proof.
  intros [Hnd Hassoc] Hin. apply (In_assoc _ _ _ Hnd) in Hin. rewrite Hassoc in Hin.
  destruct (groupOf pm l p); [discriminate|]. congruence.
Qed.

Lemma groupOf_In pm l p c :
  In c (groupOf pm l p) -> In c l /\ getTruthy pm (node_id c) = Some p.
Proof.
  unfold groupOf. intros H. apply List.filter_In in H as [H1 H2].
  split; [exact H1|]. apply bool_decide_eq_true_1 in H2. exact H2.
Qed.

(** [placeAttribute] writes the place of the attribute and those of the
    attributes whose parent it is. *)
Lemma placeAttribute_keeps attributes pm startX baseY positions c index k :
  node_id c <> k ->
  (forall d, In d attributes -> pm !! node_id d = Some (node_id c) -> node_id d <> k) ->
  placeAttribute attributes pm startX baseY positions c index !! k = positions !! k.
Proof.
  intros Hc Hsub. unfold placeAttribute.
  set (subAttrs := List.filter _ attributes).
  destruct (Nat.ltb 0 (length subAttrs)); [|apply lookup_insert_ne, Hc].
  rewrite (forEachIndexed_other _ node_id k).
  - apply lookup_insert_ne, Hc.
  - intros ps d idx _ Hd. apply lookup_insert_ne, Hd.
  - intros Hin. apply in_map_iff in Hin as (d & Hd & Hin).
    apply List.filter_In in Hin as [Hin Hp]. apply bool_decide_eq_true_1 in Hp.
    apply (Hsub d Hin Hp Hd).
Qed.

Section Around.
Context (entityNodes attributes : list DiagramNode) (pm : gmap jsstring jsstring).
Context (p : jsstring) (a : DiagramNode).
Hypothesis attributes_NoDup : List.NoDup (List.map node_id attributes).
Hypothesis a_attribute : In a attributes.
Hypothesis a_parent : getTruthy pm (node_id a) = Some p.
Hypothesis parent_not_a : p <> node_id a.

Lemma keeps_a startX baseY positions c index :
  In c attributes -> node_id c <> node_id a -> node_id c <> p ->
  placeAttribute attributes pm startX baseY positions c index !! node_id a
  = positions !! node_id a.
Proof.
  intros Hc Hne Hp. apply placeAttribute_keeps; [exact Hne|].
  intros d Hd Hpd E. rewrite E in Hpd. apply getTruthy_lookup in a_parent.
  rewrite a_parent in Hpd. congruence.
Qed.

Lemma placeAttribute_itself startX baseY positions index :
  placeAttribute attributes pm startX baseY positions a index !! node_id a
  = Some {| pos_x := fl (startX + ofIndex index * ATTRIBUTE_SPACING)%Q; pos_y := baseY |}.
Proof.
  unfold placeAttribute.
  set (subAttrs := List.filter _ attributes).
  destruct (Nat.ltb 0 (length subAttrs)); [|apply lookup_insert_eq].
  rewrite (forEachIndexed_other _ node_id (node_id a)).
  - apply lookup_insert_eq.
  - intros ps d idx _ Hd. apply lookup_insert_ne, Hd.
  - intros Hin. apply in_map_iff in Hin as (d & Hd & Hin).
    apply List.filter_In in Hin as [Hin Hp]. apply bool_decide_eq_true_1 in Hp.
    rewrite Hd in Hp. apply getTruthy_lookup in a_parent. rewrite a_parent in Hp. congruence.
Qed.

Lemma placed_at startX baseY l : forall i index positions,
  (forall c, In c l -> In c attributes /\ node_id c <> p) ->
  List.NoDup (List.map node_id l) ->
  l !! i = Some a ->
  forEachIndexed (placeAttribute attributes pm startX baseY) l index positions !! node_id a
  = Some {| pos_x := fl (startX + ofIndex (index + i) * ATTRIBUTE_SPACING)%Q; pos_y := baseY |}.
Proof.
  induction l as [|c l IH]; intros i index positions Hsub Hnd Hi; [discriminate|].
  cbn [List.map] in Hnd. apply List.NoDup_cons_iff in Hnd as [Hnotin Hnd].
  cbn [forEachIndexed]. destruct i as [|i]; cbn in Hi.
  - injection Hi as ->. rewrite Nat.add_0_r.
    rewrite (forEachIndexed_other _ node_id (node_id a)).
    + apply placeAttribute_itself.
    + intros ps d idx Hin Hd. destruct (Hsub d) as [H1 H2]; [right; exact Hin|].
      apply keeps_a; assumption.
    + exact Hnotin.
  - rewrite (IH i (S index)); try assumption.
    + rewrite Nat.add_succ_r. reflexivity.
    + intros d Hd. apply Hsub. right. exact Hd.
Qed.

Lemma placeGroup_keeps positions p' g :
  (forall c, In c g -> In c attributes /\ node_id c <> node_id a /\ node_id c <> p) ->
  placeGroup entityNodes attributes pm positions (p', g) !! node_id a
  = positions !! node_id a.
Proof.
  intros Hg. unfold placeGroup.
  destruct (positions !! p') as [parentPos|]; [|reflexivity].
  apply (forEachIndexed_other _ node_id (node_id a)).
  - intros ps c idx Hin Hc. destruct (Hg c Hin) as (H1 & H2 & H3). apply keeps_a; assumption.
  - intros Hin. apply in_map_iff in Hin as (c & Hc & Hin).
    destruct (Hg c Hin) as (_ & H2 & _). contradiction.
Qed.

Lemma placeGroups_keeps groups :
  (forall p' g c, In (p', g) groups -> In c g ->
                  In c attributes /\ node_id c <> node_id a /\ node_id c <> p) ->
  forall positions,
    fold_left (placeGroup entityNodes attributes pm) groups positions !! node_id a
    = positions !! node_id a.
Proof.
  induction groups as [|[p' g] groups IH]; intros Hg positions; cbn [fold_left]; [reflexivity|].
  rewrite IH by (intros q g' c H1 H2; apply (Hg q g' c); [right; exact H1|exact H2]).
  apply placeGroup_keeps. intros c Hc. apply (Hg p' g c); [left; reflexivity|exact Hc].
Qed.

Lemma group_placed positions parentPos i :
  positions !! p = Some parentPos ->
  groupOf pm attributes p !! i = Some a ->
  (forall c, In c (groupOf pm attributes p) -> node_id c <> p) ->
  placeGroup entityNodes attributes pm positions (p, groupOf pm attributes p) !! node_id a
  = Some (attributeSlot (existsb (fun e => bool_decide (node_id e = p)) entityNodes)
            parentPos (length (groupOf pm attributes p)) i).
Proof.
  intros Hpos Hi Hne. unfold placeGroup. rewrite Hpos.
  rewrite (placed_at _ _ _ i 0).
  - reflexivity.
  - intros c Hc. split; [apply groupOf_In in Hc; tauto|apply Hne, Hc].
  - apply NoDup_map_filter, attributes_NoDup.
  - exact Hi.
Qed.

End Around.

(** The groups, split at the group of [p]. *)
Lemma groups_split pm attributes p :
  groupOf pm attributes p <> [] ->
  exists before after,
    fold_left (addToGroup pm) attributes []
    = before ++ (p, groupOf pm attributes p) :: after
    /\ ~ In p (List.map fst before) /\ ~ In p (List.map fst after)
    /\ (forall p' g, In (p', g) (before ++ after) -> g = groupOf pm attributes p').
Proof.
  intros Hne. pose proof (groups_grouped pm attributes) as Hg.
  set (groups := fold_left (addToGroup pm) attributes []) in *.
  assert (Hin : In (p, groupOf pm attributes p) groups).
  { destruct Hg as [Hnd Hassoc]. specialize (Hassoc p). apply assoc_In.
    rewrite Hassoc. destruct (groupOf pm attributes p); [contradiction|reflexivity]. }
  apply in_split in Hin as (before & after & E). exists before, after.
  split; [exact E|].
  pose proof Hg as [Hnd _]. rewrite E, List.map_app in Hnd. cbn [List.map fst] in Hnd.
  apply List.NoDup_remove_2 in Hnd.
  split; [intros H; apply Hnd, in_or_app; left; exact H|].
  split; [intros H; apply Hnd, in_or_app; right; exact H|].
  intros p' g H. apply (grouped_In _ _ _ _ _ Hg). rewrite E.
  apply in_app_or in H as [H|H]; apply in_or_app; [left|right; right]; exact H.
Qed.

Lemma In_keys {A} (groups : list (jsstring * A)) k v :
  In (k, v) groups -> In k (List.map fst groups).
Proof. intros H. apply in_map_iff. exists (k, v). split; [reflexivity|exact H]. Qed.

Lemma other_parent pm c a p p' :
  getTruthy pm (node_id c) = Some p' -> getTruthy pm (node_id a) = Some p -> p' <> p ->
  node_id c <> node_id a.
Proof. intros Hc Ha Hp E. rewrite E in Hc. congruence. Qed.

(** X16. [calculateLayout] spreads the attributes of a node that is not itself
    an attribute around the place of that node: the i-th of its n attributes,
    in the order of the attribute list, is at x = parent.x - (n - 1) * 50 / 2
    + i * 50, the difference and then the sum rounded to the nearest double,
    one row (100) above the parent when the parent is an entity and one row
    below it otherwise.  The attributes of a node are those whose last edge
    without cardinality comes from it, and the identifiers of the attributes
    are distinct. *)
Theorem X16_attributes_around_parent
    (entityNodes relationshipNodes attributes : list DiagramNode) (es : list DiagramEdge)
    (p : jsstring) (parentPos : Position) (i : nat) (a : DiagramNode) :
  List.NoDup (List.map node_id attributes) ->
  ~ In p (List.map node_id attributes) ->
  calculateLayout entityNodes relationshipNodes attributes es !! p = Some parentPos ->
  groupOf (buildParentMap es) attributes p !! i = Some a ->
  calculateLayout entityNodes relationshipNodes attributes es !! node_id a
  = Some (attributeSlot (existsb (fun e => bool_decide (node_id e = p)) entityNodes)
            parentPos (length (groupOf (buildParentMap es) attributes p)) i).
Proof.
  intros Hnd Hp Hpos Hi. unfold calculateLayout in *.
  destruct (fold_left placeEntity entityNodes (∅, 100%Q)) as [positions ex].
  rewrite placeGroups_other in Hpos; [|apply groups_members|exact Hp].
  set (pm := buildParentMap es) in *.
  set (P0 := fold_left (placeRelationship es) relationshipNodes positions) in *.
  assert (Ha : In a (groupOf pm attributes p)).
  { apply list_elem_of_In. eapply list_elem_of_lookup_2, Hi. }
  pose proof Ha as Ha'. apply groupOf_In in Ha' as [Ha1 Ha2].
  assert (Hany : forall c, In c attributes -> node_id c <> p).
  { intros c Hc E. apply Hp. rewrite <- E. apply in_map, Hc. }
  assert (Hpa : p <> node_id a) by (intros E; apply (Hany a Ha1); symmetry; exact E).
  destruct (groups_split pm attributes p) as (before & after & E & Hb & Haf & Hg).
  { intros E. rewrite E in Ha. destruct Ha. }
  rewrite E, fold_left_app. cbn [fold_left].
  rewrite (placeGroups_keeps entityNodes attributes pm p a); try assumption.
  - apply group_placed; try assumption.
    + rewrite (placeGroups_other entityNodes attributes pm p before); [exact Hpos| |exact Hp].
      intros p' g c H1 H2. rewrite (Hg p' g) in H2 by (apply in_or_app; left; exact H1).
      apply groupOf_In in H2. tauto.
    + intros c Hc. apply Hany. apply groupOf_In in Hc. tauto.
  - intros p' g c H1 H2. rewrite (Hg p' g) in H2 by (apply in_or_app; right; exact H1).
    apply groupOf_In in H2 as [H2 H3]. split; [exact H2|]. split; [|apply Hany, H2].
    apply (other_parent pm c a p p' H3 Ha2). intros ->. apply Haf, (In_keys _ _ _ H1).
Qed.

Lemma X16_witness :
  layoutOf threeEdgesModel !! str "r" = Some {| pos_x := nearest500over3; pos_y := 400 |}
  /\ layoutOf threeEdgesModel !! str "a5"
     = Some (attributeSlot false {| pos_x := nearest500over3; pos_y := 400 |} 5 4)
  /\ attributeSlot false {| pos_x := nearest500over3; pos_y := 400 |} 5 4
     = {| pos_x := (2345624805922133 # 8796093022208)%Q; pos_y := 500 |}.
Proof.
  assert (H : layoutOf threeEdgesModel !! str "r"
              = Some {| pos_x := nearest500over3; pos_y := 400 |})
    by (vm_compute; reflexivity).
  split; [exact H|]. split; [|vm_compute; reflexivity].
  apply (X16_attributes_around_parent
           (List.filter isEntityNode (nodes threeEdgesModel))
           (List.filter isRelationshipNode (nodes threeEdgesModel))
           (List.filter (fun n => includesAttribute (type n)) (nodes threeEdgesModel))
           (edges threeEdgesModel) (str "r") {| pos_x := nearest500over3; pos_y := 400 |} 4
           (bareNode (str "a5") simpleAttribute (str "A5"))).
  - vm_compute.
    repeat (apply List.NoDup_cons; [cbn; intuition discriminate|]). apply List.NoDup_nil.
  - vm_compute. intuition discriminate.
  - exact H.
  - vm_compute. reflexivity.
Defined.

(** ** Where the tokens stand *)

Lemma filter_noLineFeed x : noLineFeed x -> List.filter (N.eqb c_lf) x = [].
Proof.
  induction 1 as [|c x Hc _ IH]; cbn [List.filter existsb]; [reflexivity|].
  destruct (N.eqb_spec c_lf c) as [E|_]; [congruence|exact IH].
Qed.

Lemma exists_noLineFeed x : noLineFeed x -> existsb (N.eqb c_lf) x = false.
Proof.
  induction 1 as [|c x Hc _ IH]; cbn [List.filter existsb]; [reflexivity|].
  destruct (N.eqb_spec c_lf c) as [E|_]; [congruence|exact IH].
Qed.

Lemma lineAfter_app done x : noLineFeed x -> lineAfter (done ++ x) = lineAfter done.
Proof.
  intros H. unfold lineAfter. rewrite List.filter_app, (filter_noLineFeed x H), app_nil_r.
  reflexivity.
Qed.

Lemma lineAfter_lf done : lineAfter (done ++ [c_lf]) = lineAfter done + 1.
Proof. unfold lineAfter. rewrite List.filter_app, length_app. cbn. lia. Qed.

Lemma lastLine_app done x : noLineFeed x -> lastLine (done ++ x) = lastLine done ++ x.
Proof.
  intros H. induction done as [|c done IH].
  - destruct x as [|c x]; [reflexivity|]. cbn [app lastLine].
    rewrite (exists_noLineFeed _ H). reflexivity.
  - assert (E : existsb (N.eqb c_lf) (c :: done ++ x) = existsb (N.eqb c_lf) (c :: done))
      by (rewrite app_comm_cons, existsb_app, (exists_noLineFeed x H), orb_false_r;
          reflexivity).
    cbn [app lastLine]. rewrite E.
    destruct (existsb (N.eqb c_lf) (c :: done)); [exact IH|reflexivity].
Qed.

Lemma lastLine_lf done : lastLine (done ++ [c_lf]) = [].
Proof.
  induction done as [|c done IH]; [reflexivity|].
  assert (E : existsb (N.eqb c_lf) (c :: done ++ [c_lf]) = true)
    by (rewrite app_comm_cons, existsb_app; cbn [existsb];
        rewrite N.eqb_refl, orb_true_r; reflexivity).
  cbn [app lastLine]. rewrite E. exact IH.
Qed.

Lemma columnAfter_app done x :
  noLineFeed x -> columnAfter (done ++ x) = columnAfter done + N.of_nat (length x).
Proof. intros H. unfold columnAfter. rewrite (lastLine_app _ _ H), length_app. lia. Qed.

Lemma columnAfter_lf done : columnAfter (done ++ [c_lf]) = 1.
Proof. unfold columnAfter. rewrite lastLine_lf. reflexivity. Qed.

Lemma skipComment_split s : forall col,
  exists x, s = x ++ (skipComment s col).1 /\ noLineFeed x
            /\ (skipComment s col).2 = col + N.of_nat (length x).
Proof.
  induction s as [|c s IH]; intros col; cbn [skipComment].
  - exists []. split; [reflexivity|]. split; [constructor|]. cbn. lia.
  - destruct (N.eqb_spec c c_lf) as [E|E].
    + exists []. split; [reflexivity|]. split; [constructor|]. cbn. lia.
    + destruct (IH (col + 1)) as (x & H1 & H2 & H3). exists (c :: x).
      split; [cbn; congruence|]. split; [constructor; assumption|].
      rewrite H3. cbn [length]. lia.
Qed.

Lemma skip_loop_split fuel : forall s col,
  exists x, s = x ++ (skipWhitespaceAndComments_loop fuel s col).1 /\ noLineFeed x
            /\ (skipWhitespaceAndComments_loop fuel s col).2 = col + N.of_nat (length x).
Proof.
  assert (Hnil : forall (s : jsstring) col,
             exists x, s = x ++ s /\ noLineFeed x /\ col = col + N.of_nat (length x)).
  { intros s col. exists []. split; [reflexivity|]. split; [constructor|]. cbn. lia. }
  induction fuel as [|fuel IH]; intros s col; cbn [skipWhitespaceAndComments_loop];
    [apply Hnil|].
  destruct s as [|c s]; [apply Hnil|].
  destruct ((c =? c_space) || (c =? c_tab) || (c =? c_cr)) eqn:Hb.
  - destruct (IH s (col + 1)) as (x & H1 & H2 & H3). exists (c :: x).
    split; [cbn; congruence|]. split.
    + constructor; [|exact H2]. intros ->. discriminate Hb.
    + rewrite H3. cbn [length]. lia.
  - destruct (c =? c_hash) eqn:Hh; [|apply Hnil].
    destruct (skipComment_split (c :: s) col) as (x & H1 & H2 & H3).
    destruct (skipComment (c :: s) col) as [s2 col2]. cbn [fst snd] in *.
    destruct (IH s2 col2) as (y & H4 & H5 & H6). exists (x ++ y).
    split; [rewrite <- app_assoc; congruence|]. split; [apply Forall_app; split; assumption|].
    rewrite H6, H3, length_app. lia.
Qed.

Lemma reached_advance s done t t' x :
  reached s done t -> input t = x ++ input t' -> noLineFeed x ->
  cur_line t' = cur_line t -> cur_column t' = cur_column t + N.of_nat (length x) ->
  Forall (located s) (tokens t') ->
  reached s (done ++ x) t'.
Proof.
  intros (H1 & H2 & H3 & _) Hin Hx Hl Hc Ht. split; [|split; [|split]].
  - rewrite <- app_assoc, <- Hin. exact H1.
  - rewrite Hl, H2, lineAfter_app by assumption. reflexivity.
  - rewrite Hc, H3, columnAfter_app by assumption. reflexivity.
  - exact Ht.
Qed.

Lemma located_here s done t ty v post :
  reached s done t -> input t = v ++ post ->
  located s {| tok_type := ty; value := v; line := cur_line t; column := cur_column t |}.
Proof.
  intros (H1 & H2 & H3 & _) Hin. exists done, post. cbn [value line column].
  rewrite <- Hin. auto.
Qed.

Lemma reached_skip s done t :
  reached s done t -> exists x, reached s (done ++ x) (skipWhitespaceAndComments t).
Proof.
  intros H. unfold skipWhitespaceAndComments.
  destruct (skip_loop_split (S (length (input t))) (input t) (cur_column t))
    as (x & H1 & H2 & H3).
  destruct (skipWhitespaceAndComments_loop _ _ _) as [s' col']. cbn [fst snd] in *.
  exists x. apply (reached_advance s done t); try assumption; try reflexivity.
  destruct H as (_ & _ & _ & H). exact H.
Qed.

Lemma readWhile_split p s : s = (readWhile p s).1 ++ (readWhile p s).2.
Proof.
  induction s as [|c s IH]; cbn [readWhile]; [reflexivity|].
  destruct (p c); [|reflexivity]. destruct (readWhile p s) as [v r]. cbn in *. congruence.
Qed.

Lemma readWhile_noLineFeed p s :
  p c_lf = false -> noLineFeed (readWhile p s).1.
Proof.
  intros Hp. pose proof (readWhile_forallb p s) as H.
  apply List.Forall_forall. intros c Hc ->.
  rewrite forallb_forall in H. rewrite (H _ Hc) in Hp. discriminate.
Qed.

Lemma reached_push_advance s done t x ty :
  reached s done t -> input t = x ++ drop (length x) (input t) -> noLineFeed x ->
  reached s (done ++ x)
    {| input := drop (length x) (input t); cur_line := cur_line t;
       cur_column := cur_column t + N.of_nat (length x);
       tokens := tokens t ++ [{| tok_type := ty; value := x; line := cur_line t;
                                 column := cur_column t |}] |}.
Proof.
  intros H Hin Hx. apply (reached_advance s done t); try assumption; try reflexivity.
  cbn [tokens]. apply Forall_app. split; [destruct H as (_ & _ & _ & H); exact H|].
  constructor; [|constructor]. eapply located_here; eauto.
Qed.

Lemma reached_step s done t c r :
  reached s done t -> input t = c :: r ->
  exists x, reached s (done ++ x) (tokenize_step t c).
Proof.
  intros H Hin. unfold tokenize_step.
  destruct (N.eqb_spec c c_lf) as [->|Hlf].
  { exists [c_lf]. destruct H as (H1 & H2 & H3 & H4). rewrite Hin in *.
    split; [|split; [|split]]; cbn [input cur_line cur_column tokens tl].
    - rewrite <- app_assoc. exact H1.
    - rewrite lineAfter_lf, H2. reflexivity.
    - rewrite columnAfter_lf. reflexivity.
    - exact H4. }
  assert (Hone : forall ty,
             reached s (done ++ [c])
               {| input := r; cur_line := cur_line t; cur_column := cur_column t + 1;
                  tokens := tokens t ++ [{| tok_type := ty; value := [c]; line := cur_line t;
                                            column := cur_column t |}] |}).
  { intros ty. pose proof (reached_push_advance s done t [c] ty H) as H'.
    rewrite Hin in H'. cbn [length drop] in H'. apply H'; [reflexivity|].
    constructor; [exact Hlf|constructor]. }
  assert (Htwo : forall ty c2 r2, r = c2 :: r2 -> c2 <> c_lf ->
             reached s (done ++ [c; c2])
               {| input := r2; cur_line := cur_line t; cur_column := cur_column t + 1 + 1;
                  tokens := tokens t ++ [{| tok_type := ty; value := [c; c2];
                                            line := cur_line t; column := cur_column t |}] |}).
  { intros ty c2 r2 -> Hc2. pose proof (reached_push_advance s done t [c; c2] ty H) as H'.
    rewrite Hin in H'. cbn [length drop] in H'.
    replace (cur_column t + 1 + 1) with (cur_column t + N.of_nat 2) by (cbn; lia).
    apply H'; [reflexivity|]. constructor; [exact Hlf|]. constructor; [exact Hc2|constructor]. }
  destruct (isLetter c) eqn:Hletter.
  { unfold readIdentifier. pose proof (readWhile_split isWordChar (input t)) as Hs.
    pose proof (readWhile_noLineFeed isWordChar (input t) eq_refl) as Hn.
    destruct (readWhile isWordChar (input t)) as [v r']. cbn [fst snd] in *.
    exists v. apply (reached_advance s done t); try assumption; try reflexivity.
    cbn [tokens]. apply Forall_app. split; [destruct H as (_ & _ & _ & H); exact H|].
    constructor; [|constructor]. eapply located_here; eauto. }
  destruct (isDigit c) eqn:Hdigit.
  { unfold readNumber. pose proof (readWhile_split isDigit (input t)) as Hs.
    pose proof (readWhile_noLineFeed isDigit (input t) eq_refl) as Hn.
    destruct (readWhile isDigit (input t)) as [v r']. cbn [fst snd] in *.
    exists v. apply (reached_advance s done t); try assumption; try reflexivity.
    cbn [tokens]. apply Forall_app. split; [destruct H as (_ & _ & _ & H); exact H|].
    constructor; [|constructor]. unfold jsstring_eqb. case_bool_decide as E.
    - rewrite <- E. eapply located_here; eauto.
    - eapply located_here; eauto. }
  unfold lex_advance, push, here, lex_peek. rewrite Hin. cbn [input cur_line cur_column tokens tl].
  destruct (N.eqb_spec c c_colon) as [->|_]; [exists [c_colon]; apply Hone|].
  destruct (N.eqb_spec c c_lparen) as [->|_]; [exists [c_lparen]; apply Hone|].
  destruct (N.eqb_spec c c_rparen) as [->|_]; [exists [c_rparen]; apply Hone|].
  destruct (N.eqb_spec c c_comma) as [->|_]; [exists [c_comma]; apply Hone|].
  destruct (N.eqb_spec c c_dot) as [->|_]; [exists [c_dot]; apply Hone|].
  destruct (N.eqb_spec c c_plus) as [->|_]; [exists [c_plus]; apply Hone|].
  destruct (N.eqb_spec c c_minus) as [->|Hminus]; cbn [andb orb].
  - case_bool_decide as Egt.
    { destruct r as [|c2 r2]; [discriminate|]. cbn in Egt. injection Egt as ->.
      exists [c_minus; c_gt]. apply (Htwo ARROW c_gt r2); [reflexivity|discriminate]. }
    change (c_minus =? c_emdash) with false. cbn [orb].
    case_bool_decide as Eminus.
    { destruct r as [|c2 r2]; [discriminate|]. cbn in Eminus. injection Eminus as ->.
      exists [c_minus; c_minus]. apply (Htwo DASH c_minus r2); [reflexivity|discriminate]. }
    exists [c_minus]. apply (reached_advance s done t); try assumption; try reflexivity.
    + constructor; [discriminate|constructor].
    + destruct H as (_ & _ & _ & H). exact H.
  - destruct (N.eqb_spec c c_emdash) as [->|_]; [exists [c_emdash]; apply Hone|].
    exists [c]. apply (reached_advance s done t); try assumption; try reflexivity.
    + constructor; [exact Hlf|constructor].
    + destruct H as (_ & _ & _ & H). exact H.
Qed.

Lemma tokenize_step_shorter t c r :
  input t = c :: r -> (length (input (tokenize_step t c)) <= length r)%nat.
Proof.
  intros Hin. destruct (tokenize_step_lexStep t c r Hin) as [-> _]. apply lexStep_length.
Qed.

Lemma reached_loop s fuel : forall t done,
  reached s done t ->
  exists done', reached s done' (tokenize_loop fuel t)
                /\ ((length (input t) < fuel)%nat -> input (tokenize_loop fuel t) = []).
Proof.
  induction fuel as [|fuel IH]; intros t done H; cbn [tokenize_loop].
  - exists done. split; [exact H|]. lia.
  - destruct (input t) as [|c0 r0] eqn:Hin.
    + exists done. split; [exact H|]. intros _. exact Hin.
    + destruct (reached_skip s done t H) as (x & H1).
      pose proof (skipWhitespaceAndComments_input t) as [Hsk _].
      pose proof (skipped_length (input t)) as Hlen. rewrite <- Hsk in Hlen.
      destruct (input (skipWhitespaceAndComments t)) as [|c r] eqn:Hin1.
      * exists (done ++ x). split; [exact H1|]. intros _. exact Hin1.
      * destruct (reached_step s (done ++ x) _ c r H1 Hin1) as (y & H2).
        destruct (IH _ _ H2) as (done' & H3 & H4). exists done'. split; [exact H3|].
        intros Hfuel. apply H4.
        pose proof (tokenize_step_shorter _ c r Hin1) as Hs.
        rewrite Hin in Hlen. cbn [length] in *. lia.
Qed.

(** X17. The line and the column of a token are where its text stands in the
    document: the value of every token of [tokenize] is found in the document
    right after a prefix that holds one line feed less than the line of the
    token and, since its last line feed, one code unit less than its column.
    The EOF token carries the line and the column of the end of the
    document.  These are the positions that the errors of the parser
    report. *)
Theorem X17_tokens_located (s : jsstring) :
  Forall (located s) (tokenize s)
  /\ exists eof, last (tokenize s) = Some eof
                 /\ line eof = lineAfter s /\ column eof = columnAfter s.
Proof.
  unfold tokenize.
  destruct (reached_loop s (S (length s))
              {| input := s; cur_line := 1; cur_column := 1; tokens := [] |} [])
    as (done & (H1 & H2 & H3 & H4) & Hend).
  { split; [reflexivity|]. split; [reflexivity|]. split; [reflexivity|constructor]. }
  cbn [input] in Hend. rewrite Hend in H1 by lia. rewrite app_nil_r in H1. subst done.
  set (t := tokenize_loop _ _) in *. split.
  - apply Forall_app. split; [exact H4|]. constructor; [|constructor].
    exists s, []. cbn [here value line column]. rewrite app_nil_r. auto.
  - exists (here t EOF []). split; [apply last_snoc|]. cbn [here line column]. auto.
Qed.

(** ** A document through the editor *)

Lemma namedPlain_drawn a : namedPlain a -> asDrawn a = a /\ attrDepth a = O.
Proof. intros [-> _]. split; reflexivity. Qed.

Lemma namedPlain_reversible l : Forall namedPlain l -> forallb reversible l = true.
Proof.
  intros H. apply forallb_forall. intros a Ha. rewrite List.Forall_forall in H.
  destruct (H a Ha) as [-> _]. reflexivity.
Qed.

Lemma namedPlain_readWithin depth l :
  (0 < depth)%nat -> Forall namedPlain l -> readWithin depth l.
Proof.
  intros Hd. apply List.Forall_impl. intros a Ha.
  destruct (namedPlain_drawn a Ha) as [-> ->]. exact Hd.
Qed.

Lemma attributeShape_depth a : attributeShape a -> (attrDepth (asDrawn a) <= 1)%nat.
Proof.
  destruct a as [n ty k target dt subs]. intros [_ H]. cbn in H.
  destruct k, ty; try contradiction; cbn [asDrawn attrDepth attributeType subAttributes];
    try lia.
  destruct H as (_ & _ & l & -> & Hl). cbn [attrDepth attributeType subAttributes].
  assert (E : List.list_max (List.map attrDepth (List.map asDrawn l)) = O).
  { unfold List.list_max. induction Hl as [|s l Hs _ IH]; [reflexivity|].
    cbn [List.map fold_right]. destruct (namedPlain_drawn s Hs) as [-> ->].
    rewrite IH. reflexivity. }
  rewrite E. lia.
Qed.

Lemma attributeShape_reversible a :
  attributeShape a -> (reversible a = true <-> attributeType a <> typed).
Proof.
  destruct a as [n ty k target dt subs]. intros [_ H]. cbn in H.
  destruct k, ty; try contradiction; cbn [reversible attributeType subAttributes].
  - destruct H as (_ & _ & ->). split; [discriminate|reflexivity].
  - destruct H as (_ & -> & _). split; [discriminate|reflexivity].
  - destruct H as (_ & _ & ->). split; [discriminate|reflexivity].
  - destruct H as (_ & _ & l & -> & Hl). rewrite (namedPlain_reversible l Hl).
    split; [discriminate|reflexivity].
  - destruct H as (_ & _ & ->). split; [discriminate|reflexivity].
  - destruct H as (_ & _ & ->). split; [discriminate|reflexivity].
  - destruct subs; split; try discriminate; intros E; exfalso; apply E; reflexivity.
Qed.

Lemma astShape_reads depth ast :
  astShape ast -> sidesDeclared ast -> (2 <= depth)%nat -> modelReads depth ast.
Proof.
  intros [He Hr] Hs Hd. split; [lia|]. split.
  - eapply List.Forall_impl; [|exact He]. intros e (_ & Ha & _).
    eapply List.Forall_impl; [|exact Ha]. intros a Hshape.
    pose proof (attributeShape_depth a Hshape). lia.
  - unfold sidesDeclared in Hs. rewrite List.Forall_forall in *.
    intros r Hin. destruct (Hr r Hin) as (Hname & Hverb & _ & _ & Hplain & _).
    destruct (Hs r Hin) as [Hl Hri].
    split; [apply namedPlain_readWithin; [lia|exact Hplain]|].
    split; [|split; assumption].
    rewrite Hname. apply isName_not_empty, Hverb.
Qed.

Lemma astShape_reversible ast : astShape ast -> (allReversible ast <-> untyped ast).
Proof.
  intros [He Hr]. unfold allReversible, untyped. split.
  - intros [H _]. rewrite List.Forall_forall in *. intros e Hin.
    destruct (He e Hin) as (_ & Ha & _). specialize (H e Hin).
    rewrite forallb_forall in H. rewrite List.Forall_forall in *.
    intros a Hain. apply (attributeShape_reversible a (Ha a Hain)), H, Hain.
  - intros H. split.
    + rewrite List.Forall_forall in *. intros e Hin.
      destruct (He e Hin) as (_ & Ha & _). specialize (H e Hin).
      apply forallb_forall. rewrite List.Forall_forall in *.
      intros a Hain. apply (attributeShape_reversible a (Ha a Hain)), H, Hain.
    + eapply List.Forall_impl; [|exact Hr]. intros r (_ & _ & _ & _ & Hplain & _).
      apply namedPlain_reversible, Hplain.
Qed.

(** X18. A document through the editor: when [parseDSL] accepts a document
    whose relationships name, on both sides, entities that the document
    declares, the AST read back by [diagramModelToAST] from the model that
    [astToDiagramModel] makes of the parsed AST is that AST with its typed
    attributes turned into simple ones, as soon as the stack holds two nested
    calls.  So it is the parsed AST exactly when the document declares no
    attribute with a type. *)
Theorem X18_document_through_the_model (D : jsstring) (ast : ERDiagramAST) (depth : nat) :
  parseDSL D = Ok ast -> sidesDeclared ast -> (2 <= depth)%nat ->
  diagramModelToAST depth (astToDiagramModel ast) = Ok (astAsDrawn ast)
  /\ (diagramModelToAST depth (astToDiagramModel ast) = Ok ast <-> untyped ast).
Proof.
  intros Hparse Hs Hd. pose proof (parseDSL_shape D ast Hparse) as Hshape.
  assert (E : diagramModelToAST depth (astToDiagramModel ast) = Ok (astAsDrawn ast)).
  { rewrite <- astToDiagramModel_asDrawn.
    apply diagramModelToAST_astToDiagramModel, modelReads_asDrawn, astShape_reads; assumption. }
  split; [exact E|]. rewrite E, <- (astShape_reversible ast Hshape), <- astAsDrawn_fixed.
  split; congruence.
Qed.

Lemma X18_witness :
  parseDSL sampleDSL = Ok sampleAST /\ sidesDeclared sampleAST
  /\ diagramModelToAST 2 (astToDiagramModel sampleAST) = Ok (astAsDrawn sampleAST)
  /\ (diagramModelToAST 2 (astToDiagramModel sampleAST) = Ok sampleAST <-> untyped sampleAST).
Proof.
  assert (H1 : parseDSL sampleDSL = Ok sampleAST) by (vm_compute; reflexivity).
  assert (H2 : sidesDeclared sampleAST).
  { unfold sidesDeclared, sampleAST. cbn [entities relationships].
    repeat (apply List.Forall_cons; [split; vm_compute; tauto|]). apply List.Forall_nil. }
  split; [exact H1|]. split; [exact H2|].
  apply (X18_document_through_the_model sampleDSL sampleAST 2 H1 H2). lia.
Defined.

(** ** The layout: the attributes of an attribute *)

Lemma setGroup_extends groups : forall k v,
  exists extra, List.map fst (setGroup groups k v) = List.map fst groups ++ extra.
Proof.
  induction groups as [|[k0 v0] groups IH]; intros k v; cbn [setGroup].
  - exists [k]. reflexivity.
  - unfold jsstring_eqb. case_bool_decide as E0.
    + subst k0. exists []. cbn [List.map fst]. rewrite app_nil_r. reflexivity.
    + destruct (IH k v) as (extra & E). exists extra. cbn [List.map fst]. rewrite E. reflexivity.
Qed.

Lemma groups_extend pm l : forall groups,
  exists extra,
    List.map fst (fold_left (addToGroup pm) l groups) = List.map fst groups ++ extra.
Proof.
  induction l as [|x l IH]; intros groups; cbn [fold_left].
  - exists []. rewrite app_nil_r. reflexivity.
  - destruct (IH (addToGroup pm groups x)) as (extra & E). rewrite E. unfold addToGroup.
    destruct (getTruthy pm (node_id x)) as [parent|]; [|exists extra; reflexivity].
    destruct (setGroup_extends groups parent (default [] (assoc parent groups) ++ [x]))
      as (extra' & E').
    rewrite E'. exists (extra' ++ extra). rewrite app_assoc. reflexivity.
Qed.

Lemma assoc_None_keys {A} (groups : list (jsstring * A)) k :
  assoc k groups = None -> ~ In k (List.map fst groups).
Proof.
  induction groups as [|[k0 v0] groups IH]; cbn [assoc List.map fst]; [intros _ []|].
  unfold jsstring_eqb. case_bool_decide as E; [discriminate|].
  intros H [H'|H']; [congruence|]. apply (IH H H').
Qed.

Lemma prefix_before {A} (x : A) k : forall l1 l2 e,
  l1 ++ x :: l2 = k ++ e -> ~ In x k -> exists m, l1 = k ++ m.
Proof.
  induction k as [|y k IH]; intros l1 l2 e E Hx; [exists l1; reflexivity|].
  destruct l1 as [|z l1]; cbn [app] in E.
  - injection E as -> _. exfalso. apply Hx. left. reflexivity.
  - injection E as -> E. destruct (IH l1 l2 e E) as (m & ->).
    + intros H. apply Hx. right. exact H.
    + exists m. reflexivity.
Qed.

Lemma NoDup_app_apart {A} (l1 l2 : list A) x :
  List.NoDup (l1 ++ l2) -> In x l1 -> ~ In x l2.
Proof.
  induction l1 as [|y l1 IH]; cbn [app]; intros Hnd Hin; [destruct Hin|].
  apply List.NoDup_cons_iff in Hnd as [Hnotin Hnd]. destruct Hin as [->|Hin].
  - intros H. apply Hnotin, in_or_app. right. exact H.
  - apply IH; assumption.
Qed.

(** The group of the parent of [b] comes before the group of [b], when [b]
    comes before its own attributes. *)
Lemma parent_group_first pm first b rest q before after :
  getTruthy pm (node_id b) = Some q -> q <> node_id b ->
  groupOf pm first (node_id b) = [] ->
  fold_left (addToGroup pm) (first ++ b :: rest) []
  = before ++ (node_id b, groupOf pm (first ++ b :: rest) (node_id b)) :: after ->
  In q (List.map fst before) /\ ~ In q (List.map fst after).
Proof.
  intros Hq Hne Hfirst E.
  pose proof (groups_grouped pm (first ++ b :: rest)) as [Hnd _].
  rewrite E in Hnd.
  replace (first ++ b :: rest) with ((first ++ [b]) ++ rest) in E at 1
    by (rewrite <- app_assoc; reflexivity).
  rewrite fold_left_app in E.
  pose proof (groups_grouped pm (first ++ [b])) as [_ Hassoc].
  set (G' := fold_left (addToGroup pm) (first ++ [b]) []) in *.
  assert (Hq' : In q (List.map fst G')).
  { specialize (Hassoc q). rewrite groupOf_snoc, Hq in Hassoc.
    rewrite bool_decide_eq_true_2 in Hassoc by reflexivity.
    destruct (groupOf pm first q ++ [b]) as [|c g] eqn:Eg.
    - destruct (groupOf pm first q); discriminate.
    - apply assoc_In in Hassoc. apply (In_keys _ _ _ Hassoc). }
  assert (Hb' : ~ In (node_id b) (List.map fst G')).
  { apply assoc_None_keys. rewrite Hassoc, groupOf_snoc, Hfirst, Hq.
    rewrite bool_decide_eq_false_2 by congruence. reflexivity. }
  destruct (groups_extend pm rest G') as (extra & Ekeys).
  rewrite E, List.map_app in Ekeys. cbn [List.map fst] in Ekeys.
  destruct (prefix_before _ _ _ _ _ Ekeys Hb') as (m & Em).
  assert (Hin : In q (List.map fst before)) by (rewrite Em; apply in_or_app; left; exact Hq').
  split; [exact Hin|].
  rewrite List.map_app in Hnd. cbn [List.map fst] in Hnd.
  intros H. apply (NoDup_app_apart _ _ q Hnd Hin). right. exact H.
Qed.

(** X19. The attributes of an attribute: when the identifiers of the
    attributes are distinct and an attribute [b] of a node that is not an
    attribute comes, in the attribute list, before the attributes whose parent
    it is, [calculateLayout] spreads these around the place of [b] as it
    spreads attributes around a relationship: at x = b.x - (n - 1) * 50 / 2
    + i * 50, the difference and then the sum rounded to the nearest double,
    and one row (100) below [b], unless [b] has the identifier of an entity.
    The places at y = baseY - 60 that the loop over the group of the parent of
    [b] gives them first are overwritten; below an attribute of an entity,
    which is at y = 150, they are on the row of the entities, y = 250. *)
Theorem X19_sub_attributes_below_their_attribute
    (entityNodes relationshipNodes first rest : list DiagramNode) (es : list DiagramEdge)
    (q : jsstring) (b : DiagramNode) (parentPos : Position) (i : nat) (a : DiagramNode) :
  List.NoDup (List.map node_id (first ++ b :: rest)) ->
  ~ In q (List.map node_id (first ++ b :: rest)) ->
  getTruthy (buildParentMap es) (node_id b) = Some q ->
  groupOf (buildParentMap es) first (node_id b) = [] ->
  calculateLayout entityNodes relationshipNodes (first ++ b :: rest) es !! node_id b
  = Some parentPos ->
  groupOf (buildParentMap es) (first ++ b :: rest) (node_id b) !! i = Some a ->
  calculateLayout entityNodes relationshipNodes (first ++ b :: rest) es !! node_id a
  = Some (attributeSlot (existsb (fun e => bool_decide (node_id e = node_id b)) entityNodes)
            parentPos (length (groupOf (buildParentMap es) (first ++ b :: rest) (node_id b)))
            i).
Proof.
  intros Hnd Hq Hbq Hfirst Hpos Hi. unfold calculateLayout in *.
  destruct (fold_left placeEntity entityNodes (∅, 100%Q)) as [positions ex].
  set (pm := buildParentMap es) in *.
  set (attributes := first ++ b :: rest) in *.
  set (P0 := fold_left (placeRelationship es) relationshipNodes positions) in *.
  assert (Hb : In b attributes) by (apply in_or_app; right; left; reflexivity).
  assert (Ha : In a (groupOf pm attributes (node_id b))).
  { apply list_elem_of_In. eapply list_elem_of_lookup_2, Hi. }
  pose proof Ha as Ha'. apply groupOf_In in Ha' as [Ha1 Ha2].
  assert (Hany : forall c, In c attributes -> node_id c <> q).
  { intros c Hc E. apply Hq. rewrite <- E. apply in_map, Hc. }
  assert (Hqb : q <> node_id b) by (intros E; apply (Hany b Hb); symmetry; exact E).
  assert (Hchild : forall c, In c (groupOf pm attributes (node_id b)) ->
                             In c attributes /\ node_id c <> node_id b /\ node_id c <> q).
  { intros c Hc. apply groupOf_In in Hc as [Hc1 Hc2]. split; [exact Hc1|].
    split; [|apply Hany, Hc1]. apply (other_parent pm c b q (node_id b) Hc2 Hbq).
    congruence. }
  assert (Hba : node_id b <> node_id a).
  { intros E. destruct (Hchild a Ha) as (_ & H & _). congruence. }
  destruct (groups_split pm attributes (node_id b)) as (before & after & E & _ & Haf & Hg).
  { intros E. rewrite E in Ha. destruct Ha. }
  destruct (parent_group_first pm first b rest q before after Hbq Hqb Hfirst E)
    as [_ Hqafter].
  assert (Hafter : forall p' g c, In (p', g) after -> In c g ->
                     In c attributes /\ getTruthy pm (node_id c) = Some p'
                     /\ p' <> node_id b /\ p' <> q).
  { intros p' g c H1 H2. rewrite (Hg p' g) in H2 by (apply in_or_app; right; exact H1).
    apply groupOf_In in H2 as [H2 H3]. split; [exact H2|]. split; [exact H3|].
    split; intros ->; [apply Haf|apply Hqafter]; apply (In_keys _ _ _ H1). }
  rewrite E, fold_left_app in Hpos |- *. cbn [fold_left] in Hpos |- *.
  rewrite (placeGroups_keeps entityNodes attributes pm q b) in Hpos; try assumption.
  2:{ intros p' g c H1 H2. destruct (Hafter p' g c H1 H2) as (H3 & H4 & H5 & H6).
      split; [exact H3|]. split; [|apply Hany, H3].
      apply (other_parent pm c b q p' H4 Hbq H6). }
  rewrite (placeGroup_keeps entityNodes attributes pm q b) in Hpos; try assumption.
  rewrite (placeGroups_keeps entityNodes attributes pm (node_id b) a); try assumption.
  - apply group_placed; try assumption. intros c Hc. apply (Hchild c Hc).
  - intros p' g c H1 H2. destruct (Hafter p' g c H1 H2) as (H3 & H4 & H5 & H6).
    split; [exact H3|]. split.
    + apply (other_parent pm c a (node_id b) p' H4 Ha2 H5).
    + apply (other_parent pm c b q p' H4 Hbq H6).
Qed.

Lemma X19_witness :
  List.filter (fun n => includesAttribute (type n)) (nodes sampleModel)
  = take 2 sampleAttributeNodes ++ sampleAddress :: drop 3 sampleAttributeNodes
  /\ calculateLayout (List.filter isEntityNode (nodes sampleModel))
       (List.filter isRelationshipNode (nodes sampleModel))
       (take 2 sampleAttributeNodes ++ sampleAddress :: drop 3 sampleAttributeNodes)
       (edges sampleModel) !! node_id sampleStreet
     = Some (attributeSlot false {| pos_x := 125; pos_y := 150 |} 3 0)
  /\ pos_y (attributeSlot false {| pos_x := 125; pos_y := 150 |} 3 0) = 250%Q.
Proof.
  split; [vm_compute; reflexivity|]. split; [|reflexivity].
  apply (X19_sub_attributes_below_their_attribute
           (List.filter isEntityNode (nodes sampleModel))
           (List.filter isRelationshipNode (nodes sampleModel))
           (take 2 sampleAttributeNodes) (drop 3 sampleAttributeNodes)
           (edges sampleModel) (str "node_1") sampleAddress
           {| pos_x := 125; pos_y := 150 |} 0 sampleStreet).
  - apply NoDup_ListNoDup. apply (bool_decide_unpack _). vm_compute. reflexivity.
  - vm_compute. intuition discriminate.
  - vm_compute. reflexivity.
  - vm_compute. reflexivity.
  - vm_compute. reflexivity.
  - vm_compute. reflexivity.
Defined.

(** ** Comments *)

(** [lexStep] looks at the text that follows only to go on with a word or a
    number, or to tell "->" and "--" from "-". *)
Lemma lexStep_app_head (c : N) (s ws : list N) :
  match ws with
  | c' :: _ => isWordChar c' = false /\ isDigit c' = false /\ c' <> c_gt /\ c' <> c_minus
  | [] => True
  end ->
  lexStep c (c :: s ++ ws) = ((lexStep c (c :: s)).1, (lexStep c (c :: s)).2 ++ ws).
Proof.
  intros Hhead. unfold lexStep.
  destruct (c =? c_lf); [reflexivity|].
  destruct (isLetter c).
  { change (c :: s ++ ws) with ((c :: s) ++ ws). rewrite readWhile_app_end.
    - destruct (readWhile isWordChar (c :: s)). reflexivity.
    - destruct ws; [exact I|]. tauto. }
  destruct (isDigit c).
  { change (c :: s ++ ws) with ((c :: s) ++ ws). rewrite readWhile_app_end.
    - destruct (readWhile isDigit (c :: s)). reflexivity.
    - destruct ws; [exact I|]. tauto. }
  destruct (c =? c_colon); [reflexivity|].
  destruct (c =? c_lparen); [reflexivity|].
  destruct (c =? c_rparen); [reflexivity|].
  destruct (c =? c_comma); [reflexivity|].
  destruct (c =? c_dot); [reflexivity|].
  destruct (c =? c_plus); [reflexivity|].
  destruct (c =? c_minus), (c =? c_emdash); destruct s as [|c2 s];
    try (destruct ws as [|c' ws]; [|destruct Hhead as (_ & _ & Hg & Hm)]);
    simpl; repeat case_bool_decide; simpl; try congruence; try reflexivity.
Qed.

Lemma skipComment_to_end c r : forall col,
  noLineFeed c -> endOfLine r -> (skipComment (c ++ r) col).1 = r.
Proof.
  intros col Hc Hr. revert col. induction Hc as [|x c Hx _ IH]; intros col; cbn [app].
  - destruct r as [|x r]; [reflexivity|]. cbn in Hr. subst x. reflexivity.
  - cbn [skipComment]. destruct (N.eqb_spec x c_lf) as [E|_]; [contradiction|]. apply IH.
Qed.

Lemma endOfLine_head r :
  endOfLine r ->
  match r with
  | c' :: _ => isWordChar c' = false /\ isDigit c' = false /\ c' <> c_gt /\ c' <> c_minus
  | [] => True
  end.
Proof. destruct r as [|c r]; [auto|]. cbn. intros ->. repeat split; discriminate. Qed.

Lemma lexemes_without_comment c r :
  noLineFeed c -> endOfLine r ->
  forall s, lexemes (s ++ c_hash :: c ++ r) = lexemes (s ++ r).
Proof.
  intros Hc Hr s. remember (length s) as n eqn:Hn. revert s Hn.
  induction n as [n IH] using lt_wf_ind. intros s Hn.
  destruct s as [|x s].
  { cbn [app]. rewrite lexemes_comment, skipComment_to_end by assumption. reflexivity. }
  cbn [app].
  destruct ((x =? c_space) || (x =? c_tab) || (x =? c_cr)) eqn:Hb.
  { rewrite (lexemes_unfold (x :: s ++ c_hash :: c ++ r)), (lexemes_unfold (x :: s ++ r)).
    rewrite !(skipped_blank x _ Hb), <- !lexemes_unfold.
    apply (IH (length s)); simpl in *; lia. }
  destruct (x =? c_hash) eqn:Hh.
  { apply N.eqb_eq in Hh. subst x. rewrite !lexemes_comment, !skipComment_app.
    pose proof (skipComment_length s 0) as Hlen.
    destruct (skipComment s 0).1 as [|y t] eqn:E.
    - change (c_hash :: c ++ r) with ((c_hash :: c) ++ r).
      rewrite skipComment_to_end; [|constructor; [discriminate|exact Hc]|exact Hr].
      replace (skipComment r 0).1 with r; [reflexivity|].
      symmetry. apply (skipComment_to_end [] r 0); [constructor|exact Hr].
    - apply (IH (length (y :: t))); simpl in *; lia. }
  rewrite (lexemes_unfold (x :: s ++ c_hash :: c ++ r)), (lexemes_unfold (x :: s ++ r)).
  rewrite !(skipped_stop x _ Hb Hh).
  rewrite (lexStep_app_head x s (c_hash :: c ++ r)) by (repeat split; discriminate).
  rewrite (lexStep_app_head x s r) by (apply endOfLine_head, Hr).
  cbn [fst snd]. f_equal. pose proof (lexStep_length x s).
  apply (IH (length (lexStep x (x :: s)).2)); simpl in *; lia.
Qed.

(** X20. Comments are ignored wherever they stand: taking a comment, from its
    "#" to the end of its line, out of a document changes neither the AST
    that [parseDSL] returns nor whether it throws.  Only the lines and columns
    in a message may differ. *)
Theorem X20_comments_are_ignored (s1 c s2 : jsstring) :
  noLineFeed c -> endOfLine s2 ->
  (forall ast, parseDSL (s1 ++ c_hash :: c ++ s2) = Ok ast <-> parseDSL (s1 ++ s2) = Ok ast)
  /\ ((exists m, parseDSL (s1 ++ c_hash :: c ++ s2) = Throw m)
      <-> (exists m, parseDSL (s1 ++ s2) = Throw m)).
Proof.
  intros Hc Hs2.
  assert (H : sameTokens (tokenize (s1 ++ c_hash :: c ++ s2)) (tokenize (s1 ++ s2))).
  { unfold sameTokens. rewrite !tokenize_lexemes, (lexemes_without_comment c s2 Hc Hs2).
    reflexivity. }
  apply same_parse in H. unfold parseDSL.
  destruct (parse (tokenize (s1 ++ c_hash :: c ++ s2))) as [a1|m1|],
           (parse (tokenize (s1 ++ s2))) as [a2|m2|];
    simpl in H; try contradiction.
  - subst a2. split; [tauto|]. split; intros [m Hm]; discriminate.
  - split; [split; discriminate|]. split; eauto.
  - split; [split; discriminate|]. split; intros [m Hm]; discriminate.
Qed.

Lemma X20_witness :
  parseDSL plainStore = Ok storeAST /\ parseDSL commentedStore = Ok storeAST.
Proof.
  assert (H : parseDSL plainStore = Ok storeAST) by (vm_compute; reflexivity).
  split; [exact H|].
  apply (proj1 (X20_comments_are_ignored (str "Entity Store: ") (str " the shops")
                  (c_lf :: str "  store_id PK")
                  ltac:(repeat constructor; discriminate) eq_refl) storeAST).
  exact H.
Defined.

(** ** Two slips of the parser *)

(** C6. The error of a wrong cardinality carries the line and not the column.
    On "Relation A (5) -- (M) B: v" [parseDSL] throws "Expected cardinality
    (1 or M) at line 1", and it throws the same on the document with the
    offending token two columns further right, at column 15 instead of 13:
    the message of [parseCardinality] has no column, where that of [expect],
    the error next to it ("Expected IDENTIFIER but got COLON at line 1, column
    8" on "Entity : x"), has one. *)
Theorem C6_error_without_column :
  parseDSL badCardinalityDocument = Throw (str "Expected cardinality (1 or M) at line 1")
  /\ parseDSL badCardinalityShifted = Throw (str "Expected cardinality (1 or M) at line 1")
  /\ tokenize badCardinalityDocument = badCardinalityTokens
  /\ tokenize badCardinalityShifted = badCardinalityShiftedTokens
  /\ List.map tv (drop 3 badCardinalityTokens) = List.map tv (drop 3 badCardinalityShiftedTokens)
  /\ column (current (drop 3 badCardinalityTokens)) = 13
  /\ column (current (drop 3 badCardinalityShiftedTokens)) = 15
  /\ parseDSL namelessEntity
     = Throw (str "Expected IDENTIFIER but got COLON at line 1, column 8").
Proof. repeat split; vm_compute; reflexivity. Qed.

(** C8. A weak entity without an "Identified By" clause is parsed as an
    entity of type 'weak' with an undefined [identifiedBy]: so it is for
    "Weak Entity OrderItem:" with two attributes, and for the printed form of
    every weak entity without [identifiedBy] whose names are words that
    [readIdentifier] types IDENTIFIER.  But the same declaration under the
    name "constructor" is rejected: [keywords[value]] finds the member that the
    object literal inherits, the token is no IDENTIFIER, and
    [expect('IDENTIFIER')] throws. *)
Theorem C8_weak_entity_inherited_name :
  parseDSL weakEntityDocument = Ok weakEntityAST
  /\ (exists t,
        tv t = (INHERITED, str "constructor")
        /\ parseDSL weakConstructorDocument = Throw (expectMessage IDENTIFIER t))
  /\ (forall e,
        entityType e = weak -> identifiedBy e = None -> entityShape e ->
        forallb hasTarget (ent_attributes e) = true ->
        compositeThenMarker (ent_attributes e) = true ->
        parseDSL (generateDSL (oneEntity e)) = Ok (oneEntity e)).
Proof.
  split; [vm_compute; reflexivity|]. split.
  - exists {| tok_type := INHERITED; value := str "constructor"; line := 1; column := 13 |}.
    split; [reflexivity|]. vm_compute. reflexivity.
  - intros e _ _ Hshape Htargets Hmarkers. apply parse_generateDSL.
    + split; [constructor; [exact Hshape|constructor]|constructor].
    + constructor; [split; assumption|constructor].
Qed.

(** ** The rounding of doubles *)

Lemma roundHalfEven_one n : roundHalfEven n 1 = n.
Proof. unfold roundHalfEven. rewrite Z.div_1_r, Z.mod_1_r. reflexivity. Qed.

Lemma Qred_integer z : Qred (inject_Z z) = inject_Z z.
Proof.
  unfold Qred, inject_Z.
  pose proof (Z.ggcd_gcd z 1) as Hg. pose proof (Z.ggcd_correct_divisors z 1) as Hd.
  destruct (Z.ggcd z 1) as [g [aa bb]]. cbn [fst snd] in *.
  rewrite Z.gcd_1_r in Hg. subst g. destruct Hd as [Ha Hb].
  rewrite Z.mul_1_l in Ha, Hb. subst z bb. reflexivity.
Qed.

(** An integer below 2^53 is a double: rounding leaves it as it is.  The sums
    and products of such integers that stay below 2^53 are therefore exact. *)
Lemma fl_integer z : (Z.abs z < 2 ^ 53)%Z -> fl (inject_Z z) = inject_Z z.
Proof.
  intros Hz. unfold fl. cbn [Qnum Qden inject_Z].
  destruct (Z.eqb_spec (Z.abs z) 0) as [E|E].
  { assert (z = 0%Z) by lia. subst z. reflexivity. }
  assert (Hpos : (0 < Z.abs z)%Z) by lia.
  assert (Hl : ilog2 (Z.abs z) 1 = Z.log2 (Z.abs z)).
  { unfold ilog2. change (Z.log2 1) with 0%Z. rewrite Z.sub_0_r.
    pose proof (Z.log2_nonneg (Z.abs z)) as H0.
    pose proof (Z.log2_spec _ Hpos) as [H1 _].
    rewrite (proj2 (Z.leb_le _ _) H0), Z.mul_1_l, (proj2 (Z.leb_le _ _) H1). reflexivity. }
  rewrite Hl.
  assert (Hlog : (Z.log2 (Z.abs z) < 53)%Z) by (apply Z.log2_lt_pow2; lia).
  pose proof (Z.log2_nonneg (Z.abs z)) as Hlog0.
  set (l := Z.log2 (Z.abs z)) in *.
  rewrite Z.max_l by lia.
  set (v := if (0 <=? l - 52)%Z then _ else _).
  assert (Hv : (v == inject_Z (Z.abs z))%Q).
  { subst v. destruct (Z.leb_spec 0 (l - 52)) as [H|H].
    - assert (l - 52 = 0)%Z as -> by lia. change (2 ^ 0)%Z with 1%Z.
      rewrite Z.mul_1_l, roundHalfEven_one, Z.mul_1_r. reflexivity.
    - rewrite roundHalfEven_one. unfold Qeq. cbn [Qnum Qden inject_Z].
      rewrite Z2Pos.id by (apply Z.pow_pos_nonneg; lia). lia. }
  assert (Hx : ((if (z <? 0)%Z then - v else v) == inject_Z z)%Q).
  { destruct (Z.ltb_spec z 0) as [H|H].
    - rewrite Hv. unfold Qeq, Qopp, inject_Z. cbn [Qnum Qden]. lia.
    - rewrite Hv. unfold Qeq, inject_Z. cbn [Qnum Qden]. lia. }
  rewrite (Qred_complete _ _ Hx). apply Qred_integer.
Qed.

(** Some roundings: 1/10 and 500/3 are no doubles; 2^53 + 1 is half way
    between two doubles and goes to the even one, as 2^53 + 3 does. *)
Lemma fl_examples :
  fl (1 # 10) = (3602879701896397 # 36028797018963968)%Q
  /\ fl (500 # 3) = nearest500over3
  /\ fl (inject_Z (2 ^ 53 + 1)) = inject_Z (2 ^ 53)
  /\ fl (inject_Z (2 ^ 53 + 3)) = inject_Z (2 ^ 53 + 4)
  /\ fl (- (1 # 3)) = (- (6004799503160661 # 18014398509481984))%Q.
Proof. repeat split; vm_compute; reflexivity. Qed.
